From Stdlib Require Import ZArith NArith Lia Bool.
From Stdlib Require Import Strings.Byte.
From Stdlib Require OrderedTypeEx.
From stdpp Require Import prelude strings gmap sorting.

(** * Python results: a value, a raised exception, or an exhausted loop budget *)

Inductive exn := IndexError | KeyError | ValueError | AttributeError.

Inductive result (A : Type) : Type :=
| Ok (a : A)
| Raise (e : exn)
| OutOfFuel.
Arguments Ok {A} a.
Arguments Raise {A} e.
Arguments OutOfFuel {A}.

#[global] Instance result_ret : MRet result := fun A a => Ok a.
#[global] Instance result_bind : MBind result := fun A B f m =>
  match m with
  | Ok a => f a
  | Raise e => Raise e
  | OutOfFuel => OutOfFuel
  end.

Definition returns {A} (m : result A) : Prop := exists a, m = Ok a.
Definition raises {A} (m : result A) : Prop := exists e, m = Raise e.

(** [l[i]] and [l[i] = x] on a Python list: out of range raises IndexError *)
Definition getitem {A} (l : list A) (i : nat) : result A :=
  match l !! i with
  | Some x => Ok x
  | None => Raise IndexError
  end.

Definition setitem {A} (l : list A) (i : nat) (x : A) : result (list A) :=
  if decide (i < length l) then Ok (<[i:=x]> l) else Raise IndexError.

#[global] Instance byte_eq_decision : EqDecision byte := Byte.byte_eq_dec.
#[global] Program Instance byte_countable : Countable byte :=
  inj_countable Byte.to_N Byte.of_N _.
Next Obligation. intros x. apply Byte.of_to_N. Qed.

Set Warnings "-register-all".
Module Huffman.

Notation bits := (list bool) (only parsing).

(** class Node of huffman.py; [None] children are Python's None *)
Inductive node : Type :=
| Node (freq : nat) (symbol : option byte) (left right : option node).

Definition freq (n : node) : nat := match n with Node f _ _ _ => f end.
Definition symbol (n : node) : option byte := match n with Node _ s _ _ => s end.
Definition left (n : node) : option node := match n with Node _ _ l _ => l end.
Definition right (n : node) : option node := match n with Node _ _ _ r => r end.

(** Node.__lt__ *)
Definition node_lt (a b : node) : bool := Nat.ltb (freq a) (freq b).

(** ** heapq (the standard library's binary heap on a list) *)

Fixpoint siftdown_loop (fuel : nat) (heap : list node) (newitem : node)
    (startpos pos : nat) : result (list node) :=
  if decide (startpos < pos) then
    match fuel with
    | O => OutOfFuel
    | S fuel' =>
        let parentpos := (pos - 1) / 2 in
        parent ← getitem heap parentpos;
        if node_lt newitem parent then
          heap' ← setitem heap pos parent;
          siftdown_loop fuel' heap' newitem startpos parentpos
        else setitem heap pos newitem
    end
  else setitem heap pos newitem.

Definition _siftdown (heap : list node) (startpos pos : nat) : result (list node) :=
  newitem ← getitem heap pos;
  siftdown_loop pos heap newitem startpos pos.

Fixpoint siftup_loop (fuel : nat) (heap : list node) (endpos pos : nat)
    : result (list node * nat) :=
  let childpos := 2 * pos + 1 in
  if decide (childpos < endpos) then
    match fuel with
    | O => OutOfFuel
    | S fuel' =>
        let rightpos := childpos + 1 in
        childpos' ←
          (if decide (rightpos < endpos) then
             c ← getitem heap childpos;
             r ← getitem heap rightpos;
             Ok (if negb (node_lt c r) then rightpos else childpos)
           else Ok childpos);
        smaller ← getitem heap childpos';
        heap' ← setitem heap pos smaller;
        siftup_loop fuel' heap' endpos childpos'
    end
  else Ok (heap, pos).

Definition _siftup (heap : list node) (pos : nat) : result (list node) :=
  let endpos := length heap in
  let startpos := pos in
  newitem ← getitem heap pos;
  '(heap', pos') ← siftup_loop endpos heap endpos pos;
  heap'' ← setitem heap' pos' newitem;
  _siftdown heap'' startpos pos'.

Definition heappush (heap : list node) (item : node) : result (list node) :=
  let heap' := heap ++ [item] in
  _siftdown heap' 0 (length heap' - 1).

Definition heappop (heap : list node) : result (node * list node) :=
  match last heap with
  | None => Raise IndexError
  | Some lastelt =>
      let heap' := take (length heap - 1) heap in
      match heap' with
      | [] => Ok (lastelt, heap')
      | returnitem :: _ =>
          heap'' ← setitem heap' 0 lastelt;
          heap''' ← _siftup heap'' 0;
          Ok (returnitem, heap''')
      end
  end.

(** ** class HuffmanTree *)

(** dict(Counter(text)): counts in order of first occurrence *)
Fixpoint counter_incr (d : list (byte * nat)) (c : byte) : list (byte * nat) :=
  match d with
  | [] => [(c, 1)]
  | (k, n) :: d' =>
      if Byte.eqb k c then (k, S n) :: d' else (k, n) :: counter_incr d' c
  end.

Definition _make_frequency_dict (text : list byte) : list (byte * nat) :=
  fold_left counter_incr text [].

Fixpoint make_heap_loop (items : list (byte * nat)) (heap : list node)
    : result (list node) :=
  match items with
  | [] => Ok heap
  | (sym, f) :: items' =>
      heap' ← heappush heap (Node f (Some sym) None None);
      make_heap_loop items' heap'
  end.

Definition _make_heap (frequency : list (byte * nat)) : result (list node) :=
  make_heap_loop frequency [].

Fixpoint merge_loop (fuel : nat) (heap : list node) : result (list node) :=
  if decide (1 < length heap) then
    match fuel with
    | O => OutOfFuel
    | S fuel' =>
        '(node1, heap1) ← heappop heap;
        '(node2, heap2) ← heappop heap1;
        let merged := Node (freq node1 + freq node2) None (Some node1) (Some node2) in
        heap3 ← heappush heap2 merged;
        merge_loop fuel' heap3
    end
  else Ok heap.

Definition _merge_nodes (heap : list node) : result node :=
  heap1 ←
    (if decide (length heap = 1) then
       h0 ← getitem heap 0;
       let new_node :=
         Node (freq h0) None
              (Some (Node 0 (symbol h0) None None))
              (Some (Node 0 None None None)) in
       heap' ← heappush heap new_node;
       '(_, heap'') ← heappop heap';
       Ok heap''
     else Ok heap);
  heap2 ← merge_loop (length heap1) heap1;
  getitem heap2 0.

Definition code_dicts : Type := gmap byte bits * gmap bits byte.

Fixpoint _make_codes_helper (root : node) (current_code : bits)
    (d : code_dicts) : code_dicts :=
  match root with
  | Node _ (Some sym) _ _ =>
      (<[sym := current_code]> (fst d), <[current_code := sym]> (snd d))
  | Node _ None l r =>
      let d1 := match l with
                | Some l' => _make_codes_helper l' (current_code ++ [false]) d
                | None => d
                end in
      match r with
      | Some r' => _make_codes_helper r' (current_code ++ [true]) d1
      | None => d1
      end
  end.

Definition _make_codes (root : node) (d : code_dicts) : code_dicts :=
  _make_codes_helper root [] d.

Fixpoint get_encoded_text_loop (codes : gmap byte bits) (text : list byte)
    (encoded_text : bits) : result bits :=
  match text with
  | [] => Ok encoded_text
  | character :: text' =>
      match codes !! character with
      | Some code => get_encoded_text_loop codes text' (encoded_text ++ code)
      | None => Raise KeyError
      end
  end.

Definition _get_encoded_text (codes : gmap byte bits) (text : list byte) : result bits :=
  get_encoded_text_loop codes text [].

(** bin(n)[2:], str.rjust(width, '0'), format(n, '08b') and int(s, 2) *)
Fixpoint pos_bin (p : positive) : bits :=
  match p with
  | xH => [true]
  | xO p' => pos_bin p' ++ [false]
  | xI p' => pos_bin p' ++ [true]
  end.

Definition bin (n : N) : bits :=
  match n with
  | N0 => [false]
  | Npos p => pos_bin p
  end.

Definition rjust (width : nat) (s : bits) : bits :=
  replicate (width - length s) false ++ s.

Definition format_08b (n : nat) : bits := rjust 8 (bin (N.of_nat n)).

Definition int2 (s : bits) : result N :=
  match s with
  | [] => Raise ValueError
  | _ => Ok (fold_left (fun acc (b : bool) => (2 * acc + (if b then 1 else 0))%N) s 0%N)
  end.

Definition _pad_encoded_text (encoded_text : bits) : bits :=
  let extra_padding := 8 - length encoded_text mod 8 in
  let encoded_text' := encoded_text ++ replicate extra_padding false in
  let padded_info := format_08b extra_padding in
  padded_info ++ encoded_text'.

(** range(0, stop, 8) and the slice s[i:j] *)
Definition range8 (stop : nat) : list nat :=
  map (fun k => 8 * k) (seq 0 ((stop + 7) / 8)).

Definition slice {A} (s : list A) (i j : nat) : list A := take (j - i) (drop i s).

Fixpoint get_byte_array_loop (s : bits) (idx : list nat) (b : list byte)
    : result (list byte) :=
  match idx with
  | [] => Ok b
  | i :: idx' =>
      v ← int2 (slice s i (i + 8));
      match Byte.of_N v with
      | Some x => get_byte_array_loop s idx' (b ++ [x])
      | None => Raise ValueError
      end
  end.

Definition _get_byte_array (padded_encoded_text : bits) : result (list byte) :=
  get_byte_array_loop padded_encoded_text (range8 (length padded_encoded_text)) [].

Definition _remove_padding (padded_encoded_text : bits) : result bits :=
  let padded_info := take 8 padded_encoded_text in
  extra_padding ← int2 padded_info;
  let padded_encoded_text' := drop 8 padded_encoded_text in
  Ok (if decide (0 < N.to_nat extra_padding)
      then take (length padded_encoded_text' - N.to_nat extra_padding) padded_encoded_text'
      else padded_encoded_text').

Fixpoint decode_text_loop (reverse_mapping : gmap bits byte) (encoded_text : bits)
    (current_code : bits) (decoded_text : list byte) : list byte :=
  match encoded_text with
  | [] => decoded_text
  | bit :: rest =>
      let current_code' := current_code ++ [bit] in
      match reverse_mapping !! current_code' with
      | Some sym => decode_text_loop reverse_mapping rest [] (decoded_text ++ [sym])
      | None => decode_text_loop reverse_mapping rest current_code' decoded_text
      end
  end.

Definition _decode_text (reverse_mapping : gmap bits byte) (encoded_text : bits)
    : list byte :=
  decode_text_loop reverse_mapping encoded_text [] [].

(** the fields of a HuffmanTree object; [None] is Python's None *)
Record huffman_tree := HuffmanTree {
  codes : gmap byte bits;
  reverse_mapping : gmap bits byte;
  root : option node;
  freq_dict : option (list (byte * nat))
}.

(** HuffmanTree.__init__ *)
Definition new_tree : huffman_tree := HuffmanTree ∅ ∅ None None.

(** build_tree_from_freq on the object [self]: the two dictionaries are not
    emptied, _make_codes_helper adds the codes of the new tree to the
    entries [self] already holds *)
Definition build_tree_from_freq (self : huffman_tree) (freq_dict : list (byte * nat))
    : result huffman_tree :=
  heap ← _make_heap freq_dict;
  rt ← _merge_nodes heap;
  let d := _make_codes rt (codes self, reverse_mapping self) in
  Ok (HuffmanTree (fst d) (snd d) (Some rt) (Some freq_dict)).

Definition build_tree (self : huffman_tree) (text : list byte) : result huffman_tree :=
  build_tree_from_freq self (_make_frequency_dict text).

(** the compressed file: the pickled freq_dict of the tree, then the bytes *)
Record compressed := Compressed {
  pickled_freq : option (list (byte * nat));
  payload : list byte
}.

(** Encoder.compress; [self] is the HuffmanTree the Encoder created in its
    __init__ and keeps over all its calls, [content] is the input file; the
    result is the output file and the HuffmanTree the Encoder is left with *)
Definition compress (self : huffman_tree) (content : list byte)
    : result (compressed * huffman_tree) :=
  let text := content in
  tree ← build_tree self text;
  encoded_text ← _get_encoded_text (codes tree) text;
  let padded_text := _pad_encoded_text encoded_text in
  bytes_array ← _get_byte_array padded_text;
  Ok (Compressed (freq_dict tree) bytes_array, tree).

Definition byte_bits (b : byte) : bits := rjust 8 (bin (Byte.to_N b)).

Definition read_bit_string (bs : list byte) : bits :=
  fold_left (fun bit_string b => bit_string ++ byte_bits b) bs [].

(** Decoder.decompress; [self] is the HuffmanTree the Decoder created in its
    __init__ and keeps over all its calls; a pickled None has no items() *)
Definition decompress (self : huffman_tree) (file : compressed)
    : result (list byte * huffman_tree) :=
  let bit_string := read_bit_string (payload file) in
  match pickled_freq file with
  | None => Raise AttributeError
  | Some freq_dict =>
      tree ← build_tree_from_freq self freq_dict;
      encoded_text ← _remove_padding bit_string;
      let decompressed_text := _decode_text (reverse_mapping tree) encoded_text in
      Ok (decompressed_text, tree)
  end.

End Huffman.

Module BTree.
Section Defs.
Context {V : Type}.

Inductive node : Type := BTreeNode {
  leaf : bool;
  t_ : nat;
  keys : list string;
  values : list V;
  children : list node
}.

(** f(children[i]) *)
Definition at_child {A} (f : node -> result A) : list node -> nat -> result A :=
  fix go (cs : list node) (i : nat) {struct cs} : result A :=
    match cs, i with
    | [], _ => Raise IndexError
    | c :: _, O => f c
    | _ :: cs', S i' => go cs' i'
    end.

(** list.insert(i, x): an index past the end appends *)
Definition list_insert_at {A} (i : nat) (x : A) (l : list A) : list A :=
  take i l ++ x :: drop i l.

(** list.pop(i) and list.pop() *)
Definition pop_at {A} (l : list A) (i : nat) : result (A * list A) :=
  match l !! i with
  | Some x => Ok (x, delete i l)
  | None => Raise IndexError
  end.

Definition pop_last {A} (l : list A) : result (A * list A) :=
  match last l with
  | Some x => Ok (x, take (length l - 1) l)
  | None => Raise IndexError
  end.

Definition is_full (n : node) : bool := length (keys n) =? 2 * t_ n - 1.

(** i = 0; while i < len(ks) and key > ks[i]: i += 1 *)
Fixpoint first_ge (ks : list string) (key : string) : nat :=
  match ks with
  | [] => 0
  | k :: ks' => if String.ltb k key then S (first_ge ks' key) else 0
  end.

(** i = i1 - 1; while i >= 0 and key < ks[i]: i -= 1; the result is i + 1 *)
Fixpoint last_le (ks : list string) (key : string) (i1 : nat) : result nat :=
  match i1 with
  | O => Ok 0
  | S i =>
      k ← getitem ks i;
      if String.ltb key k then last_le ks key i else Ok (S i)
  end.

Fixpoint _search (n : node) (key : string) : result (option (node * nat)) :=
  match n with
  | BTreeNode lf _ ks _ cs =>
      let i := first_ge ks key in
      if match ks !! i with Some k => String.eqb key k | None => false end
      then Ok (Some (n, i))
      else if lf then Ok None
      else at_child (fun c => _search c key) cs i
  end.

Fixpoint _inorder_traversal (n : node) (out : list (string * V))
    : result (list (string * V)) :=
  match n with
  | BTreeNode lf _ ks vs cs =>
      out1 ← (fix loop (idx : list nat) (out : list (string * V)) :=
         match idx with
         | [] => Ok out
         | i :: idx' =>
             out' ← (if lf then Ok out
                     else at_child (fun c => _inorder_traversal c out) cs i);
             k ← getitem ks i;
             v ← getitem vs i;
             loop idx' (out' ++ [(k, v)])
         end) (seq 0 (length ks)) out;
      if negb lf && negb (match cs with [] => true | _ => false end)
      then at_child (fun c => _inorder_traversal c out1) cs (length cs - 1)
      else Ok out1
  end.

Definition get_all (root : node) : result (list (string * V)) :=
  _inorder_traversal root [].

Definition _split_child (t : nat) (parent : node) (index : nat) : result node :=
  child ← getitem (children parent) index;
  if length (keys child) <? t then Ok parent
  else
    middle_key ← getitem (keys child) (t - 1);
    middle_value ← getitem (values child) (t - 1);
    let new_node :=
      BTreeNode (leaf child) t (drop t (keys child)) (drop t (values child))
                (if leaf child then [] else drop t (children child)) in
    let child' :=
      BTreeNode (leaf child) (t_ child) (take (t - 1) (keys child))
                (take (t - 1) (values child))
                (if leaf child then children child else take t (children child)) in
    Ok (BTreeNode (leaf parent) (t_ parent)
          (list_insert_at index middle_key (keys parent))
          (list_insert_at index middle_value (values parent))
          (list_insert_at (index + 1) new_node (<[index := child']> (children parent)))).

Fixpoint _insert_non_full (fuel : nat) (t : nat) (n : node) (key : string) (value : V)
    : result node :=
  match fuel with
  | O => OutOfFuel
  | S fuel' =>
      i1 ← last_le (keys n) key (length (keys n));
      if leaf n then
        Ok (BTreeNode (leaf n) (t_ n) (list_insert_at i1 key (keys n))
              (list_insert_at i1 value (values n)) (children n))
      else
        c ← getitem (children n) i1;
        '(n1, i) ←
          (if is_full c then
             n1 ← _split_child t n i1;
             k ← getitem (keys n1) i1;
             Ok (n1, if String.ltb k key then i1 + 1 else i1)
           else Ok (n, i1));
        c1 ← getitem (children n1) i;
        c2 ← _insert_non_full fuel' t c1 key value;
        Ok (BTreeNode (leaf n1) (t_ n1) (keys n1) (values n1) (<[i := c2]> (children n1)))
  end.

Fixpoint height (n : node) : nat :=
  match n with
  | BTreeNode _ _ _ _ cs => S (foldr (fun c h => max (height c) h) 0 cs)
  end.

Record btree := BTree { root : node; t : nat }.

(** BTree.__init__ *)
Definition new (t0 : nat) : btree := BTree (BTreeNode true (max 2 t0) [] [] []) (max 2 t0).

Definition insert (tr : btree) (key : string) (value : V) : result btree :=
  rt ← (if is_full (root tr) then
          _split_child (t tr) (BTreeNode false (t tr) [] [] [root tr]) 0
        else Ok (root tr));
  rt' ← _insert_non_full (height rt) (t tr) rt key value;
  Ok (BTree rt' (t tr)).

Fixpoint _get_predecessor_leaf (current : node) : result node :=
  match current with
  | BTreeNode lf _ _ _ cs =>
      if lf then Ok current else at_child _get_predecessor_leaf cs (length cs - 1)
  end.

Fixpoint _get_successor_leaf (current : node) : result node :=
  match current with
  | BTreeNode lf _ _ _ cs =>
      if lf then Ok current else at_child _get_successor_leaf cs 0
  end.

Definition _get_predecessor (n : node) (index : nat) : result (node * nat) :=
  c ← getitem (children n) index;
  lf ← _get_predecessor_leaf c;
  Ok (lf, length (keys lf) - 1).

Definition _get_successor (n : node) (index : nat) : result (node * nat) :=
  c ← getitem (children n) (index + 1);
  lf ← _get_successor_leaf c;
  Ok (lf, 0).

Definition _borrow_from_left (n : node) (index : nat) : result node :=
  child ← getitem (children n) index;
  left_sibling ← getitem (children n) (index - 1);
  pk ← getitem (keys n) (index - 1);
  pv ← getitem (values n) (index - 1);
  '(sk, lkeys) ← pop_last (keys left_sibling);
  '(sv, lvalues) ← pop_last (values left_sibling);
  '(child_children, lchildren) ←
    (if negb (leaf child) then
       '(sc, lchildren) ← pop_last (children left_sibling);
       Ok (sc :: children child, lchildren)
     else Ok (children child, children left_sibling));
  let child' := BTreeNode (leaf child) (t_ child) (pk :: keys child)
                  (pv :: values child) child_children in
  let left' := BTreeNode (leaf left_sibling) (t_ left_sibling) lkeys lvalues lchildren in
  nkeys ← setitem (keys n) (index - 1) sk;
  nvalues ← setitem (values n) (index - 1) sv;
  Ok (BTreeNode (leaf n) (t_ n) nkeys nvalues
        (<[index - 1 := left']> (<[index := child']> (children n)))).

Definition _borrow_from_right (n : node) (index : nat) : result node :=
  child ← getitem (children n) index;
  right_sibling ← getitem (children n) (index + 1);
  pk ← getitem (keys n) index;
  pv ← getitem (values n) index;
  '(sk, rkeys) ← pop_at (keys right_sibling) 0;
  '(sv, rvalues) ← pop_at (values right_sibling) 0;
  '(child_children, rchildren) ←
    (if negb (leaf right_sibling) then
       '(sc, rchildren) ← pop_at (children right_sibling) 0;
       Ok (children child ++ [sc], rchildren)
     else Ok (children child, children right_sibling));
  let child' := BTreeNode (leaf child) (t_ child) (keys child ++ [pk])
                  (values child ++ [pv]) child_children in
  let right' := BTreeNode (leaf right_sibling) (t_ right_sibling) rkeys rvalues rchildren in
  nkeys ← setitem (keys n) index sk;
  nvalues ← setitem (values n) index sv;
  Ok (BTreeNode (leaf n) (t_ n) nkeys nvalues
        (<[index + 1 := right']> (<[index := child']> (children n)))).

Definition _merge_nodes (n : node) (index : nat) : result node :=
  left_child ← getitem (children n) index;
  right_child ← getitem (children n) (index + 1);
  pk ← getitem (keys n) index;
  pv ← getitem (values n) index;
  '(_, nkeys) ← pop_at (keys n) index;
  '(_, nvalues) ← pop_at (values n) index;
  let left' :=
    BTreeNode (leaf left_child) (t_ left_child)
      (keys left_child ++ [pk] ++ keys right_child)
      (values left_child ++ [pv] ++ values right_child)
      (if negb (leaf left_child) then children left_child ++ children right_child
       else children left_child) in
  '(_, nchildren) ← pop_at (<[index := left']> (children n)) (index + 1);
  Ok (BTreeNode (leaf n) (t_ n) nkeys nvalues nchildren).

(** _ensure_child_has_enough_keys_and_delete, up to its recursive call: the
    node after the borrow or merge, and the index to descend into *)
Definition _ensure_child_has_enough_keys (t : nat) (n : node) (index : nat)
    : result (node * nat) :=
  c ← getitem (children n) index;
  if length (keys c) =? t - 1 then
    borrow_left ←
      (if 0 <? index then
         ls ← getitem (children n) (index - 1);
         Ok (t <=? length (keys ls))
       else Ok false);
    if borrow_left : bool then
      n1 ← _borrow_from_left n index; Ok (n1, index)
    else
      borrow_right ←
        (if index <? length (children n) - 1 then
           rs ← getitem (children n) (index + 1);
           Ok (t <=? length (keys rs))
         else Ok false);
      if borrow_right : bool then
        n1 ← _borrow_from_right n index; Ok (n1, index)
      else if index =? length (children n) - 1 then
        n1 ← _merge_nodes n (index - 1); Ok (n1, index - 1)
      else
        n1 ← _merge_nodes n index; Ok (n1, index)
  else Ok (n, index).

Definition with_child (n : node) (i : nat) (r : node * bool) : node * bool :=
  (BTreeNode (leaf n) (t_ n) (keys n) (values n) (<[i := r.1]> (children n)), r.2).

Fixpoint _delete (fuel : nat) (t : nat) (n : node) (key : string) : result (node * bool) :=
  match fuel with
  | O => OutOfFuel
  | S fuel' =>
      let i := first_ge (keys n) key in
      if match keys n !! i with Some k => String.eqb k key | None => false end then
        if leaf n then
          '(_, ks) ← pop_at (keys n) i;
          '(_, vs) ← pop_at (values n) i;
          Ok (BTreeNode (leaf n) (t_ n) ks vs (children n), true)
        else
          (* _delete_internal_node(node, key, i) *)
          let index := i in
          lc ← getitem (children n) index;
          if t <=? length (keys lc) then
            '(predecessor, pred_index) ← _get_predecessor n index;
            pk ← getitem (keys predecessor) pred_index;
            ks ← setitem (keys n) index pk;
            pv ← getitem (values predecessor) pred_index;
            vs ← setitem (values n) index pv;
            let n1 := BTreeNode (leaf n) (t_ n) ks vs (children n) in
            c ← getitem (children n1) index;
            k ← getitem (keys n1) index;
            r ← _delete fuel' t c k;
            Ok (with_child n1 index r)
          else
            rc ← getitem (children n) (index + 1);
            if t <=? length (keys rc) then
              '(successor, succ_index) ← _get_successor n index;
              sk ← getitem (keys successor) succ_index;
              ks ← setitem (keys n) index sk;
              sv ← getitem (values successor) succ_index;
              vs ← setitem (values n) index sv;
              let n1 := BTreeNode (leaf n) (t_ n) ks vs (children n) in
              c ← getitem (children n1) (index + 1);
              k ← getitem (keys n1) index;
              r ← _delete fuel' t c k;
              Ok (with_child n1 (index + 1) r)
            else
              n1 ← _merge_nodes n index;
              c ← getitem (children n1) index;
              r ← _delete fuel' t c key;
              Ok (with_child n1 index r)
      else
        if leaf n then Ok (n, false)
        else
          (* _ensure_child_has_enough_keys_and_delete(node, key, i) *)
          '(n1, index1) ← _ensure_child_has_enough_keys t n i;
          c1 ← getitem (children n1) index1;
          r ← _delete fuel' t c1 key;
          Ok (with_child n1 index1 r)
  end.

Definition delete (tr : btree) (key : string) : result (btree * bool) :=
  match keys (root tr) with
  | [] => Ok (tr, false)
  | _ =>
      '(rt, deleted) ← _delete (height (root tr)) (t tr) (root tr) key;
      rt' ← (if match keys rt with [] => true | _ => false end && negb (leaf rt)
             then getitem (children rt) 0 else Ok rt);
      Ok (BTree rt' (t tr), deleted)
  end.

Fixpoint _range_search (n : node) (start_key end_key : string)
    (out : list (string * V)) : result (list (string * V)) :=
  match n with
  | BTreeNode lf _ ks vs cs =>
      let i0 := first_ge ks start_key in
      '(i, out1) ←
        (fix loop (rest : list string) (i : nat) (out : list (string * V)) :=
           match rest with
           | [] => Ok (i, out)
           | k :: rest' =>
               if String.leb k end_key then
                 out' ← (if lf then Ok out
                         else at_child (fun c => _range_search c start_key end_key out) cs i);
                 v ← getitem vs i;
                 loop rest' (S i) (out' ++ [(k, v)])
               else Ok (i, out)
           end) (drop i0 ks) i0 out;
      if negb lf && (i <? length cs)
      then at_child (fun c => _range_search c start_key end_key out1) cs i
      else Ok out1
  end.

Definition range_search (tr : btree) (start_key end_key : string)
    : result (list (string * V)) :=
  _range_search (root tr) start_key end_key [].

(** BTree.search; [None] is the pair (None, -1) of the source *)
Definition search (tr : btree) (key : string) : result (option (node * nat)) :=
  _search (root tr) key.

End Defs.
Arguments node : clear implicits.
Arguments btree : clear implicits.
End BTree.
Module RBT.
Section Defs.
Context {V : Type} (no_metadata : V).

Inductive color := RED | BLACK.

#[global] Instance color_eq_dec : EqDecision color.
Proof. solve_decision. Defined.

(** a reference: [None] is Python's None, [Some l] the object at location [l] *)
Notation ref := (option nat) (only parsing).

(** class Node of red_black_tree.py *)
Record node := Node {
  filename : string;
  metadata : V;
  color_of : color;
  left : ref;
  right : ref;
  parent : ref
}.

(** a RedBlackTree object together with the Node objects created so far:
    [heap] holds the objects by location, [next] is the next free location;
    the sentinel self.NIL is the object at location 0 *)
Record rbt := RedBlackTree {
  heap : gmap nat node;
  root : ref;
  next : nat
}.

Definition NIL : ref := Some 0.

(** methods read and write the object store and may raise *)
Definition M (A : Type) : Type := rbt -> result (A * rbt).

#[global] Instance M_ret : MRet M := fun A a st => Ok (a, st).
#[global] Instance M_bind : MBind M := fun A B k m st =>
  match m st with
  | Ok (a, st') => k a st'
  | Raise e => Raise e
  | OutOfFuel => OutOfFuel
  end.

Definition out_of_fuel {A} : M A := fun _ => OutOfFuel.

(** attribute access [r.f]: on None it raises AttributeError *)
Definition deref (r : ref) : M node := fun st =>
  match r with
  | Some l =>
      match heap st !! l with
      | Some n => Ok (n, st)
      | None => Raise AttributeError
      end
  | None => Raise AttributeError
  end.

(** attribute assignment [r.f = v] *)
Definition update (r : ref) (f : node -> node) : M unit := fun st =>
  match r with
  | Some l =>
      match heap st !! l with
      | Some n => Ok (tt, RedBlackTree (<[l := f n]> (heap st)) (root st) (next st))
      | None => Raise AttributeError
      end
  | None => Raise AttributeError
  end.

Definition get_filename (r : ref) : M string := n ← deref r; mret (filename n).
Definition get_metadata (r : ref) : M V := n ← deref r; mret (metadata n).
Definition get_color (r : ref) : M color := n ← deref r; mret (color_of n).
Definition get_left (r : ref) : M ref := n ← deref r; mret (left n).
Definition get_right (r : ref) : M ref := n ← deref r; mret (right n).
Definition get_parent (r : ref) : M ref := n ← deref r; mret (parent n).

Definition with_color (c : color) (n : node) : node :=
  Node (filename n) (metadata n) c (left n) (right n) (parent n).
Definition with_left (v : ref) (n : node) : node :=
  Node (filename n) (metadata n) (color_of n) v (right n) (parent n).
Definition with_right (v : ref) (n : node) : node :=
  Node (filename n) (metadata n) (color_of n) (left n) v (parent n).
Definition with_parent (v : ref) (n : node) : node :=
  Node (filename n) (metadata n) (color_of n) (left n) (right n) v.

Definition set_color (r : ref) (c : color) : M unit := update r (with_color c).
Definition set_left (r v : ref) : M unit := update r (with_left v).
Definition set_right (r v : ref) : M unit := update r (with_right v).
Definition set_parent (r v : ref) : M unit := update r (with_parent v).

Definition get_root : M ref := fun st => Ok (root st, st).
Definition set_root (r : ref) : M unit := fun st =>
  Ok (tt, RedBlackTree (heap st) r (next st)).

(** Node(filename, metadata): a fresh RED object whose links are None *)
Definition new_Node (filename : string) (metadata : V) : M ref := fun st =>
  Ok (Some (next st),
      RedBlackTree (<[next st := Node filename metadata RED None None None]> (heap st))
                   (root st) (S (next st))).

(** RedBlackTree(): the sentinel Node(None) is BLACK with links None and the
    metadata [{}]; its filename, Python's None, is never read (every read of a
    filename is guarded by a comparison with self.NIL) *)
Definition new : rbt :=
  RedBlackTree {[ 0 := Node String.EmptyString no_metadata BLACK None None None ]} NIL 1.

Definition _left_rotate (x : ref) : M unit :=
  y ← get_right x;
  yl ← get_left y;
  set_right x yl;;
  yl ← get_left y;
  (if bool_decide (yl <> NIL) then yl ← get_left y; set_parent yl x else mret tt);;
  xp ← get_parent x;
  set_parent y xp;;
  xp ← get_parent x;
  (if bool_decide (xp = NIL) then set_root y
   else
     xp ← get_parent x;
     xpl ← get_left xp;
     if bool_decide (x = xpl) then xp ← get_parent x; set_left xp y
     else xp ← get_parent x; set_right xp y);;
  set_left y x;;
  set_parent x y.

Definition _right_rotate (x : ref) : M unit :=
  y ← get_left x;
  yr ← get_right y;
  set_left x yr;;
  yr ← get_right y;
  (if bool_decide (yr <> NIL) then yr ← get_right y; set_parent yr x else mret tt);;
  xp ← get_parent x;
  set_parent y xp;;
  xp ← get_parent x;
  (if bool_decide (xp = NIL) then set_root y
   else
     xp ← get_parent x;
     xpr ← get_right xp;
     if bool_decide (x = xpr) then xp ← get_parent x; set_right xp y
     else xp ← get_parent x; set_left xp y);;
  set_right y x;;
  set_parent x y.

(** the loop of _fix_insert; [fuel] bounds the number of iterations *)
Fixpoint fix_insert_loop (fuel : nat) (k : ref) : M unit :=
  rt ← get_root;
  cond ← (if bool_decide (k <> rt) then
            kp ← get_parent k; c ← get_color kp; mret (bool_decide (c = RED))
          else mret false);
  if cond : bool then
    match fuel with
    | 0 => out_of_fuel
    | S fuel =>
        kp ← get_parent k; kpp ← get_parent kp; kppr ← get_right kpp;
        if bool_decide (kp = kppr) then
          kp ← get_parent k; kpp ← get_parent kp; u ← get_left kpp;
          uc ← get_color u;
          if bool_decide (uc = RED) then
            set_color u BLACK;;
            (kp ← get_parent k; set_color kp BLACK);;
            (kp ← get_parent k; kpp ← get_parent kp; set_color kpp RED);;
            kp ← get_parent k; kpp ← get_parent kp;
            fix_insert_loop fuel kpp
          else
            kp ← get_parent k; kpl ← get_left kp;
            k ← (if bool_decide (k = kpl) then
                   k ← get_parent k; _right_rotate k;; mret k
                 else mret k);
            (kp ← get_parent k; set_color kp BLACK);;
            (kp ← get_parent k; kpp ← get_parent kp; set_color kpp RED);;
            (kp ← get_parent k; kpp ← get_parent kp; _left_rotate kpp);;
            fix_insert_loop fuel k
        else
          kp ← get_parent k; kpp ← get_parent kp; u ← get_right kpp;
          uc ← get_color u;
          if bool_decide (uc = RED) then
            set_color u BLACK;;
            (kp ← get_parent k; set_color kp BLACK);;
            (kp ← get_parent k; kpp ← get_parent kp; set_color kpp RED);;
            kp ← get_parent k; kpp ← get_parent kp;
            fix_insert_loop fuel kpp
          else
            kp ← get_parent k; kpr ← get_right kp;
            k ← (if bool_decide (k = kpr) then
                   k ← get_parent k; _left_rotate k;; mret k
                 else mret k);
            (kp ← get_parent k; set_color kp BLACK);;
            (kp ← get_parent k; kpp ← get_parent kp; set_color kpp RED);;
            (kp ← get_parent k; kpp ← get_parent kp; _right_rotate kpp);;
            fix_insert_loop fuel k
    end
  else mret tt.

Definition _fix_insert (fuel : nat) (k : ref) : M unit :=
  fix_insert_loop fuel k;;
  rt ← get_root; set_color rt BLACK.

(** the descent of insert: [while x != self.NIL]; returns the final [y] *)
Fixpoint insert_loop (fuel : nat) (new_node y x : ref) : M ref :=
  if bool_decide (x <> NIL) then
    match fuel with
    | 0 => out_of_fuel
    | S fuel =>
        nk ← get_filename new_node; xk ← get_filename x;
        if String.ltb nk xk then xl ← get_left x; insert_loop fuel new_node x xl
        else xr ← get_right x; insert_loop fuel new_node x xr
    end
  else mret y.

(** the loops of the source have no bound; the number of objects created so
    far is one, and is the budget every loop is run with *)
Definition with_fuel {A} (f : nat -> M A) : M A := fun st => f (next st) st.

(** insert, with the metadata dictionary already created *)
Definition insert_fuel (fuel : nat) (filename : string) (metadata : V) : M ref :=
  new_node ← new_Node filename metadata;
  set_left new_node NIL;;
  set_right new_node NIL;;
  rt ← get_root;
  y ← insert_loop fuel new_node NIL rt;
  set_parent new_node y;;
  (if bool_decide (y = NIL) then set_root new_node
   else
     nk ← get_filename new_node; yk ← get_filename y;
     if String.ltb nk yk then set_left y new_node else set_right y new_node);;
  _fix_insert fuel new_node;;
  mret new_node.

Definition insert (filename : string) (metadata : V) : M ref :=
  with_fuel (fun fuel => insert_fuel fuel filename metadata).

Fixpoint _search_helper (fuel : nat) (node : ref) (filename : string) : M ref :=
  if bool_decide (node = NIL) then mret None
  else
    match fuel with
    | 0 => out_of_fuel
    | S fuel =>
        nk ← get_filename node;
        if String.eqb filename nk then mret node
        else
          nk ← get_filename node;
          if String.ltb filename nk then
            nl ← get_left node; _search_helper fuel nl filename
          else
            nr ← get_right node; _search_helper fuel nr filename
    end.

Definition search (filename : string) : M ref :=
  with_fuel (fun fuel => rt ← get_root; _search_helper fuel rt filename).

Definition _transplant (u v : ref) : M unit :=
  up ← get_parent u;
  (if bool_decide (up = NIL) then set_root v
   else
     up ← get_parent u; upl ← get_left up;
     if bool_decide (u = upl) then up ← get_parent u; set_left up v
     else up ← get_parent u; set_right up v);;
  up ← get_parent u;
  set_parent v up.

Fixpoint _minimum (fuel : nat) (x : ref) : M ref :=
  xl ← get_left x;
  if bool_decide (xl <> NIL) then
    match fuel with
    | 0 => out_of_fuel
    | S fuel => xl ← get_left x; _minimum fuel xl
    end
  else mret x.

(** the loop of _fix_delete; returns the final [x] *)
Fixpoint fix_delete_loop (fuel : nat) (x : ref) : M ref :=
  rt ← get_root;
  cond ← (if bool_decide (x <> rt) then
            c ← get_color x; mret (bool_decide (c = BLACK))
          else mret false);
  if cond : bool then
    match fuel with
    | 0 => out_of_fuel
    | S fuel =>
        xp ← get_parent x; xpl ← get_left xp;
        if bool_decide (x = xpl) then
          xp ← get_parent x; w ← get_right xp;
          wc ← get_color w;
          w ← (if bool_decide (wc = RED) then
                 set_color w BLACK;;
                 (xp ← get_parent x; set_color xp RED);;
                 (xp ← get_parent x; _left_rotate xp);;
                 xp ← get_parent x; get_right xp
               else mret w);
          wl ← get_left w; wlc ← get_color wl;
          both ← (if bool_decide (wlc = BLACK) then
                    wr ← get_right w; wrc ← get_color wr;
                    mret (bool_decide (wrc = BLACK))
                  else mret false);
          if both : bool then
            set_color w RED;;
            xp ← get_parent x;
            fix_delete_loop fuel xp
          else
            wr ← get_right w; wrc ← get_color wr;
            w ← (if bool_decide (wrc = BLACK) then
                   (wl ← get_left w; set_color wl BLACK);;
                   set_color w RED;;
                   _right_rotate w;;
                   xp ← get_parent x; get_right xp
                 else mret w);
            (xp ← get_parent x; c ← get_color xp; set_color w c);;
            (xp ← get_parent x; set_color xp BLACK);;
            (wr ← get_right w; set_color wr BLACK);;
            (xp ← get_parent x; _left_rotate xp);;
            rt ← get_root;
            fix_delete_loop fuel rt
        else
          xp ← get_parent x; w ← get_left xp;
          wc ← get_color w;
          w ← (if bool_decide (wc = RED) then
                 set_color w BLACK;;
                 (xp ← get_parent x; set_color xp RED);;
                 (xp ← get_parent x; _right_rotate xp);;
                 xp ← get_parent x; get_left xp
               else mret w);
          wr ← get_right w; wrc ← get_color wr;
          both ← (if bool_decide (wrc = BLACK) then
                    wl ← get_left w; wlc ← get_color wl;
                    mret (bool_decide (wlc = BLACK))
                  else mret false);
          if both : bool then
            set_color w RED;;
            xp ← get_parent x;
            fix_delete_loop fuel xp
          else
            wl ← get_left w; wlc ← get_color wl;
            w ← (if bool_decide (wlc = BLACK) then
                   (wr ← get_right w; set_color wr BLACK);;
                   set_color w RED;;
                   _left_rotate w;;
                   xp ← get_parent x; get_left xp
                 else mret w);
            (xp ← get_parent x; c ← get_color xp; set_color w c);;
            (xp ← get_parent x; set_color xp BLACK);;
            (wl ← get_left w; set_color wl BLACK);;
            (xp ← get_parent x; _right_rotate xp);;
            rt ← get_root;
            fix_delete_loop fuel rt
    end
  else mret x.

Definition _fix_delete (fuel : nat) (x : ref) : M unit :=
  x ← fix_delete_loop fuel x;
  set_color x BLACK.

Definition _delete_node (fuel : nat) (z : ref) : M unit :=
  let y := z in
  y_original_color ← get_color y;
  zl ← get_left z;
  '(y_original_color, x) ←
    (if bool_decide (zl = NIL) then
       x ← get_right z;
       (zr ← get_right z; _transplant z zr);;
       mret (y_original_color, x)
     else
       zr ← get_right z;
       if bool_decide (zr = NIL) then
         x ← get_left z;
         (zl ← get_left z; _transplant z zl);;
         mret (y_original_color, x)
       else
         zr ← get_right z;
         y ← _minimum fuel zr;
         y_original_color ← get_color y;
         x ← get_right y;
         yp ← get_parent y;
         (if bool_decide (yp = z) then set_parent x y
          else
            (yr ← get_right y; _transplant y yr);;
            (zr ← get_right z; set_right y zr);;
            (yr ← get_right y; set_parent yr y));;
         _transplant z y;;
         (zl ← get_left z; set_left y zl);;
         (yl ← get_left y; set_parent yl y);;
         (zc ← get_color z; set_color y zc);;
         mret (y_original_color, x));
  if bool_decide (y_original_color = BLACK) then _fix_delete fuel x
  else mret tt.

Definition delete (filename : string) : M bool :=
  node ← search filename;
  if bool_decide (node <> None) then
    with_fuel (fun fuel => _delete_node fuel node);;
    mret true
  else mret false.

(** _inorder_traversal appends to the list [files] it is given *)
Fixpoint _inorder_traversal (fuel : nat) (node : ref) (files : list (string * V))
  : M (list (string * V)) :=
  if bool_decide (node <> NIL) then
    match fuel with
    | 0 => out_of_fuel
    | S fuel =>
        nl ← get_left node;
        files ← _inorder_traversal fuel nl files;
        k ← get_filename node; m ← get_metadata node;
        nr ← get_right node;
        _inorder_traversal fuel nr (files ++ [(k, m)])
    end
  else mret files.

Definition get_all_files : M (list (string * V)) :=
  with_fuel (fun fuel => rt ← get_root; _inorder_traversal fuel rt []).

End Defs.

Arguments node : clear implicits.
Arguments rbt : clear implicits.
Arguments M : clear implicits.
End RBT.

Module HuffmanHeap.
Import Huffman.

#[local] Arguments getitem : simpl never.
#[local] Arguments setitem : simpl never.
#[local] Arguments Nat.div : simpl never.
#[local] Arguments Nat.modulo : simpl never.

Lemma getitem_Ok {A} (l : list A) i x : l !! i = Some x -> getitem l i = Ok x.
Proof. unfold getitem. by intros ->. Qed.

Lemma setitem_Ok {A} (l : list A) i x : i < length l -> setitem l i x = Ok (<[i:=x]> l).
Proof. unfold setitem. intros. by rewrite decide_True. Qed.

Lemma half_lt pos : 0 < pos -> (pos - 1) / 2 < pos.
Proof.
  intros. assert ((pos - 1) / 2 <= pos - 1) by (apply Nat.Div0.div_le_upper_bound; lia).
  lia.
Qed.

Lemma siftdown_loop_perm fuel : forall heap newitem startpos pos,
  pos <= fuel -> pos < length heap ->
  exists heap', siftdown_loop fuel heap newitem startpos pos = Ok heap'
                /\ heap' ≡ₚ <[pos:=newitem]> heap.
Proof.
  induction fuel as [|fuel IH]; intros heap newitem startpos pos Hf Hlen; simpl.
  - rewrite decide_False by lia. rewrite setitem_Ok by done. eauto.
  - destruct (decide (startpos < pos)) as [Hlt|]; [|rewrite setitem_Ok by done; eauto].
    pose proof (half_lt pos ltac:(lia)) as Hh.
    destruct (lookup_lt_is_Some_2 heap ((pos - 1) / 2) ltac:(lia)) as [parent Hp].
    rewrite (getitem_Ok _ _ _ Hp). simpl.
    destruct (node_lt newitem parent); [|rewrite setitem_Ok by done; eauto].
    rewrite setitem_Ok by done. simpl.
    destruct (IH (<[pos:=parent]> heap) newitem startpos ((pos - 1) / 2))
      as (heap' & -> & Hperm); [lia|rewrite length_insert; lia|].
    exists heap'. split; [done|]. rewrite Hperm.
    rewrite <- (list_insert_insert_eq heap pos parent newitem).
    apply Permutation_insert_swap.
    + by apply list_lookup_insert_eq.
    + rewrite list_lookup_insert_ne by lia. done.
Qed.

Lemma siftdown_perm heap startpos pos :
  pos < length heap ->
  exists heap', _siftdown heap startpos pos = Ok heap' /\ heap' ≡ₚ heap.
Proof.
  intros Hlen. unfold _siftdown.
  destruct (lookup_lt_is_Some_2 heap pos Hlen) as [x Hx].
  rewrite (getitem_Ok _ _ _ Hx). simpl.
  destruct (siftdown_loop_perm pos heap x startpos pos) as (heap' & -> & Hp); [lia|done|].
  exists heap'. split; [done|]. by rewrite Hp, list_insert_id.
Qed.

Lemma siftup_loop_perm fuel : forall heap endpos pos,
  endpos = length heap -> pos < endpos -> endpos - pos <= fuel ->
  exists heap' pos', siftup_loop fuel heap endpos pos = Ok (heap', pos')
    /\ length heap' = length heap /\ pos' < length heap
    /\ forall x, <[pos':=x]> heap' ≡ₚ <[pos:=x]> heap.
Proof.
  induction fuel as [|fuel IH]; intros heap endpos pos -> Hpos Hf; simpl.
  - rewrite decide_False by lia. eauto 10.
  - destruct (decide (pos + (pos + 0) + 1 < length heap)) as [Hc|]; [|eauto 10].
    assert (exists cp, pos < cp /\ cp < length heap /\
       (if decide (pos + (pos + 0) + 1 + 1 < length heap)
        then c ← getitem heap (pos + (pos + 0) + 1);
             r ← getitem heap (pos + (pos + 0) + 1 + 1);
             Ok (if negb (node_lt c r) then pos + (pos + 0) + 1 + 1 else pos + (pos + 0) + 1)
        else Ok (pos + (pos + 0) + 1)) = Ok cp) as (cp & Hcp1 & Hcp2 & ->).
    { destruct (decide (pos + (pos + 0) + 1 + 1 < length heap)) as [Hr|].
      - destruct (lookup_lt_is_Some_2 heap _ Hc) as [c Hc'].
        destruct (lookup_lt_is_Some_2 heap _ Hr) as [r Hr'].
        rewrite (getitem_Ok _ _ _ Hc'), (getitem_Ok _ _ _ Hr'). simpl.
        destruct (negb (node_lt c r)); eexists; (split; [|split; [|done]]); lia.
      - eexists; (split; [|split; [|done]]); lia. }
    simpl.
    destruct (lookup_lt_is_Some_2 heap cp Hcp2) as [sm Hsm].
    rewrite (getitem_Ok _ _ _ Hsm). simpl.
    rewrite setitem_Ok by lia. simpl.
    destruct (IH (<[pos:=sm]> heap) (length heap) cp)
      as (heap' & pos' & -> & Hl & Hp' & Hperm);
      [by rewrite length_insert|lia|lia|].
    rewrite length_insert in Hl, Hp'.
    exists heap', pos'. repeat split; try done.
    intros x. rewrite Hperm.
    rewrite <- (list_insert_insert_eq heap pos sm x).
    apply Permutation_insert_swap.
    + by apply list_lookup_insert_eq.
    + rewrite list_lookup_insert_ne by lia. done.
Qed.

Lemma siftup_perm heap pos :
  pos < length heap ->
  exists heap', _siftup heap pos = Ok heap' /\ heap' ≡ₚ heap.
Proof.
  intros Hlen. unfold _siftup.
  destruct (lookup_lt_is_Some_2 heap pos Hlen) as [x Hx].
  rewrite (getitem_Ok _ _ _ Hx). simpl.
  destruct (siftup_loop_perm (length heap) heap (length heap) pos)
    as (heap' & pos' & -> & Hl & Hp' & Hperm); [done|lia|lia|].
  simpl. rewrite setitem_Ok by lia. simpl.
  destruct (siftdown_perm (<[pos':=x]> heap') pos pos') as (h & -> & Hh).
  { rewrite length_insert. lia. }
  exists h. split; [done|]. by rewrite Hh, Hperm, list_insert_id.
Qed.

Lemma heappush_perm heap item :
  exists heap', heappush heap item = Ok heap' /\ heap' ≡ₚ item :: heap.
Proof.
  unfold heappush.
  destruct (siftdown_perm (heap ++ [item]) 0 (length (heap ++ [item]) - 1))
    as (h & -> & Hh).
  { rewrite length_app. simpl. lia. }
  exists h. split; [done|]. rewrite Hh. by rewrite Permutation_app_comm.
Qed.

Lemma heappop_perm heap :
  heap <> [] ->
  exists x heap', heappop heap = Ok (x, heap') /\ heap ≡ₚ x :: heap'.
Proof.
  intros Hne. unfold heappop.
  destruct (last heap) as [lastelt|] eqn:Hlast; [|by apply last_None in Hlast].
  apply last_Some in Hlast as [l' ->].
  rewrite length_app. simpl. replace (length l' + 1 - 1) with (length l') by lia.
  rewrite take_app_length.
  destruct l' as [|r t]; [eauto|].
  rewrite setitem_Ok by (simpl; lia). simpl.
  destruct (siftup_perm (lastelt :: t) 0) as (h & -> & Hh); [simpl; lia|].
  simpl. exists r, h. split; [done|].
  rewrite Hh. rewrite <- Permutation_middle. apply perm_skip.
  by rewrite Permutation_app_comm.
Qed.

End HuffmanHeap.
Module HuffmanTreeFacts.
Import Huffman HuffmanHeap.

#[local] Arguments getitem : simpl never.
#[local] Arguments setitem : simpl never.

Definition opt_all {A} (P : A -> Prop) (o : option A) : Prop :=
  match o with Some x => P x | None => True end.

Fixpoint node_ind' (P : node -> Prop)
    (H : forall f s l r, opt_all P l -> opt_all P r -> P (Node f s l r))
    (n : node) : P n :=
  match n with
  | Node f s l r =>
      H f s l r
        (match l return opt_all P l with Some x => node_ind' P H x | None => I end)
        (match r return opt_all P r with Some x => node_ind' P H x | None => I end)
  end.

(** the (symbol, code) assignments of [_make_codes_helper], in the order made *)
Fixpoint code_list (n : node) (p : bits) : list (byte * bits) :=
  match n with
  | Node _ (Some s) _ _ => [(s, p)]
  | Node _ None l r =>
      (match l with Some l' => code_list l' (p ++ [false]) | None => [] end) ++
      (match r with Some r' => code_list r' (p ++ [true]) | None => [] end)
  end.

Definition assign (d : code_dicts) (sc : byte * bits) : code_dicts :=
  (<[sc.1 := sc.2]> (fst d), <[sc.2 := sc.1]> (snd d)).

Lemma make_codes_helper_fold n : forall p d,
  _make_codes_helper n p d = fold_left assign (code_list n p) d.
Proof.
  induction n as [f s l r IHl IHr] using node_ind'; intros p d.
  destruct s as [s|]; simpl; [done|].
  rewrite fold_left_app.
  destruct l as [l'|], r as [r'|]; simpl in *; rewrite ?IHl, ?IHr; done.
Qed.

Lemma code_list_prefix n : forall p s c,
  (s, c) ∈ code_list n p -> p `prefix_of` c.
Proof.
  induction n as [f s l r IHl IHr] using node_ind'; intros p s' c Hin.
  destruct s as [s|]; simpl in Hin.
  - apply list_elem_of_singleton in Hin. by simplify_eq.
  - apply elem_of_app in Hin as [Hin|Hin].
    + destruct l as [l'|]; [|by apply not_elem_of_nil in Hin].
      apply IHl in Hin. etrans; [|exact Hin]. by apply prefix_app_r.
    + destruct r as [r'|]; [|by apply not_elem_of_nil in Hin].
      apply IHr in Hin. etrans; [|exact Hin]. by apply prefix_app_r.
Qed.

Lemma code_list_longer n p s c :
  symbol n = None -> (s, c) ∈ code_list n p -> length p < length c.
Proof.
  destruct n as [f [s0|] l r]; [done|]. intros _ Hin. simpl in Hin.
  apply elem_of_app in Hin as [Hin|Hin].
  - destruct l as [l'|]; [|by apply not_elem_of_nil in Hin].
    apply code_list_prefix, prefix_length in Hin. rewrite length_app in Hin. simpl in Hin. lia.
  - destruct r as [r'|]; [|by apply not_elem_of_nil in Hin].
    apply code_list_prefix, prefix_length in Hin. rewrite length_app in Hin. simpl in Hin. lia.
Qed.

(** no code of the list is a prefix of a code at another position *)
Inductive prefix_free : list bits -> Prop :=
| prefix_free_nil : prefix_free []
| prefix_free_cons c l :
    (forall c', c' ∈ l -> ~ c `prefix_of` c' /\ ~ c' `prefix_of` c) ->
    prefix_free l -> prefix_free (c :: l).

Lemma prefix_free_app l1 l2 :
  prefix_free l1 -> prefix_free l2 ->
  (forall a b, a ∈ l1 -> b ∈ l2 -> ~ a `prefix_of` b /\ ~ b `prefix_of` a) ->
  prefix_free (l1 ++ l2).
Proof.
  induction 1 as [|c l Hc Hl IH]; intros H2 Hx; [done|].
  simpl. constructor.
  - intros c' [Hin|Hin]%elem_of_app; [by apply Hc|].
    apply Hx; [left|done].
  - apply IH; [done|]. intros a b Ha Hb. apply Hx; [by right|done].
Qed.

Lemma prefix_free_NoDup l : prefix_free l -> NoDup l.
Proof.
  induction 1 as [|c l Hc Hl IH]; constructor; [|done].
  intros Hin. by destruct (Hc c Hin) as [[] _].
Qed.

Lemma prefix_free_elem (cl : list (byte * bits)) s1 c1 s2 c2 :
  prefix_free cl.*2 -> (s1, c1) ∈ cl -> (s2, c2) ∈ cl ->
  (s1, c1) <> (s2, c2) -> ~ c1 `prefix_of` c2.
Proof.
  induction cl as [|[s c] cl IH]; simpl; intros Hpf H1 H2 Hne.
  { by apply not_elem_of_nil in H1. }
  inversion Hpf as [|? ? Hc Hl]; subst.
  apply elem_of_cons in H1 as [H1|H1]; apply elem_of_cons in H2 as [H2|H2];
    simplify_eq.
  - apply (Hc c2). change c2 with ((s2, c2).2). by apply list_elem_of_fmap_2.
  - apply (Hc c1). change c1 with ((s1, c1).2). by apply list_elem_of_fmap_2.
  - by apply IH.
Qed.

Lemma branch_disjoint (p k1 k2 : bits) : ~ (p ++ [false]) ++ k1 `prefix_of` (p ++ [true]) ++ k2.
Proof.
  intros [k Hk]. rewrite <- !app_assoc in Hk. apply app_inv_head in Hk. by simplify_eq/=.
Qed.

Lemma branch_disjoint' (p k1 k2 : bits) : ~ (p ++ [true]) ++ k1 `prefix_of` (p ++ [false]) ++ k2.
Proof.
  intros [k Hk]. rewrite <- !app_assoc in Hk. apply app_inv_head in Hk. by simplify_eq/=.
Qed.

Lemma code_list_prefix_free n : forall p, prefix_free (code_list n p).*2.
Proof.
  induction n as [f s l r IHl IHr] using node_ind'; intros p.
  destruct s as [s|]; simpl.
  - constructor; [|constructor]. intros c' Hc'. by apply not_elem_of_nil in Hc'.
  - rewrite fmap_app. apply prefix_free_app.
    + destruct l; [apply IHl|constructor].
    + destruct r; [apply IHr|constructor].
    + intros a b Ha Hb.
      destruct l as [l'|]; [|by apply not_elem_of_nil in Ha].
      destruct r as [r'|]; [|by apply not_elem_of_nil in Hb].
      apply list_elem_of_fmap in Ha as ([sa ca] & -> & Ha).
      apply list_elem_of_fmap in Hb as ([sb cb] & -> & Hb).
      apply code_list_prefix in Ha as [ka ->]. apply code_list_prefix in Hb as [kb ->].
      simpl. split; [apply branch_disjoint|apply branch_disjoint'].
Qed.

(** the symbols at the leaves, left to right *)
Fixpoint syms (n : node) : list byte :=
  match n with
  | Node _ (Some s) _ _ => [s]
  | Node _ None l r =>
      (match l with Some l' => syms l' | None => [] end) ++
      (match r with Some r' => syms r' | None => [] end)
  end.

Lemma code_list_syms n : forall p, (code_list n p).*1 = syms n.
Proof.
  induction n as [f s l r IHl IHr] using node_ind'; intros p.
  destruct s as [s|]; simpl; [done|].
  rewrite fmap_app. destruct l, r; simpl in *; by rewrite ?IHl, ?IHr.
Qed.

End HuffmanTreeFacts.
Module HuffmanBuild.
Import Huffman HuffmanHeap HuffmanTreeFacts.

#[local] Arguments getitem : simpl never.
#[local] Arguments setitem : simpl never.

Definition heap_syms (heap : list node) : list byte := concat (map syms heap).

Lemma heap_syms_perm h1 h2 : h1 ≡ₚ h2 -> heap_syms h1 ≡ₚ heap_syms h2.
Proof. intros H. unfold heap_syms. by rewrite H. Qed.

Definition leaf_of (sf : byte * nat) : node := Node sf.2 (Some sf.1) None None.

Lemma make_heap_loop_perm items : forall heap,
  exists heap', make_heap_loop items heap = Ok heap'
    /\ heap' ≡ₚ map leaf_of items ++ heap.
Proof.
  induction items as [|[s f] items IH]; intros heap; simpl; [eauto|].
  destruct (heappush_perm heap (Node f (Some s) None None)) as (h & -> & Hh).
  simpl. destruct (IH h) as (h' & -> & Hh'). exists h'. split; [done|].
  rewrite Hh', Hh. by rewrite <- Permutation_middle.
Qed.

Lemma make_heap_perm fd :
  exists heap, _make_heap fd = Ok heap /\ heap ≡ₚ map leaf_of fd.
Proof.
  destruct (make_heap_loop_perm fd []) as (h & ? & Hh).
  exists h. split; [done|]. by rewrite app_nil_r in Hh.
Qed.

Lemma heap_syms_leaves fd : heap_syms (map leaf_of fd) = fd.*1.
Proof.
  unfold heap_syms. induction fd as [|[s f] fd IH]; simpl; [done|]. by rewrite IH.
Qed.

Lemma merge_loop_single fuel x : merge_loop fuel [x] = Ok [x].
Proof. by destruct fuel. Qed.

Lemma merge_loop_ok fuel : forall heap,
  length heap <= fuel -> heap <> [] ->
  exists r, merge_loop fuel heap = Ok [r]
    /\ syms r ≡ₚ heap_syms heap
    /\ (1 < length heap -> symbol r = None).
Proof.
  induction fuel as [|fuel IH]; intros heap Hf Hne.
  { destruct heap; [done|simpl in Hf; lia]. }
  simpl. destruct (decide (1 < length heap)) as [Hlen|Hlen].
  - destruct (heappop_perm heap Hne) as (n1 & h1 & -> & Hp1). simpl.
    assert (h1 <> []) as Hne1.
    { intros ->. apply Permutation_length in Hp1. simpl in Hp1. lia. }
    destruct (heappop_perm h1 Hne1) as (n2 & h2 & -> & Hp2). simpl.
    destruct (heappush_perm h2 (Node (freq n1 + freq n2) None (Some n1) (Some n2)))
      as (h3 & -> & Hp3). simpl.
    pose proof (Permutation_length Hp1) as L1.
    pose proof (Permutation_length Hp2) as L2.
    pose proof (Permutation_length Hp3) as L3. simpl in L1, L2, L3.
    assert (heap_syms h3 ≡ₚ heap_syms heap) as Hsy.
    { rewrite (heap_syms_perm _ _ Hp3), (heap_syms_perm _ _ Hp1).
      unfold heap_syms. simpl. rewrite (heap_syms_perm _ _ Hp2).
      unfold heap_syms. simpl. by rewrite app_assoc. }
    destruct (decide (1 < length h3)) as [Hl3|Hl3].
    + destruct (IH h3) as (r & -> & Hs & Hsym); [lia|by intros ->|].
      exists r. split; [done|]. split; [by rewrite Hs|]. intros _. by apply Hsym.
    + destruct h2; [|simpl in L3; lia].
      symmetry in Hp3. apply Permutation_singleton_l in Hp3. subst h3.
      rewrite merge_loop_single. eexists. split; [done|]. split; [|done].
      rewrite <- Hsy. unfold heap_syms. simpl. by rewrite app_nil_r.
  - destruct heap as [|x [|? ?]]; simpl in *; try lia; [done|].
    exists x. split; [done|]. split; [|lia].
    unfold heap_syms. simpl. by rewrite app_nil_r.
Qed.

Lemma huffman_merge_nodes_ok heap :
  heap <> [] -> Forall (fun n => is_Some (symbol n)) heap ->
  exists r, _merge_nodes heap = Ok r /\ symbol r = None
    /\ syms r ≡ₚ heap_syms heap.
Proof.
  intros Hne Hleaf. unfold _merge_nodes.
  destruct (decide (length heap = 1)) as [H1|H1].
  - destruct heap as [|h0 [|? ?]]; simpl in H1; try lia.
    apply Forall_cons in Hleaf as [[s Hs] _].
    destruct h0 as [f s0 l r]. simpl in Hs. subst s0.
    cbv -[Nat.ltb]. rewrite Nat.ltb_irrefl.
    eexists. split; [done|]. split; [done|]. done.
  - cbn [mbind result_bind].
    destruct (merge_loop_ok (length heap) heap) as (r & -> & Hs & Hsym); [done..|].
    simpl. change (getitem [r] 0) with (Ok r). exists r. split; [done|].
    split; [|done]. apply Hsym. destruct heap as [|? [|? ?]]; simpl in *; try done; lia.
Qed.

(** ** the two dictionaries *)

Lemma assign_codes_elem cl : forall d s c,
  (fold_left assign cl d).1 !! s = Some c ->
  (s, c) ∈ cl \/ d.1 !! s = Some c.
Proof.
  induction cl as [|[s' c'] cl IH]; intros d s c H; simpl in *; [by right|].
  apply IH in H as [H|H]; [left; by right|].
  simpl in H. destruct (decide (s' = s)) as [->|Hne].
  - rewrite lookup_insert_eq in H. simplify_eq. left. by left.
  - rewrite lookup_insert_ne in H by done. by right.
Qed.

Lemma assign_rev_elem cl : forall d s c,
  (fold_left assign cl d).2 !! c = Some s ->
  (s, c) ∈ cl \/ d.2 !! c = Some s.
Proof.
  induction cl as [|[s' c'] cl IH]; intros d s c H; simpl in *; [by right|].
  apply IH in H as [H|H]; [left; by right|].
  simpl in H. destruct (decide (c' = c)) as [->|Hne].
  - rewrite lookup_insert_eq in H. simplify_eq. left. by left.
  - rewrite lookup_insert_ne in H by done. by right.
Qed.

Lemma assign_codes_dom cl : forall d s,
  s ∈ cl.*1 \/ is_Some (d.1 !! s) -> is_Some ((fold_left assign cl d).1 !! s).
Proof.
  induction cl as [|[s' c'] cl IH]; intros d s H; simpl in *.
  { destruct H as [H|H]; [by apply not_elem_of_nil in H|done]. }
  apply IH. destruct H as [H|H].
  - apply elem_of_cons in H as [->|H]; [|by left].
    right. simpl. rewrite lookup_insert_eq. eauto.
  - right. simpl. destruct (decide (s' = s)) as [->|Hne].
    + rewrite lookup_insert_eq. eauto.
    + by rewrite lookup_insert_ne.
Qed.

Lemma assign_inverse cl : forall d,
  NoDup cl.*2 ->
  (forall s c, d.1 !! s = Some c -> d.2 !! c = Some s /\ c ∉ cl.*2) ->
  forall s c, (fold_left assign cl d).1 !! s = Some c ->
              (fold_left assign cl d).2 !! c = Some s.
Proof.
  induction cl as [|[s' c'] cl IH]; intros d Hnd Hd s c H; simpl in *.
  { by apply Hd. }
  apply NoDup_cons in Hnd as [Hnin Hnd].
  revert H. apply IH; [done|]. clear s c. intros s c. simpl.
  destruct (decide (s' = s)) as [->|Hne].
  - rewrite lookup_insert_eq. intros [= <-]. by rewrite lookup_insert_eq.
  - rewrite lookup_insert_ne by done. intros H. apply Hd in H as [H1 H2].
    apply not_elem_of_cons in H2 as [H2 H3].
    rewrite lookup_insert_ne by done. done.
Qed.

(** a symbol that is not assigned keeps the entry it had *)
Lemma assign_codes_other cl : forall d s,
  s ∉ cl.*1 -> (fold_left assign cl d).1 !! s = d.1 !! s.
Proof.
  induction cl as [|[s' c'] cl IH]; intros d s H; simpl in *; [done|].
  apply not_elem_of_cons in H as [Hne Hs].
  rewrite IH by done. simpl. by rewrite lookup_insert_ne.
Qed.

(** an assigned symbol gets a code of the list, whatever entry it had *)
Lemma assign_codes_last cl : forall d s,
  s ∈ cl.*1 -> exists c, (fold_left assign cl d).1 !! s = Some c /\ (s, c) ∈ cl.
Proof.
  induction cl as [|[s' c'] cl IH]; intros d s H; simpl in *.
  { by apply not_elem_of_nil in H. }
  destruct (decide (s ∈ cl.*1)) as [Hin|Hnin].
  - destruct (IH (assign d (s', c')) s Hin) as (c & Hc & Hcl).
    exists c. split; [done|by right].
  - apply elem_of_cons in H as [->|H]; [|done].
    exists c'. split; [|by left].
    rewrite assign_codes_other by done. simpl. apply lookup_insert_eq.
Qed.

Lemma assign_rev_other cl : forall d c,
  c ∉ cl.*2 -> (fold_left assign cl d).2 !! c = d.2 !! c.
Proof.
  induction cl as [|[s' c'] cl IH]; intros d c H; simpl in *; [done|].
  apply not_elem_of_cons in H as [Hne Hs].
  rewrite IH by done. simpl. by rewrite lookup_insert_ne.
Qed.

(** an assigned code is mapped back to its symbol, whatever entry it had *)
Lemma assign_rev_last cl : forall d s c,
  NoDup cl.*2 -> (s, c) ∈ cl -> (fold_left assign cl d).2 !! c = Some s.
Proof.
  induction cl as [|[s' c'] cl IH]; intros d s c Hnd H; simpl in *.
  { by apply not_elem_of_nil in H. }
  apply NoDup_cons in Hnd as [Hnin Hnd].
  apply elem_of_cons in H as [[= -> ->]|H].
  - rewrite assign_rev_other by done. simpl. apply lookup_insert_eq.
  - by apply IH.
Qed.

End HuffmanBuild.
Module HuffmanCodec.
Import Huffman HuffmanHeap HuffmanTreeFacts HuffmanBuild.

(** ** the frequency dictionary *)

Lemma counter_incr_keys d c s :
  s ∈ (counter_incr d c).*1 <-> s = c \/ s ∈ d.*1.
Proof.
  induction d as [|[k n] d IH]; simpl.
  - rewrite list_elem_of_singleton. split; [auto|]. intros [?|H]; [done|].
    by apply not_elem_of_nil in H.
  - destruct (Byte.eqb k c) eqn:E; simpl.
    + apply Byte.byte_dec_bl in E as ->. rewrite elem_of_cons. naive_solver.
    + rewrite !elem_of_cons, IH. naive_solver.
Qed.

Lemma frequency_dict_keys_gen text : forall d s,
  s ∈ (fold_left counter_incr text d).*1 <-> s ∈ text \/ s ∈ d.*1.
Proof.
  induction text as [|c text IH]; intros d s; simpl.
  - split; [auto|]. intros [H|?]; [|done]. by apply not_elem_of_nil in H.
  - rewrite IH, counter_incr_keys, elem_of_cons. naive_solver.
Qed.

Lemma frequency_dict_keys text s :
  s ∈ (_make_frequency_dict text).*1 <-> s ∈ text.
Proof.
  unfold _make_frequency_dict. rewrite frequency_dict_keys_gen. simpl.
  split; [|auto]. intros [?|H]; [done|]. by apply not_elem_of_nil in H.
Qed.

Lemma frequency_dict_nonempty text : text <> [] -> _make_frequency_dict text <> [].
Proof.
  destruct text as [|c text]; [done|]. intros _ Hnil.
  assert (c ∈ (_make_frequency_dict (c :: text)).*1) as H
    by (apply frequency_dict_keys; left).
  rewrite Hnil in H. by apply not_elem_of_nil in H.
Qed.

(** ** what build_tree establishes *)

(** the root that _make_heap and _merge_nodes build from a frequency dict *)
Definition huffman_root (fd : list (byte * nat)) : result node :=
  heap ← _make_heap fd; _merge_nodes heap.

(** [t] is the object [self] after build_tree_from_freq(fd), [rt] its root *)
Record built (self : huffman_tree) (fd : list (byte * nat)) (rt : node)
    (t : huffman_tree) : Prop := {
  built_freq : freq_dict t = Some fd;
  built_tree : root t = Some rt;
  built_from : huffman_root fd = Ok rt;
  built_codes :
    codes t = (fold_left assign (code_list rt []) (codes self, reverse_mapping self)).1;
  built_rev :
    reverse_mapping t
    = (fold_left assign (code_list rt []) (codes self, reverse_mapping self)).2;
  built_root : symbol rt = None;
  built_syms : syms rt ≡ₚ fd.*1
}.

Lemma build_tree_from_freq_ok self fd :
  fd <> [] -> exists rt t, build_tree_from_freq self fd = Ok t /\ built self fd rt t.
Proof.
  intros Hne. unfold build_tree_from_freq.
  destruct (make_heap_perm fd) as (heap & Hmk & Hheap). rewrite Hmk. simpl.
  destruct (huffman_merge_nodes_ok heap) as (r & Hmg & Hsym & Hsyms).
  - intros ->. apply Permutation_nil in Hheap. by destruct fd.
  - rewrite Hheap. apply Forall_forall. intros n ([s f] & -> & _)%list_elem_of_fmap.
    simpl. eauto.
  - rewrite Hmg. simpl. eexists r, _. split; [done|].
    unfold _make_codes. rewrite make_codes_helper_fold.
    constructor; simpl; try done.
    + unfold huffman_root. rewrite Hmk. simpl. done.
    + by rewrite Hsyms, (heap_syms_perm _ _ Hheap), heap_syms_leaves.
Qed.

Lemma build_tree_from_freq_inv self fd t :
  build_tree_from_freq self fd = Ok t -> exists rt, built self fd rt t.
Proof.
  intros H. destruct fd as [|x fd]; [discriminate H|].
  destruct (build_tree_from_freq_ok self (x :: fd)) as (rt & t' & Ht' & Hb); [done|].
  exists rt. congruence.
Qed.

Section Built.
Context (self : huffman_tree) (fd : list (byte * nat)) (rt : node) (t : huffman_tree).
Context (Hb : built self fd rt t).

(** the codes of the symbols of [fd] are those of the new tree *)
Lemma codes_of_symbol s :
  s ∈ fd.*1 -> exists c, codes t !! s = Some c /\ (s, c) ∈ code_list rt [].
Proof.
  intros H. rewrite (built_codes _ _ _ _ Hb). apply assign_codes_last.
  by rewrite code_list_syms, (built_syms _ _ _ _ Hb).
Qed.

(** every other entry of codes is the one [self] held before the build *)
Lemma codes_stale s : s ∉ fd.*1 -> codes t !! s = codes self !! s.
Proof.
  intros H. rewrite (built_codes _ _ _ _ Hb). rewrite assign_codes_other; [done|].
  by rewrite code_list_syms, (built_syms _ _ _ _ Hb).
Qed.

Lemma codes_in_list s c :
  s ∈ fd.*1 -> codes t !! s = Some c -> (s, c) ∈ code_list rt [].
Proof.
  intros (c' & Hc' & Hin)%codes_of_symbol Hc. congruence.
Qed.

Lemma list_symbol s c : (s, c) ∈ code_list rt [] -> s ∈ fd.*1.
Proof.
  intros H. rewrite <- (built_syms _ _ _ _ Hb), <- (code_list_syms _ []).
  change s with ((s, c).1). by apply list_elem_of_fmap_2.
Qed.

Lemma list_nonempty s c : (s, c) ∈ code_list rt [] -> c <> [].
Proof.
  intros H ->.
  apply code_list_longer in H; [simpl in H; lia|apply (built_root _ _ _ _ Hb)].
Qed.


(** a code of the new tree is mapped back to its symbol *)
Lemma rev_of_list s c : (s, c) ∈ code_list rt [] -> reverse_mapping t !! c = Some s.
Proof.
  intros H. rewrite (built_rev _ _ _ _ Hb). apply assign_rev_last; [|done].
  apply prefix_free_NoDup, code_list_prefix_free.
Qed.

(** when [self] held no reverse mapping, the new one holds the codes of the
    new tree only *)
Lemma rev_in_list s c :
  reverse_mapping self = ∅ ->
  reverse_mapping t !! c = Some s -> (s, c) ∈ code_list rt [].
Proof.
  intros He. rewrite (built_rev _ _ _ _ Hb). intros [H|H]%assign_rev_elem; [done|].
  simpl in H. by rewrite He, lookup_empty in H.
Qed.

Lemma rev_no_proper_prefix s c c' :
  reverse_mapping self = ∅ ->
  (s, c) ∈ code_list rt [] -> c' `prefix_of` c -> c' <> c ->
  reverse_mapping t !! c' = None.
Proof.
  intros He H Hpre Hne.
  destruct (reverse_mapping t !! c') as [s'|] eqn:E; [|done].
  apply (rev_in_list _ _ He) in E. exfalso.
  eapply (prefix_free_elem _ s' c' s c); [apply code_list_prefix_free|done..|congruence|done].
Qed.

End Built.

(** ** decoding what was encoded *)

Lemma decode_one (rm : gmap bits byte) s c :
  rm !! c = Some s ->
  (forall c', c' `prefix_of` c -> c' <> c -> rm !! c' = None) ->
  forall k cur rest out, k <> [] -> cur ++ k = c ->
    decode_text_loop rm (k ++ rest) cur out = decode_text_loop rm rest [] (out ++ [s]).
Proof.
  intros Hc Hpre. induction k as [|b k IH]; intros cur rest out Hk Hcur; [done|].
  simpl. destruct k as [|b' k].
  - rewrite Hcur, Hc. done.
  - rewrite (Hpre (cur ++ [b])).
    + apply IH; [done|]. by rewrite <- app_assoc.
    + exists (b' :: k). by rewrite <- app_assoc.
    + intros E. rewrite <- Hcur in E. apply app_inv_head in E. done.
Qed.

Lemma encode_decode (cds : gmap byte bits) (rm : gmap bits byte) :
  forall text acc,
  (forall s, s ∈ text -> exists c, cds !! s = Some c /\
     c <> [] /\ rm !! c = Some s /\
     forall c', c' `prefix_of` c -> c' <> c -> rm !! c' = None) ->
  exists e, get_encoded_text_loop cds text acc = Ok (acc ++ e)
    /\ forall rest out,
         decode_text_loop rm (e ++ rest) [] out = decode_text_loop rm rest [] (out ++ text).
Proof.
  induction text as [|ch text IH]; intros acc Hgood; cbn [get_encoded_text_loop].
  - exists []. rewrite app_nil_r. split; [done|]. intros. by rewrite app_nil_r.
  - destruct (Hgood ch) as (c & Hc & Hne & Hrm & Hpre); [left|]. rewrite Hc.
    destruct (IH (acc ++ c)) as (e & -> & Hdec); [intros; apply Hgood; by right|].
    exists (c ++ e). rewrite app_assoc. split; [done|]. intros rest out.
    rewrite <- app_assoc, (decode_one rm ch c Hrm Hpre c [] (e ++ rest) out Hne eq_refl).
    rewrite Hdec. by rewrite <- app_assoc.
Qed.

End HuffmanCodec.
Module HuffmanBytes.
Import Huffman.

Lemma read_bit_string_gen bs : forall acc,
  fold_left (fun bit_string b => bit_string ++ byte_bits b) bs acc
  = acc ++ concat (map byte_bits bs).
Proof.
  induction bs as [|b bs IH]; intros acc; simpl; [by rewrite app_nil_r|].
  by rewrite IH, app_assoc.
Qed.

Lemma read_bit_string_concat bs : read_bit_string bs = concat (map byte_bits bs).
Proof. apply (read_bit_string_gen bs []). Qed.

Lemma chunk_byte (chunk : list bool) :
  length chunk = 8 ->
  exists v x, int2 chunk = Ok v /\ Byte.of_N v = Some x /\ byte_bits x = chunk.
Proof.
  intros H.
  do 8 (destruct chunk as [|? chunk]; [discriminate H|]).
  destruct chunk; [|discriminate H]. clear H.
  repeat match goal with b : bool |- _ => destruct b end;
    (eexists _, _; split; [reflexivity|split; [vm_compute; reflexivity|vm_compute; reflexivity]]).
Qed.

Lemma get_byte_array_loop_ok (s : list bool) n : forall i b,
  8 * (i + n) <= length s ->
  exists bs, get_byte_array_loop s (map (fun k => 8 * k) (seq i n)) b = Ok (b ++ bs)
    /\ concat (map byte_bits bs) = take (8 * n) (drop (8 * i) s).
Proof.
  induction n as [|n IH]; intros i b Hlen.
  - exists []. rewrite app_nil_r. split; [done|]. by rewrite Nat.mul_0_r.
  - cbn [seq map get_byte_array_loop].
    destruct (chunk_byte (slice s (8 * i) (8 * i + 8))) as (v & x & -> & Hx & Hbits).
    { unfold slice. rewrite length_take, length_drop. lia. }
    cbn [mbind result_bind]. rewrite Hx.
    destruct (IH (S i) (b ++ [x])) as (bs & -> & Hbs); [lia|].
    exists (x :: bs). rewrite <- app_assoc. split; [done|].
    cbn [map concat]. rewrite Hbits, Hbs. unfold slice.
    replace (8 * i + 8 - 8 * i) with 8 by lia.
    replace (8 * S i) with (8 * i + 8) by lia.
    rewrite <- drop_drop, take_take_drop. f_equal. lia.
Qed.

Lemma get_byte_array_ok (s : list bool) k :
  length s = 8 * k ->
  exists bs, _get_byte_array s = Ok bs /\ read_bit_string bs = s.
Proof.
  intros Hlen. unfold _get_byte_array, range8. rewrite Hlen.
  replace ((8 * k + 7) / 8) with k.
  2:{ apply Nat.div_unique with 7; lia. }
  destruct (get_byte_array_loop_ok s k 0 []) as (bs & -> & Hbs); [lia|].
  exists bs. split; [done|]. rewrite read_bit_string_concat, Hbs. simpl.
  apply take_ge. lia.
Qed.

Lemma extra_padding_range n : 1 <= 8 - n mod 8 <= 8.
Proof. pose proof (Nat.mod_upper_bound n 8). lia. Qed.

Lemma format_08b_small p :
  1 <= p <= 8 -> length (format_08b p) = 8 /\ int2 (format_08b p) = Ok (N.of_nat p).
Proof.
  intros H. do 9 (destruct p as [|p]; [try lia; split; reflexivity|]). lia.
Qed.

Lemma pad_length (e : list bool) :
  exists k, length (_pad_encoded_text e) = 8 * k.
Proof.
  unfold _pad_encoded_text.
  destruct (format_08b_small _ (extra_padding_range (length e))) as [Hl _].
  rewrite !length_app, Hl, length_replicate.
  exists (length e / 8 + 2).
  pose proof (Nat.div_mod_eq (length e) 8). pose proof (Nat.mod_upper_bound (length e) 8).
  lia.
Qed.

Lemma remove_padding_pad (e : list bool) :
  _remove_padding (_pad_encoded_text e) = Ok e.
Proof.
  unfold _pad_encoded_text, _remove_padding.
  pose proof (extra_padding_range (length e)) as Hr.
  destruct (format_08b_small _ Hr) as [Hl Hi].
  rewrite take_app_length' by done. rewrite Hi. cbn [mbind result_bind].
  rewrite drop_app_length' by done. rewrite Nat2N.id.
  rewrite decide_True by lia. f_equal.
  rewrite length_app, length_replicate.
  apply take_app_length'. lia.
Qed.

End HuffmanBytes.

Module HuffmanSpec.
Import Huffman HuffmanHeap HuffmanTreeFacts HuffmanBuild HuffmanCodec HuffmanBytes.

(** the file that compress writes, without the object it leaves *)
Definition output {A B} (r : result (A * B)) : result A :=
  match r with
  | Ok (a, _) => Ok a
  | Raise e => Raise e
  | OutOfFuel => OutOfFuel
  end.

(** the first byte of the payload: the padding-length field *)
Definition padding_field (c : compressed) : option N :=
  match payload c with
  | [] => None
  | p :: _ => Some (Byte.to_N p)
  end.

(** the stripped bitstream ends inside a codeword *)
Definition ends_mid_code (t : huffman_tree) (stream : list bool) : Prop :=
  exists text e trailing s c,
    _get_encoded_text (codes t) text = Ok e /\ stream = e ++ trailing /\
    trailing <> [] /\ codes t !! s = Some c /\
    trailing `prefix_of` c /\ trailing <> c.

Definition sample_freq : list (byte * nat) := [("a", 4); ("b", 2); ("c", 1)]%byte.
Definition sample_text : list byte := ["a"; "b"; "a"; "c"; "a"; "a"; "b"]%byte.
Definition aligned_text : list byte := replicate 8 "a"%byte.

(** a HuffmanTree after one build from sample_freq *)
Definition sample_tree : huffman_tree :=
  match build_tree_from_freq new_tree sample_freq with
  | Ok t => t
  | _ => new_tree
  end.

(** a HuffmanTree that has built the tree of the text xy *)
Definition used_tree : huffman_tree :=
  match build_tree new_tree ["x"; "y"]%byte with
  | Ok t => t
  | _ => new_tree
  end.

(** the HuffmanTree of used_tree after a second build, from sample_text *)
Definition reused_tree : huffman_tree :=
  match build_tree used_tree sample_text with
  | Ok t => t
  | _ => new_tree
  end.

Definition sample_compressed : compressed :=
  Compressed (Some sample_freq) ["006"; "179"; "@"]%byte.
Definition truncated_stream : compressed :=
  Compressed (Some sample_freq) ["007"; "179"; "@"]%byte.

(** the symbols of [fd] are encoded with the tree of an encoder in any state
    and decoded with the tree of a decoder that held no reverse mapping *)
Lemma built_good enc dec fd rt te td :
  built enc fd rt te -> built dec fd rt td -> reverse_mapping dec = ∅ ->
  forall s, s ∈ fd.*1 ->
    exists c, codes te !! s = Some c /\ c <> []
      /\ reverse_mapping td !! c = Some s
      /\ forall c', c' `prefix_of` c -> c' <> c -> reverse_mapping td !! c' = None.
Proof.
  intros He Hd Hrm s Hs.
  destruct (codes_of_symbol _ _ _ _ He s Hs) as (c & Hc & Hin).
  exists c. split; [done|]. split; [by eapply (list_nonempty _ _ _ _ He)|].
  split; [by eapply (rev_of_list _ _ _ _ Hd)|].
  intros c'. by eapply (rev_no_proper_prefix _ _ _ _ Hd).
Qed.

Lemma built_root_eq enc dec fd rt rt' te td :
  built enc fd rt te -> built dec fd rt' td -> rt = rt'.
Proof.
  intros He Hd. pose proof (built_from _ _ _ _ He) as H1.
  pose proof (built_from _ _ _ _ Hd) as H2. congruence.
Qed.

Lemma get_encoded_text_defined (cds : gmap byte (list bool)) text : forall acc,
  (forall s, s ∈ text -> is_Some (cds !! s)) ->
  exists e, get_encoded_text_loop cds text acc = Ok (acc ++ e).
Proof.
  induction text as [|ch text IH]; intros acc Hdef; cbn [get_encoded_text_loop].
  - exists []. by rewrite app_nil_r.
  - destruct (Hdef ch) as [c Hc]; [left|]. rewrite Hc.
    destruct (IH (acc ++ c)) as (e & ->); [intros; apply Hdef; by right|].
    exists (c ++ e). by rewrite app_assoc.
Qed.

Lemma get_encoded_text_symbols (cds : gmap byte (list bool)) text : forall acc e,
  get_encoded_text_loop cds text acc = Ok e ->
  forall s, s ∈ text -> is_Some (cds !! s).
Proof.
  induction text as [|ch text IH]; intros acc e He s Hs;
    [by apply not_elem_of_nil in Hs|].
  cbn [get_encoded_text_loop] in He.
  destruct (cds !! ch) as [cc|] eqn:E; [|discriminate He].
  apply elem_of_cons in Hs as [->|Hs]; [by rewrite E|by eapply IH].
Qed.

Lemma compress_inv self content c self' :
  compress self content = Ok (c, self') ->
  exists e, build_tree self content = Ok self'
    /\ _get_encoded_text (codes self') content = Ok e
    /\ _get_byte_array (_pad_encoded_text e) = Ok (payload c)
    /\ pickled_freq c = freq_dict self'.
Proof.
  unfold compress. intros H.
  destruct (build_tree self content) as [t| |] eqn:E1; try discriminate H.
  cbn [mbind result_bind] in H.
  destruct (_get_encoded_text (codes t) content) as [e| |] eqn:E2; try discriminate H.
  cbn [mbind result_bind] in H.
  destruct (_get_byte_array (_pad_encoded_text e)) as [bs| |] eqn:E3; try discriminate H.
  cbn [mbind result_bind] in H. injection H as <- <-. exists e. by rewrite E2, E3.
Qed.

(** compress returns on every non-empty input, whatever the Encoder holds *)
Lemma compress_returns self content :
  content <> [] ->
  exists rt t e bs,
    compress self content = Ok (Compressed (Some (_make_frequency_dict content)) bs, t)
    /\ built self (_make_frequency_dict content) rt t
    /\ _get_encoded_text (codes t) content = Ok e
    /\ _get_byte_array (_pad_encoded_text e) = Ok bs
    /\ read_bit_string bs = _pad_encoded_text e.
Proof.
  intros Hne. unfold compress, build_tree.
  destruct (build_tree_from_freq_ok self (_make_frequency_dict content))
    as (rt & t & Ht & Hb).
  { by apply frequency_dict_nonempty. }
  rewrite Ht. cbn [mbind result_bind].
  destruct (get_encoded_text_defined (codes t) content []) as (e & He).
  { intros s Hs%frequency_dict_keys.
    destruct (codes_of_symbol _ _ _ _ Hb s Hs) as (c & Hc & _). by rewrite Hc. }
  unfold _get_encoded_text. rewrite He. cbn [mbind result_bind app].
  destruct (pad_length e) as [k Hk].
  destruct (get_byte_array_ok _ k Hk) as (bs & Hbs & Hread).
  rewrite Hbs. cbn [mbind result_bind].
  exists rt, t, e, bs. by rewrite (built_freq _ _ _ _ Hb).
Qed.

(** X1: round trip on every non-empty input: an Encoder in any state writes a
    file that a Decoder whose HuffmanTree holds no reverse mapping (no file
    decoded before) reads back as the input. *)
Theorem compress_decompress_nonempty (enc dec : huffman_tree) (content : list byte) :
  content <> [] -> reverse_mapping dec = ∅ ->
  exists c enc' dec',
    compress enc content = Ok (c, enc') /\ decompress dec c = Ok (content, dec').
Proof.
  intros Hne Hrm.
  destruct (compress_returns enc content Hne)
    as (rt & te & e & bs & Hc & Hbe & He & _ & Hbs).
  destruct (build_tree_from_freq_ok dec (_make_frequency_dict content))
    as (rt' & td & Htd & Hbd).
  { by apply frequency_dict_nonempty. }
  assert (rt' = rt) as -> by (by eapply built_root_eq).
  eexists _, te, td. split; [exact Hc|].
  unfold decompress. cbn [pickled_freq payload]. rewrite Htd. cbn [mbind result_bind].
  rewrite Hbs, remove_padding_pad. cbn [mbind result_bind]. do 2 f_equal.
  destruct (encode_decode (codes te) (reverse_mapping td) content []) as (e' & He' & Hdec).
  { intros s Hs%frequency_dict_keys. by eapply built_good. }
  unfold _get_encoded_text in He. rewrite He in He'. injection He' as ->.
  unfold _decode_text. specialize (Hdec [] []). rewrite app_nil_r in Hdec.
  by rewrite Hdec.
Qed.

Lemma byte_bits_int2 x : length (byte_bits x) = 8 /\ int2 (byte_bits x) = Ok (Byte.to_N x).
Proof. destruct x; split; reflexivity. Qed.



Lemma decode_trailing (rm : gmap (list bool) byte) (c : list bool) :
  (forall c', c' `prefix_of` c -> c' <> c -> rm !! c' = None) ->
  forall k cur out, (cur ++ k) `prefix_of` c -> cur ++ k <> c ->
    decode_text_loop rm k cur out = out.
Proof.
  intros Hpre. induction k as [|b k IH]; intros cur out Hp Hne; [done|].
  cbn [decode_text_loop]. rewrite (Hpre (cur ++ [b])).
  - apply IH; by rewrite <- app_assoc.
  - destruct Hp as [k' Hk']. exists (k ++ k'). rewrite Hk'. by rewrite <- !app_assoc.
  - intros E. destruct Hp as [k' Hk']. rewrite <- E in Hk'.
    rewrite <- !app_assoc in Hk'. apply app_inv_head in Hk'. simpl in Hk'.
    injection Hk' as Hk'. destruct k; simpl in *.
    + apply Hne. by rewrite <- E.
    + assert (length (b0 :: k ++ k') = 0) as L by (by rewrite <- Hk'). done.
Qed.

Lemma sample_tree_built : build_tree_from_freq new_tree sample_freq = Ok sample_tree.
Proof. vm_compute. reflexivity. Qed.

Lemma used_tree_built : build_tree new_tree ["x"; "y"]%byte = Ok used_tree.
Proof. vm_compute. reflexivity. Qed.

(** C1 (at the empty input): on the empty byte sequence compress raises
    IndexError, whatever the Encoder holds, so compress followed by
    decompress does not yield the input back. *)
Theorem roundtrip_empty_input (enc dec : huffman_tree) :
  compress enc [] = Raise IndexError
  /\ ('(c, _) ← compress enc []; decompress dec c) = Raise IndexError.
Proof. split; reflexivity. Qed.

(** C4, as stated, fails: eight equal bytes encode to eight bits, and the
    padding-length field written is 8, above 7. *)
Lemma padding_field_exceeds_7 :
  ~ (forall self content c self', compress self content = Ok (c, self') ->
       exists p, padding_field c = Some p /\ (0 <= p <= 7)%N).
Proof.
  intros H.
  assert (output (compress new_tree aligned_text)
          = Ok (Compressed (Some [("a"%byte, 8)]) ["008"; "000"; "000"]%byte)) as Hout
    by (vm_compute; reflexivity).
  destruct (compress new_tree aligned_text) as [[c self']| |] eqn:E;
    try discriminate Hout.
  destruct (H _ _ _ _ E) as (p & Hp & Hr).
  cbn [output] in Hout. injection Hout as ->.
  vm_compute in Hp. injection Hp as <-. lia.
Qed.

(** C4, amended: the padding-length field p written by compress is
    8 - (length of the code bits mod 8), so 1 <= p <= 8; the bits of the
    payload are the 8-bit field, the code bits, then exactly p zero bits. *)
Theorem padding_header (self : huffman_tree) (content : list byte)
    (c : compressed) (self' : huffman_tree) :
  compress self content = Ok (c, self') ->
  exists t e p, build_tree self content = Ok t
    /\ _get_encoded_text (codes t) content = Ok e
    /\ p = 8 - length e mod 8 /\ 1 <= p <= 8
    /\ padding_field c = Some (N.of_nat p)
    /\ read_bit_string (payload c) = format_08b p ++ e ++ replicate p false.
Proof.
  intros (e & Ht & He & Hb & _)%compress_inv.
  exists self', e, (8 - length e mod 8).
  pose proof (extra_padding_range (length e)) as Hr.
  do 4 (split; [done|]).
  destruct (pad_length e) as [k Hk].
  destruct (get_byte_array_ok _ k Hk) as (bs & Hbs & Hread).
  rewrite Hb in Hbs. injection Hbs as <-.
  split; [|exact Hread].
  unfold _pad_encoded_text in Hread. rewrite read_bit_string_concat in Hread.
  destruct (format_08b_small _ Hr) as [Hl Hi].
  unfold padding_field. destruct (payload c) as [|x rest].
  { cbn [map concat] in Hread. symmetry in Hread. apply app_eq_nil in Hread as [Hread _].
    rewrite Hread in Hl. done. }
  cbn [map concat] in Hread. destruct (byte_bits_int2 x) as [Hxl Hxi].
  apply app_inj_1 in Hread as [Hx _]; [|by rewrite Hl].
  rewrite Hx, Hi in Hxi. by injection Hxi as <-.
Qed.

Lemma padding_header_witness :
  compress new_tree sample_text = Ok (sample_compressed, sample_tree)
  /\ exists t e p, build_tree new_tree sample_text = Ok t
    /\ _get_encoded_text (codes t) sample_text = Ok e
    /\ p = 8 - length e mod 8 /\ 1 <= p <= 8
    /\ padding_field sample_compressed = Some (N.of_nat p)
    /\ read_bit_string (payload sample_compressed) = format_08b p ++ e ++ replicate p false.
Proof.
  split; [vm_compute; reflexivity|].
  apply (padding_header new_tree sample_text sample_compressed sample_tree).
  vm_compute. reflexivity.
Defined.

(** C5, as stated, fails: a stream whose stripped bits end inside a codeword
    is decoded without any error; the unmatched bit is dropped. *)
Lemma truncated_stream_decodes :
  ~ (forall self file fd t stream,
       pickled_freq file = Some fd ->
       build_tree_from_freq self fd = Ok t ->
       _remove_padding (read_bit_string (payload file)) = Ok stream ->
       ends_mid_code t stream -> raises (decompress self file)).
Proof.
  intros H.
  destruct (H new_tree truncated_stream sample_freq sample_tree
              [true; false; true; true; false; false; true; true; false])
    as [e He].
  - reflexivity.
  - exact sample_tree_built.
  - vm_compute. reflexivity.
  - exists ["a"; "b"; "a"; "c"; "a"; "a"]%byte,
      [true; false; true; true; false; false; true; true], [false], "b"%byte, [false; true].
    split; [vm_compute; reflexivity|]. split; [done|]. split; [done|].
    split; [vm_compute; reflexivity|]. split; [by exists [true]|done].
  - vm_compute in He. discriminate He.
Qed.

(** C5, amended: when the stripped bitstream is the encoding of a text
    followed by bits that end inside a codeword, decompress raises nothing:
    it returns what the loop of _decode_text matched and the trailing bits
    are dropped. On a Decoder whose HuffmanTree held no codes before this
    file, what it returns is exactly the text; a HuffmanTree that has built
    other trees also matches the codes those left in reverse_mapping. *)
Theorem decompress_drops_trailing_bits (self : huffman_tree) (file : compressed)
    (fd : list (byte * nat)) (t : huffman_tree) (text : list byte)
    (e trailing : list bool) (s : byte) (c : list bool) :
  pickled_freq file = Some fd ->
  build_tree_from_freq self fd = Ok t ->
  _remove_padding (read_bit_string (payload file)) = Ok (e ++ trailing) ->
  _get_encoded_text (codes t) text = Ok e ->
  codes t !! s = Some c -> trailing `prefix_of` c -> trailing <> c ->
  decompress self file = Ok (_decode_text (reverse_mapping t) (e ++ trailing), t)
  /\ (codes self = ∅ -> reverse_mapping self = ∅ ->
      decompress self file = Ok (text, t)).
Proof.
  intros Hfd Ht Hpad He Hc Hp Hne.
  assert (decompress self file
          = Ok (_decode_text (reverse_mapping t) (e ++ trailing), t)) as Hrun.
  { unfold decompress. rewrite Hfd, Ht. cbn [mbind result_bind].
    rewrite Hpad. done. }
  split; [exact Hrun|]. intros Hc0 Hr0. rewrite Hrun. do 2 f_equal.
  destruct (build_tree_from_freq_inv _ _ _ Ht) as (rt & Hb).
  assert (forall x, is_Some (codes t !! x) -> x ∈ fd.*1) as Hsym.
  { intros x Hx. destruct (decide (x ∈ fd.*1)) as [|Hn]; [done|].
    rewrite (codes_stale _ _ _ _ Hb x Hn), Hc0, lookup_empty in Hx.
    by destruct Hx. }
  destruct (encode_decode (codes t) (reverse_mapping t) text []) as (e' & He' & Hdec).
  { intros x Hx. apply (built_good self self fd rt t t Hb Hb Hr0), Hsym.
    by eapply get_encoded_text_symbols. }
  unfold _get_encoded_text in He. rewrite He in He'. injection He' as ->.
  unfold _decode_text. rewrite Hdec. cbn [app].
  apply (decode_trailing _ c); [|done..].
  intros c'. eapply (rev_no_proper_prefix _ _ _ _ Hb); [done|].
  eapply (codes_in_list _ _ _ _ Hb); [|done]. apply Hsym. by rewrite Hc.
Qed.

Lemma decompress_drops_trailing_bits_witness :
  pickled_freq truncated_stream = Some sample_freq
  /\ build_tree_from_freq new_tree sample_freq = Ok sample_tree
  /\ _remove_padding (read_bit_string (payload truncated_stream))
     = Ok ([true; false; true; true; false; false; true; true] ++ [false])
  /\ _get_encoded_text (codes sample_tree) ["a"; "b"; "a"; "c"; "a"; "a"]%byte
     = Ok [true; false; true; true; false; false; true; true]
  /\ codes sample_tree !! "b"%byte = Some [false; true]
  /\ [false] `prefix_of` [false; true]
  /\ [false] <> [false; true]
  /\ codes new_tree = ∅ /\ reverse_mapping new_tree = ∅
  /\ decompress new_tree truncated_stream
     = Ok (_decode_text (reverse_mapping sample_tree)
             ([true; false; true; true; false; false; true; true] ++ [false]),
           sample_tree)
  /\ decompress new_tree truncated_stream
     = Ok (["a"; "b"; "a"; "c"; "a"; "a"]%byte, sample_tree).
Proof.
  assert (_remove_padding (read_bit_string (payload truncated_stream))
          = Ok ([true; false; true; true; false; false; true; true] ++ [false])) as Hpad
    by (vm_compute; reflexivity).
  assert (_get_encoded_text (codes sample_tree) ["a"; "b"; "a"; "c"; "a"; "a"]%byte
          = Ok [true; false; true; true; false; false; true; true]) as He
    by (vm_compute; reflexivity).
  assert (codes sample_tree !! "b"%byte = Some [false; true]) as Hc
    by (vm_compute; reflexivity).
  assert ([false] `prefix_of` [false; true]) as Hp by (by exists [true]).
  assert ([false] <> [false; true]) as Hne by done.
  split; [reflexivity|]. split; [exact sample_tree_built|].
  do 5 (split; [assumption|]). split; [reflexivity|]. split; [reflexivity|].
  destruct (decompress_drops_trailing_bits new_tree truncated_stream sample_freq
              sample_tree ["a"; "b"; "a"; "c"; "a"; "a"]%byte
              [true; false; true; true; false; false; true; true] [false]
              "b"%byte [false; true] eq_refl sample_tree_built Hpad He Hc Hp Hne)
    as [H1 H2].
  split; [exact H1|exact (H2 eq_refl eq_refl)].
Defined.

(** C6 (at the empty input): the frequency table of the empty input is
    empty, and building the tree from it raises IndexError instead of
    returning; compress raises with it, whatever the Encoder holds. *)
Theorem compress_empty_raises (self : huffman_tree) :
  _make_frequency_dict [] = []
  /\ _merge_nodes [] = Raise IndexError
  /\ compress self [] = Raise IndexError.
Proof. repeat split; reflexivity. Qed.



(** on objects that are used a second time: the Encoder writes the same
    file, the code table keeps a code of the earlier text that is a prefix
    of a new one, and the Decoder returns another text *)
Lemma second_use_sample :
  output (compress used_tree sample_text) = Ok sample_compressed
  /\ build_tree used_tree sample_text = Ok reused_tree
  /\ codes reused_tree !! "x"%byte = Some [false]
  /\ codes reused_tree !! "b"%byte = Some [false; true]
  /\ output (decompress new_tree sample_compressed) = Ok sample_text
  /\ output (decompress used_tree sample_compressed)
     = Ok ["a"; "x"; "a"; "a"; "x"; "x"; "a"; "a"; "x"; "a"]%byte.
Proof. repeat split; vm_compute; reflexivity. Qed.

(** ** further properties of the codec *)

Lemma assign_codes_indep cl : forall d d' s,
  s ∈ cl.*1 -> (fold_left assign cl d).1 !! s = (fold_left assign cl d').1 !! s.
Proof.
  induction cl as [|[s' c'] cl IH]; intros d d' s H; simpl in *.
  { by apply not_elem_of_nil in H. }
  destruct (decide (s ∈ cl.*1)) as [Hin|Hnin]; [by apply IH|].
  apply elem_of_cons in H as [->|H]; [|done].
  rewrite !assign_codes_other by done. simpl. by rewrite !lookup_insert_eq.
Qed.

Lemma get_encoded_text_ext (cds1 cds2 : gmap byte (list bool)) text : forall acc,
  (forall s, s ∈ text -> cds1 !! s = cds2 !! s) ->
  get_encoded_text_loop cds1 text acc = get_encoded_text_loop cds2 text acc.
Proof.
  induction text as [|ch text IH]; intros acc H; cbn [get_encoded_text_loop]; [done|].
  rewrite (H ch) by left. destruct (cds2 !! ch); [|done].
  apply IH. intros s Hs. apply H. by right.
Qed.

Lemma compress_decompress_nonempty_witness :
  sample_text <> [] /\ reverse_mapping new_tree = ∅
  /\ exists c enc' dec',
       compress used_tree sample_text = Ok (c, enc')
       /\ decompress new_tree c = Ok (sample_text, dec').
Proof.
  split; [discriminate|]. split; [reflexivity|].
  apply (compress_decompress_nonempty used_tree new_tree sample_text);
    [discriminate|reflexivity].
Defined.

(** X2: the file that compress writes does not depend on what the Encoder's
    HuffmanTree holds from earlier files: on every input, two Encoders in
    any two states write the same file, or both raise. *)
Theorem compress_ignores_encoder_state (enc1 enc2 : huffman_tree) (content : list byte) :
  output (compress enc1 content) = output (compress enc2 content).
Proof.
  destruct content as [|x content]; [reflexivity|].
  set (text := x :: content).
  destruct (compress_returns enc1 text) as (rt1 & t1 & e1 & bs1 & -> & Hb1 & He1 & Hbs1 & _);
    [done|].
  destruct (compress_returns enc2 text) as (rt2 & t2 & e2 & bs2 & -> & Hb2 & He2 & Hbs2 & _);
    [done|].
  cbn [output]. do 2 f_equal.
  assert (rt2 = rt1) as -> by (symmetry; by eapply built_root_eq).
  assert (Ok e1 = Ok e2 :> result (list bool)) as [= ->].
  { rewrite <- He1, <- He2. unfold _get_encoded_text. apply get_encoded_text_ext.
    intros s Hs%frequency_dict_keys.
    rewrite (built_codes _ _ _ _ Hb1), (built_codes _ _ _ _ Hb2).
    apply assign_codes_indep. by rewrite code_list_syms, (built_syms _ _ _ _ Hb1). }
  congruence.
Qed.

(** X3: the padding is undone by the decoder: for every bit string e, the bytes
    written for the padded e are read back by decompress's loop as a bit
    string from which _remove_padding returns e. *)
Theorem padding_bytes_roundtrip (e : list bool) :
  exists bs, _get_byte_array (_pad_encoded_text e) = Ok bs
    /\ _remove_padding (read_bit_string bs) = Ok e.
Proof.
  destruct (pad_length e) as [k Hk].
  destruct (get_byte_array_ok _ k Hk) as (bs & Hbs & Hread).
  exists bs. split; [done|]. rewrite Hread. apply remove_padding_pad.
Qed.

(** X4: decompress of a file that holds a non-empty frequency table and no byte
    after it raises ValueError (the padding field is the empty string),
    whatever the Decoder holds. *)
Theorem decompress_no_payload_raises (self : huffman_tree) (fd : list (byte * nat)) :
  fd <> [] -> decompress self (Compressed (Some fd) []) = Raise ValueError.
Proof.
  intros Hne. unfold decompress. cbn [pickled_freq payload].
  destruct (build_tree_from_freq_ok self fd Hne) as (rt & t & -> & _).
  reflexivity.
Qed.

Lemma decompress_no_payload_raises_witness :
  sample_freq <> []
  /\ decompress used_tree (Compressed (Some sample_freq) []) = Raise ValueError.
Proof.
  split; [discriminate|].
  apply (decompress_no_payload_raises used_tree sample_freq). discriminate.
Defined.

End HuffmanSpec.
(** * Python's order on str, as used for the keys *)
Module KeyOrder.

Definition lt (a b : string) : Prop := String.ltb a b = true.
Definition le (a b : string) : Prop := String.leb a b = true.

Lemma compare_refl a : String.compare a a = Eq.
Proof.
  pose proof (String.compare_antisym a a) as H.
  destruct (String.compare a a); simpl in H; congruence.
Qed.

Lemma ltb_leb a b : String.ltb a b = negb (String.leb b a).
Proof.
  unfold String.ltb, String.leb. rewrite (String.compare_antisym a b).
  by destruct (String.compare b a).
Qed.

Lemma leb_ltb a b : String.leb a b = negb (String.ltb b a).
Proof. rewrite ltb_leb. by destruct (String.leb a b). Qed.

Lemma lt_compare a b : lt a b <-> String.compare a b = Lt.
Proof. unfold lt, String.ltb. destruct (String.compare a b); naive_solver. Qed.

Lemma lt_irrefl a : ~ lt a a.
Proof. rewrite lt_compare, compare_refl. done. Qed.

Lemma lt_trans a b c : lt a b -> lt b c -> lt a c.
Proof.
  rewrite !lt_compare.
  change String.compare with OrderedTypeEx.String_as_OT.cmp.
  rewrite !OrderedTypeEx.String_as_OT.cmp_lt.
  apply OrderedTypeEx.String_as_OT.lt_trans.
Qed.

Lemma le_lt_or_eq a b : le a b <-> lt a b \/ a = b.
Proof.
  unfold le, lt, String.leb, String.ltb. split.
  - destruct (String.compare a b) eqn:E; try done; [|by left].
    right. by apply String.compare_eq_iff.
  - intros [H| ->]; [by destruct (String.compare a b)|by rewrite compare_refl].
Qed.

Lemma not_lt_le a b : ~ lt a b <-> le b a.
Proof. unfold lt, le. rewrite ltb_leb. destruct (String.leb b a); naive_solver. Qed.

Lemma not_le_lt a b : ~ le a b <-> lt b a.
Proof. unfold lt, le. rewrite ltb_leb. destruct (String.leb a b); naive_solver. Qed.

Lemma le_refl a : le a a.
Proof. apply le_lt_or_eq. by right. Qed.

Lemma lt_le a b : lt a b -> le a b.
Proof. intros. apply le_lt_or_eq. by left. Qed.

Lemma le_trans a b c : le a b -> le b c -> le a c.
Proof.
  rewrite !le_lt_or_eq. intros [H1| ->] [H2| ->]; eauto using lt_trans.
Qed.

Lemma lt_le_trans a b c : lt a b -> le b c -> lt a c.
Proof. rewrite le_lt_or_eq. intros H1 [H2| <-]; eauto using lt_trans. Qed.

Lemma le_lt_trans a b c : le a b -> lt b c -> lt a c.
Proof. rewrite le_lt_or_eq. intros [H1| ->] H2; eauto using lt_trans. Qed.

Lemma lt_not_le a b : lt a b -> ~ le b a.
Proof. intros H1 H2. by eapply lt_irrefl, lt_le_trans. Qed.

#[global] Instance le_transitive : Transitive le.
Proof. intros a b c. apply le_trans. Qed.

End KeyOrder.
Module BTreeSpec.
Import BTree KeyOrder.

Section Spec.
Context {V : Type}.
Notation node := (node V).
Notation kv := (string * V)%type.

(** ** the in-order listing, as a function *)

Definition tl {X} (ks : list X) (es : list (list X)) : list X :=
  concat (zip_with (fun k e => k :: e) ks es).

Definition il {X} (es : list (list X)) (ks : list X) : list X :=
  concat (zip_with (fun e k => e ++ [k]) es ks).

Definition interleave {X} (es : list (list X)) (ks : list X) : list X :=
  match es with
  | [] => []
  | e :: es' => e ++ tl ks es'
  end.

Fixpoint elements (n : node) : list kv :=
  match n with
  | BTreeNode lf _ ks vs cs =>
      if lf then zip ks vs else interleave (map elements cs) (zip ks vs)
  end.

(** ** well-formed nodes of minimum degree [t] and height [h] *)

Definition size_ok (t : nat) (n : node) : Prop :=
  t - 1 <= length (keys n) <= 2 * t - 1.

Inductive wf (t : nat) : nat -> node -> Prop :=
| wf_leaf ks vs :
    length vs = length ks -> wf t 0 (BTreeNode true t ks vs [])
| wf_internal h ks vs cs :
    length vs = length ks -> length cs = S (length ks) ->
    Forall (wf t h) cs -> Forall (size_ok t) cs ->
    wf t (S h) (BTreeNode false t ks vs cs).

Definition kv_le (x y : kv) : Prop := le x.1 y.1.
Definition sorted (l : list kv) : Prop := StronglySorted kv_le l.

#[global] Instance kv_le_transitive : Transitive kv_le.
Proof. intros x y z. apply le_trans. Qed.

Lemma interleave_cons {X} (a b : list X) es k ks :
  interleave (a :: b :: es) (k :: ks) = a ++ k :: interleave (b :: es) ks.
Proof. reflexivity. Qed.

Lemma interleave_app {X} (e1 : list (list X)) : forall k1 c e2 k2,
  length e1 = length k1 ->
  interleave (e1 ++ c :: e2) (k1 ++ k2) = il e1 k1 ++ c ++ tl k2 e2.
Proof.
  induction e1 as [|a e1 IH]; intros [|k k1] c e2 k2 Hlen; simplify_eq/=; [done|].
  unfold il. simpl. fold (il e1 k1). rewrite <- !app_assoc. simpl.
  rewrite <- (IH k1 c e2 k2 Hlen). by destruct e1.
Qed.

Lemma il_app {X} (e1 e2 : list (list X)) k1 k2 :
  length e1 = length k1 -> il (e1 ++ e2) (k1 ++ k2) = il e1 k1 ++ il e2 k2.
Proof. intros. unfold il. by rewrite zip_with_app, concat_app. Qed.

Lemma tl_app {X} (e1 e2 : list (list X)) k1 k2 :
  length k1 = length e1 -> tl (k1 ++ k2) (e1 ++ e2) = tl k1 e1 ++ tl k2 e2.
Proof. intros. unfold tl. by rewrite zip_with_app, concat_app. Qed.

Lemma il_snoc {X} (e1 : list (list X)) k1 e k :
  length e1 = length k1 -> il (e1 ++ [e]) (k1 ++ [k]) = il e1 k1 ++ e ++ [k].
Proof. intros. rewrite il_app by done. unfold il at 2. simpl. by rewrite app_nil_r. Qed.

Lemma tl_cons {X} (k : X) ks e es : tl (k :: ks) (e :: es) = k :: e ++ tl ks es.
Proof. reflexivity. Qed.

Lemma at_child_lookup {A} (f : node -> result A) cs i c :
  cs !! i = Some c -> at_child f cs i = f c.
Proof.
  revert i. induction cs as [|c' cs IH]; intros [|i] H; simplify_eq/=; auto.
Qed.

Lemma drop_lookup {A} (l : list A) i x : l !! i = Some x -> drop i l = x :: drop (S i) l.
Proof.
  revert i. induction l as [|y l IH]; intros [|i] H; simplify_eq/=; auto.
Qed.

Lemma getitem_Ok' {A} (l : list A) i x : l !! i = Some x -> getitem l i = Ok x.
Proof. unfold getitem. by intros ->. Qed.

Lemma setitem_Ok' {A} (l : list A) i x : i < length l -> setitem l i x = Ok (<[i:=x]> l).
Proof. unfold setitem. intros. by rewrite decide_True. Qed.

(** ** get_all returns the listing *)

Definition inorder_loop (lf : bool) (ks : list string) (vs : list V) (cs : list node) :=
  fix loop (idx : list nat) (out : list kv) : result (list kv) :=
    match idx with
    | [] => Ok out
    | i :: idx' =>
        out' ← (if lf then Ok out
                else at_child (fun c => _inorder_traversal c out) cs i);
        k ← getitem ks i;
        v ← getitem vs i;
        loop idx' (out' ++ [(k, v)])
    end.

Lemma inorder_unfold lf t ks vs cs out :
  _inorder_traversal (BTreeNode lf t ks vs cs) out =
  (out1 ← inorder_loop lf ks vs cs (seq 0 (length ks)) out;
   if negb lf && negb (match cs with [] => true | _ => false end)
   then at_child (fun c => _inorder_traversal c out1) cs (length cs - 1)
   else Ok out1).
Proof. reflexivity. Qed.

Lemma inorder_loop_leaf ks vs cs m : forall j out,
  length vs = length ks -> j + m = length ks ->
  inorder_loop true ks vs cs (seq j m) out = Ok (out ++ drop j (zip ks vs)).
Proof.
  induction m as [|m IH]; intros j out Hvs Hj.
  - simpl. rewrite drop_ge, app_nil_r; [done|]. rewrite length_zip. lia.
  - cbn [seq inorder_loop].
    destruct (lookup_lt_is_Some_2 ks j ltac:(lia)) as [k Hk].
    destruct (lookup_lt_is_Some_2 vs j ltac:(lia)) as [v Hv].
    rewrite (getitem_Ok' _ _ _ Hk), (getitem_Ok' _ _ _ Hv). cbn [mbind result_bind].
    rewrite IH by (done || lia).
    assert (zip ks vs !! j = Some (k, v)) as Hkv by (by rewrite lookup_zip_with, Hk, Hv).
    by rewrite (drop_lookup (zip ks vs) j (k, v) Hkv), <- app_assoc.
Qed.

Lemma inorder_loop_internal ks vs cs m : forall j out,
  length vs = length ks -> j + m = length ks -> length ks < length cs ->
  (forall c out, c ∈ cs -> _inorder_traversal c out = Ok (out ++ elements c)) ->
  inorder_loop false ks vs cs (seq j m) out
  = Ok (out ++ il (map elements (take m (drop j cs))) (drop j (zip ks vs))).
Proof.
  induction m as [|m IH]; intros j out Hvs Hj Hcs Hrec.
  - simpl. by rewrite app_nil_r.
  - cbn [seq inorder_loop].
    destruct (lookup_lt_is_Some_2 ks j ltac:(lia)) as [k Hk].
    destruct (lookup_lt_is_Some_2 vs j ltac:(lia)) as [v Hv].
    destruct (lookup_lt_is_Some_2 cs j ltac:(lia)) as [c Hc].
    rewrite (at_child_lookup _ _ _ _ Hc), Hrec by (by eapply list_elem_of_lookup_2).
    rewrite (getitem_Ok' _ _ _ Hk), (getitem_Ok' _ _ _ Hv). cbn [mbind result_bind].
    rewrite IH by (done || lia).
    assert (zip ks vs !! j = Some (k, v)) as Hkv by (by rewrite lookup_zip_with, Hk, Hv).
    rewrite (drop_lookup (zip ks vs) j (k, v) Hkv), (drop_lookup cs j c Hc).
    rewrite <- !app_assoc. cbn [take map]. unfold il at 2. cbn [zip_with concat].
    fold (il (map elements (take m (drop (S j) cs))) (drop (S j) (zip ks vs))).
    by rewrite <- !app_assoc.
Qed.

Lemma inorder_traversal_ok t h n :
  wf t h n -> forall out, _inorder_traversal n out = Ok (out ++ elements n).
Proof.
  revert n. induction h as [|h IH]; intros n Hwf out;
    inversion Hwf as [ks vs Hvs|h' ks vs cs Hvs Hcs Hall Hsz]; subst.
  - rewrite inorder_unfold, inorder_loop_leaf by done. done.
  - rewrite inorder_unfold.
    rewrite inorder_loop_internal; try (done || lia).
    2:{ intros c o Hc. apply IH. by eapply Forall_forall in Hall. }
    cbn [mbind result_bind].
    destruct (lookup_lt_is_Some_2 cs (length ks) ltac:(lia)) as [c Hc].
    destruct cs as [|c0 cs']; [done|]. cbn [negb andb].
    replace (length (c0 :: cs') - 1) with (length ks) by (simpl in *; lia).
    rewrite (at_child_lookup _ _ _ _ Hc).
    rewrite (IH c) by (eapply Forall_lookup_1; eauto).
    rewrite <- app_assoc. do 2 f_equal.
    cbn [elements]. rewrite drop_0.
    rewrite <- (take_drop_middle _ _ _ Hc) at 2.
    rewrite fmap_app. cbn [fmap list_fmap].
    rewrite <- (app_nil_r (zip ks vs)) at 2.
    rewrite interleave_app.
    + by rewrite app_nil_r.
    + rewrite length_fmap, length_take, length_zip. simpl in *. lia.
Qed.


(** ** range_search returns the listing filtered by the bounds *)

Definition in_range (a b : string) (x : kv) : Prop := le a x.1 /\ le x.1 b.

#[global] Instance in_range_dec a b x : Decision (in_range a b x).
Proof. unfold in_range, le. apply _. Defined.

Definition child_visit (lf : bool) (cs : list node) (a b : string) (j : nat)
    (out : list kv) : result (list kv) :=
  if lf then Ok out else at_child (fun c => _range_search c a b out) cs j.

Definition range_loop (lf : bool) (vs : list V) (cs : list node) (a b : string) :=
  fix loop (rest : list string) (i : nat) (out : list kv) : result (nat * list kv) :=
    match rest with
    | [] => Ok (i, out)
    | k :: rest' =>
        if String.leb k b then
          out' ← child_visit lf cs a b i out;
          v ← getitem vs i;
          loop rest' (S i) (out' ++ [(k, v)])
        else Ok (i, out)
    end.

Definition range_finish (lf : bool) (cs : list node) (a b : string)
    (p : nat * list kv) : result (list kv) :=
  let '(i, out1) := p in
  if negb lf && (i <? length cs)
  then at_child (fun c => _range_search c a b out1) cs i
  else Ok out1.

Lemma range_search_unfold lf t ks vs cs a b out :
  _range_search (BTreeNode lf t ks vs cs) a b out =
  range_loop lf vs cs a b (drop (first_ge ks a) ks) (first_ge ks a) out
    ≫= range_finish lf cs a b.
Proof. reflexivity. Qed.

Lemma first_ge_spec ks a :
  first_ge ks a <= length ks
  /\ Forall (fun k => lt k a) (take (first_ge ks a) ks)
  /\ Forall (fun k => le a k) (take 1 (drop (first_ge ks a) ks)).
Proof.
  induction ks as [|k ks (IH1 & IH2 & IH3)]; simpl; [by repeat constructor|].
  destruct (String.ltb k a) eqn:E; simpl.
  - split; [lia|]. split; [by constructor|done].
  - split; [lia|]. split; [constructor|]. rewrite take_0. repeat constructor.
    apply not_lt_le. unfold lt. by rewrite E.
Qed.

Lemma filter_nil_Forall {A} (P : A -> Prop) `{!forall x, Decision (P x)} (l : list A) :
  Forall (fun x => ~ P x) l -> filter P l = [].
Proof.
  induction 1 as [|x l Hx Hl IH]; [done|]. by rewrite filter_cons_False.
Qed.

Lemma sorted_head_le (x : kv) l a : sorted (x :: l) -> le a x.1 -> Forall (fun y => le a y.1) l.
Proof.
  intros [Hx _]%StronglySorted_cons Ha. eapply Forall_impl; [exact Hx|].
  intros y Hy. by eapply le_trans.
Qed.

Lemma range_loop_ok lf vs cs a b E :
  (forall j e out, E !! j = Some e ->
     child_visit lf cs a b j out = Ok (out ++ filter (in_range a b) e)) ->
  (lf = true \/ length E = length cs) ->
  forall Ks i out e Es,
    drop i E = e :: Es -> drop i vs = Ks.*2 -> length Es = length Ks ->
    sorted (e ++ tl Ks Es) -> Forall (fun x => le a x.1) Ks ->
    range_loop lf vs cs a b Ks.*1 i out ≫= range_finish lf cs a b
    = Ok (out ++ filter (in_range a b) (e ++ tl Ks Es)).
Proof.
  intros Hchild Hlen.
  assert (forall i e Es out, drop i E = e :: Es ->
            range_finish lf cs a b (i, out) = Ok (out ++ filter (in_range a b) e)) as Hfin.
  { intros i e Es out Hd.
    assert (E !! i = Some e) as Hi.
    { rewrite <- (Nat.add_0_r i), <- lookup_drop, Hd. done. }
    rewrite <- (Hchild i e out Hi). unfold range_finish, child_visit.
    destruct lf; [done|]. destruct Hlen as [?|Hlen]; [done|].
    apply lookup_lt_Some in Hi. rewrite Hlen in Hi.
    apply Nat.ltb_lt in Hi. by rewrite Hi. }
  induction Ks as [|[k v] Ks IH]; intros i out e Es HE Hvs HlenE Hs Ha.
  - destruct Es; [|done]. cbn [fmap list_fmap range_loop mbind result_bind].
    rewrite (Hfin i e [] out HE). unfold tl. simpl. by rewrite app_nil_r.
  - destruct Es as [|e' Es]; [done|]. cbn [fmap list_fmap range_loop fst].
    rewrite tl_cons in *.
    destruct (String.leb k b) eqn:Ekb.
    + assert (E !! i = Some e) as Hi.
      { rewrite <- (Nat.add_0_r i), <- lookup_drop, HE. done. }
      rewrite (Hchild i e out Hi). cbn [mbind result_bind].
      assert (vs !! i = Some v) as Hv.
      { rewrite <- (Nat.add_0_r i), <- lookup_drop, Hvs. done. }
      rewrite (getitem_Ok' _ _ _ Hv). cbn [mbind result_bind].
      rewrite (IH (S i) _ e' Es).
      * rewrite (filter_app _ e ((k, v) :: _)), filter_cons_True, <- !app_assoc; [done|].
        split; [by apply Forall_cons in Ha as [? _]|done].
      * rewrite <- Nat.add_1_r, <- drop_drop, HE. done.
      * rewrite <- Nat.add_1_r, <- drop_drop, Hvs. done.
      * simpl in HlenE. lia.
      * apply StronglySorted_app_1_r in Hs. by apply StronglySorted_cons in Hs as [_ ?].
      * by apply Forall_cons in Ha as [_ ?].
    + cbn [mbind result_bind]. rewrite (Hfin i e _ out HE). do 2 f_equal.
      rewrite filter_app.
      rewrite (filter_nil_Forall _ ((k, v) :: e' ++ tl Ks Es)); [by rewrite app_nil_r|].
      apply StronglySorted_app_1_r in Hs.
      assert (~ le k b) as Hkb by (unfold le; by rewrite Ekb).
      constructor; [intros [_ H]; done|].
      apply StronglySorted_cons in Hs as [Hs _].
      eapply Forall_impl; [exact Hs|]. intros y Hy [_ Hyb]. apply Hkb.
      by eapply le_trans.
Qed.

Lemma il_below (a : string) (A : list (list kv)) : forall (K R : list kv),
  length A = length K -> sorted (il A K ++ R) ->
  Forall (fun k : kv => lt k.1 a) K -> Forall (fun x : kv => lt x.1 a) (il A K).
Proof.
  induction A as [|e A IH]; intros [|k K] R Hlen Hs HK; simplify_eq/=;
    [by constructor|].
  unfold il in *. simpl in *. fold (il A K) in *.
  apply Forall_cons in HK as [Hk HK]. rewrite <- !app_assoc in Hs. simpl in Hs.
  apply Forall_app. split; [apply Forall_app; split|].
  - apply Forall_forall. intros x Hx.
    eapply le_lt_trans; [|exact Hk].
    eapply (StronglySorted_app_1_elem_of _ _ _ x k Hs); [done|left].
  - by repeat constructor.
  - apply (IH K R); [done| |done].
    apply StronglySorted_app_1_r in Hs. by apply StronglySorted_cons in Hs as [_ ?].
Qed.

Lemma tl_replicate_nil {X} (ks : list X) : tl ks (replicate (length ks) []) = ks.
Proof. induction ks as [|k ks IH]; [done|]. simpl. rewrite tl_cons. simpl. by rewrite IH. Qed.

Definition child_lists (n : node) : list (list kv) :=
  if leaf n then replicate (S (length (keys n))) [] else map elements (children n).

Lemma elements_child_lists t h n :
  wf t h n -> elements n = interleave (child_lists n) (zip (keys n) (values n))
              /\ length (child_lists n) = S (length (zip (keys n) (values n))).
Proof.
  inversion 1 as [ks vs Hvs|h' ks vs cs Hvs Hcs Hall Hsz]; subst;
    unfold child_lists; simpl.
  - rewrite length_replicate, length_zip, Hvs, Nat.min_id. split; [|done].
    rewrite <- (tl_replicate_nil (zip ks vs)) at 1. by rewrite length_zip, Hvs, Nat.min_id.
  - rewrite length_fmap, length_zip, Hvs, Nat.min_id. done.
Qed.

Lemma wf_child_sorted t h n c :
  wf t h n -> sorted (elements n) -> c ∈ children n -> sorted (elements c).
Proof.
  inversion 1 as [ks vs Hvs|h' ks vs cs Hvs Hcs Hall Hsz]; subst; simpl.
  { intros _ Hc. by apply not_elem_of_nil in Hc. }
  intros Hs (i & Hi)%list_elem_of_lookup.
  rewrite <- (take_drop_middle _ _ _ Hi), <- (take_drop i (zip ks vs)) in Hs.
  rewrite fmap_app in Hs. simpl in Hs. rewrite interleave_app in Hs.
  - apply StronglySorted_app_1_r, StronglySorted_app_1_l in Hs. done.
  - apply lookup_lt_Some in Hi.
    rewrite length_fmap, !length_take, length_zip. lia.
Qed.

Lemma tl_keys_ge (a : string) (Ks : list kv) : forall Es,
  length Es = length Ks -> sorted (tl Ks Es) ->
  (forall x, head Ks = Some x -> le a x.1) -> Forall (fun x => le a x.1) Ks.
Proof.
  induction Ks as [|x Ks IH]; intros [|e' Es] Hlen Hs Hh; simplify_eq/=; [done|].
  rewrite tl_cons in Hs. apply StronglySorted_cons in Hs as [Hx Hs].
  constructor; [by apply Hh|].
  apply (IH Es); [done|by apply StronglySorted_app_1_r in Hs|].
  intros y Hy. destruct Ks as [|y' Ks]; simplify_eq/=. destruct Es as [|e'' Es]; [done|].
  rewrite tl_cons in Hx. apply Forall_app in Hx as [_ Hx].
  apply Forall_cons in Hx as [Hx _]. eapply le_trans; [|exact Hx]. by apply Hh.
Qed.

Theorem range_search_node_ok t h n a b :
  wf t h n -> sorted (elements n) ->
  forall out, _range_search n a b out = Ok (out ++ filter (in_range a b) (elements n)).
Proof.
  revert n. induction h as [h IH] using lt_wf_ind. intros n Hwf Hs out.
  destruct (elements_child_lists _ _ _ Hwf) as [Hel HlenE].
  pose proof (fun c => wf_child_sorted _ _ _ c Hwf Hs) as Hcs.
  destruct n as [lf t' ks vs cs]. rewrite range_search_unfold.
  set (E := child_lists (BTreeNode lf t' ks vs cs)) in *. cbn [keys values] in Hel, HlenE.
  assert (length vs = length ks) as Hvs by (by inversion Hwf).
  destruct (first_ge_spec ks a) as (Hi0 & Hlt & Hge).
  set (i0 := first_ge ks a) in *.
  destruct (lookup_lt_is_Some_2 E i0) as [e He].
  { rewrite HlenE, length_zip. lia. }
  assert (zip ks vs = take i0 (zip ks vs) ++ drop i0 (zip ks vs)) as Hz
    by (by rewrite take_drop).
  rewrite <- (take_drop_middle _ _ _ He), Hz, interleave_app in Hel.
  2:{ apply lookup_lt_Some in He. rewrite !length_take, length_zip. lia. }
  rewrite Hel in Hs |- *.
  replace (drop i0 ks) with ((drop i0 (zip ks vs)).*1).
  2:{ rewrite fmap_drop, fst_zip; [done|lia]. }
  rewrite (range_loop_ok lf vs cs a b E) with (e := e) (Es := drop (S i0) E).
  - rewrite !filter_app. rewrite (filter_nil_Forall _ (il _ _)); [done|].
    eapply Forall_impl.
    { eapply il_below; [|exact Hs|].
      - apply lookup_lt_Some in He. rewrite !length_take, length_zip. lia.
      - apply Forall_forall. intros x Hx.
        rewrite Forall_forall in Hlt. apply Hlt. rewrite <- (fst_zip ks vs) by lia.
        rewrite <- fmap_take. by apply list_elem_of_fmap_2. }
    intros x Hx [Hax _]. exact (lt_not_le _ _ Hx Hax).
  - intros j e' out' Hj. unfold child_visit. subst E. unfold child_lists in Hj.
    cbn [leaf keys children] in Hj. destruct lf.
    + apply lookup_replicate in Hj as [-> _]. by rewrite app_nil_r.
    + apply list_lookup_fmap_Some in Hj as (c & -> & Hc).
      rewrite (at_child_lookup _ _ _ _ Hc).
      inversion Hwf as [|h' ? ? ? ? ? Hall ?]; subst.
      apply (IH h'); [lia|by eapply Forall_lookup_1| ].
      apply Hcs. simpl. by eapply list_elem_of_lookup_2.
  - destruct lf; [by left|right]. subst E. unfold child_lists. simpl.
    by rewrite length_fmap.
  - by apply drop_lookup.
  - rewrite fmap_drop, snd_zip; [done|lia].
  - rewrite !length_drop, HlenE. lia.
  - by apply StronglySorted_app_1_r in Hs.
  - apply (tl_keys_ge a _ (drop (S i0) E)).
    + rewrite !length_drop, HlenE. lia.
    + by do 2 apply StronglySorted_app_1_r in Hs.
    + intros x Hx. rewrite Forall_forall in Hge. apply Hge.
      rewrite <- (fst_zip ks vs) by lia. rewrite <- fmap_drop, <- fmap_take.
      apply list_elem_of_fmap_2. destruct (drop i0 (zip ks vs)); simplify_eq/=. left.
Qed.


(** ** list surgery *)

Lemma list_insert_at_app {A} (l1 l2 : list A) i x :
  length l1 = i -> list_insert_at i x (l1 ++ l2) = l1 ++ x :: l2.
Proof. intros <-. unfold list_insert_at. by rewrite take_app_length, drop_app_length. Qed.

Lemma length_list_insert_at {A} (l : list A) i x :
  length (list_insert_at i x l) = S (length l).
Proof.
  unfold list_insert_at. rewrite length_app. simpl.
  rewrite length_take, length_drop. lia.
Qed.

Lemma zip_list_insert_at (ks : list string) (vs : list V) i k v :
  length vs = length ks ->
  zip (list_insert_at i k ks) (list_insert_at i v vs) = list_insert_at i (k, v) (zip ks vs).
Proof.
  intros Hlen. unfold list_insert_at.
  rewrite zip_with_app by (rewrite !length_take; lia).
  simpl. by rewrite zip_with_take, zip_with_drop.
Qed.

Lemma insert_middle {A} (l1 l2 : list A) i x y :
  length l1 = i -> <[i := y]> (l1 ++ x :: l2) = l1 ++ y :: l2.
Proof.
  intros <-. rewrite insert_app_r_alt by lia. by rewrite Nat.sub_diag.
Qed.

Lemma lookup_middle {A} (l1 l2 : list A) i x :
  length l1 = i -> (l1 ++ x :: l2) !! i = Some x.
Proof. intros <-. by apply list_lookup_middle. Qed.

Lemma split_at_lookup {A} (l : list A) i x :
  l !! i = Some x -> exists l1 l2, l = l1 ++ x :: l2 /\ length l1 = i.
Proof.
  intros H. exists (take i l), (drop (S i) l). split.
  - by rewrite take_drop_middle.
  - rewrite length_take. apply lookup_lt_Some in H. lia.
Qed.

Lemma split_at_length {A} (l : list A) i :
  i <= length l -> exists l1 l2, l = l1 ++ l2 /\ length l1 = i.
Proof.
  intros H. exists (take i l), (drop i l). split; [by rewrite take_drop|].
  rewrite length_take. lia.
Qed.

Lemma interleave_app2 {X} (E1 E2 : list (list X)) (K1 K2 : list X) m :
  length E1 = S (length K1) -> E2 <> [] ->
  interleave (E1 ++ E2) (K1 ++ m :: K2) = interleave E1 K1 ++ m :: interleave E2 K2.
Proof.
  intros Hlen HE2. destruct E2 as [|e2 E2]; [done|].
  destruct (decide (E1 = [])) as [->|HE1]; [done|].
  destruct (exists_last HE1) as (E1' & el & ->).
  rewrite length_app in Hlen. simpl in Hlen.
  rewrite <- app_assoc. cbn [app].
  rewrite interleave_app by lia. rewrite tl_cons.
  rewrite <- (app_nil_r K1) at 2. rewrite interleave_app by lia.
  unfold tl at 2. simpl. by rewrite <- !app_assoc.
Qed.

(** ** elements of an internal node, opened at a child *)

Lemma elements_at t' ks vs (C1 C2 : list node) c K1 K2 :
  zip ks vs = K1 ++ K2 -> length C1 = length K1 ->
  elements (BTreeNode false t' ks vs (C1 ++ c :: C2))
  = il (map elements C1) K1 ++ elements c ++ tl K2 (map elements C2).
Proof.
  intros Hz Hlen. cbn [elements]. rewrite Hz, fmap_app. cbn [fmap list_fmap].
  by rewrite interleave_app by (by rewrite length_fmap).
Qed.

Lemma il_le_last (A : list (list kv)) (K R : list kv) kl :
  length A = length K -> sorted (il A K ++ R) -> last K = Some kl ->
  Forall (fun x => kv_le x kl) (il A K).
Proof.
  intros Hlen Hs [K' ->]%last_Some.
  rewrite length_app in Hlen. simpl in Hlen.
  destruct (decide (A = [])) as [->|HA]; [simpl in Hlen; lia|].
  destruct (exists_last HA) as (A' & e & ->).
  rewrite length_app in Hlen. simpl in Hlen.
  rewrite il_snoc in * by lia.
  apply StronglySorted_app_1_l in Hs. rewrite app_assoc in Hs.
  rewrite app_assoc. apply Forall_app. split; [|repeat constructor; apply le_refl].
  apply Forall_forall. intros x Hx.
  eapply (StronglySorted_app_1_elem_of _ _ _ x kl Hs); [done|left].
Qed.

Lemma tl_ge_head (K : list kv) (A : list (list kv)) kh :
  length A = length K -> sorted (tl K A) -> head K = Some kh ->
  Forall (kv_le kh) (tl K A).
Proof.
  intros Hlen Hs Hh. destruct K as [|k K]; simplify_eq/=.
  destruct A as [|e A]; [done|]. rewrite tl_cons in *.
  apply StronglySorted_cons in Hs as [Hs _]. constructor; [apply le_refl|done].
Qed.

(** ** _split_child *)

Lemma wf_t t h n : wf t h n -> t_ n = t.
Proof. by inversion 1. Qed.

Lemma wf_values t h n : wf t h n -> length (values n) = length (keys n).
Proof. by inversion 1. Qed.

Lemma wf_leaf_iff t h n : wf t h n -> (leaf n = true <-> h = 0).
Proof. inversion 1; simpl; split; (done || lia). Qed.

Lemma split_node t h c :
  wf t h c -> length (keys c) = 2 * t - 1 -> 1 <= t ->
  exists mk mv, keys c !! (t - 1) = Some mk /\ values c !! (t - 1) = Some mv /\
    let c' := BTreeNode (leaf c) (t_ c) (take (t - 1) (keys c))
                (take (t - 1) (values c))
                (if leaf c then children c else take t (children c)) in
    let nw := BTreeNode (leaf c) t (drop t (keys c)) (drop t (values c))
                (if leaf c then [] else drop t (children c)) in
    wf t h c' /\ wf t h nw /\ length (keys c') = t - 1 /\ length (keys nw) = t - 1
    /\ elements c = elements c' ++ (mk, mv) :: elements nw.
Proof.
  intros Hwf Hfull Ht.
  destruct (lookup_lt_is_Some_2 (keys c) (t - 1)) as [mk Hmk]; [lia|].
  destruct (lookup_lt_is_Some_2 (values c) (t - 1)) as [mv Hmv].
  { rewrite (wf_values _ _ _ Hwf). lia. }
  exists mk, mv. split; [done|]. split; [done|].
  assert (zip (keys c) (values c) !! (t - 1) = Some (mk, mv)) as Hkv
    by (by rewrite lookup_zip_with, Hmk, Hmv).
  assert (zip (keys c) (values c)
          = zip (take (t - 1) (keys c)) (take (t - 1) (values c))
            ++ (mk, mv) :: zip (drop t (keys c)) (drop t (values c))) as Hz.
  { rewrite <- (take_drop_middle _ _ _ Hkv) at 1.
    rewrite zip_with_take, zip_with_drop. by replace (S (t - 1)) with t by lia. }
  inversion Hwf as [ks vs Hvs|h' ks vs cs Hvs Hcs Hall Hsz]; subst; simpl in *.
  - split; [constructor; rewrite !length_take; lia|].
    split; [constructor; rewrite !length_drop; lia|].
    rewrite length_take, length_drop. repeat split; (done || lia).
  - split; [constructor; rewrite ?length_take; try lia; by apply Forall_take|].
    split; [constructor; rewrite ?length_drop; try lia; by apply Forall_drop|].
    rewrite length_take, length_drop. do 2 (split; [lia|]).
    rewrite <- (take_drop t cs) at 1. rewrite Hz, fmap_app.
    rewrite interleave_app2; rewrite ?fmap_take, ?fmap_drop; [done| |].
    + rewrite length_take, length_fmap, length_zip, !length_take. lia.
    + intros Hnil. apply (f_equal length) in Hnil.
      rewrite length_drop, length_fmap in Hnil. simpl in Hnil. lia.
Qed.

Lemma split_child_ok t h p index c :
  wf t (S h) p -> children p !! index = Some c ->
  length (keys c) = 2 * t - 1 -> 1 <= t ->
  exists p' mk c' nw,
    _split_child t p index = Ok p' /\ wf t (S h) p' /\ elements p' = elements p
    /\ keys p' = list_insert_at index mk (keys p)
    /\ children p' = take index (children p) ++ c' :: nw :: drop (S index) (children p)
    /\ wf t h c' /\ wf t h nw
    /\ length (keys c') = t - 1 /\ length (keys nw) = t - 1.
Proof.
  intros Hwf Hc Hfull Ht.
  inversion Hwf as [|h' ks vs cs Hvs Hcs Hall Hsz]; subst; cbn [children keys values] in *.
  pose proof (Forall_lookup_1 _ _ _ _ Hall Hc) as Hwfc.
  destruct (split_node t h c Hwfc Hfull Ht) as (mk & mv & Hmk & Hmv & H).
  cbv zeta in H.
  unfold _split_child. cbn [children keys values leaf t_].
  rewrite (getitem_Ok' _ _ _ Hc). cbn [mbind result_bind].
  replace (length (keys c) <? t) with false by (symmetry; apply Nat.ltb_ge; lia).
  rewrite (getitem_Ok' _ _ _ Hmk), (getitem_Ok' _ _ _ Hmv). cbn [mbind result_bind].
  set (c' := BTreeNode (leaf c) (t_ c) (take (t - 1) (keys c)) _ _) in *.
  set (nw := BTreeNode (leaf c) t (drop t (keys c)) _ _) in *.
  destruct H as (Hc' & Hnw & Hlc' & Hlnw & Hel).
  eexists _, mk, c', nw. split; [done|].
  destruct (split_at_lookup _ _ _ Hc) as (C1 & C2 & HC & HlenC1).
  assert (index <= length (zip ks vs)) as Hidx.
  { apply lookup_lt_Some in Hc. rewrite length_zip. lia. }
  destruct (split_at_length _ _ Hidx) as (K1 & K2 & HK & HlenK1).
  assert (list_insert_at (index + 1) nw (<[index:=c']> cs)
          = C1 ++ c' :: nw :: C2) as Hcs'.
  { rewrite HC, (insert_middle C1 C2 index) by done.
    replace (C1 ++ c' :: C2) with ((C1 ++ [c']) ++ C2) by (by rewrite <- app_assoc).
    rewrite list_insert_at_app by (rewrite length_app; simpl; lia).
    by rewrite <- app_assoc. }
  split; [|split; [|split; [done|split; [|done]]]].
  - constructor.
    + rewrite !length_list_insert_at. lia.
    + rewrite !length_list_insert_at, length_insert. lia.
    + rewrite Hcs'. rewrite HC in Hall. apply Forall_app in Hall as [H1 H2].
      apply Forall_cons in H2 as [_ H2]. apply Forall_app. split; [done|].
      by repeat constructor.
    + rewrite Hcs'. rewrite HC in Hsz. apply Forall_app in Hsz as [H1 H2].
      apply Forall_cons in H2 as [_ H2]. apply Forall_app. split; [done|].
      repeat constructor; try done; unfold size_ok; lia.
  - rewrite Hcs'. rewrite HC.
    rewrite (elements_at t ks vs C1 C2 c K1 K2) by (done || lia).
    rewrite (elements_at t (list_insert_at index mk ks) (list_insert_at index mv vs)
               C1 (nw :: C2) c' K1 ((mk, mv) :: K2)); [|..|lia].
    + cbn [fmap list_fmap map]. rewrite tl_cons, Hel. by rewrite <- !app_assoc.
    + rewrite zip_list_insert_at by done. rewrite HK.
      by rewrite list_insert_at_app.
  - rewrite Hcs', HC. rewrite take_app_length' by done.
    f_equal. f_equal. f_equal. 
    replace (S index) with (length (C1 ++ [c])) by (rewrite length_app; simpl; lia).
    replace (C1 ++ c :: C2) with ((C1 ++ [c]) ++ C2) by (by rewrite <- app_assoc).
    by rewrite drop_app_length.
Qed.

(** ** _insert_non_full *)

Lemma last_le_spec ks key : forall i1,
  i1 <= length ks ->
  exists p, last_le ks key i1 = Ok p /\ p <= i1
    /\ Forall (fun k => lt key k) (take (i1 - p) (drop p ks))
    /\ (forall k, 0 < p -> ks !! (p - 1) = Some k -> le k key).
Proof.
  induction i1 as [|i IH]; intros Hi; simpl.
  - exists 0. repeat split; [done|constructor|lia].
  - destruct (lookup_lt_is_Some_2 ks i ltac:(lia)) as [k Hk].
    rewrite (getitem_Ok' _ _ _ Hk). cbn [mbind result_bind].
    destruct (String.ltb key k) eqn:E.
    + destruct IH as (p & -> & Hp & Hall & Hle); [lia|].
      exists p. split; [done|]. split; [lia|]. split; [|done].
      replace (S i - p) with ((i - p) + 1) by lia.
      rewrite <- take_take_drop, drop_drop. apply Forall_app. split; [done|].
      replace (p + (i - p)) with i by lia.
      rewrite (drop_lookup _ _ _ Hk). simpl. rewrite take_0. by repeat constructor.
    + exists (S i). split; [done|]. split; [lia|]. rewrite Nat.sub_diag. split; [constructor|].
      intros k' _. simpl. rewrite Nat.sub_0_r, Hk. intros [= <-].
      apply not_lt_le. unfold lt. by rewrite E.
Qed.

Lemma sorted_le_last (l : list kv) y :
  sorted l -> last l = Some y -> Forall (fun x => kv_le x y) l.
Proof.
  intros Hs [l' ->]%last_Some. apply Forall_app. split; [|repeat constructor; apply le_refl].
  apply Forall_forall. intros x Hx.
  eapply (StronglySorted_app_1_elem_of _ _ _ x y Hs); [done|left].
Qed.

Lemma last_take {A} (l : list A) i : 0 < i -> i <= length l -> last (take i l) = l !! (i - 1).
Proof.
  intros H0 Hi. rewrite last_lookup, length_take.
  replace (i `min` length l) with i by lia.
  rewrite lookup_take_lt by lia. f_equal. lia.
Qed.

Lemma wf_replace_child t h ks vs cs i c2 :
  wf t (S h) (BTreeNode false t ks vs cs) -> wf t h c2 -> size_ok t c2 ->
  wf t (S h) (BTreeNode false t ks vs (<[i:=c2]> cs)).
Proof.
  inversion 1 as [|h' ks' vs' cs' Hvs Hcs Hall Hsz]; subst. intros Hc2 Hs2.
  constructor; [done|by rewrite length_insert|by apply Forall_insert..].
Qed.

Lemma bounds_around (key : string) (EA EB : list (list kv)) (K1 K2 X : list kv) :
  length EA = length K1 -> length EB = length K2 ->
  sorted (il EA K1 ++ X ++ tl K2 EB) ->
  (forall k, last K1 = Some k -> le k.1 key) ->
  (forall k, head K2 = Some k -> le key k.1) ->
  Forall (fun x => le x.1 key) (il EA K1) /\ Forall (fun x => le key x.1) (tl K2 EB).
Proof.
  intros HA HB Hs Hl Hh. split.
  - destruct (last K1) as [kl|] eqn:El.
    + eapply Forall_impl; [by eapply il_le_last|].
      intros x Hx. eapply le_trans; [exact Hx|by apply Hl].
    + apply last_None in El as ->. destruct EA; [constructor|done].
  - destruct (head K2) as [kh|] eqn:Eh.
    + eapply Forall_impl; [eapply tl_ge_head; [done| |done]|].
      * by do 2 apply StronglySorted_app_1_r in Hs.
      * intros x Hx. eapply le_trans; [by apply Hh|exact Hx].
    + destruct K2; [constructor|done].
Qed.

Lemma insert_descend t h ks vs cs i c1 c2 (key : string) (value : V) l1 l2 :
  wf t (S h) (BTreeNode false t ks vs cs) -> cs !! i = Some c1 -> wf t h c2 ->
  size_ok t c2 ->
  elements c1 = l1 ++ l2 -> elements c2 = l1 ++ (key, value) :: l2 ->
  (sorted (elements c1) ->
     Forall (fun x => le x.1 key) l1 /\ Forall (fun x => le key x.1) l2) ->
  (forall k, 0 < i -> ks !! (i - 1) = Some k -> le k key) ->
  (forall k, ks !! i = Some k -> le key k) ->
  wf t (S h) (BTreeNode false t ks vs (<[i:=c2]> cs))
  /\ exists L1 L2,
       elements (BTreeNode false t ks vs cs) = L1 ++ L2
       /\ elements (BTreeNode false t ks vs (<[i:=c2]> cs)) = L1 ++ (key, value) :: L2
       /\ (sorted (L1 ++ L2) ->
             Forall (fun x => le x.1 key) L1 /\ Forall (fun x => le key x.1) L2).
Proof.
  intros Hwf Hc1 Hc2 Hsz Hel1 Hel2 Hb Hlo Hhi.
  split; [by apply wf_replace_child|].
  inversion Hwf as [|h' ks' vs' cs' Hvs Hcs Hall _]; subst.
  destruct (split_at_lookup _ _ _ Hc1) as (C1 & C2 & -> & HlenC1).
  rewrite (insert_middle C1 C2 i) by done.
  rewrite length_app in Hcs. simpl in Hcs.
  assert (i <= length (zip ks vs)) as Hidx by (rewrite length_zip; lia).
  destruct (split_at_length _ _ Hidx) as (K1 & K2 & HK & HlenK1).
  pose proof (f_equal length HK) as HlenK. rewrite length_app, length_zip in HlenK.
  rewrite (elements_at t ks vs C1 C2 c1 K1 K2) by (done || lia).
  rewrite (elements_at t ks vs C1 C2 c2 K1 K2) by (done || lia).
  exists (il (map elements C1) K1 ++ l1), (l2 ++ tl K2 (map elements C2)).
  rewrite Hel1, Hel2, <- !app_assoc. split; [done|]. split; [done|].
  intros Hs.
  destruct (bounds_around key (map elements C1) (map elements C2) K1 K2 (l1 ++ l2)) as [HA HB].
  - rewrite length_fmap. lia.
  - rewrite length_fmap. lia.
  - by rewrite <- !app_assoc.
  - intros k Hk. rewrite <- (take_app_length K1 K2), <- HK in Hk.
    destruct (decide (length K1 = 0)) as [E|E].
    { destruct K1; [|done]. by simpl in Hk. }
    rewrite last_take in Hk by lia.
    apply (Hlo k.1); [lia|]. rewrite <- (fst_zip ks vs) by lia.
    by rewrite list_lookup_fmap, <- HlenK1, Hk.
  - intros k Hk. apply Hhi. rewrite <- (fst_zip ks vs) by lia.
    rewrite list_lookup_fmap, HK, <- HlenK1. rewrite lookup_app_r by lia.
    rewrite Nat.sub_diag. destruct K2; by simplify_eq/=.
  - assert (sorted (l1 ++ l2)) as Hs12.
    { apply StronglySorted_app_1_r in Hs. rewrite app_assoc in Hs.
      by apply StronglySorted_app_1_l in Hs. }
    rewrite <- Hel1 in Hs12. destruct (Hb Hs12) as [H1 H2].
    split; apply Forall_app; done.
Qed.

Definition inserted (key : string) (value : V) (old new : list kv) : Prop :=
  exists l1 l2, old = l1 ++ l2 /\ new = l1 ++ (key, value) :: l2
    /\ (sorted old -> Forall (fun x => le x.1 key) l1 /\ Forall (fun x => le key x.1) l2).

Lemma inserted_Permutation key value old new :
  inserted key value old new -> new ≡ₚ (key, value) :: old.
Proof. intros (l1 & l2 & -> & -> & _). by rewrite Permutation_middle. Qed.

Lemma inserted_sorted key value old new :
  inserted key value old new -> sorted old -> sorted new.
Proof.
  intros (l1 & l2 & -> & -> & Hb) Hs. destruct (Hb Hs) as [H1 H2].
  apply StronglySorted_app in Hs as (H12 & Hs1 & Hs2).
  apply StronglySorted_app. split; [|split; [done|]].
  - intros x1 x2 Hx1 [->|Hx2]%elem_of_cons; [|by apply H12].
    rewrite Forall_forall in H1. by apply H1.
  - constructor; [done|]. eapply Forall_impl; [exact H2|done].
Qed.

Lemma insert_non_full_ok t (key : string) (value : V) :
  2 <= t -> forall fuel h n,
  wf t h n -> length (keys n) < 2 * t - 1 -> h < fuel ->
  exists n', _insert_non_full fuel t n key value = Ok n' /\ wf t h n'
    /\ length (keys n) <= length (keys n') <= 2 * t - 1
    /\ inserted key value (elements n) (elements n').
Proof.
  intros Ht. induction fuel as [|fuel IH]; intros h n Hwf Hnf Hfuel; [lia|].
  cbn [_insert_non_full].
  destruct (last_le_spec (keys n) key (length (keys n))) as (p & -> & Hp & Hgt & Hle);
    [done|]. cbn [mbind result_bind].
  rewrite take_ge in Hgt by (rewrite length_drop; lia).
  inversion Hwf as [ks vs Hvs|h' ks vs cs Hvs Hcs Hall Hsz]; subst;
    cbn [leaf keys values children t_] in *.
  - (* leaf *)
    eexists. split; [done|]. split; [constructor; rewrite !length_list_insert_at; lia|].
    cbn [keys]. rewrite length_list_insert_at. split; [lia|].
    exists (take p (zip ks vs)), (drop p (zip ks vs)).
    split; [by rewrite take_drop|]. split; [cbn [elements]; by rewrite zip_list_insert_at|].
    intros Hs. split.
    + destruct (decide (p = 0)) as [->|Hp0]; [rewrite take_0; constructor|].
      destruct (lookup_lt_is_Some_2 (zip ks vs) (p - 1)) as [y Hy].
      { rewrite length_zip. lia. }
      assert (le y.1 key) as Hyk.
      { apply Hle; [lia|]. rewrite <- (fst_zip ks vs) at 1 by lia.
        by rewrite list_lookup_fmap, Hy. }
      eapply Forall_impl; [apply (sorted_le_last _ y)|].
      * cbn [elements] in Hs. rewrite <- (take_drop p (zip ks vs)) in Hs.
        by apply StronglySorted_app_1_l in Hs.
      * rewrite last_take; [done|lia|rewrite length_zip; lia].
      * intros x Hx. exact (le_trans _ _ _ Hx Hyk).
    + apply Forall_forall. intros x Hx. rewrite Forall_forall in Hgt.
      apply lt_le, Hgt. rewrite <- (fst_zip ks vs) by lia. rewrite <- fmap_drop.
      by apply list_elem_of_fmap_2.
  - (* internal *)
    destruct (lookup_lt_is_Some_2 cs p ltac:(lia)) as [c Hc].
    rewrite (getitem_Ok' _ _ _ Hc). cbn [mbind result_bind].
    pose proof (Forall_lookup_1 _ _ _ _ Hall Hc) as Hwfc.
    pose proof (Forall_lookup_1 _ _ _ _ Hsz Hc) as Hszc.
    unfold is_full. rewrite (wf_t _ _ _ Hwfc).
    assert (forall k, ks !! p = Some k -> lt key k) as Hhi.
    { intros k Hk. rewrite Forall_forall in Hgt. apply Hgt.
      rewrite (drop_lookup _ _ _ Hk). left. }
    destruct (Nat.eqb_spec (length (keys c)) (2 * t - 1)) as [Hfull|Hnfull].
    + destruct (split_child_ok t h' _ p c Hwf Hc Hfull ltac:(lia))
        as (n1 & mk & c' & nw & -> & Hwf1 & Hel1 & Hk1 & Hc1 & Hwfc' & Hwfnw & Hlc' & Hlnw).
      cbn [mbind result_bind]. cbn [keys children] in Hk1, Hc1.
      assert (length (take p ks) = p) as Hlt by (rewrite length_take; lia).
      assert (length (take p cs) = p) as Hltc by (rewrite length_take; lia).
      assert (keys n1 !! p = Some mk) as Hmk.
      { rewrite Hk1. unfold list_insert_at. by apply lookup_middle. }
      rewrite (getitem_Ok' _ _ _ Hmk). cbn [mbind result_bind].
      inversion Hwf1 as [|h'' ks1 vs1 cs1 Hvs1 Hcs1 Hall1 Hsz1]; subst n1 h''.
      cbn [keys children leaf t_ values] in *.
      set (i := if String.ltb mk key then p + 1 else p).
      assert (exists c1, cs1 !! i = Some c1 /\ wf t h' c1 /\ length (keys c1) = t - 1)
        as (c1 & Hci & Hwfc1 & Hlc1).
      { subst i. destruct (String.ltb mk key).
        - exists nw. split; [|done]. rewrite Hc1.
          replace (take p cs ++ c' :: nw :: _) with ((take p cs ++ [c']) ++ nw :: drop (S p) cs)
            by (by rewrite <- app_assoc).
          apply lookup_middle. rewrite length_app. simpl. lia.
        - exists c'. split; [|done]. rewrite Hc1. by apply lookup_middle. }
      rewrite (getitem_Ok' _ _ _ Hci). cbn [mbind result_bind].
      destruct (IH h' c1 Hwfc1 ltac:(lia) ltac:(lia)) as (c2 & -> & Hwfc2 & Hlc2 & l1 & l2 & Hl1 & Hl2 & Hb).
      cbn [mbind result_bind]. eexists. split; [done|].
      destruct (insert_descend t h' ks1 vs1 cs1 i c1 c2 key value l1 l2) as (Hwf' & L1 & L2 & HL1 & HL2 & HB);
        try done.
      * unfold size_ok. lia.
      * intros k Hi Hk. subst i. destruct (String.ltb mk key) eqn:E.
        -- replace (p + 1 - 1) with p in Hk by lia. rewrite Hmk in Hk.
           injection Hk as <-. by apply lt_le.
        -- apply (Hle k Hi). rewrite Hk1 in Hk. unfold list_insert_at in Hk.
           rewrite lookup_app_l in Hk by lia. by rewrite lookup_take_lt in Hk by lia.
      * intros k Hk. subst i. destruct (String.ltb mk key) eqn:E.
        -- apply lt_le, Hhi. rewrite Hk1 in Hk. unfold list_insert_at in Hk.
           rewrite lookup_app_r in Hk by lia. rewrite Hlt in Hk.
           replace (p + 1 - p) with 1 in Hk by lia. simpl in Hk.
           rewrite lookup_drop in Hk. by rewrite Nat.add_0_r in Hk.
        -- rewrite Hmk in Hk. injection Hk as <-. apply not_lt_le. unfold lt. by rewrite E.
      * split; [done|]. cbn [keys]. split; [rewrite Hk1, length_list_insert_at; lia|].
        exists L1, L2. rewrite <- Hel1. split; [done|]. split; [done|]. by rewrite <- HL1 in HB.
    + cbn [mbind result_bind children keys values leaf t_].
      rewrite (getitem_Ok' _ _ _ Hc). cbn [mbind result_bind].
      destruct Hszc as [Hsz1 Hsz2].
      destruct (IH h' c Hwfc ltac:(lia) ltac:(lia)) as (c2 & -> & Hwfc2 & Hlc2 & l1 & l2 & Hl1 & Hl2 & Hb).
      cbn [mbind result_bind leaf t_ keys values children]. eexists. split; [done|].
      destruct (insert_descend t h' ks vs cs p c c2 key value l1 l2) as (Hwf' & L1 & L2 & HL1 & HL2 & HB);
        try done.
      * unfold size_ok. lia.
      * intros k Hk. by apply lt_le, Hhi.
      * split; [done|]. cbn [keys]. split; [lia|].
        exists L1, L2. split; [done|]. split; [done|]. by rewrite <- HL1 in HB.
Qed.

(** ** insert on the tree *)

Lemma foldr_max_height h (l : list node) :
  Forall (fun c => height c = S h) l -> l <> [] ->
  foldr (fun c m => max (height c) m) 0 l = S h.
Proof.
  induction 1 as [|c l' Hc Hl IHl]; intros Hne; [done|]. simpl. rewrite Hc.
  destruct l' as [|c' l'']; [simpl; lia|]. rewrite IHl by done. lia.
Qed.

Lemma wf_height t h n : wf t h n -> height n = S h.
Proof.
  revert n. induction h as [|h IH]; intros n Hwf;
    inversion Hwf as [ks vs Hvs|h' ks vs cs Hvs Hcs Hall Hsz]; subst; [done|].
  simpl. f_equal. apply foldr_max_height.
  - eapply Forall_impl; [exact Hall|]. intros c. apply IH.
  - by destruct cs.
Qed.

Definition tree_inv (tr : btree V) : Prop :=
  2 <= t tr /\ exists h, wf (t tr) h (root tr)
    /\ length (keys (root tr)) <= 2 * t tr - 1
    /\ (leaf (root tr) = false -> 1 <= length (keys (root tr)))
    /\ sorted (elements (root tr)).

Lemma new_inv t0 : tree_inv (new t0).
Proof.
  unfold new, tree_inv. simpl. split; [lia|]. exists 0.
  split; [by constructor|]. split; [lia|]. split; [done|constructor].
Qed.

Lemma wf_leaf_false t h n : wf t h n -> leaf n = false -> exists h', h = S h'.
Proof. inversion 1; simpl; [done|eauto]. Qed.

Lemma wf_leaf_true t h n : wf t h n -> leaf n = true -> h = 0.
Proof. by inversion 1. Qed.

Lemma wf_leaf_height t n n' h : wf t h n -> wf t h n' -> leaf n = leaf n'.
Proof. by do 2 inversion 1. Qed.

Lemma insert_ok (tr : btree V) key value :
  tree_inv tr ->
  exists tr', insert tr key value = Ok tr' /\ tree_inv tr' /\ t tr' = t tr
    /\ inserted key value (elements (root tr)) (elements (root tr')).
Proof.
  intros (Ht & h & Hwf & Hlen & Hnl & Hs). unfold insert.
  assert (exists h1 rt,
    (if is_full (root tr)
     then _split_child (t tr) (BTreeNode false (t tr) [] [] [root tr]) 0
     else Ok (root tr)) = Ok rt
    /\ wf (t tr) h1 rt /\ elements rt = elements (root tr)
    /\ length (keys rt) < 2 * t tr - 1
    /\ (leaf rt = false -> 1 <= length (keys rt))) as (h1 & rt & -> & Hwf1 & Hel & Hlen1 & Hnl1).
  { unfold is_full. rewrite (wf_t _ _ _ Hwf).
    destruct (Nat.eqb_spec (length (keys (root tr))) (2 * t tr - 1)) as [Hfull|Hnf].
    - assert (wf (t tr) (S h) (BTreeNode false (t tr) [] [] [root tr])) as Hwf0.
      { constructor; [done|done|by repeat constructor|].
        repeat constructor; unfold size_ok; lia. }
      destruct (split_child_ok (t tr) h _ 0 (root tr) Hwf0 eq_refl Hfull ltac:(lia))
        as (p' & mk & c' & nw & -> & Hwf' & Hel' & Hk' & _).
      exists (S h), p'. split; [done|]. split; [done|]. split.
      + rewrite Hel'. cbn [elements map interleave]. unfold tl. simpl. by rewrite app_nil_r.
      + rewrite Hk'. cbn [keys]. unfold list_insert_at. simpl. split; lia.
    - exists h, (root tr). repeat split; try done. lia. }
  cbn [mbind result_bind].
  destruct (insert_non_full_ok (t tr) key value Ht (height rt) h1 rt Hwf1 Hlen1)
    as (rt' & -> & Hwf' & Hlen' & Hins).
  { rewrite (wf_height _ _ _ Hwf1). lia. }
  cbn [mbind result_bind]. eexists. split; [done|]. rewrite Hel in Hins.
  split; [|done]. split; [done|]. exists h1. cbn [root t].
  split; [done|]. split; [lia|]. split.
  - intros Hl. rewrite <- (wf_leaf_height _ _ _ _ Hwf1 Hwf') in Hl. specialize (Hnl1 Hl). lia.
  - by eapply inserted_sorted.
Qed.

(** ** the pieces of delete *)

Lemma pop_at_Ok {A} (l : list A) i x : l !! i = Some x -> pop_at l i = Ok (x, base.delete i l).
Proof. unfold pop_at. by intros ->. Qed.

Lemma pop_last_Ok {A} (l : list A) x : pop_last (l ++ [x]) = Ok (x, l).
Proof.
  unfold pop_last. rewrite last_snoc, length_app. simpl.
  replace (length l + 1 - 1) with (length l) by lia. by rewrite take_app_length.
Qed.

Lemma sorted_replace_middle (X Y Y' Z : list kv) :
  sorted (X ++ Y ++ Z) -> sorted Y' -> (forall y, y ∈ Y' -> y ∈ Y) ->
  sorted (X ++ Y' ++ Z).
Proof.
  intros Hs HY' Hsub.
  apply StronglySorted_app in Hs as (HXYZ & HX & HYZ).
  apply StronglySorted_app in HYZ as (HYZ' & HY & HZ).
  apply StronglySorted_app. split; [|split; [done|]].
  - intros x1 x2 Hx1 [Hx2|Hx2]%elem_of_app; apply HXYZ; try done;
      apply elem_of_app; [left; by apply Hsub|by right].
  - apply StronglySorted_app. split; [|done].
    intros x1 x2 Hx1 Hx2. apply HYZ'; [by apply Hsub|done].
Qed.

Lemma zip_snoc (ks : list string) (vs : list V) k v :
  length vs = length ks -> zip (ks ++ [k]) (vs ++ [v]) = zip ks vs ++ [(k, v)].
Proof. intros H. by rewrite zip_with_app. Qed.

Lemma zip_app (k1 k2 : list string) (v1 v2 : list V) :
  length v1 = length k1 -> zip (k1 ++ k2) (v1 ++ v2) = zip k1 v1 ++ zip k2 v2.
Proof. intros H. by rewrite zip_with_app. Qed.

(** ** merge and borrow, on a node opened at two adjacent children *)

Lemma lookup_middle2 {A} (l1 l2 : list A) i x y :
  length l1 = i -> (l1 ++ x :: y :: l2) !! (i + 1) = Some y.
Proof.
  intros <-. replace (l1 ++ x :: y :: l2) with ((l1 ++ [x]) ++ y :: l2)
    by (by rewrite <- app_assoc).
  apply lookup_middle. rewrite length_app. simpl. lia.
Qed.

Lemma delete_middle' {A} (l1 l2 : list A) i x :
  length l1 = i -> base.delete i (l1 ++ x :: l2) = l1 ++ l2.
Proof. intros <-. apply delete_middle. Qed.

Lemma delete_middle2 {A} (l1 l2 : list A) i x y :
  length l1 = i -> base.delete (i + 1) (l1 ++ x :: y :: l2) = l1 ++ x :: l2.
Proof.
  intros <-. replace (l1 ++ x :: y :: l2) with ((l1 ++ [x]) ++ y :: l2)
    by (by rewrite <- app_assoc).
  rewrite delete_middle' by (rewrite length_app; simpl; lia). by rewrite <- app_assoc.
Qed.

Lemma insert_middle2 {A} (l1 l2 : list A) i x y z :
  length l1 = i -> <[i + 1 := z]> (l1 ++ x :: y :: l2) = l1 ++ x :: z :: l2.
Proof.
  intros <-. replace (l1 ++ x :: y :: l2) with ((l1 ++ [x]) ++ y :: l2)
    by (by rewrite <- app_assoc).
  rewrite insert_middle by (rewrite length_app; simpl; lia). by rewrite <- app_assoc.
Qed.

Lemma split_at_lookup2 {A} (l : list A) i x y :
  l !! i = Some x -> l !! (i + 1) = Some y ->
  exists l1 l2, l = l1 ++ x :: y :: l2 /\ length l1 = i.
Proof.
  intros Hx Hy. destruct (split_at_lookup _ _ _ Hx) as (l1 & l2 & -> & Hl).
  exists l1. rewrite lookup_app_r in Hy by lia.
  replace (i + 1 - length l1) with 1 in Hy by lia.
  destruct l2 as [|y' l2]; simplify_eq/=. eauto.
Qed.

Lemma elements_open1 t' ks1 ks2 vs1 vs2 (C1 C2 : list node) m :
  length vs1 = length ks1 -> length C1 = length ks1 ->
  elements (BTreeNode false t' (ks1 ++ ks2) (vs1 ++ vs2) (C1 ++ m :: C2))
  = il (map elements C1) (zip ks1 vs1) ++ elements m ++ tl (zip ks2 vs2) (map elements C2).
Proof.
  intros Hv HC. apply elements_at; [by apply zip_app|]. rewrite length_zip. lia.
Qed.

Lemma elements_open2 t' ks1 ks2 vs1 vs2 (C1 C2 : list node) a b pk pv :
  length vs1 = length ks1 -> length C1 = length ks1 ->
  elements (BTreeNode false t' (ks1 ++ pk :: ks2) (vs1 ++ pv :: vs2) (C1 ++ a :: b :: C2))
  = il (map elements C1) (zip ks1 vs1) ++ elements a
    ++ (pk, pv) :: elements b ++ tl (zip ks2 vs2) (map elements C2).
Proof.
  intros Hv HC. rewrite (elements_open1 _ ks1 _ vs1 _ C1 _ a) by done.
  cbn [zip_with map]. by rewrite tl_cons.
Qed.

Definition merged_node (lc rc : node) (pk : string) (pv : V) : node :=
  BTreeNode (leaf lc) (t_ lc) (keys lc ++ [pk] ++ keys rc)
    (values lc ++ [pv] ++ values rc)
    (if negb (leaf lc) then children lc ++ children rc else children lc).

Lemma merged_node_ok t h lc rc pk pv :
  wf t h lc -> wf t h rc ->
  wf t h (merged_node lc rc pk pv)
  /\ elements (merged_node lc rc pk pv) = elements lc ++ (pk, pv) :: elements rc
  /\ length (keys (merged_node lc rc pk pv)) = length (keys lc) + 1 + length (keys rc).
Proof.
  intros Hl Hr. unfold merged_node.
  inversion Hl as [ks vs Hvs|h' ks vs cs Hvs Hcs Hall Hsz]; subst;
    inversion Hr as [ks' vs' Hvs'|h'' ks' vs' cs' Hvs' Hcs' Hall' Hsz']; subst;
    cbn [leaf t_ keys values children negb].
  - split; [constructor; rewrite !length_app; simpl; lia|].
    split; [|rewrite !length_app; simpl; lia].
    cbn [elements]. by rewrite zip_app.
  - split; [constructor|split].
    + rewrite !length_app. simpl. lia.
    + rewrite !length_app. simpl. lia.
    + by apply Forall_app.
    + by apply Forall_app.
    + cbn [elements]. rewrite zip_app by done. rewrite fmap_app.
      apply interleave_app2.
      * rewrite length_fmap, length_zip. lia.
      * destruct cs'; [done|]. done.
    + rewrite !length_app. simpl. lia.
Qed.

Lemma merge_nodes_ok t h ks1 ks2 vs1 vs2 C1 C2 lc rc pk pv index :
  let n := BTreeNode false t (ks1 ++ pk :: ks2) (vs1 ++ pv :: vs2) (C1 ++ lc :: rc :: C2) in
  let n1 := BTreeNode false t (ks1 ++ ks2) (vs1 ++ vs2)
              (C1 ++ merged_node lc rc pk pv :: C2) in
  wf t (S h) n -> length ks1 = index -> length vs1 = index -> length C1 = index ->
  length (keys lc) + 1 + length (keys rc) <= 2 * t - 1 ->
  _merge_nodes n index = Ok n1 /\ wf t (S h) n1 /\ elements n1 = elements n.
Proof.
  intros n n1 Hwf Hk Hv HC Hsize. subst n n1.
  inversion Hwf as [|h' ks vs cs Hvs Hcs Hall Hsz]; subst h'.
  unfold _merge_nodes. cbn [children keys values leaf t_].
  assert ((C1 ++ lc :: rc :: C2) !! index = Some lc) as Hlc by (by apply lookup_middle).
  assert ((C1 ++ lc :: rc :: C2) !! (index + 1) = Some rc) as Hrc by (by apply lookup_middle2).
  assert ((ks1 ++ pk :: ks2) !! index = Some pk) as Hpk by (by apply lookup_middle).
  assert ((vs1 ++ pv :: vs2) !! index = Some pv) as Hpv by (by apply lookup_middle).
  rewrite (getitem_Ok' _ _ _ Hlc), (getitem_Ok' _ _ _ Hrc), (getitem_Ok' _ _ _ Hpk),
    (getitem_Ok' _ _ _ Hpv).
  cbn [mbind result_bind].
  rewrite (pop_at_Ok _ _ _ Hpk), (pop_at_Ok _ _ _ Hpv). cbn [mbind result_bind].
  rewrite (insert_middle C1 (rc :: C2) index) by done.
  assert ((C1 ++ merged_node lc rc pk pv :: rc :: C2) !! (index + 1) = Some rc) as Hrc'
    by (by apply lookup_middle2).
  fold (merged_node lc rc pk pv).
  rewrite (pop_at_Ok _ _ _ Hrc'). cbn [mbind result_bind].
  rewrite !delete_middle' by done. rewrite delete_middle2 by done.
  split; [done|].
  apply Forall_app in Hall as [Hall1 Hall2]. apply Forall_cons in Hall2 as [Hwl Hall2].
  apply Forall_cons in Hall2 as [Hwr Hall2].
  apply Forall_app in Hsz as [Hsz1 Hsz2]. apply Forall_cons in Hsz2 as [Hsl Hsz2].
  apply Forall_cons in Hsz2 as [Hsr Hsz2].
  destruct (merged_node_ok t h lc rc pk pv Hwl Hwr) as (Hwm & Hem & Hlm).
  rewrite !length_app in Hvs, Hcs. cbn [length] in Hvs, Hcs. split.
  - constructor.
    + rewrite !length_app. lia.
    + rewrite !length_app. cbn [length]. lia.
    + apply Forall_app. split; [done|]. by constructor.
    + apply Forall_app. split; [done|]. constructor; [|done].
      unfold size_ok in *. lia.
  - rewrite elements_open1, elements_open2 by lia. rewrite Hem. by rewrite <- !app_assoc.
Qed.

Lemma interleave_single {X} (e : list X) : interleave [e] [] = e.
Proof. unfold interleave, tl. simpl. by rewrite app_nil_r. Qed.

Lemma interleave_cons' {X} (a : list X) (es : list (list X)) k ks :
  es <> [] -> interleave (a :: es) (k :: ks) = a ++ k :: interleave es ks.
Proof. destruct es; [done|]. intros _. apply interleave_cons. Qed.

Lemma list_snoc_length {A} (l : list A) : 1 <= length l -> exists l' x, l = l' ++ [x].
Proof.
  intros H. destruct (decide (l = [])) as [->|Hne]; [simpl in H; lia|].
  destruct (exists_last Hne) as (l' & x & ->). eauto.
Qed.

Lemma borrow_from_left_ok t h ks1 ks2 vs1 vs2 C1 C2 left child pk pv j :
  let n := BTreeNode false t (ks1 ++ pk :: ks2) (vs1 ++ pv :: vs2)
             (C1 ++ left :: child :: C2) in
  wf t (S h) n -> length ks1 = j -> length vs1 = j -> length C1 = j ->
  t <= length (keys left) -> length (keys child) = t - 1 -> 2 <= t ->
  exists sk sv left' child',
    let n1 := BTreeNode false t (ks1 ++ sk :: ks2) (vs1 ++ sv :: vs2)
                (C1 ++ left' :: child' :: C2) in
    _borrow_from_left n (j + 1) = Ok n1 /\ wf t (S h) n1 /\ elements n1 = elements n
    /\ wf t h child' /\ length (keys child') = t
    /\ (forall x, x ∈ elements child -> x ∈ elements child').
Proof.
  intros n Hwf Hk Hv HC Hleft Hchild Ht. subst n.
  inversion Hwf as [|h' ks vs cs Hvs Hcs Hall Hsz]; subst h'.
  apply Forall_app in Hall as [Hall1 Hall2]. apply Forall_cons in Hall2 as [Hwl Hall2].
  apply Forall_cons in Hall2 as [Hwc Hall2].
  apply Forall_app in Hsz as [Hsz1 Hsz2]. apply Forall_cons in Hsz2 as [Hsl Hsz2].
  apply Forall_cons in Hsz2 as [Hsc Hsz2].
  rewrite !length_app in Hvs, Hcs. cbn [length] in Hvs, Hcs.
  unfold _borrow_from_left. cbn [children keys values leaf t_].
  rewrite Nat.add_sub.
  assert ((C1 ++ left :: child :: C2) !! (j + 1) = Some child) as Hc by (by apply lookup_middle2).
  assert ((C1 ++ left :: child :: C2) !! j = Some left) as Hl by (by apply lookup_middle).
  assert ((ks1 ++ pk :: ks2) !! j = Some pk) as Hpk by (by apply lookup_middle).
  assert ((vs1 ++ pv :: vs2) !! j = Some pv) as Hpv by (by apply lookup_middle).
  rewrite (getitem_Ok' _ _ _ Hc), (getitem_Ok' _ _ _ Hl), (getitem_Ok' _ _ _ Hpk),
    (getitem_Ok' _ _ _ Hpv).
  cbn [mbind result_bind].
  assert (forall a b, <[j := a]> (<[j + 1 := b]> (C1 ++ left :: child :: C2))
                      = C1 ++ a :: b :: C2) as Hcs'.
  { intros a b. rewrite (insert_middle2 C1 C2 j) by done. by rewrite insert_middle. }
  assert (forall x, setitem (ks1 ++ pk :: ks2) j x = Ok (ks1 ++ x :: ks2)) as Hsk.
  { intros x. rewrite setitem_Ok' by (rewrite length_app; cbn [length]; lia).
    by rewrite insert_middle. }
  assert (forall x, setitem (vs1 ++ pv :: vs2) j x = Ok (vs1 ++ x :: vs2)) as Hsv.
  { intros x. rewrite setitem_Ok' by (rewrite length_app; cbn [length]; lia).
    by rewrite insert_middle. }
  destruct (list_snoc_length (keys left)) as (lk & sk & Hlk); [lia|].
  destruct (list_snoc_length (values left)) as (lv & sv & Hlv).
  { rewrite (wf_values _ _ _ Hwl). lia. }
  pose proof (wf_values _ _ _ Hwl) as Hlvs. rewrite Hlk, Hlv, !length_app in Hlvs.
  cbn [length] in Hlvs.
  rewrite Hlk, Hlv, !pop_last_Ok. cbn [mbind result_bind].
  exists sk, sv.
  inversion Hwl as [lks lvs Hlvs'|h' lks lvs lcs Hlvs' Hlcs Hlall Hlsz]; subst;
    inversion Hwc as [cks cvs Hcvs|h'' cks cvs ccs Hcvs Hccs Hcall Hcsz]; subst;
    cbn [leaf t_ keys values children negb] in *; subst.
  - (* leaves *)
    cbn [mbind result_bind]. rewrite Hsk, Hsv. cbn [mbind result_bind]. rewrite Hcs'.
    eexists _, _. split; [done|].
    rewrite length_app in Hleft. cbn [length] in Hleft.
    split; [|split; [|split; [|split]]].
    + constructor; rewrite ?length_app; cbn [length]; try lia.
      * apply Forall_app. split; [done|].
        apply Forall_cons. split; [constructor; lia|].
        apply Forall_cons. split; [constructor; cbn [length]; lia|done].
      * apply Forall_app. split; [done|]. unfold size_ok in *. cbn [keys length] in *.
        rewrite ?length_app in Hsl. cbn [length] in Hsl.
        apply Forall_cons. split; [cbn [keys length]; lia|].
        apply Forall_cons. split; [cbn [keys length]; lia|done].
    + rewrite !elements_open2 by lia. cbn [elements zip_with].
      rewrite zip_snoc by lia. by rewrite <- !app_assoc.
    + constructor. cbn [length]. lia.
    + cbn [keys length]. lia.
    + intros x Hx. cbn [elements zip_with]. by right.
  - (* internal *)
    destruct (list_snoc_length lcs) as (lc & sc & ->); [lia|].
    rewrite pop_last_Ok. cbn [mbind result_bind]. rewrite Hsk, Hsv.
    cbn [mbind result_bind]. rewrite Hcs'. eexists _, _. split; [done|].
    rewrite !length_app in *. cbn [length] in *.
    apply Forall_app in Hlall as [Hlall1 Hlall2]. apply Forall_cons in Hlall2 as [Hwsc _].
    apply Forall_app in Hlsz as [Hlsz1 Hlsz2]. apply Forall_cons in Hlsz2 as [Hssc _].
    assert (elements (BTreeNode false t (cks) cvs ccs) = elements (BTreeNode false t cks cvs ccs))
      as _ by done.
    assert (elements (BTreeNode false t (pk :: cks) (pv :: cvs) (sc :: ccs))
            = elements sc ++ (pk, pv) :: elements (BTreeNode false t cks cvs ccs)) as Hec.
    { cbn [elements map zip_with]. apply interleave_cons'. destruct ccs; [done|]. done. }
    split; [|split; [|split; [|split]]].
    + constructor; rewrite ?length_app; cbn [length]; try lia.
      * apply Forall_app. split; [done|].
        apply Forall_cons. split; [constructor; (done || lia)|].
        apply Forall_cons. split; [|done].
        constructor; cbn [length]; try lia; by constructor.
      * apply Forall_app. split; [done|]. unfold size_ok in *. cbn [keys length] in *.
        rewrite ?length_app in Hsl. cbn [length] in Hsl.
        apply Forall_cons. split; [cbn [keys length]; lia|].
        apply Forall_cons. split; [cbn [keys length]; lia|done].
    + rewrite !elements_open2 by lia. rewrite Hec.
      cbn [elements]. rewrite zip_snoc by lia. rewrite fmap_app. cbn [fmap list_fmap].
      rewrite <- (app_nil_r [(sk, sv)]). cbn [app].
      rewrite interleave_app2 by (done || (rewrite length_fmap, length_zip; lia)).
      rewrite interleave_single. by rewrite <- !app_assoc.
    + constructor; cbn [length]; try lia; by constructor.
    + cbn [keys length]. lia.
    + intros x Hx. rewrite Hec. apply elem_of_app. right. by right.
Qed.

Lemma borrow_from_right_ok t h ks1 ks2 vs1 vs2 C1 C2 child right pk pv j :
  let n := BTreeNode false t (ks1 ++ pk :: ks2) (vs1 ++ pv :: vs2)
             (C1 ++ child :: right :: C2) in
  wf t (S h) n -> length ks1 = j -> length vs1 = j -> length C1 = j ->
  t <= length (keys right) -> length (keys child) = t - 1 -> 2 <= t ->
  exists sk sv child' right',
    let n1 := BTreeNode false t (ks1 ++ sk :: ks2) (vs1 ++ sv :: vs2)
                (C1 ++ child' :: right' :: C2) in
    _borrow_from_right n j = Ok n1 /\ wf t (S h) n1 /\ elements n1 = elements n
    /\ wf t h child' /\ length (keys child') = t
    /\ (forall x, x ∈ elements child -> x ∈ elements child').
Proof.
  intros n Hwf Hk Hv HC Hright Hchild Ht. subst n.
  inversion Hwf as [|h' ks vs cs Hvs Hcs Hall Hsz]; subst h'.
  apply Forall_app in Hall as [Hall1 Hall2]. apply Forall_cons in Hall2 as [Hwc Hall2].
  apply Forall_cons in Hall2 as [Hwr Hall2].
  apply Forall_app in Hsz as [Hsz1 Hsz2]. apply Forall_cons in Hsz2 as [Hsc Hsz2].
  apply Forall_cons in Hsz2 as [Hsr Hsz2].
  rewrite !length_app in Hvs, Hcs. cbn [length] in Hvs, Hcs.
  unfold _borrow_from_right. cbn [children keys values leaf t_].
  assert ((C1 ++ child :: right :: C2) !! j = Some child) as Hc by (by apply lookup_middle).
  assert ((C1 ++ child :: right :: C2) !! (j + 1) = Some right) as Hr
    by (by apply lookup_middle2).
  assert ((ks1 ++ pk :: ks2) !! j = Some pk) as Hpk by (by apply lookup_middle).
  assert ((vs1 ++ pv :: vs2) !! j = Some pv) as Hpv by (by apply lookup_middle).
  rewrite (getitem_Ok' _ _ _ Hc), (getitem_Ok' _ _ _ Hr), (getitem_Ok' _ _ _ Hpk),
    (getitem_Ok' _ _ _ Hpv).
  cbn [mbind result_bind].
  assert (forall a b, <[j + 1 := b]> (<[j := a]> (C1 ++ child :: right :: C2))
                      = C1 ++ a :: b :: C2) as Hcs'.
  { intros a b. rewrite (insert_middle C1 _ j) by done. by rewrite insert_middle2. }
  assert (forall x, setitem (ks1 ++ pk :: ks2) j x = Ok (ks1 ++ x :: ks2)) as Hsk.
  { intros x. rewrite setitem_Ok' by (rewrite length_app; cbn [length]; lia).
    by rewrite insert_middle. }
  assert (forall x, setitem (vs1 ++ pv :: vs2) j x = Ok (vs1 ++ x :: vs2)) as Hsv.
  { intros x. rewrite setitem_Ok' by (rewrite length_app; cbn [length]; lia).
    by rewrite insert_middle. }
  pose proof (wf_values _ _ _ Hwr) as Hrvs.
  destruct (keys right) as [|sk rk] eqn:Hrk; [cbn [length] in Hright; lia|].
  destruct (values right) as [|sv rv] eqn:Hrv; [done|].
  cbn [length] in Hrvs, Hright.
  change (pop_at (sk :: rk) 0) with (Ok (sk, rk) : result (string * list string)).
  change (pop_at (sv :: rv) 0) with (Ok (sv, rv) : result (V * list V)).
  cbn [mbind result_bind].
  exists sk, sv.
  inversion Hwr as [rks rvs Hrvs'|h' rks rvs rcs Hrvs' Hrcs Hrall Hrsz]; subst;
    inversion Hwc as [cks cvs Hcvs|h'' cks cvs ccs Hcvs Hccs Hcall Hcsz]; subst;
    cbn [leaf t_ keys values children negb] in *; subst.
  - (* leaves *)
    cbn [mbind result_bind]. rewrite Hsk, Hsv. cbn [mbind result_bind]. rewrite Hcs'.
    eexists _, _. split; [done|].
    split; [|split; [|split; [|split]]].
    + constructor; rewrite ?length_app; cbn [length]; try lia.
      * apply Forall_app. split; [done|].
        apply Forall_cons. split; [constructor; rewrite !length_app; cbn [length]; lia|].
        apply Forall_cons. split; [constructor; lia|done].
      * apply Forall_app. split; [done|]. unfold size_ok in *. cbn [keys length] in *.
        apply Forall_cons. split; [cbn [keys]; rewrite length_app; cbn [length]; lia|].
        apply Forall_cons. split; [cbn [keys length]; lia|done].
    + rewrite !elements_open2 by lia. cbn [elements zip_with].
      rewrite zip_snoc by lia. by rewrite <- !app_assoc.
    + constructor. rewrite !length_app. cbn [length]. lia.
    + cbn [keys]. rewrite length_app. cbn [length]. lia.
    + intros x Hx. cbn [elements]. rewrite zip_snoc by lia. apply elem_of_app. by left.
  - (* internal *)
    destruct rcs as [|sc rcs]; [cbn [length] in Hrcs; lia|].
    change (pop_at (sc :: rcs) 0) with (Ok (sc, rcs) : result (node * list node)).
    cbn [mbind result_bind]. rewrite Hsk, Hsv.
    cbn [mbind result_bind]. rewrite Hcs'. eexists _, _. split; [done|].
    cbn [length] in *.
    apply Forall_cons in Hrall as [Hwsc Hrall]. apply Forall_cons in Hrsz as [Hssc Hrsz].
    assert (elements (BTreeNode false t (cks ++ [pk]) (cvs ++ [pv]) (ccs ++ [sc]))
            = elements (BTreeNode false t cks cvs ccs) ++ (pk, pv) :: elements sc) as Hec.
    { cbn [elements]. rewrite zip_snoc by lia. rewrite fmap_app. cbn [fmap list_fmap].
      rewrite interleave_app2 by (done || (rewrite length_fmap, length_zip; lia)).
      by rewrite interleave_single. }
    assert (elements (BTreeNode false t (sk :: rk) (sv :: rv) (sc :: rcs))
            = elements sc ++ (sk, sv) :: elements (BTreeNode false t rk rv rcs)) as Her.
    { cbn [elements map zip_with]. apply interleave_cons'. destruct rcs; [|done].
      cbn [length] in Hrcs. lia. }
    split; [|split; [|split; [|split]]].
    + constructor; rewrite ?length_app; cbn [length]; try lia.
      * apply Forall_app. split; [done|].
        apply Forall_cons. split.
        { constructor; rewrite ?length_app; cbn [length]; try lia;
            (apply Forall_app; split; [done|by apply Forall_singleton]). }
        apply Forall_cons. split; [|done]. constructor; (done || lia).
      * apply Forall_app. split; [done|]. unfold size_ok in *. cbn [keys length] in *.
        apply Forall_cons. split; [cbn [keys]; rewrite length_app; cbn [length]; lia|].
        apply Forall_cons. split; [cbn [keys length]; lia|done].
    + rewrite !elements_open2 by lia. rewrite Hec, Her. by rewrite <- !app_assoc.
    + constructor; rewrite ?length_app; cbn [length]; try lia;
        (apply Forall_app; split; [done|by apply Forall_singleton]).
    + cbn [keys]. rewrite length_app. cbn [length]. lia.
    + intros x Hx. rewrite Hec. apply elem_of_app. by left.
Qed.

(** ** predecessor and successor *)

Lemma zip_last (ks : list string) (vs : list V) :
  length vs = length ks -> 1 <= length ks ->
  exists pk pv, ks !! (length ks - 1) = Some pk /\ vs !! (length ks - 1) = Some pv
    /\ last (zip ks vs) = Some (pk, pv).
Proof.
  intros Hlen Hne.
  destruct (list_snoc_length ks Hne) as (ks' & pk & ->).
  destruct (list_snoc_length vs ltac:(lia)) as (vs' & pv & ->).
  rewrite !length_app in *. cbn [length] in *. exists pk, pv.
  replace (length ks' + 1 - 1) with (length ks') by lia.
  split; [by apply lookup_middle|]. split; [apply lookup_middle; lia|].
  rewrite zip_snoc by lia. apply last_snoc.
Qed.

Lemma predecessor_leaf_ok t : 2 <= t -> forall h c,
  wf t h c -> 1 <= length (keys c) ->
  exists lf pk pv, _get_predecessor_leaf c = Ok lf
    /\ keys lf !! (length (keys lf) - 1) = Some pk
    /\ values lf !! (length (keys lf) - 1) = Some pv
    /\ last (elements c) = Some (pk, pv).
Proof.
  intros Ht. induction h as [|h IH]; intros c Hwf Hne;
    inversion Hwf as [ks vs Hvs|h' ks vs cs Hvs Hcs Hall Hsz]; subst;
    cbn [keys] in Hne.
  - destruct (zip_last ks vs Hvs Hne) as (pk & pv & Hpk & Hpv & Hl).
    eexists _, pk, pv. split; [done|]. done.
  - cbn [_get_predecessor_leaf].
    destruct (list_snoc_length cs ltac:(lia)) as (C1 & cl & ->).
    rewrite length_app in *. cbn [length] in *.
    apply Forall_app in Hall as [_ Hall]. apply Forall_cons in Hall as [Hwl _].
    apply Forall_app in Hsz as [_ Hsz]. apply Forall_cons in Hsz as [Hsl _].
    replace (length C1 + 1 - 1) with (length C1) by lia.
    rewrite (at_child_lookup _ _ _ cl) by (by apply lookup_middle).
    destruct (IH cl Hwl) as (lf & pk & pv & -> & Hpk & Hpv & Hl).
    { unfold size_ok in Hsl. lia. }
    exists lf, pk, pv. split; [done|]. split; [done|]. split; [done|].
    cbn [elements]. rewrite fmap_app. cbn [fmap list_fmap].
    rewrite <- (app_nil_r (zip ks vs)).
    rewrite interleave_app by (rewrite length_fmap, length_zip; lia).
    unfold tl. cbn [zip_with concat]. rewrite app_nil_r, last_app, Hl. done.
Qed.

Lemma successor_leaf_ok t : 2 <= t -> forall h c,
  wf t h c -> 1 <= length (keys c) ->
  exists lf sk sv, _get_successor_leaf c = Ok lf
    /\ keys lf !! 0 = Some sk /\ values lf !! 0 = Some sv
    /\ head (elements c) = Some (sk, sv).
Proof.
  intros Ht. induction h as [|h IH]; intros c Hwf Hne;
    inversion Hwf as [ks vs Hvs|h' ks vs cs Hvs Hcs Hall Hsz]; subst;
    cbn [keys] in Hne.
  - destruct ks as [|sk ks]; [cbn [length] in Hne; lia|].
    destruct vs as [|sv vs]; [done|].
    eexists _, sk, sv. split; [done|]. done.
  - cbn [_get_successor_leaf].
    destruct cs as [|c0 cs]; [done|].
    apply Forall_cons in Hall as [Hw0 _]. apply Forall_cons in Hsz as [Hs0 _].
    cbn [at_child].
    destruct (IH c0 Hw0) as (lf & sk & sv & -> & Hsk & Hsv & Hh).
    { unfold size_ok in Hs0. lia. }
    exists lf, sk, sv. split; [done|]. split; [done|]. split; [done|].
    cbn [elements map interleave]. rewrite head_app, Hh. done.
Qed.

(** ** what a deletion in a node must achieve *)

Definition deleted_spec (key : string) (n n' : node) (d : bool) : Prop :=
  (length (keys n) <= S (length (keys n')) /\ length (keys n') <= length (keys n))
  /\ (d = false -> elements n' = elements n /\ key ∉ (elements n).*1)
  /\ (d = true -> (elements n).*1 ≡ₚ key :: (elements n').*1)
  /\ sorted (elements n')
  /\ (forall x, x ∈ elements n' -> x ∈ elements n).

Lemma route_child t h ks vs cs key c :
  let n := BTreeNode false t ks vs cs in
  wf t (S h) n -> sorted (elements n) ->
  (forall k, ks !! first_ge ks key = Some k -> k <> key) ->
  cs !! first_ge ks key = Some c ->
  key ∈ (elements n).*1 -> key ∈ (elements c).*1.
Proof.
  intros n Hwf Hs Hnf Hc Hin. subst n.
  inversion Hwf as [|h' ks' vs' cs' Hvs Hcs Hall Hsz]; subst.
  destruct (first_ge_spec ks key) as (Hi & Hlt & Hge).
  set (i := first_ge ks key) in *.
  destruct (split_at_lookup _ _ _ Hc) as (C1 & C2 & -> & HlenC1).
  rewrite length_app in Hcs. cbn [length] in Hcs.
  assert (zip ks vs = take i (zip ks vs) ++ drop i (zip ks vs)) as HK
    by (by rewrite take_drop).
  rewrite (elements_at t ks vs C1 C2 c _ _ HK) in Hs, Hin
    by (rewrite length_take, length_zip; lia).
  rewrite !fmap_app in Hin.
  assert (length vs = length ks) as Hvs' by done.
  apply elem_of_app in Hin as [Hin|Hin]; [|apply elem_of_app in Hin as [Hin|Hin]; [done|]];
    exfalso; apply list_elem_of_fmap in Hin as (x & Hkx & Hx).
  - assert (Forall (fun x : kv => lt x.1 key) (il (map elements C1) (take i (zip ks vs)))) as Hb.
    { eapply il_below; [|exact Hs|].
      - rewrite length_fmap, length_take, length_zip. lia.
      - apply Forall_forall. intros y Hy. rewrite Forall_forall in Hlt. apply Hlt.
        rewrite <- (fst_zip ks vs) by lia. rewrite <- fmap_take. by apply list_elem_of_fmap_2. }
    rewrite Forall_forall in Hb. specialize (Hb x Hx). rewrite <- Hkx in Hb.
    by apply lt_irrefl in Hb.
  - destruct (drop i (zip ks vs)) as [|kh K2] eqn:EK; [by apply not_elem_of_nil in Hx|].
    assert (zip ks vs !! i = Some kh) as Hkh.
    { rewrite <- (Nat.add_0_r i), <- lookup_drop, EK. done. }
    assert (ks !! i = Some kh.1) as Hki.
    { rewrite <- (fst_zip ks vs) at 1 by lia. by rewrite list_lookup_fmap, Hkh. }
    assert (lt key kh.1) as Hlt'.
    { rewrite (drop_lookup _ _ _ Hki) in Hge. cbn [take] in Hge.
      apply Forall_cons in Hge as [Hge _]. apply le_lt_or_eq in Hge as [?|Heq]; [done|].
      exfalso. by apply (Hnf _ Hki). }
    assert (Forall (kv_le kh) (tl (kh :: K2) (map elements C2))) as Hb.
    { apply tl_ge_head; [| |done].
      - apply (f_equal length) in EK. rewrite length_drop, length_zip in EK.
        cbn [length] in EK. rewrite length_fmap. cbn [length]. lia.
      - by do 2 apply StronglySorted_app_1_r in Hs. }
    rewrite Forall_forall in Hb. specialize (Hb x Hx).
    apply (lt_irrefl key). eapply lt_le_trans; [exact Hlt'|]. by rewrite Hkx.
Qed.

Lemma delete_descend t h ks vs cs i c1 c1' d key :
  let n1 := BTreeNode false t ks vs cs in
  let n' := BTreeNode false t ks vs (<[i := c1']> cs) in
  wf t (S h) n1 -> sorted (elements n1) -> cs !! i = Some c1 ->
  wf t h c1' -> deleted_spec key c1 c1' d -> t <= length (keys c1) ->
  (key ∈ (elements n1).*1 -> key ∈ (elements c1).*1) ->
  wf t (S h) n' /\ deleted_spec key n1 n' d.
Proof.
  intros n1 n' Hwf Hs Hc Hwf' ((Hl1 & Hl2) & Hf & Ht & Hs' & Hsub) Hsize Hroute.
  subst n1 n'.
  assert (size_ok t c1') as Hsz'.
  { inversion Hwf as [|h' ks' vs' cs' Hvs Hcs Hall Hsz]; subst.
    pose proof (Forall_lookup_1 _ _ _ _ Hsz Hc) as [_ Hup]. unfold size_ok. lia. }
  split; [by apply wf_replace_child|].
  inversion Hwf as [|h' ks' vs' cs' Hvs Hcs Hall Hsz]; subst.
  destruct (split_at_lookup _ _ _ Hc) as (C1 & C2 & -> & HlenC1).
  rewrite length_app in Hcs. cbn [length] in Hcs.
  rewrite (insert_middle C1 C2 i) by done.
  assert (zip ks vs = take i (zip ks vs) ++ drop i (zip ks vs)) as HK
    by (by rewrite take_drop).
  assert (length C1 = length (take i (zip ks vs))) as HlenK
    by (rewrite length_take, length_zip; lia).
  unfold deleted_spec. cbn [keys].
  rewrite (elements_at t ks vs C1 C2 c1 _ _ HK HlenK) in *.
  rewrite (elements_at t ks vs C1 C2 c1' _ _ HK HlenK).
  split; [lia|]. split; [|split; [|split]].
  - intros Hd. destruct (Hf Hd) as [-> Hnin]. split; [done|].
    intros Hin. by apply Hnin, Hroute.
  - intros Hd. rewrite !fmap_app, (Ht Hd). cbn [app]. by rewrite <- Permutation_middle.
  - by eapply sorted_replace_middle.
  - intros x. rewrite !elem_of_app. naive_solver.
Qed.

Lemma sorted_head_all (l : list kv) y :
  sorted l -> head l = Some y -> Forall (kv_le y) l.
Proof.
  intros Hs Hh. destruct l as [|y' l]; simplify_eq/=.
  apply StronglySorted_cons in Hs as [Hs _]. constructor; [apply le_refl|done].
Qed.

Lemma delete_pred_case t h ks1 ks2 vs1 vs2 C1 C2 lc lc' rc key v pk pv :
  let n := BTreeNode false t (ks1 ++ key :: ks2) (vs1 ++ v :: vs2)
             (C1 ++ lc :: rc :: C2) in
  let n' := BTreeNode false t (ks1 ++ pk :: ks2) (vs1 ++ pv :: vs2)
              (C1 ++ lc' :: rc :: C2) in
  wf t (S h) n -> sorted (elements n) ->
  length ks1 = length C1 -> length vs1 = length C1 ->
  t <= length (keys lc) -> wf t h lc' -> deleted_spec pk lc lc' true ->
  last (elements lc) = Some (pk, pv) ->
  wf t (S h) n' /\ deleted_spec key n n' true.
Proof.
  intros n n' Hwf Hs Hk Hv Hsize Hwf' ((Hl1 & Hl2) & _ & Hperm & Hs' & Hsub) Hlast.
  subst n n'. specialize (Hperm eq_refl).
  inversion Hwf as [|h' ks vs cs Hvs Hcs Hall Hsz]; subst h'.
  apply Forall_app in Hall as [Hall1 Hall2]. apply Forall_cons in Hall2 as [Hwl Hall2].
  apply Forall_app in Hsz as [Hsz1 Hsz2]. apply Forall_cons in Hsz2 as [Hsl Hsz2].
  rewrite !length_app in Hvs, Hcs. cbn [length] in Hvs, Hcs.
  split.
  { constructor; rewrite ?length_app; cbn [length]; try lia.
    - apply Forall_app. split; [done|]. by constructor.
    - apply Forall_app. split; [done|]. constructor; [|done].
      unfold size_ok in *. lia. }
  unfold deleted_spec. cbn [keys]. rewrite !elements_open2 in * by lia.
  set (A := il _ _) in *. set (R := elements rc ++ _) in *.
  assert (sorted (elements lc)) as Hslc.
  { by apply StronglySorted_app_1_r, StronglySorted_app_1_l in Hs. }
  pose proof (sorted_le_last _ _ Hslc Hlast) as Hle. rewrite Forall_forall in Hle.
  pose proof (last_Some_elem_of _ _ Hlast) as Hin.
  split; [rewrite !length_app; cbn [length]; lia|]. split; [done|]. split; [|split].
  - intros _. rewrite !fmap_app, !fmap_cons, Hperm. cbn [fst]. solve_Permutation.
  - replace (A ++ elements lc' ++ (pk, pv) :: R)
      with (A ++ (elements lc' ++ [(pk, pv)]) ++ R) by (by rewrite <- !app_assoc).
    apply (sorted_replace_middle A (elements lc ++ [(key, v)])).
    + by rewrite <- !app_assoc.
    + apply StronglySorted_app_2; [|done|repeat constructor].
      intros x1 x2 Hx1 ->%list_elem_of_singleton. by apply Hle, Hsub.
    + intros y [Hy| ->%list_elem_of_singleton]%elem_of_app; apply elem_of_app; left; auto.
  - intros x. rewrite !elem_of_app, !elem_of_cons. naive_solver.
Qed.

Lemma delete_succ_case t h ks1 ks2 vs1 vs2 C1 C2 lc rc rc' key v sk sv :
  let n := BTreeNode false t (ks1 ++ key :: ks2) (vs1 ++ v :: vs2)
             (C1 ++ lc :: rc :: C2) in
  let n' := BTreeNode false t (ks1 ++ sk :: ks2) (vs1 ++ sv :: vs2)
              (C1 ++ lc :: rc' :: C2) in
  wf t (S h) n -> sorted (elements n) ->
  length ks1 = length C1 -> length vs1 = length C1 ->
  t <= length (keys rc) -> wf t h rc' -> deleted_spec sk rc rc' true ->
  head (elements rc) = Some (sk, sv) ->
  wf t (S h) n' /\ deleted_spec key n n' true.
Proof.
  intros n n' Hwf Hs Hk Hv Hsize Hwf' ((Hl1 & Hl2) & _ & Hperm & Hs' & Hsub) Hhead.
  subst n n'. specialize (Hperm eq_refl).
  inversion Hwf as [|h' ks vs cs Hvs Hcs Hall Hsz]; subst h'.
  apply Forall_app in Hall as [Hall1 Hall2]. apply Forall_cons in Hall2 as [Hwl Hall2].
  apply Forall_cons in Hall2 as [Hwr Hall2].
  apply Forall_app in Hsz as [Hsz1 Hsz2]. apply Forall_cons in Hsz2 as [Hsl Hsz2].
  apply Forall_cons in Hsz2 as [Hsr Hsz2].
  rewrite !length_app in Hvs, Hcs. cbn [length] in Hvs, Hcs.
  split.
  { constructor; rewrite ?length_app; cbn [length]; try lia.
    - apply Forall_app. split; [done|]. by repeat constructor.
    - apply Forall_app. split; [done|]. constructor; [done|]. constructor; [|done].
      unfold size_ok in *. lia. }
  unfold deleted_spec. cbn [keys]. rewrite !elements_open2 in * by lia.
  set (A := il _ _) in *. set (T := tl _ _) in *.
  assert (sorted (elements rc)) as Hsrc.
  { do 2 apply StronglySorted_app_1_r in Hs. apply StronglySorted_cons in Hs as [_ Hs].
    by apply StronglySorted_app_1_l in Hs. }
  pose proof (sorted_head_all _ _ Hsrc Hhead) as Hle. rewrite Forall_forall in Hle.
  pose proof (head_Some_elem_of _ _ Hhead) as Hin.
  split; [rewrite !length_app; cbn [length]; lia|]. split; [done|]. split; [|split].
  - intros _. rewrite !fmap_app, !fmap_cons, !fmap_app, Hperm. cbn [fst]. solve_Permutation.
  - replace (A ++ elements lc ++ (sk, sv) :: elements rc' ++ T)
      with ((A ++ elements lc) ++ ((sk, sv) :: elements rc') ++ T)
      by (by rewrite <- !app_assoc).
    apply (sorted_replace_middle _ ((key, v) :: elements rc)).
    + by rewrite <- !app_assoc.
    + constructor; [done|]. apply Forall_forall. intros x Hx. by apply Hle, Hsub.
    + intros y [->|Hy]%elem_of_cons; right; auto.
  - intros x. rewrite !elem_of_app, !elem_of_cons, !elem_of_app. naive_solver.
Qed.

(** ** the borrow-or-merge step before descending *)

Lemma open_node2 t h ks vs cs j a b :
  wf t (S h) (BTreeNode false t ks vs cs) ->
  cs !! j = Some a -> cs !! (j + 1) = Some b ->
  exists ks1 pk ks2 vs1 pv vs2 C1 C2,
    ks = ks1 ++ pk :: ks2 /\ vs = vs1 ++ pv :: vs2 /\ cs = C1 ++ a :: b :: C2
    /\ length ks1 = j /\ length vs1 = j /\ length C1 = j.
Proof.
  intros Hwf Ha Hb.
  inversion Hwf as [|h' ks' vs' cs' Hvs Hcs Hall Hsz]; subst.
  pose proof (lookup_lt_Some _ _ _ Hb) as Hlt.
  destruct (lookup_lt_is_Some_2 ks j ltac:(lia)) as [pk Hpk].
  destruct (lookup_lt_is_Some_2 vs j ltac:(lia)) as [pv Hpv].
  destruct (split_at_lookup _ _ _ Hpk) as (ks1 & ks2 & -> & Hk1).
  destruct (split_at_lookup _ _ _ Hpv) as (vs1 & vs2 & -> & Hv1).
  destruct (split_at_lookup2 _ _ _ _ Ha Hb) as (C1 & C2 & -> & HC1).
  by exists ks1, pk, ks2, vs1, pv, vs2, C1, C2.
Qed.

Lemma ensure_ok t h ks vs cs i c :
  2 <= t -> wf t (S h) (BTreeNode false t ks vs cs) -> 1 <= length ks ->
  cs !! i = Some c ->
  exists n1 i1 c1,
    _ensure_child_has_enough_keys t (BTreeNode false t ks vs cs) i = Ok (n1, i1)
    /\ wf t (S h) n1 /\ elements n1 = elements (BTreeNode false t ks vs cs)
    /\ length ks <= S (length (keys n1)) /\ length (keys n1) <= length ks
    /\ children n1 !! i1 = Some c1 /\ t <= length (keys c1)
    /\ (forall x, x ∈ elements c -> x ∈ elements c1).
Proof.
  intros Ht Hwf Hne Hc.
  pose proof Hwf as Hwf0.
  inversion Hwf as [|h' ks' vs' cs' Hvs Hcs Hall Hsz]; subst.
  pose proof (Forall_lookup_1 _ _ _ _ Hsz Hc) as [Hc1 Hc2].
  pose proof (lookup_lt_Some _ _ _ Hc) as Hi.
  unfold _ensure_child_has_enough_keys. cbn [children keys].
  rewrite (getitem_Ok' _ _ _ Hc). cbn [mbind result_bind].
  destruct (Nat.eqb_spec (length (keys c)) (t - 1)) as [Hmin|Hmin].
  2:{ exists (BTreeNode false t ks vs cs), i, c. cbn [keys children].
      repeat split; try done; lia. }
  (* the left sibling, when there is one *)
  assert ((0 < i /\ exists ls, cs !! (i - 1) = Some ls /\ t <= length (keys ls))
          \/ ~ (0 < i /\ exists ls, cs !! (i - 1) = Some ls /\ t <= length (keys ls)))
    as [(Hi0 & ls & Hls & Hlsz)|Hnl].
  { destruct (decide (0 < i)); [|right; naive_solver].
    destruct (cs !! (i - 1)) as [ls|]; [|right; naive_solver].
    destruct (decide (t <= length (keys ls))); [left; eauto|right; naive_solver]. }
  { replace (0 <? i) with true by (symmetry; by apply Nat.ltb_lt).
    rewrite (getitem_Ok' _ _ _ Hls). cbn [mbind result_bind].
    replace (t <=? length (keys ls)) with true by (symmetry; by apply Nat.leb_le).
    replace i with ((i - 1) + 1) in Hc |- * by lia.
    destruct (open_node2 _ _ _ _ _ _ _ _ Hwf0 Hls Hc)
      as (ks1 & pk & ks2 & vs1 & pv & vs2 & C1 & C2 & -> & -> & -> & Hk1 & Hv1 & HC1).
    destruct (borrow_from_left_ok t h ks1 ks2 vs1 vs2 C1 C2 ls c pk pv (i - 1))
      as (sk & sv & left' & child' & Hb & Hwf1 & Hel1 & Hwc' & Hlc' & Hsub); try done.
    cbv zeta in Hb, Hwf1, Hel1. rewrite Hb. cbn [mbind result_bind].
    eexists _, _, child'. split; [done|]. split; [done|]. split; [done|].
    cbn [keys children]. rewrite !length_app. cbn [length].
    split; [lia|]. split; [lia|]. split; [by apply lookup_middle2|]. split; [lia|done]. }
  assert ((if 0 <? i then ls ← getitem cs (i - 1); Ok (t <=? length (keys ls)) else Ok false)
          = Ok false) as ->.
  { destruct (Nat.ltb_spec 0 i) as [Hi0|]; [|done].
    destruct (lookup_lt_is_Some_2 cs (i - 1) ltac:(lia)) as [ls Hls].
    rewrite (getitem_Ok' _ _ _ Hls). cbn [mbind result_bind]. f_equal.
    apply Nat.leb_gt. destruct (decide (t <= length (keys ls))); [|lia].
    exfalso. apply Hnl. eauto. }
  cbn [mbind result_bind].
  assert ((i < length cs - 1 /\ exists rs, cs !! (i + 1) = Some rs /\ t <= length (keys rs))
          \/ ~ (i < length cs - 1 /\ exists rs, cs !! (i + 1) = Some rs /\ t <= length (keys rs)))
    as [(Hi1 & rs & Hrs & Hrsz)|Hnr].
  { destruct (decide (i < length cs - 1)); [|right; naive_solver].
    destruct (cs !! (i + 1)) as [rs|]; [|right; naive_solver].
    destruct (decide (t <= length (keys rs))); [left; eauto|right; naive_solver]. }
  { replace (i <? length cs - 1) with true by (symmetry; by apply Nat.ltb_lt).
    rewrite (getitem_Ok' _ _ _ Hrs). cbn [mbind result_bind].
    replace (t <=? length (keys rs)) with true by (symmetry; by apply Nat.leb_le).
    destruct (open_node2 _ _ _ _ _ _ _ _ Hwf0 Hc Hrs)
      as (ks1 & pk & ks2 & vs1 & pv & vs2 & C1 & C2 & -> & -> & -> & Hk1 & Hv1 & HC1).
    destruct (borrow_from_right_ok t h ks1 ks2 vs1 vs2 C1 C2 c rs pk pv i)
      as (sk & sv & child' & right' & Hb & Hwf1 & Hel1 & Hwc' & Hlc' & Hsub); try done.
    cbv zeta in Hb, Hwf1, Hel1. rewrite Hb. cbn [mbind result_bind].
    eexists _, _, child'. split; [done|]. split; [done|]. split; [done|].
    cbn [keys children]. rewrite !length_app. cbn [length].
    split; [lia|]. split; [lia|]. split; [by apply lookup_middle|]. split; [lia|done]. }
  assert ((if i <? length cs - 1 then rs ← getitem cs (i + 1); Ok (t <=? length (keys rs))
           else Ok false) = Ok false) as ->.
  { destruct (Nat.ltb_spec i (length cs - 1)) as [Hi1|]; [|done].
    destruct (lookup_lt_is_Some_2 cs (i + 1) ltac:(lia)) as [rs Hrs].
    rewrite (getitem_Ok' _ _ _ Hrs). cbn [mbind result_bind]. f_equal.
    apply Nat.leb_gt. destruct (decide (t <= length (keys rs))); [|lia].
    exfalso. apply Hnr. eauto. }
  cbn [mbind result_bind].
  destruct (Nat.eqb_spec i (length cs - 1)) as [Hlast|Hnlast].
  - (* merge with the left sibling *)
    destruct (lookup_lt_is_Some_2 cs (i - 1) ltac:(lia)) as [ls Hls].
    pose proof (Forall_lookup_1 _ _ _ _ Hsz Hls) as [Hl1 Hl2].
    assert (length (keys ls) < t) as Hlsz.
    { destruct (decide (t <= length (keys ls))); [|lia]. exfalso. apply Hnl.
      split; [lia|eauto]. }
    replace i with ((i - 1) + 1) in Hc by lia.
    destruct (open_node2 _ _ _ _ _ _ _ _ Hwf0 Hls Hc)
      as (ks1 & pk & ks2 & vs1 & pv & vs2 & C1 & C2 & -> & -> & -> & Hk1 & Hv1 & HC1).
    destruct (merge_nodes_ok t h ks1 ks2 vs1 vs2 C1 C2 ls c pk pv (i - 1))
      as (Hm & Hwf1 & Hel1); try done; [lia|].
    rewrite Hm. cbn [mbind result_bind].
    destruct (merged_node_ok t h ls c pk pv) as (_ & Hem & Hlm).
    { apply Forall_app in Hall as [_ Hall]. by apply Forall_cons in Hall as [? _]. }
    { apply Forall_app in Hall as [_ Hall]. apply Forall_cons in Hall as [_ Hall].
      by apply Forall_cons in Hall as [? _]. }
    eexists _, _, (merged_node ls c pk pv). split; [done|]. split; [done|].
    split; [done|]. cbn [keys children]. rewrite !length_app. cbn [length].
    split; [lia|]. split; [lia|]. split; [by apply lookup_middle|]. split; [lia|].
    intros x Hx. rewrite Hem. apply elem_of_app. right. by right.
  - (* merge with the right sibling *)
    destruct (lookup_lt_is_Some_2 cs (i + 1) ltac:(lia)) as [rs Hrs].
    pose proof (Forall_lookup_1 _ _ _ _ Hsz Hrs) as [Hr1 Hr2].
    assert (length (keys rs) < t) as Hrsz.
    { destruct (decide (t <= length (keys rs))); [|lia]. exfalso. apply Hnr.
      split; [lia|eauto]. }
    destruct (open_node2 _ _ _ _ _ _ _ _ Hwf0 Hc Hrs)
      as (ks1 & pk & ks2 & vs1 & pv & vs2 & C1 & C2 & -> & -> & -> & Hk1 & Hv1 & HC1).
    destruct (merge_nodes_ok t h ks1 ks2 vs1 vs2 C1 C2 c rs pk pv i)
      as (Hm & Hwf1 & Hel1); try done; [lia|].
    rewrite Hm. cbn [mbind result_bind].
    destruct (merged_node_ok t h c rs pk pv) as (_ & Hem & Hlm).
    { apply Forall_app in Hall as [_ Hall]. by apply Forall_cons in Hall as [? _]. }
    { apply Forall_app in Hall as [_ Hall]. apply Forall_cons in Hall as [_ Hall].
      by apply Forall_cons in Hall as [? _]. }
    eexists _, _, (merged_node c rs pk pv). split; [done|]. split; [done|].
    split; [done|]. cbn [keys children]. rewrite !length_app. cbn [length].
    split; [lia|]. split; [lia|]. split; [by apply lookup_middle|]. split; [lia|].
    intros x Hx. rewrite Hem. apply elem_of_app. by left.
Qed.

(** ** _delete *)

Lemma zip_delete (ks : list string) (vs : list V) i :
  zip (base.delete i ks) (base.delete i vs) = base.delete i (zip ks vs).
Proof.
  revert ks vs. induction i as [|i IH]; intros [|k ks] [|v vs]; simpl; try done.
  - by destruct ks.
  - by rewrite IH.
Qed.

Lemma sorted_delete (l : list kv) i : sorted l -> sorted (base.delete i l).
Proof.
  intros Hs. rewrite delete_take_drop.
  rewrite <- (take_drop i l), <- (take_drop 1 (drop i l)), drop_drop in Hs.
  replace (S i) with (i + 1) by lia.
  apply (sorted_replace_middle (take i l) (take 1 (drop i l)) [] (drop (i + 1) l));
    [done|constructor|].
  intros y Hy. by apply not_elem_of_nil in Hy.
Qed.

Lemma leaf_not_found (ks : list string) (vs : list V) key :
  length vs = length ks -> sorted (zip ks vs) ->
  (forall k, ks !! first_ge ks key = Some k -> k <> key) -> key ∉ ks.
Proof.
  intros Hvs Hs Hnf Hin.
  destruct (first_ge_spec ks key) as (Hi & Hlt & Hge).
  set (i := first_ge ks key) in *.
  rewrite <- (take_drop i ks) in Hin. apply elem_of_app in Hin as [Hin|Hin].
  - rewrite Forall_forall in Hlt. by apply Hlt, lt_irrefl in Hin.
  - destruct (ks !! i) as [k|] eqn:Hk.
    2:{ apply lookup_ge_None in Hk. rewrite drop_ge in Hin by done.
        by apply not_elem_of_nil in Hin. }
    rewrite (drop_lookup _ _ _ Hk) in Hge, Hin. cbn [take] in Hge.
    apply Forall_cons in Hge as [Hge _].
    assert (lt key k) as Hltk.
    { apply le_lt_or_eq in Hge as [?|Heq]; [done|]. exfalso. by apply (Hnf k). }
    apply elem_of_cons in Hin as [->|Hin]; [by apply lt_irrefl in Hltk|].
    assert (sorted (zip (k :: drop (S i) ks) (drop i vs))) as Hs'.
    { rewrite <- (drop_lookup _ _ _ Hk), <- zip_with_drop.
      rewrite <- (take_drop i (zip ks vs)) in Hs. by apply StronglySorted_app_1_r in Hs. }
    destruct (drop i vs) as [|v vs'] eqn:Ev.
    { apply (f_equal length) in Ev. rewrite length_drop in Ev. cbn [length] in Ev.
      apply lookup_lt_Some in Hk. lia. }
    cbn [zip_with] in Hs'. apply StronglySorted_cons in Hs' as [Hall _].
    apply list_elem_of_lookup in Hin as [j Hj].
    destruct (lookup_lt_is_Some_2 vs' j) as [v' Hv'].
    { apply lookup_lt_Some in Hj. apply (f_equal length) in Ev.
      rewrite !length_drop in *. cbn [length] in Ev. lia. }
    rewrite Forall_forall in Hall.
    assert ((key, v') ∈ zip (drop (S i) ks) vs') as Hin'.
    { apply list_elem_of_lookup. exists j. by rewrite lookup_zip_with, Hj, Hv'. }
    specialize (Hall _ Hin'). unfold kv_le in Hall. cbn [fst] in Hall.
    by eapply lt_irrefl, lt_le_trans.
Qed.

Lemma deleted_spec_transfer key n n1 n' d :
  elements n1 = elements n ->
  length (keys n) <= S (length (keys n1)) -> length (keys n1) <= length (keys n) ->
  length (keys n') = length (keys n1) ->
  deleted_spec key n1 n' d -> deleted_spec key n n' d.
Proof.
  intros Hel H1 H2 H3 (_ & Hrest). rewrite Hel in Hrest. split; [lia|done].
Qed.

Lemma found_dec (ks : list string) i key :
  (match ks !! i with Some k => String.eqb k key | None => false end = true
   /\ ks !! i = Some key)
  \/ (match ks !! i with Some k => String.eqb k key | None => false end = false
      /\ forall k, ks !! i = Some k -> k <> key).
Proof.
  destruct (ks !! i) as [k|]; [|right; done].
  destruct (String.eqb_spec k key) as [->|Hne]; [by left|right].
  split; [done|]. by intros k' [= <-].
Qed.

Theorem delete_node_ok t : 2 <= t -> forall fuel h n key,
  wf t h n -> sorted (elements n) ->
  (leaf n = false -> 1 <= length (keys n)) -> h < fuel ->
  exists n' d, _delete fuel t n key = Ok (n', d) /\ wf t h n' /\ deleted_spec key n n' d.
Proof.
  intros Ht. induction fuel as [|fuel IH]; intros h n key Hwf Hs Hne Hfuel; [lia|].
  cbn [_delete].
  destruct (found_dec (keys n) (first_ge (keys n) key) key) as [[-> Hfound]|[-> Hnf]].
  - (* the key is in this node *)
    inversion Hwf as [ks vs Hvs|h' ks vs cs Hvs Hcs Hall Hsz]; subst;
      cbn [leaf keys values children t_] in *.
    + (* leaf: pop it *)
      set (i := first_ge ks key) in *.
      destruct (lookup_lt_is_Some_2 vs i) as [v Hv].
      { apply lookup_lt_Some in Hfound. lia. }
      rewrite (pop_at_Ok _ _ _ Hfound), (pop_at_Ok _ _ _ Hv). cbn [mbind result_bind].
      eexists _, _. split; [done|].
      pose proof (lookup_lt_Some _ _ _ Hfound) as Hi.
      assert (length (base.delete i ks) = length ks - 1) as Hlk
        by (apply length_delete; eauto).
      assert (length (base.delete i vs) = length vs - 1) as Hlv
        by (apply length_delete; eauto).
      split; [constructor; lia|].
      unfold deleted_spec. cbn [keys elements]. rewrite zip_delete.
      split; [lia|]. split; [done|]. split; [|split].
      * intros _. rewrite list_fmap_delete, fst_zip by lia. by apply delete_Permutation.
      * by apply sorted_delete.
      * intros x. apply list_elem_of_delete_inv.
    + (* internal node: _delete_internal_node *)
      set (i := first_ge ks key) in *. clearbody i.
      pose proof (lookup_lt_Some _ _ _ Hfound) as Hi.
      destruct (lookup_lt_is_Some_2 cs i ltac:(lia)) as [lc Hlc].
      destruct (lookup_lt_is_Some_2 cs (i + 1) ltac:(lia)) as [rc Hrc].
      pose proof (Forall_lookup_1 _ _ _ _ Hall Hlc) as Hwl.
      pose proof (Forall_lookup_1 _ _ _ _ Hall Hrc) as Hwr.
      pose proof (Forall_lookup_1 _ _ _ _ Hsz Hlc) as [Hl1 Hl2].
      pose proof (Forall_lookup_1 _ _ _ _ Hsz Hrc) as [Hr1 Hr2].
      assert (sorted (elements lc)) as Hsl.
      { eapply (wf_child_sorted _ _ _ lc Hwf Hs). cbn [children].
        by eapply list_elem_of_lookup_2. }
      assert (sorted (elements rc)) as Hsr.
      { eapply (wf_child_sorted _ _ _ rc Hwf Hs). cbn [children].
        by eapply list_elem_of_lookup_2. }
      destruct (open_node2 _ _ _ _ _ _ _ _ Hwf Hlc Hrc)
        as (ks1 & pk & ks2 & vs1 & v & vs2 & C1 & C2 & -> & -> & -> & Hk1 & Hv1 & HC1).
      rewrite (lookup_middle ks1 ks2 i pk Hk1) in Hfound. injection Hfound as ->.
      rewrite (getitem_Ok' _ _ _ Hlc). cbn [mbind result_bind].
      assert (forall x, setitem (ks1 ++ key :: ks2) i x = Ok (ks1 ++ x :: ks2)) as Hsk.
      { intros x. rewrite setitem_Ok' by done. by rewrite insert_middle. }
      assert (forall x, setitem (vs1 ++ v :: vs2) i x = Ok (vs1 ++ x :: vs2)) as Hsv.
      { intros x. rewrite setitem_Ok' by lia. by rewrite insert_middle. }
      destruct (Nat.leb_spec t (length (keys lc))) as [Hlt'|Hlt'].
      * (* predecessor *)
        unfold _get_predecessor. cbn [children]. rewrite (getitem_Ok' _ _ _ Hlc).
        cbn [mbind result_bind].
        destruct (predecessor_leaf_ok t Ht h' lc Hwl ltac:(lia))
          as (lf & pk & pv & -> & Hpk & Hpv & Hlast).
        cbn [mbind result_bind].
        rewrite (getitem_Ok' _ _ _ Hpk). cbn [mbind result_bind]. rewrite Hsk.
        cbn [mbind result_bind]. rewrite (getitem_Ok' _ _ _ Hpv). cbn [mbind result_bind].
        rewrite Hsv. cbn [mbind result_bind children keys].
        rewrite (getitem_Ok' _ _ pk) by (by apply lookup_middle). cbn [mbind result_bind].
        destruct (IH h' lc pk Hwl Hsl ltac:(lia) ltac:(lia)) as (lc' & d & -> & Hwl' & Hspec).
        cbn [mbind result_bind]. unfold with_child. cbn [fst snd leaf t_ keys values children].
        rewrite (insert_middle C1 _ i) by done.
        assert (d = true) as ->.
        { destruct d; [done|]. destruct Hspec as (_ & Hf & _).
          destruct (Hf eq_refl) as [_ Hnin]. exfalso. apply Hnin.
          apply last_Some_elem_of in Hlast. change pk with ((pk, pv).1).
          by apply list_elem_of_fmap_2. }
        eexists _, _. split; [done|].
        by apply (delete_pred_case t h' ks1 ks2 vs1 vs2 C1 C2 lc lc' rc key v pk pv); try lia.
      * rewrite (getitem_Ok' _ _ _ Hrc). cbn [mbind result_bind].
        destruct (Nat.leb_spec t (length (keys rc))) as [Hrt|Hrt].
        -- (* successor *)
           unfold _get_successor. cbn [children]. rewrite (getitem_Ok' _ _ _ Hrc).
           cbn [mbind result_bind].
           destruct (successor_leaf_ok t Ht h' rc Hwr ltac:(lia))
             as (lf & sk & sv & -> & Hsk' & Hsv' & Hhead).
           cbn [mbind result_bind].
           rewrite (getitem_Ok' _ _ _ Hsk'). cbn [mbind result_bind]. rewrite Hsk.
           cbn [mbind result_bind]. rewrite (getitem_Ok' _ _ _ Hsv'). cbn [mbind result_bind].
           rewrite Hsv. cbn [mbind result_bind children keys].
           rewrite (getitem_Ok' _ _ sk) by (by apply lookup_middle). cbn [mbind result_bind].
           destruct (IH h' rc sk Hwr Hsr ltac:(lia) ltac:(lia)) as (rc' & d & -> & Hwr' & Hspec).
           cbn [mbind result_bind]. unfold with_child.
           cbn [fst snd leaf t_ keys values children].
           rewrite (insert_middle2 C1 _ i) by done.
           assert (d = true) as ->.
           { destruct d; [done|]. destruct Hspec as (_ & Hf & _).
             destruct (Hf eq_refl) as [_ Hnin]. exfalso. apply Hnin.
             apply head_Some_elem_of in Hhead. change sk with ((sk, sv).1).
             by apply list_elem_of_fmap_2. }
           eexists _, _. split; [done|].
           by apply (delete_succ_case t h' ks1 ks2 vs1 vs2 C1 C2 lc rc rc' key v sk sv); try lia.
        -- (* merge the two children around the key *)
           destruct (merge_nodes_ok t h' ks1 ks2 vs1 vs2 C1 C2 lc rc key v i)
             as (Hm & Hwf1 & Hel1); try done; [lia|].
           rewrite Hm. cbn [mbind result_bind children].
           destruct (merged_node_ok t h' lc rc key v Hwl Hwr) as (Hwm & Hem & Hlm).
           rewrite (getitem_Ok' _ _ (merged_node lc rc key v)) by (by apply lookup_middle).
           cbn [mbind result_bind].
           assert (sorted (elements (merged_node lc rc key v))) as Hsm.
           { eapply (wf_child_sorted _ _ _ _ Hwf1); [by rewrite Hel1|].
             cbn [children]. apply elem_of_app. right. left. }
           destruct (IH h' (merged_node lc rc key v) key Hwm Hsm ltac:(lia) ltac:(lia))
             as (m' & d & -> & Hwm' & Hspec).
           cbn [mbind result_bind]. unfold with_child.
           cbn [fst snd leaf t_ keys values children].
           eexists _, _. split; [done|].
           destruct (delete_descend t h' (ks1 ++ ks2) (vs1 ++ vs2)
                       (C1 ++ merged_node lc rc key v :: C2) i
                       (merged_node lc rc key v) m' d key Hwf1)
             as [Hwf' Hspec']; try done.
           ++ by rewrite Hel1.
           ++ by apply lookup_middle.
           ++ lia.
           ++ intros _. rewrite Hem, fmap_app, fmap_cons. apply elem_of_app. right. left.
           ++ split; [done|]. eapply deleted_spec_transfer; [exact Hel1| | | |exact Hspec'];
                cbn [keys]; rewrite !length_app; cbn [length]; lia.
  - (* the key is not in this node *)
    inversion Hwf as [ks vs Hvs|h' ks vs cs Hvs Hcs Hall Hsz]; subst;
      cbn [leaf keys values children t_] in *.
    + eexists _, _. split; [done|]. split; [done|].
      unfold deleted_spec. cbn [keys elements]. split; [lia|]. split; [|done].
      intros _. split; [done|]. rewrite fst_zip by lia. by apply leaf_not_found with vs.
    + specialize (Hne eq_refl).
      set (i := first_ge ks key) in *.
      destruct (first_ge_spec ks key) as (Hi & _).
      destruct (lookup_lt_is_Some_2 cs i ltac:(unfold i; lia)) as [c Hc].
      destruct (ensure_ok t h' ks vs cs i c Ht Hwf Hne Hc)
        as (n1 & i1 & c1 & -> & Hwf1 & Hel1 & Hk1 & Hk2 & Hc1 & Hsz1 & Hsub).
      cbn [mbind result_bind]. rewrite (getitem_Ok' _ _ _ Hc1). cbn [mbind result_bind].
      inversion Hwf1 as [|h'' ks1 vs1 cs1 Hvs1 Hcs1 Hall1 Hszs1]; subst n1 h''.
      cbn [children keys] in *.
      assert (sorted (elements c1)) as Hsc1.
      { eapply (wf_child_sorted _ _ _ _ Hwf1); [by rewrite Hel1|].
        cbn [children]. by eapply list_elem_of_lookup_2. }
      destruct (IH h' c1 key (Forall_lookup_1 _ _ _ _ Hall1 Hc1) Hsc1 ltac:(lia) ltac:(lia))
        as (c1' & d & -> & Hwc1' & Hspec).
      cbn [mbind result_bind]. unfold with_child. cbn [fst snd leaf t_ keys values children].
      eexists _, _. split; [done|].
      destruct (delete_descend t h' ks1 vs1 cs1 i1 c1 c1' d key Hwf1) as [Hwf' Hspec'];
        try done.
      * by rewrite Hel1.
      * rewrite Hel1. intros Hin.
        pose proof (route_child t h' ks vs cs key c Hwf Hs Hnf Hc Hin) as Hin'.
        apply list_elem_of_fmap in Hin' as (x & -> & Hx). apply list_elem_of_fmap_2. auto.
      * split; [done|]. eapply deleted_spec_transfer; [exact Hel1| | | |exact Hspec']; done.
Qed.

(** ** delete on the tree, and runs of operations *)

Lemma delete_ok (tr : btree V) key :
  tree_inv tr ->
  exists tr' d, delete tr key = Ok (tr', d) /\ tree_inv tr' /\ t tr' = t tr
    /\ (d = false -> elements (root tr') = elements (root tr)
                     /\ key ∉ (elements (root tr)).*1)
    /\ (d = true -> (elements (root tr)).*1 ≡ₚ key :: (elements (root tr')).*1).
Proof.
  destruct tr as [rt0 t0]. unfold tree_inv, delete. cbn [root t].
  intros (Ht & h & Hwf & Hlen & Hnl & Hs).
  destruct (keys rt0) as [|k0 ks0] eqn:Hk.
  { exists (BTree rt0 t0), false. split; [done|]. cbn [root t]. split.
    { split; [done|]. exists h. rewrite Hk. done. }
    split; [done|]. split; [|done]. intros _. split; [done|].
    inversion Hwf as [ks vs Hvs|h' ks vs cs Hvs Hcs Hall Hsz]; subst;
      cbn [leaf keys] in *.
    - subst ks. cbn [elements]. apply not_elem_of_nil.
    - specialize (Hnl eq_refl). subst ks. cbn [length] in Hnl. lia. }
  rewrite <- Hk in *. clear k0 ks0 Hk.
  destruct (delete_node_ok t0 Ht (height rt0) h rt0 key Hwf Hs Hnl)
    as (rt & d & -> & Hwf' & Hspec).
  { rewrite (wf_height _ _ _ Hwf). lia. }
  cbn [mbind result_bind].
  destruct Hspec as ((Hl1 & Hl2) & Hf & Htr & Hs' & Hsub).
  destruct (match keys rt with [] => true | _ => false end && negb (leaf rt)) eqn:Hshrink.
  - (* the root lost its last key: its only child is the new root *)
    apply andb_prop in Hshrink as [Hk0 Hlf].
    inversion Hwf' as [ks vs Hvs|h' ks vs cs Hvs Hcs Hall Hsz]; subst;
      cbn [leaf keys children] in *; [done|].
    destruct ks; [|done]. destruct vs; [|done].
    destruct cs as [|c0 [|? ?]]; try done.
    change (getitem [c0] 0) with (Ok c0). cbn [mbind result_bind].
    apply Forall_cons in Hall as [Hw0 _]. apply Forall_cons in Hsz as [[Hs1 Hs2] _].
    assert (elements (BTreeNode false t0 [] [] [c0]) = elements c0) as Hel.
    { cbn [elements map zip_with]. apply interleave_single. }
    rewrite Hel in *.
    eexists _, _. split; [done|]. cbn [root t]. split.
    { split; [done|]. exists h'. split; [done|]. split; [lia|].
      split; [intros _; lia|done]. }
    done.
  - cbn [mbind result_bind]. eexists _, _. split; [done|]. cbn [root t]. split; [|done].
    split; [done|]. exists h. split; [done|]. split; [lia|]. split; [|done].
    intros Hlf. rewrite Hlf in Hshrink. destruct (keys rt); [done|]. cbn [length]. lia.
Qed.

Inductive op : Type :=
| Insert (key : string) (value : V)
| Delete (key : string).

Definition apply_op (tr : btree V) (o : op) : result (btree V) :=
  match o with
  | Insert key value => insert tr key value
  | Delete key => '(tr', _) ← delete tr key; Ok tr'
  end.

Fixpoint run (tr : btree V) (ops : list op) : result (btree V) :=
  match ops with
  | [] => Ok tr
  | o :: ops' => tr' ← apply_op tr o; run tr' ops'
  end.

Lemma apply_op_inv tr o :
  tree_inv tr -> exists tr', apply_op tr o = Ok tr' /\ tree_inv tr' /\ t tr' = t tr.
Proof.
  intros Hinv. destruct o as [key value|key]; cbn [apply_op].
  - destruct (insert_ok tr key value Hinv) as (tr' & -> & Hinv' & Ht & _). eauto.
  - destruct (delete_ok tr key Hinv) as (tr' & d & -> & Hinv' & Ht & _).
    cbn [mbind result_bind]. eauto.
Qed.

Lemma run_inv ops : forall tr,
  tree_inv tr -> exists tr', run tr ops = Ok tr' /\ tree_inv tr' /\ t tr' = t tr.
Proof.
  induction ops as [|o ops IH]; intros tr Hinv; cbn [run]; [eauto|].
  destruct (apply_op_inv tr o Hinv) as (tr1 & -> & Hinv1 & Ht1).
  cbn [mbind result_bind]. destruct (IH tr1 Hinv1) as (tr' & -> & Hinv' & Ht').
  exists tr'. split; [done|]. split; [done|]. congruence.
Qed.

Lemma get_all_ok tr : tree_inv tr -> get_all (root tr) = Ok (elements (root tr)).
Proof.
  intros (_ & h & Hwf & _). unfold get_all. by rewrite (inorder_traversal_ok _ _ _ Hwf).
Qed.

(** ** the shape of the tree, node by node *)

(** the nodes of the subtree of [n], [n] first *)
Fixpoint nodes (n : node) : list node :=
  match n with
  | BTreeNode _ _ _ _ cs =>
      n :: (fix go (cs : list node) : list node :=
              match cs with
              | [] => []
              | c :: cs' => nodes c ++ go cs'
              end) cs
  end.

(** the nodes below [n] *)
Definition proper_nodes (n : node) : list node := tail (nodes n).

(** the depth of every leaf below [n], from left to right *)
Fixpoint leaf_depths (n : node) : list nat :=
  match n with
  | BTreeNode lf _ _ _ cs =>
      if lf then [0]
      else S <$> (fix go (cs : list node) : list nat :=
                    match cs with
                    | [] => []
                    | c :: cs' => leaf_depths c ++ go cs'
                    end) cs
  end.

Definition keys_in_bounds (t : nat) (n : node) : Prop :=
  t - 1 <= length (keys n) <= 2 * t - 1.

Definition children_count_ok (n : node) : Prop :=
  leaf n = false -> length (children n) = length (keys n) + 1.

Definition keys_increasing (n : node) : Prop := StronglySorted lt (keys n).

Definition keys_nondecreasing (n : node) : Prop := StronglySorted le (keys n).

Lemma nodes_unfold (n : node) : nodes n = n :: concat (map nodes (children n)).
Proof.
  destruct n as [lf t' ks vs cs]. cbn [nodes children]. f_equal.
  induction cs as [|c cs IH]; [done|]. cbn [map concat]. by rewrite <- IH.
Qed.

Lemma leaf_depths_unfold (n : node) :
  leaf_depths n
  = if leaf n then [0] else S <$> concat (map leaf_depths (children n)).
Proof.
  destruct n as [lf t' ks vs cs]. cbn [leaf_depths children leaf].
  destruct lf; [done|]. f_equal.
  induction cs as [|c cs IH]; [done|]. cbn [map concat]. by rewrite <- IH.
Qed.

Lemma Forall_concat_map {A B} (P : B -> Prop) (f : A -> list B) (l : list A) :
  Forall (fun x => Forall P (f x)) l -> Forall P (concat (map f l)).
Proof.
  induction 1 as [|x l Hx Hl IH]; cbn [map concat]; [constructor|].
  apply Forall_app. done.
Qed.

Lemma StronglySorted_sublist {A} (R : relation A) (l k : list A) :
  l `sublist_of` k -> StronglySorted R k -> StronglySorted R l.
Proof.
  induction 1 as [|x l k Hs IH|x l k Hs IH]; intros Hk; [done|..].
  - apply StronglySorted_inv in Hk as [Hk Hx]. constructor; [auto|].
    rewrite Forall_forall in Hx |- *. intros y Hy. apply Hx.
    by eapply elem_of_sublist.
  - apply StronglySorted_inv in Hk as [Hk _]. auto.
Qed.

Lemma sublist_interleave {X} (es : list (list X)) : forall ks,
  length es = S (length ks) -> ks `sublist_of` interleave es ks.
Proof.
  induction es as [|a es IH]; intros ks Hlen; [done|].
  destruct ks as [|k ks].
  { apply sublist_nil_l. }
  destruct es as [|b es]; [done|]. rewrite interleave_cons.
  apply sublist_inserts_l. apply sublist_skip. apply IH. simpl in *. lia.
Qed.

Lemma wf_keys_nondecreasing t h n :
  wf t h n -> sorted (elements n) -> keys_nondecreasing n.
Proof.
  intros Hwf Hs. destruct (elements_child_lists _ _ _ Hwf) as [Hel Hlen].
  rewrite Hel in Hs.
  apply (StronglySorted_sublist _ _ _ (sublist_interleave _ _ Hlen)) in Hs.
  unfold keys_nondecreasing.
  rewrite <- (fst_zip (keys n) (values n)) by (rewrite (wf_values _ _ _ Hwf); done).
  eapply StronglySorted_fmap; [|exact Hs]. done.
Qed.

Lemma wf_nodes t h : forall n,
  wf t h n -> sorted (elements n) ->
  Forall children_count_ok (nodes n)
  /\ Forall keys_nondecreasing (nodes n)
  /\ Forall (eq h) (leaf_depths n)
  /\ Forall (keys_in_bounds t) (proper_nodes n).
Proof.
  induction h as [|h IH]; intros n Hwf Hs;
    pose proof (wf_keys_nondecreasing _ _ _ Hwf Hs) as Hk;
    pose proof (fun c => wf_child_sorted _ _ _ c Hwf Hs) as Hcs;
    unfold proper_nodes; rewrite nodes_unfold, leaf_depths_unfold; cbn [tail];
    inversion Hwf as [ks vs Hvs|h' ks vs cs Hvs Hlen Hall Hsz]; subst;
    cbn [leaf children keys map concat] in *.
  - split; [|split; [|split]]; repeat constructor; done.
  - assert (Forall (fun c => Forall children_count_ok (nodes c)
                             /\ Forall keys_nondecreasing (nodes c)
                             /\ Forall (eq h) (leaf_depths c)
                             /\ Forall (keys_in_bounds t) (proper_nodes c)) cs) as Hch.
    { rewrite Forall_forall in Hall |- *. intros c Hc. apply IH; auto. }
    split; [|split; [|split]].
    + constructor; [intros _; cbn [children keys]; lia|].
      apply Forall_concat_map. eapply Forall_impl; [exact Hch|]. by intros c (? & _).
    + constructor; [done|].
      apply Forall_concat_map. eapply Forall_impl; [exact Hch|]. by intros c (_ & ? & _).
    + rewrite Forall_fmap. apply Forall_concat_map.
      eapply Forall_impl; [exact Hch|]. intros c (_ & _ & Hd & _).
      eapply Forall_impl; [exact Hd|]. by intros ? <-.
    + apply Forall_concat_map. rewrite Forall_forall in Hch, Hsz |- *.
      intros c Hc. destruct (Hch c Hc) as (_ & _ & _ & Hb).
      rewrite nodes_unfold. unfold proper_nodes in Hb. rewrite nodes_unfold in Hb.
      constructor; [by apply Hsz|done].
Qed.

Lemma tree_inv_shape (tr : btree V) :
  tree_inv tr ->
  Forall (keys_in_bounds (t tr)) (proper_nodes (root tr))
  /\ Forall children_count_ok (nodes (root tr))
  /\ Forall keys_nondecreasing (nodes (root tr))
  /\ (exists d, Forall (eq d) (leaf_depths (root tr)))
  /\ length (keys (root tr)) <= 2 * t tr - 1.
Proof.
  intros (Ht & h & Hwf & Hlen & Hnl & Hs).
  destruct (wf_nodes _ _ _ Hwf Hs) as (H1 & H2 & H3 & H4). eauto 10.
Qed.

Lemma btree_run_new (t0 : nat) (ops : list op) :
  exists tr : btree V, run (new t0) ops = Ok tr /\ tree_inv tr /\ t tr = max 2 t0.
Proof.
  destruct (run_inv ops (new t0) (new_inv t0)) as (tr & Hrun & Hinv & Ht). eauto.
Qed.

(** C3, amended: for a tree constructed with minimum degree t (at least 2),
    any sequence of insert and delete operations returns, and afterwards
    every non-root node holds between t-1 and 2t-1 keys, every internal node
    with k keys has exactly k+1 children, the keys within a node are in
    non-decreasing order (equal keys may repeat), and all leaves are at the
    same depth. *)
Theorem btree_structure (t0 : nat) (ops : list op) :
  exists (tr : btree V) (d : nat),
    run (new t0) ops = Ok tr /\ t tr = max 2 t0
    /\ Forall (keys_in_bounds (t tr)) (proper_nodes (root tr))
    /\ Forall children_count_ok (nodes (root tr))
    /\ Forall keys_nondecreasing (nodes (root tr))
    /\ Forall (eq d) (leaf_depths (root tr)).
Proof.
  destruct (btree_run_new t0 ops) as (tr & Hrun & Hinv & Ht).
  destruct (tree_inv_shape tr Hinv) as (H1 & H2 & H3 & (d & H4) & _).
  exists tr, d. done.
Qed.

(** C7: in every tree reached by insert and delete operations, range_search
    returns, for any bounds a and b, exactly the pairs of the full listing
    whose key k satisfies a <= k <= b, in the order of the listing, which is
    ascending by key. *)
Theorem range_search_correct (t0 : nat) (ops : list op) (a b : string) :
  exists (tr : btree V) (all : list kv),
    run (new t0) ops = Ok tr
    /\ get_all (root tr) = Ok all
    /\ sorted all
    /\ range_search tr a b = Ok (filter (in_range a b) all).
Proof.
  destruct (btree_run_new t0 ops) as (tr & Hrun & Hinv & Ht).
  exists tr, (elements (root tr)). split; [done|].
  split; [by apply get_all_ok|].
  destruct Hinv as (_ & h & Hwf & _ & _ & Hs). split; [done|].
  unfold range_search. by rewrite (range_search_node_ok _ _ _ a b Hwf Hs).
Qed.

(** the listing after an insert *)
Lemma btree_insert_listing (tr : btree V) (key : string) (value : V) :
  tree_inv tr ->
  exists tr' l1 l2,
    insert tr key value = Ok tr' /\ tree_inv tr'
    /\ get_all (root tr) = Ok (l1 ++ l2)
    /\ get_all (root tr') = Ok (l1 ++ (key, value) :: l2).
Proof.
  intros Hinv.
  destruct (insert_ok tr key value Hinv) as (tr' & Hins & Hinv' & _ & l1 & l2 & H1 & H2 & _).
  exists tr', l1, l2. rewrite (get_all_ok _ Hinv), (get_all_ok _ Hinv'), H1, H2. done.
Qed.

(** delete of a key that the listing does not hold *)
Lemma btree_delete_absent (tr : btree V) (key : string) (all : list kv) :
  tree_inv tr -> get_all (root tr) = Ok all -> key ∉ all.*1 ->
  exists tr', delete tr key = Ok (tr', false) /\ tree_inv tr'
    /\ get_all (root tr') = Ok all.
Proof.
  intros Hinv Hall Hk. rewrite (get_all_ok _ Hinv) in Hall. injection Hall as <-.
  destruct (delete_ok tr key Hinv) as (tr' & d & Hdel & Hinv' & _ & Hf & Ht).
  destruct d.
  - exfalso. apply Hk. rewrite (Ht eq_refl). by left.
  - destruct (Hf eq_refl) as [Hel _]. exists tr'. rewrite (get_all_ok _ Hinv'), Hel. done.
Qed.

(** ** search *)

Lemma elem_of_interleave_keys {X} (es : list (list X)) (ks : list X) x :
  length es = S (length ks) -> x ∈ ks -> x ∈ interleave es ks.
Proof.
  intros Hlen Hx. eapply elem_of_sublist; [exact Hx|]. by apply sublist_interleave.
Qed.

Lemma elem_of_concat_map {A B} (f : A -> list B) (l : list A) c x :
  c ∈ l -> x ∈ f c -> x ∈ concat (map f l).
Proof.
  induction l as [|a l IH]; intros Hc Hx; [by apply not_elem_of_nil in Hc|].
  cbn [map concat]. apply elem_of_app.
  apply elem_of_cons in Hc as [->|Hc]; auto.
Qed.

Lemma tl_above (key : string) (Ks : list kv) : forall Es,
  length Es = length Ks -> sorted (tl Ks Es) ->
  (forall x, head Ks = Some x -> lt key x.1) ->
  Forall (fun x => lt key x.1) (tl Ks Es).
Proof.
  intros Es Hlen Hs Hh. destruct Ks as [|x Ks]; destruct Es as [|e Es]; simplify_eq/=;
    [by constructor|].
  rewrite tl_cons in *. apply StronglySorted_cons in Hs as [Hx _].
  specialize (Hh x eq_refl). constructor; [done|].
  eapply Forall_impl; [exact Hx|]. intros y Hy. by eapply lt_le_trans.
Qed.

Lemma not_elem_of_keys (key : string) (l : list kv) :
  Forall (fun x => lt x.1 key \/ lt key x.1) l -> key ∉ l.*1.
Proof.
  intros H (x & -> & Hx)%list_elem_of_fmap. rewrite Forall_forall in H.
  destruct (H x Hx) as [Hl|Hl]; by apply lt_irrefl in Hl.
Qed.

Lemma search_node_ok t h : forall (n : node) (key : string),
  wf t h n -> sorted (elements n) ->
  (key ∉ (elements n).*1 /\ _search n key = Ok None)
  \/ (exists m i v, _search n key = Ok (Some (m, i)) /\ m ∈ nodes n
        /\ keys m !! i = Some key /\ values m !! i = Some v
        /\ (key, v) ∈ elements n).
Proof.
  induction h as [h IH] using lt_wf_ind. intros n key Hwf Hs.
  destruct (elements_child_lists _ _ _ Hwf) as [Hel HlenE].
  pose proof (fun c => wf_child_sorted _ _ _ c Hwf Hs) as Hcs.
  pose proof (nodes_unfold n) as Hnodes.
  destruct n as [lf t' ks vs cs]. cbn [_search].
  set (E := child_lists (BTreeNode lf t' ks vs cs)) in *.
  cbn [keys values children] in Hel, HlenE, Hnodes.
  assert (length vs = length ks) as Hvs by (by inversion Hwf).
  destruct (first_ge_spec ks key) as (Hi0 & Hlt & Hge).
  set (i0 := first_ge ks key) in *.
  destruct (match ks !! i0 with Some k => String.eqb key k | None => false end) eqn:Hfound.
  { (* the key is in this node *)
    right. destruct (ks !! i0) as [k|] eqn:Hk; [|done].
    apply String.eqb_eq in Hfound as <-.
    destruct (lookup_lt_is_Some_2 vs i0) as [v Hv].
    { apply lookup_lt_Some in Hk. lia. }
    exists (BTreeNode lf t' ks vs cs), i0, v. split; [done|].
    split; [rewrite Hnodes; left|]. split; [done|]. split; [done|].
    rewrite Hel. apply elem_of_interleave_keys; [done|].
    apply list_elem_of_lookup. exists i0. apply lookup_zip_with_Some. eauto. }
  assert (forall x, head (drop i0 (zip ks vs)) = Some x -> lt key x.1) as Hhead.
  { intros [k v] Hx. simpl.
    assert (ks !! i0 = Some k) as Hk.
    { destruct (drop i0 (zip ks vs)) as [|y l] eqn:Hd; simplify_eq/=.
      assert (zip ks vs !! i0 = Some (k, v)) as Hz.
      { rewrite <- (Nat.add_0_r i0), <- lookup_drop, Hd. done. }
      apply lookup_zip_with_Some in Hz as (? & ? & ? & ? & ?). by simplify_eq. }
    rewrite Hk in Hfound.
    assert (le key k) as Hle.
    { rewrite Forall_forall in Hge. apply Hge. rewrite (drop_lookup _ _ _ Hk). left. }
    apply le_lt_or_eq in Hle as [?| ->]; [done|].
    by rewrite String.eqb_refl in Hfound. }
  clear Hfound.
  destruct (lookup_lt_is_Some_2 E i0) as [e He].
  { rewrite HlenE, length_zip. lia. }
  assert (zip ks vs = take i0 (zip ks vs) ++ drop i0 (zip ks vs)) as Hz
    by (by rewrite take_drop).
  rewrite <- (take_drop_middle _ _ _ He), Hz, interleave_app in Hel.
  2:{ apply lookup_lt_Some in He. rewrite !length_take, length_zip. lia. }
  rewrite Hel in Hs.
  assert (Forall (fun x : kv => lt x.1 key) (il (take i0 E) (take i0 (zip ks vs)))) as Hbelow.
  { eapply il_below; [|exact Hs|].
    - apply lookup_lt_Some in He. rewrite !length_take, length_zip. lia.
    - apply Forall_forall. intros x Hx.
      rewrite Forall_forall in Hlt. apply Hlt. rewrite <- (fst_zip ks vs) by lia.
      rewrite <- fmap_take. by apply list_elem_of_fmap_2. }
  assert (Forall (fun x : kv => lt key x.1)
            (tl (drop i0 (zip ks vs)) (drop (S i0) E))) as Habove.
  { apply tl_above; [|by do 2 apply StronglySorted_app_1_r in Hs|done].
    rewrite !length_drop, HlenE. lia. }
  assert (forall x, x.1 = key -> x ∈ elements (BTreeNode lf t' ks vs cs) -> x ∈ e) as Hin.
  { intros x Hx. rewrite Hel. rewrite !elem_of_app. intros [Hi|[Hi|Hi]]; [|done|].
    - rewrite Forall_forall in Hbelow. apply Hbelow in Hi. rewrite Hx in Hi.
      by apply lt_irrefl in Hi.
    - rewrite Forall_forall in Habove. apply Habove in Hi. rewrite Hx in Hi.
      by apply lt_irrefl in Hi. }
  assert (forall x, x ∈ e -> x ∈ elements (BTreeNode lf t' ks vs cs)) as Hsub.
  { intros x Hx. rewrite Hel, !elem_of_app. auto. }
  subst E. unfold child_lists in He. cbn [leaf keys children] in He. destruct lf.
  - (* a leaf: the key is not in the tree *)
    left. split; [|done]. apply lookup_replicate in He as [-> _].
    intros (x & Hx1 & Hx)%list_elem_of_fmap.
    apply (Hin x) in Hx; [|done]. by apply not_elem_of_nil in Hx.
  - apply list_lookup_fmap_Some in He as (c & -> & Hc).
    rewrite (at_child_lookup _ _ _ _ Hc).
    inversion Hwf as [|h' ? ? ? ? ? Hall ?]; subst.
    destruct (IH h' ltac:(lia) c key) as [[Hnot Hnone]|(m & i & v & Hsome & Hm & Hkm & Hvm & Hel')].
    + by eapply Forall_lookup_1.
    + apply Hcs. simpl. by eapply list_elem_of_lookup_2.
    + left. split; [|done].
      intros (x & Hx1 & Hx)%list_elem_of_fmap. apply Hnot.
      apply list_elem_of_fmap. exists x. split; [done|]. by apply Hin.
    + right. exists m, i, v. split; [done|]. split.
      { rewrite Hnodes. right. eapply elem_of_concat_map; [|exact Hm].
        by eapply list_elem_of_lookup_2. }
      split; [done|]. split; [done|]. by apply Hsub.
Qed.

(** X5: after any sequence of inserts and deletes, search returns the pair
    (None, -1) exactly when the key is not in the full listing; otherwise it
    returns a node of the tree and an index at which the node holds the key,
    with a value that the listing pairs with the key. *)
Theorem search_correct (t0 : nat) (ops : list op) (key : string) :
  exists (tr : btree V) (all : list kv),
    run (new t0) ops = Ok tr /\ get_all (root tr) = Ok all
    /\ ((key ∉ all.*1 /\ search tr key = Ok None)
        \/ (exists m i v, search tr key = Ok (Some (m, i))
              /\ m ∈ nodes (root tr) /\ keys m !! i = Some key
              /\ values m !! i = Some v /\ (key, v) ∈ all)).
Proof.
  destruct (btree_run_new t0 ops) as (tr & Hrun & Hinv & _).
  exists tr, (elements (root tr)). split; [done|]. split; [by apply get_all_ok|].
  destruct Hinv as (_ & h & Hwf & _ & _ & Hs).
  apply (search_node_ok _ _ _ key Hwf Hs).
Qed.

(** X6: in a tree reached by inserts and deletes, delete of a key that the full
    listing holds returns True; afterwards the listing is still in ascending
    key order, and its keys are those of the old listing with one occurrence
    of the key removed. *)
Theorem delete_present_key (t0 : nat) (ops : list op) (tr : btree V)
    (all : list kv) (key : string) :
  run (new t0) ops = Ok tr -> get_all (root tr) = Ok all -> key ∈ all.*1 ->
  exists tr' all',
    delete tr key = Ok (tr', true) /\ get_all (root tr') = Ok all'
    /\ sorted all' /\ all.*1 ≡ₚ key :: all'.*1.
Proof.
  intros Hrun Hall Hkey.
  destruct (btree_run_new t0 ops) as (tr0 & Hrun0 & Hinv & _).
  rewrite Hrun in Hrun0. injection Hrun0 as <-.
  rewrite (get_all_ok _ Hinv) in Hall. injection Hall as <-.
  destruct (delete_ok tr key Hinv) as (tr' & d & Hdel & Hinv' & _ & Hf & Ht).
  destruct d.
  - exists tr', (elements (root tr')). split; [done|].
    split; [by apply get_all_ok|]. split; [|by apply Ht].
    by destruct Hinv' as (_ & h & _ & _ & _ & Hs).
  - destruct (Hf eq_refl) as [_ Hnot]. done.
Qed.

(** X7: range_search with the bounds in the wrong order (end below start)
    returns the empty list, in every tree reached by inserts and deletes. *)
Theorem range_search_reversed_bounds (t0 : nat) (ops : list op) (tr : btree V)
    (a b : string) :
  run (new t0) ops = Ok tr -> lt b a -> range_search tr a b = Ok [].
Proof.
  intros Hrun Hba.
  destruct (btree_run_new t0 ops) as (tr0 & Hrun0 & Hinv & _).
  rewrite Hrun in Hrun0. injection Hrun0 as <-.
  destruct Hinv as (_ & h & Hwf & _ & _ & Hs).
  unfold range_search. rewrite (range_search_node_ok _ _ _ a b Hwf Hs). cbn [app].
  f_equal. apply filter_nil_Forall. apply Forall_forall. intros x _ [H1 H2].
  apply (lt_not_le _ _ Hba). by eapply le_trans.
Qed.

(** X8: after any sequence of inserts and deletes, a key that has just been
    inserted is found: search returns a node and an index at which the node
    holds the key. *)
Theorem insert_then_search (t0 : nat) (ops : list op) (key : string) (value : V) :
  exists (tr tr' : btree V) m i,
    run (new t0) ops = Ok tr
    /\ insert tr key value = Ok tr'
    /\ search tr' key = Ok (Some (m, i))
    /\ m ∈ nodes (root tr') /\ keys m !! i = Some key.
Proof.
  destruct (btree_run_new t0 ops) as (tr & Hrun & Hinv & _).
  destruct (insert_ok tr key value Hinv) as (tr' & Hins & Hinv' & _ & l1 & l2 & _ & Hnew & _).
  destruct Hinv' as (_ & h & Hwf & _ & _ & Hs).
  destruct (search_node_ok _ _ _ key Hwf Hs) as [[Hnot _]|(m & i & v & Hfound & Hm & Hk & _)].
  - exfalso. apply Hnot. rewrite Hnew, fmap_app, fmap_cons. set_solver.
  - by exists tr, tr', m, i.
Qed.
End Spec.

(** C3, as stated, fails: inserting the key "a" twice into the empty tree of
    minimum degree 2 leaves a root holding the keys "a", "a", which are not
    strictly increasing. *)
Lemma duplicate_keys_not_increasing :
  ~ (forall (t0 : nat) (ops : list (@op nat)) (tr : btree nat),
       run (new t0) ops = Ok tr ->
       Forall (keys_in_bounds (t tr)) (proper_nodes (root tr))
       /\ Forall children_count_ok (nodes (root tr))
       /\ Forall keys_increasing (nodes (root tr))
       /\ exists d, Forall (eq d) (leaf_depths (root tr))).
Proof.
  intros H.
  destruct (H 2 [Insert "a" 0; Insert "a" 1]
              (BTree (BTreeNode true 2 ["a"; "a"] [0; 1] []) 2) eq_refl)
    as (_ & _ & Hk & _).
  apply Forall_cons in Hk as [Hk _]. unfold keys_increasing in Hk. cbn [keys] in Hk.
  apply StronglySorted_inv in Hk as [_ Hk]. apply Forall_cons in Hk as [Hk _].
  by apply lt_irrefl in Hk.
Qed.

Definition two_key_ops : list (@op nat) := [Insert "a" 1; Insert "b" 2].
Definition two_key_tree : btree nat := BTree (BTreeNode true 2 ["a"; "b"] [1; 2] []) 2.

Lemma delete_present_key_witness :
  run (new 2) two_key_ops = Ok two_key_tree
  /\ get_all (root two_key_tree) = Ok [("a", 1); ("b", 2)]
  /\ "a" ∈ [("a", 1); ("b", 2)].*1
  /\ exists tr' all',
       delete two_key_tree "a" = Ok (tr', true) /\ get_all (root tr') = Ok all'
       /\ sorted all' /\ [("a", 1); ("b", 2)].*1 ≡ₚ "a" :: all'.*1.
Proof.
  split; [reflexivity|]. split; [reflexivity|]. split; [by left|].
  apply (delete_present_key 2 two_key_ops two_key_tree [("a", 1); ("b", 2)] "a");
    [reflexivity|reflexivity|by left].
Defined.

Lemma range_search_reversed_bounds_witness :
  run (new 2) two_key_ops = Ok two_key_tree
  /\ lt "a" "b"
  /\ range_search two_key_tree "b" "a" = Ok [].
Proof.
  split; [reflexivity|]. split; [reflexivity|].
  apply (range_search_reversed_bounds 2 two_key_ops two_key_tree "b" "a");
    reflexivity.
Defined.

End BTreeSpec.
Module RBTSpec.
Import RBT.
Section Spec.
Context {V : Type}.
Notation node := (node V).
Notation rbt := (rbt V).

(** ** The tree a store represents: shape, colours and object locations *)

Inductive tree := E | T (c : color) (l : tree) (x : nat) (r : tree).

(** one step of a path from a node down to a child: the hole is the left
    child of [x] ([FL]) or its right child ([FR]) *)
Inductive frame :=
| FL (c : color) (x : nat) (r : tree)
| FR (c : color) (l : tree) (x : nat).

Definition plug1 (f : frame) (t : tree) : tree :=
  match f with
  | FL c x r => T c t x r
  | FR c l x => T c l x t
  end.

(** a path, innermost step first *)
Definition plug (c : list frame) (t : tree) : tree :=
  foldl (fun t f => plug1 f t) t c.

Fixpoint ids (t : tree) : list nat :=
  match t with
  | E => []
  | T _ l x r => ids l ++ x :: ids r
  end.

Definition fid (f : frame) : nat :=
  match f with FL _ x _ => x | FR _ _ x => x end.
Definition fsib (f : frame) : tree :=
  match f with FL _ _ r => r | FR _ l _ => l end.
Definition fcolor (f : frame) : color :=
  match f with FL c _ _ => c | FR c _ _ => c end.

Fixpoint ctx_ids (c : list frame) : list nat :=
  match c with
  | [] => []
  | f :: c => fid f :: ids (fsib f) ++ ctx_ids c
  end.

Definition rootref (t : tree) : option nat :=
  match t with E => NIL | T _ _ x _ => Some x end.

Definition rootcolor (t : tree) : color :=
  match t with E => BLACK | T c _ _ _ => c end.

(** the parent link of the hole of a path that starts below [p] *)
Definition ctx_ref (p : option nat) (c : list frame) : option nat :=
  match c with [] => p | f :: _ => Some (fid f) end.

(** [rep h p t]: in the store [h] the objects of [t] are linked as [t] says,
    the root of [t] having parent link [p] *)
Fixpoint rep (h : gmap nat node) (p : option nat) (t : tree) : Prop :=
  match t with
  | E => True
  | T c l x r =>
      (exists k v, h !! x = Some (Node k v c (rootref l) (rootref r) p)) /\
      rep h (Some x) l /\ rep h (Some x) r
  end.

Definition frame_node (k : string) (v : V) (f : frame) (r p : option nat) : node :=
  match f with
  | FL c _ s => Node k v c r (rootref s) p
  | FR c s _ => Node k v c (rootref s) r p
  end.

(** [rep_ctx h p c r]: the objects on the path [c] are linked as [c] says,
    with the reference [r] in the hole *)
Fixpoint rep_ctx (h : gmap nat node) (p : option nat) (c : list frame)
    (r : option nat) : Prop :=
  match c with
  | [] => True
  | f :: c' =>
      (exists k v, h !! fid f = Some (frame_node k v f r (ctx_ref p c'))) /\
      rep h (Some (fid f)) (fsib f) /\
      rep_ctx h p c' (Some (fid f))
  end.

Definition nil_ok (h : gmap nat node) : Prop :=
  exists k v p, h !! 0 = Some (Node k v BLACK None None p).

(** the store of [st] represents the tree [t] *)
Record R (st : rbt) (t : tree) : Prop := {
  R_rep : rep (heap st) NIL t;
  R_root : root st = rootref t;
  R_nil : nil_ok (heap st);
  R_nodup : NoDup (0 :: ids t);
  R_next : Forall (fun x => x < next st) (0 :: ids t)
}.

Lemma plug_cons f c t : plug (f :: c) t = plug c (plug1 f t).
Proof. done. Qed.

Lemma plug_app c1 c2 t : plug (c1 ++ c2) t = plug c2 (plug c1 t).
Proof. apply foldl_app. Qed.

Lemma rootref_plug1 f t : rootref (plug1 f t) = Some (fid f).
Proof. by destruct f. Qed.

Lemma ids_plug c t : ids (plug c t) ≡ₚ ids t ++ ctx_ids c.
Proof.
  revert t. induction c as [|f c IH]; intros t; simpl.
  - by rewrite app_nil_r.
  - rewrite IH. destruct f; simpl; solve_Permutation.
Qed.

Lemma ids_plug_eq c t t' : ids t = ids t' -> ids (plug c t) = ids (plug c t').
Proof.
  revert t t'. induction c as [|f c IH]; intros t t' Ht; simpl; [done|].
  apply IH. destruct f; simpl; by rewrite Ht.
Qed.

Lemma rep_plug h p c t :
  rep h p (plug c t) <-> rep_ctx h p c (rootref t) /\ rep h (ctx_ref p c) t.
Proof.
  revert t. induction c as [|f c IH]; intros t; simpl.
  - tauto.
  - rewrite IH, rootref_plug1. destruct f; simpl; tauto.
Qed.

Lemma rep_frame h h' p t :
  (forall z, z ∈ ids t -> h' !! z = h !! z) -> rep h p t -> rep h' p t.
Proof.
  revert p. induction t as [|c l IHl x r IHr]; intros p Hag; simpl; [done|].
  intros (? & ? & ?).
  rewrite Hag by set_solver.
  repeat split; try done.
  - apply IHl; [|done]. intros z Hz. apply Hag. set_solver.
  - apply IHr; [|done]. intros z Hz. apply Hag. set_solver.
Qed.

Lemma rep_ctx_frame h h' p c r :
  (forall z, z ∈ ctx_ids c -> h' !! z = h !! z) -> rep_ctx h p c r -> rep_ctx h' p c r.
Proof.
  revert r. induction c as [|f c IH]; intros r Hag; simpl; [done|].
  intros (? & ? & ?). repeat split.
  - rewrite Hag by set_solver. done.
  - eapply rep_frame; [|done]. intros z Hz. apply Hag. set_solver.
  - apply IH; [|done]. intros z Hz. apply Hag. set_solver.
Qed.

(** ** Running the primitives *)

Lemma run_bind {A B} (m : M V A) (k : A -> M V B) st a st' res :
  m st = Ok (a, st') -> k a st' = res -> (m ≫= k) st = res.
Proof. intros Hm <-. unfold mbind, M_bind. by rewrite Hm. Qed.

Lemma run_ret {A} (a : A) (st : rbt) : (mret a : M V A) st = Ok (a, st).
Proof. done. Qed.

Lemma deref_ok (st : rbt) x n : heap st !! x = Some n -> deref (Some x) st = Ok (n, st).
Proof. intros H. unfold deref. by rewrite H. Qed.

Lemma get_ok {A} (f : node -> A) (st : rbt) x n :
  heap st !! x = Some n ->
  (n ← deref (Some x); mret (f n)) st = Ok (f n, st).
Proof. intros H. eapply run_bind; [by apply deref_ok|done]. Qed.

Lemma update_ok f (st : rbt) x n :
  heap st !! x = Some n ->
  update (Some x) f st = Ok (tt, RedBlackTree (<[x := f n]> (heap st)) (root st) (next st)).
Proof. intros H. unfold update. by rewrite H. Qed.

Lemma get_left_ok (st : rbt) x n : heap st !! x = Some n -> get_left (Some x) st = Ok (left n, st).
Proof. apply (get_ok left). Qed.
Lemma get_right_ok (st : rbt) x n : heap st !! x = Some n -> get_right (Some x) st = Ok (right n, st).
Proof. apply (get_ok right). Qed.
Lemma get_parent_ok (st : rbt) x n : heap st !! x = Some n -> get_parent (Some x) st = Ok (parent n, st).
Proof. apply (get_ok parent). Qed.
Lemma get_color_ok (st : rbt) x n : heap st !! x = Some n -> get_color (Some x) st = Ok (color_of n, st).
Proof. apply (get_ok color_of). Qed.
Lemma get_filename_ok (st : rbt) x n : heap st !! x = Some n -> get_filename (Some x) st = Ok (filename n, st).
Proof. apply (get_ok filename). Qed.
Lemma get_metadata_ok (st : rbt) x n : heap st !! x = Some n -> get_metadata (Some x) st = Ok (metadata n, st).
Proof. apply (get_ok metadata). Qed.

Lemma set_left_ok (st : rbt) x n v :
  heap st !! x = Some n ->
  set_left (Some x) v st = Ok (tt, RedBlackTree (<[x := with_left v n]> (heap st)) (root st) (next st)).
Proof. apply update_ok. Qed.
Lemma set_right_ok (st : rbt) x n v :
  heap st !! x = Some n ->
  set_right (Some x) v st = Ok (tt, RedBlackTree (<[x := with_right v n]> (heap st)) (root st) (next st)).
Proof. apply update_ok. Qed.
Lemma set_parent_ok (st : rbt) x n v :
  heap st !! x = Some n ->
  set_parent (Some x) v st = Ok (tt, RedBlackTree (<[x := with_parent v n]> (heap st)) (root st) (next st)).
Proof. apply update_ok. Qed.
Lemma set_color_ok (st : rbt) x n v :
  heap st !! x = Some n ->
  set_color (Some x) v st = Ok (tt, RedBlackTree (<[x := with_color v n]> (heap st)) (root st) (next st)).
Proof. apply update_ok. Qed.

Lemma nil_ok_eq (h h' : gmap nat node) : h' !! 0 = h !! 0 -> nil_ok h -> nil_ok h'.
Proof. unfold nil_ok. by intros ->. Qed.

Lemma get_color_rootref (st : rbt) p u :
  rep (heap st) p u -> nil_ok (heap st) ->
  get_color (rootref u) st = Ok (rootcolor u, st).
Proof.
  intros Hu (k0 & v0 & p0 & H0). destruct u as [|c l x r]; cbn [rootref rootcolor].
  - exact (get_color_ok _ _ _ H0).
  - destruct Hu as ((k & v & Hx) & _). exact (get_color_ok _ _ _ Hx).
Qed.

Lemma NoDup_app_cons (l k : list nat) x :
  NoDup (l ++ x :: k) <-> NoDup l /\ NoDup k /\ x ∉ l /\ x ∉ k /\ (forall z, z ∈ l -> z ∉ k).
Proof.
  rewrite NoDup_app, NoDup_cons. split.
  - intros (? & H & ? & ?). repeat split; try done.
    + intros Hx. by apply (H x), elem_of_cons; [|left].
    + intros z Hz Hk. apply (H z Hz), elem_of_cons. by right.
  - intros (? & ? & ? & ? & H). repeat split; try done.
    intros z Hz [->|?]%elem_of_cons; [done|]. by apply (H z).
Qed.

Lemma rootref_ne x t : 0 <> x -> x ∉ ids t -> Some x <> rootref t.
Proof. destruct t; simpl; [unfold NIL; congruence|]. intros _ H [= ->]. set_solver. Qed.

Lemma rootref_ne' x t : 0 <> x -> x ∉ ids t -> rootref t <> Some x.
Proof. intros ?? H. by eapply rootref_ne. Qed.

Ltac fields :=
  unfold with_left, with_right, with_parent, with_color in *;
  cbn [left right parent color_of filename metadata
       with_left with_right with_parent with_color heap root next
       rootref rootcolor fid fsib fcolor frame_node ctx_ref plug1] in *.

Ltac fields_goal :=
  unfold with_left, with_right, with_parent, with_color;
  cbn [left right parent color_of filename metadata
       with_left with_right with_parent with_color heap root next
       rootref rootcolor fid fsib fcolor frame_node ctx_ref plug1].

Lemma Some_ne (x y : nat) : x <> y -> Some x <> Some y.
Proof. congruence. Qed.

Ltac ne :=
  first [ assumption | (apply not_eq_sym; assumption)
        | (apply Some_ne; first [ assumption | (apply not_eq_sym; assumption) ])
        | (apply rootref_ne; assumption) | (apply rootref_ne'; assumption)
        | done | (unfold NIL; congruence) | (intros ->; done) | (intros <-; done)
        | (intros [= ->]; done) | (intros [= <-]; done)
        | (let H := fresh in intros H; apply H; done)
        | (apply rootref_ne; done) | (apply rootref_ne'; done) ].

Ltac lk :=
  cbn [heap root next];
  repeat first [ rewrite lookup_insert_eq | rewrite lookup_insert_ne by ne ];
  first [ eassumption | reflexivity ].

Lemma notin_ne (l : list nat) x z : z ∈ l -> x ∉ l -> x <> z.
Proof. intros Hz Hx ->. done. Qed.

Ltac frame_side :=
  let z := fresh "z" in let Hz := fresh "Hz" in
  intros z Hz; cbn [heap];
  repeat (rewrite lookup_insert_ne
            by first [ (eapply notin_ne; [exact Hz|assumption])
                     | (intros ->; done) | (intros <-; done) ]);
  reflexivity.

Ltac frame :=
  match goal with
  | H : rep _ _ ?t |- rep _ _ ?t => eapply rep_frame; [|exact H]; frame_side
  | H : rep_ctx _ _ ?c _ |- rep_ctx _ _ ?c _ =>
      eapply rep_ctx_frame; [|exact H]; frame_side
  end.

Ltac nil_goal :=
  match goal with
  | H : ?h !! 0 = Some _ |- nil_ok _ =>
      eapply (nil_ok_eq h); [cbn [heap]; lk|do 3 eexists; exact H]
  | H : nil_ok _ |- nil_ok _ => eapply nil_ok_eq; [|exact H]; cbn [heap]; lk
  end.

Ltac run_prim :=
  fields_goal;
  lazymatch goal with
  | |- get_color (rootref _) _ = _ =>
      eapply get_color_rootref; cbn [heap]; [frame|nil_goal]
  | |- @mbind _ _ _ _ _ _ _ = _ => eapply run_bind; [ run_prim | cbn beta; run_prim ]
  | |- get_left _ _ = _ => apply get_left_ok; lk
  | |- get_right _ _ = _ => apply get_right_ok; lk
  | |- get_parent _ _ = _ => apply get_parent_ok; lk
  | |- get_color _ _ = _ => apply get_color_ok; lk
  | |- get_filename _ _ = _ => apply get_filename_ok; lk
  | |- get_metadata _ _ = _ => apply get_metadata_ok; lk
  | |- set_left _ _ _ = _ => eapply set_left_ok; lk
  | |- set_right _ _ _ = _ => eapply set_right_ok; lk
  | |- set_parent _ _ _ = _ => eapply set_parent_ok; lk
  | |- set_color _ _ _ = _ => eapply set_color_ok; lk
  | |- get_root _ = _ => reflexivity
  | |- set_root _ _ = _ => reflexivity
  | |- @mret _ _ _ _ _ = _ => reflexivity
  | |- (if bool_decide _ then _ else _) _ = _ =>
      first [ rewrite bool_decide_eq_true_2 by ne
            | rewrite bool_decide_eq_false_2 by ne ]; run_prim
  | |- (if true then _ else _) _ = _ => cbn iota; run_prim
  | |- (if false then _ else _) _ = _ => cbn iota; run_prim
  end.

(** run the straight-line prefix of the program of the goal *)
Ltac run :=
  fields_goal;
  lazymatch goal with
  | |- @mbind _ _ _ _ _ _ _ = _ =>
      first [ (eapply run_bind; [ solve [run_prim] | cbn beta ]); run | idtac ]
  | |- (if bool_decide _ then _ else _) _ = _ =>
      first [ (first [ rewrite bool_decide_eq_true_2 by ne
                     | rewrite bool_decide_eq_false_2 by ne ]); run | idtac ]
  | |- (if true then _ else _) _ = _ => cbn iota; run
  | |- (if false then _ else _) _ = _ => cbn iota; run
  | |- _ => first [ solve [run_prim] | idtac ]
  end.

(** [runs_to res Q]: the run [res] returns, with a value and a store that
    satisfy [Q] *)
Definition runs_to {A} (res : result (A * rbt)) (Q : A -> rbt -> Prop) : Prop :=
  exists a st', res = Ok (a, st') /\ Q a st'.

Lemma runs_bind {A B} (m : M V A) (k : A -> M V B) st a st1 Q :
  m st = Ok (a, st1) -> runs_to (k a st1) Q -> runs_to ((m ≫= k) st) Q.
Proof.
  intros Hm (b & st' & Hk & HQ). exists b, st'. split; [|done].
  by eapply run_bind.
Qed.

Lemma runs_seq {A B} (m : M V A) (k : A -> M V B) st Q1 Q :
  runs_to (m st) Q1 ->
  (forall a st1, Q1 a st1 -> runs_to (k a st1) Q) ->
  runs_to ((m ≫= k) st) Q.
Proof.
  intros (a & st1 & Hm & HQ1) Hk. eapply runs_bind; [done|]. by apply Hk.
Qed.

Lemma runs_ret {A} (a : A) (st : rbt) (Q : A -> rbt -> Prop) :
  Q a st -> runs_to ((mret a : M V A) st) Q.
Proof. intros. by exists a, st. Qed.

Lemma runs_ok {A} (res : result (A * rbt)) a st' (Q : A -> rbt -> Prop) :
  res = Ok (a, st') -> Q a st' -> runs_to res Q.
Proof. intros. by exists a, st'. Qed.

Lemma runs_weaken {A} (res : result (A * rbt)) (Q Q' : A -> rbt -> Prop) :
  runs_to res Q -> (forall a st, Q a st -> Q' a st) -> runs_to res Q'.
Proof. intros (a & st & ? & ?) HQ. exists a, st. auto. Qed.

Lemma runs_assoc {A B C} (m : M V A) (k1 : A -> M V B) (k2 : B -> M V C) st Q :
  runs_to ((m ≫= fun a => k1 a ≫= k2) st) Q -> runs_to (((m ≫= k1) ≫= k2) st) Q.
Proof.
  unfold runs_to, mbind, M_bind. by destruct (m st) as [[a st1]| |].
Qed.

Lemma runs_assoc_inv {A B C} (m : M V A) (k1 : A -> M V B) (k2 : B -> M V C) st Q :
  runs_to (((m ≫= k1) ≫= k2) st) Q -> runs_to ((m ≫= fun a => k1 a ≫= k2) st) Q.
Proof.
  unfold runs_to, mbind, M_bind. by destruct (m st) as [[a st1]| |].
Qed.

(** run the straight-line prefix of the program of a [runs_to] goal *)
Ltac runs :=
  fields_goal;
  lazymatch goal with
  | |- runs_to (@mbind _ _ _ _ _ (@mbind _ _ _ _ _ _) _) _ =>
      apply runs_assoc; cbn beta; runs
  | |- runs_to (@mbind _ _ _ _ _ (if bool_decide _ then _ else _) _) _ =>
      first [ (first [ rewrite bool_decide_eq_true_2 by ne
                     | rewrite bool_decide_eq_false_2 by ne ]); runs | idtac ]
  | |- runs_to (@mbind _ _ _ _ _ (if true then _ else _) _) _ => cbn iota; runs
  | |- runs_to (@mbind _ _ _ _ _ (if false then _ else _) _) _ => cbn iota; runs
  | |- runs_to (@mbind _ _ _ _ _ _ _) _ =>
      first [ (eapply runs_bind; [ solve [run_prim] | cbn beta ]); runs | idtac ]
  | |- runs_to ((if bool_decide _ then _ else _) _) _ =>
      first [ (first [ rewrite bool_decide_eq_true_2 by ne
                     | rewrite bool_decide_eq_false_2 by ne ]); runs | idtac ]
  | |- runs_to ((if true then _ else _) _) _ => cbn iota; runs
  | |- runs_to ((if false then _ else _) _) _ => cbn iota; runs
  | |- runs_to (@mret _ _ _ _ _) _ => apply runs_ret
  | |- runs_to _ _ => first [ (eapply runs_ok; [ solve [run_prim] | ]) | idtac ]
  end.

Lemma rootref_plug c t t' :
  rootref t = rootref t' -> rootref (plug c t) = rootref (plug c t').
Proof.
  revert t t'. induction c as [|f c IH]; intros t t' Ht; simpl; [done|].
  apply IH. by rewrite !rootref_plug1.
Qed.

Lemma rootref_plug_cons f c t t' : rootref (plug (f :: c) t) = rootref (plug (f :: c) t').
Proof. simpl. apply rootref_plug. by rewrite !rootref_plug1. Qed.

(** the store changed only inside [t], which became [t'] *)
Lemma R_replace st st' c t t' :
  R st (plug c t) ->
  rep (heap st') NIL (plug c t') ->
  root st' = rootref (plug c t') ->
  heap st' !! 0 = heap st !! 0 ->
  ids t' = ids t ->
  next st' = next st ->
  R st' (plug c t').
Proof.
  intros [Hrep Hroot Hnil Hnd Hnext] Hrep' Hroot' H0 Hids Hn.
  constructor; try done.
  - by eapply nil_ok_eq.
  - by rewrite (ids_plug_eq c t' t).
  - by rewrite (ids_plug_eq c t' t), Hn.
Qed.

Ltac ids_eq :=
  simpl;
  repeat first [ rewrite <- app_assoc | rewrite <- app_comm_cons | rewrite app_nil_r ];
  reflexivity.

Lemma disj_cons (l rest : list nat) y :
  (forall z, z ∈ l -> z ∉ y :: rest) -> y ∉ l /\ (forall z, z ∈ l -> z ∉ rest).
Proof.
  intros H. split.
  - intros Hy. apply (H y Hy). by left.
  - intros z Hz Hr. apply (H z Hz). by right.
Qed.

Lemma disj_app (l k rest : list nat) :
  (forall z, z ∈ l -> z ∉ k ++ rest) -> forall z, z ∈ l -> z ∉ rest.
Proof. intros H z Hz Hr. apply (H z Hz), elem_of_app. by right. Qed.

Ltac notin_split H :=
  lazymatch type of H with
  | _ ∉ [] => clear H
  | _ ∉ _ :: _ =>
      let H1 := fresh "Hne" in let H2 := fresh "Hni" in
      apply not_elem_of_cons in H as [H1 H2]; notin_split H2
  | _ ∉ _ ++ _ =>
      let H1 := fresh "Hni" in let H2 := fresh "Hni" in
      apply not_elem_of_app in H as [H1 H2]; notin_split H2
  | _ => idtac
  end.

Ltac disj_split H :=
  lazymatch type of H with
  | forall z, _ -> z ∉ _ :: _ =>
      let H1 := fresh "Hni" in let H2 := fresh "Hdj" in
      pose proof (disj_cons _ _ _ H) as [H1 H2]; clear H; disj_split H2
  | forall z, _ -> z ∉ _ ++ _ =>
      let H2 := fresh "Hdj" in
      pose proof (disj_app _ _ _ H) as H2; clear H; disj_split H2
  | _ => clear H
  end.

Ltac nodup_split H :=
  lazymatch type of H with
  | NoDup (_ :: _) =>
      let H1 := fresh "Hni" in let H2 := fresh "Hnd" in
      apply NoDup_cons in H as [H1 H2]; notin_split H1; nodup_split H2
  | NoDup (_ ++ _) =>
      let H1 := fresh "Hnd" in let H2 := fresh "Hdj" in let H3 := fresh "Hnd" in
      apply NoDup_app in H as (H1 & H2 & H3); clear H1; disj_split H2; nodup_split H3
  | _ => clear H
  end.

Ltac nodup H :=
  simpl in H;
  repeat first [ rewrite <- app_assoc in H | rewrite <- app_comm_cons in H
               | rewrite app_nil_r in H ];
  nodup_split H.

Lemma left_rotate_ok st c cx a x cy b y d :
  R st (plug c (T cx a x (T cy b y d))) ->
  exists st', _left_rotate (Some x) st = Ok (tt, st') /\
    R st' (plug c (T cy (T cx a x b) y d)) /\
    heap st' !! 0 = heap st !! 0 /\ next st' = next st.
Proof.
  intros HR. pose proof HR as [Hrep Hroot Hnil Hnd Hnext].
  apply rep_plug in Hrep as [Hc Hrep].
  rewrite ids_plug in Hnd.
  destruct Hrep as ((kx & vx & Hx) & Ha & (ky & vy & Hy) & Hb & Hd).
  destruct st as [h rt nx]. fields.
  destruct c as [|f c];
    [|destruct Hc as ((kf & vf & Hf) & Hsf & Hc); destruct f as [cf xf sf|cf sf xf]];
    (destruct b as [|cb b1 bi b2]; [|destruct Hb as ((kb & vb & Hbi) & Hb1 & Hb2)]);
    nodup Hnd; fields.
  all: (eexists; split; [unfold _left_rotate; run|]).
  all: fields; split_and!; [|lk|done].
  all: eapply R_replace; [apply HR| |fields|lk|ids_eq|done].
  all: try (apply rep_plug; simpl; fields; split_and!; try done; try frame;
            try (do 2 eexists; lk)).
  all: first [ reflexivity | rewrite Hroot; apply rootref_plug_cons ].
Qed.

Lemma right_rotate_ok st c cx a x cy b y d :
  R st (plug c (T cx (T cy d y b) x a)) ->
  exists st', _right_rotate (Some x) st = Ok (tt, st') /\
    R st' (plug c (T cy d y (T cx b x a))) /\
    heap st' !! 0 = heap st !! 0 /\ next st' = next st.
Proof.
  intros HR. pose proof HR as [Hrep Hroot Hnil Hnd Hnext].
  apply rep_plug in Hrep as [Hc Hrep].
  rewrite ids_plug in Hnd.
  destruct Hrep as ((kx & vx & Hx) & ((ky & vy & Hy) & Hd & Hb) & Ha).
  destruct st as [h rt nx]. fields.
  destruct c as [|f c];
    [|destruct Hc as ((kf & vf & Hf) & Hsf & Hc); destruct f as [cf xf sf|cf sf xf]];
    (destruct b as [|cb b1 bi b2]; [|destruct Hb as ((kb & vb & Hbi) & Hb1 & Hb2)]);
    nodup Hnd; fields.
  all: (eexists; split; [unfold _right_rotate; run|]).
  all: fields; split_and!; [|lk|done].
  all: eapply R_replace; [apply HR| |fields|lk|ids_eq|done].
  all: try (apply rep_plug; simpl; fields; split_and!; try done; try frame;
            try (do 2 eexists; lk)).
  all: first [ reflexivity | rewrite Hroot; apply rootref_plug_cons ].
Qed.


Lemma left_rotate_runs st c cx a x cy b y d :
  R st (plug c (T cx a x (T cy b y d))) ->
  runs_to (_left_rotate (Some x) st)
    (fun _ st' => R st' (plug c (T cy (T cx a x b) y d)) /\
                  heap st' !! 0 = heap st !! 0 /\ next st' = next st).
Proof. intros H. destruct (left_rotate_ok _ _ _ _ _ _ _ _ _ H) as (st' & ? & ?). by exists tt, st'. Qed.

Lemma right_rotate_runs st c cx a x cy b y d :
  R st (plug c (T cx (T cy d y b) x a)) ->
  runs_to (_right_rotate (Some x) st)
    (fun _ st' => R st' (plug c (T cy d y (T cx b x a))) /\
                  heap st' !! 0 = heap st !! 0 /\ next st' = next st).
Proof. intros H. destruct (right_rotate_ok _ _ _ _ _ _ _ _ _ H) as (st' & ? & ?). by exists tt, st'. Qed.
(** ** Filenames and metadata are never modified *)

Definition kv (h : gmap nat node) (x : nat) : option (string * V) :=
  (fun n => (filename n, metadata n)) <$> h !! x.

Definition same_data (st st' : rbt) : Prop :=
  next st' = next st /\ forall x, kv (heap st') x = kv (heap st) x.

Definition pres {A} (m : M V A) : Prop :=
  forall st a st', m st = Ok (a, st') -> same_data st st'.

Lemma same_data_refl st : same_data st st.
Proof. done. Qed.

Lemma same_data_trans st1 st2 st3 :
  same_data st1 st2 -> same_data st2 st3 -> same_data st1 st3.
Proof. intros [? H1] [? H2]. split; [congruence|]. intros x. by rewrite H2. Qed.

Lemma pres_ret {A} (a : A) : pres (mret a).
Proof. intros st a' st' [= _ <-]. apply same_data_refl. Qed.

Lemma pres_bind {A B} (m : M V A) (k : A -> M V B) :
  pres m -> (forall a, pres (k a)) -> pres (m ≫= k).
Proof.
  intros Hm Hk st b st'. unfold mbind, M_bind.
  destruct (m st) as [[a st1]| |] eqn:E; [|done..].
  intros H. eapply same_data_trans; [by eapply Hm|by eapply Hk].
Qed.

Lemma pres_deref r : pres (deref r).
Proof.
  intros st a st'. unfold deref.
  destruct r as [l|]; [|done]. destruct (heap st !! l); [|done].
  intros [= _ <-]. apply same_data_refl.
Qed.

Lemma pres_update r f :
  (forall n, filename (f n) = filename n /\ metadata (f n) = metadata n) ->
  pres (update r f).
Proof.
  intros Hf st a st'. unfold update.
  destruct r as [l|]; [|done]. destruct (heap st !! l) as [n|] eqn:E; [|done].
  intros [= _ <-]. split; [done|]. intros x. unfold kv. simpl.
  destruct (decide (l = x)) as [->|].
  - rewrite lookup_insert_eq, E. simpl. by destruct (Hf n) as [-> ->].
  - by rewrite lookup_insert_ne.
Qed.

Lemma pres_get_root : pres get_root.
Proof. intros st a st' [= _ <-]. apply same_data_refl. Qed.

Lemma pres_set_root r : pres (set_root r).
Proof. by intros st a st' [= _ <-]. Qed.

Lemma pres_out_of_fuel {A} : pres (@out_of_fuel V A).
Proof. by intros st a st'. Qed.

Lemma pres_with_fuel {A} (f : nat -> M V A) : (forall n, pres (f n)) -> pres (with_fuel f).
Proof. intros H st a st'. apply H. Qed.

Ltac pres_step :=
  first
    [ apply pres_ret | apply pres_deref | apply pres_get_root | apply pres_set_root
    | apply pres_out_of_fuel
    | (apply pres_update; done)
    | assumption
    | (apply pres_bind; [|intros ?])
    | match goal with
      | |- pres (if ?b then _ else _) => destruct b
      | |- pres (let '(_, _) := ?p in _) => destruct p
      | |- pres (match ?p with _ => _ end) => destruct p
      end ].

Ltac pres_tac := repeat pres_step.

Lemma pres_get_left r : pres (get_left r).
Proof. unfold get_left. pres_tac. Qed.
Lemma pres_get_right r : pres (get_right r).
Proof. unfold get_right. pres_tac. Qed.
Lemma pres_get_parent r : pres (get_parent r).
Proof. unfold get_parent. pres_tac. Qed.
Lemma pres_get_color r : pres (get_color r).
Proof. unfold get_color. pres_tac. Qed.
Lemma pres_get_filename r : pres (get_filename r).
Proof. unfold get_filename. pres_tac. Qed.
Lemma pres_set_left r v : pres (set_left r v).
Proof. unfold set_left. pres_tac. Qed.
Lemma pres_set_right r v : pres (set_right r v).
Proof. unfold set_right. pres_tac. Qed.
Lemma pres_set_parent r v : pres (set_parent r v).
Proof. unfold set_parent. pres_tac. Qed.
Lemma pres_set_color r v : pres (set_color r v).
Proof. unfold set_color. pres_tac. Qed.

Ltac pres_prim :=
  first
    [ apply pres_get_left | apply pres_get_right | apply pres_get_parent
    | apply pres_get_color | apply pres_get_filename
    | apply pres_set_left | apply pres_set_right | apply pres_set_parent
    | apply pres_set_color ].

Ltac pres_all := repeat first [ pres_prim | pres_step ].

Lemma pres_left_rotate x : pres (_left_rotate x).
Proof. unfold _left_rotate. pres_all. Qed.

Lemma pres_right_rotate x : pres (_right_rotate x).
Proof. unfold _right_rotate. pres_all. Qed.

Lemma pres_fix_insert_loop fuel k : pres (fix_insert_loop fuel k).
Proof.
  revert k. induction fuel as [|fuel IH]; intros k; simpl.
  - pres_all.
  - pose proof pres_left_rotate. pose proof pres_right_rotate.
    repeat first [ apply IH | apply pres_left_rotate | apply pres_right_rotate
                 | pres_prim | pres_step ].
Qed.

Lemma pres_fix_insert fuel k : pres (_fix_insert fuel k).
Proof. unfold _fix_insert. pose proof (pres_fix_insert_loop fuel k). pres_all. Qed.

Lemma pres_transplant u v : pres (_transplant u v).
Proof. unfold _transplant. pres_all. Qed.

Lemma pres_minimum fuel x : pres (_minimum fuel x).
Proof.
  revert x. induction fuel as [|fuel IH]; intros x; simpl; pres_all.
  apply IH.
Qed.

Lemma pres_fix_delete_loop fuel x : pres (fix_delete_loop fuel x).
Proof.
  revert x. induction fuel as [|fuel IH]; intros x; simpl.
  - pres_all.
  - repeat first [ apply IH | apply pres_left_rotate | apply pres_right_rotate
                 | pres_prim | pres_step ].
Qed.

Lemma pres_fix_delete fuel x : pres (_fix_delete fuel x).
Proof.
  unfold _fix_delete. apply pres_bind; [apply pres_fix_delete_loop|].
  intros. pres_all.
Qed.

Lemma pres_delete_node fuel z : pres (_delete_node fuel z).
Proof.
  unfold _delete_node.
  repeat first [ apply pres_fix_delete | apply pres_transplant | apply pres_minimum
               | pres_prim | pres_step ].
Qed.

Lemma pres_search_helper fuel node k : pres (_search_helper fuel node k).
Proof.
  revert node. induction fuel as [|fuel IH]; intros node; simpl.
  - pres_all.
  - repeat first [ apply IH | pres_prim | pres_step ].
Qed.

Lemma pres_delete k : pres (delete k).
Proof.
  unfold delete, search.
  repeat first [ apply pres_with_fuel; intros ? | apply pres_search_helper
               | apply pres_delete_node | pres_prim | pres_step ].
Qed.

Lemma pres_insert_loop fuel nn y x : pres (insert_loop fuel nn y x).
Proof.
  revert y x. induction fuel as [|fuel IH]; intros y x; simpl.
  - pres_all.
  - repeat first [ apply IH | pres_prim | pres_step ].
Qed.

(** ** Budgets: the height of a represented tree is below [next] *)

Fixpoint height (t : tree) : nat :=
  match t with
  | E => 0
  | T _ l _ r => S (height l `max` height r)
  end.

Lemma height_le_size t : height t <= length (ids t).
Proof.
  induction t as [|c l IHl x r IHr]; simpl; [done|].
  rewrite length_app. simpl. lia.
Qed.

Lemma NoDup_bounded_length (l : list nat) n :
  NoDup l -> Forall (fun x => x < n) l -> length l <= n.
Proof.
  intros Hnd Hall.
  assert (l ⊆+ seq 0 n) as Hsub.
  { apply NoDup_submseteq; [done|]. intros x Hx.
    rewrite Forall_forall in Hall. apply elem_of_seq. specialize (Hall x Hx). lia. }
  apply submseteq_length in Hsub. by rewrite length_seq in Hsub.
Qed.

Lemma R_height st t : R st t -> height t < next st.
Proof.
  intros [_ _ _ Hnd Hnext].
  pose proof (NoDup_bounded_length _ _ Hnd Hnext) as H. simpl in H.
  pose proof (height_le_size t). lia.
Qed.

Lemma height_plug_ge c t : height t <= height (plug c t).
Proof.
  revert t. induction c as [|f c IH]; intros t; simpl; [done|].
  etrans; [|apply IH]. destruct f; simpl; lia.
Qed.

Lemma length_ctx_height c t : length c + height t <= height (plug c t).
Proof.
  revert t. induction c as [|f c IH]; intros t; simpl; [done|].
  specialize (IH (plug1 f t)). destruct f; simpl in *; lia.
Qed.

(** ** The descent of insert *)

Definition key_of (h : gmap nat node) (x : nat) : string :=
  match h !! x with Some n => filename n | None => String.EmptyString end.

Fixpoint ins_path (key : nat -> string) (k : string) (t : tree) (c : list frame)
  : list frame :=
  match t with
  | E => c
  | T col l x r =>
      if String.ltb k (key x) then ins_path key k l (FL col x r :: c)
      else ins_path key k r (FR col l x :: c)
  end.

Lemma ins_path_plug key k t c : plug (ins_path key k t c) E = plug c t.
Proof.
  revert c. induction t as [|col l IHl x r IHr]; intros c; simpl; [done|].
  destruct (String.ltb k (key x)); [apply IHl|apply IHr].
Qed.

(** the direction of the last step agrees with the comparison insert makes
    again after the loop *)
Definition head_dir_ok (key : nat -> string) (k : string) (c : list frame) : Prop :=
  match c with
  | [] => True
  | FL _ x _ :: _ => String.ltb k (key x) = true
  | FR _ _ x :: _ => String.ltb k (key x) = false
  end.

Lemma ins_path_head key k t c :
  head_dir_ok key k c -> head_dir_ok key k (ins_path key k t c).
Proof.
  revert c. induction t as [|col l IHl x r IHr]; intros c Hc; simpl; [done|].
  destruct (String.ltb k (key x)) eqn:E; [apply IHl|apply IHr]; done.
Qed.

Lemma insert_loop_ok fuel (st : rbt) nx nn k t p c :
  heap st !! nx = Some nn -> filename nn = k ->
  rep (heap st) p t -> 0 ∉ ids t -> height t <= fuel ->
  insert_loop fuel (Some nx) (ctx_ref NIL c) (rootref t) st
  = Ok (ctx_ref NIL (ins_path (key_of (heap st)) k t c), st).
Proof.
  intros Hnx Hk. revert fuel p c.
  induction t as [|col l IHl x r IHr]; intros fuel p c Hrep H0 Hfuel.
  - destruct fuel; simpl; try rewrite bool_decide_eq_false_2 by ne; done.
  - destruct Hrep as ((kx & vx & Hx) & Hl & Hr).
    simpl in H0, Hfuel. rewrite not_elem_of_app, not_elem_of_cons in H0.
    destruct H0 as (H0l & H0x & H0r).
    destruct fuel as [|fuel]; [lia|].
    simpl. rewrite bool_decide_eq_true_2 by ne.
    unfold key_of. rewrite Hx. fields.
    eapply run_bind; [run|]. cbn beta.
    eapply run_bind; [run|]. cbn beta. fields. rewrite Hk.
    destruct (String.ltb k kx).
    + eapply run_bind; [run|]. cbn beta. fields.
      apply (IHl fuel (Some x) (FL col x r :: c)); [done..|lia].
    + eapply run_bind; [run|]. cbn beta. fields.
      apply (IHr fuel (Some x) (FR col l x :: c)); [done..|lia].
Qed.

(** linking the new RED node below the node where the descent ended *)
Lemma insert_link_ok (st : rbt) c nx k v p0 :
  R st (plug c E) ->
  heap st !! nx = Some (Node k v RED NIL NIL p0) ->
  nx ∉ 0 :: ids (plug c E) -> nx < next st ->
  head_dir_ok (key_of (heap st)) k c ->
  exists st',
    (set_parent (Some nx) (ctx_ref NIL c);;
     (if bool_decide (ctx_ref NIL c = NIL) then set_root (Some nx)
      else
        nk ← get_filename (Some nx); yk ← get_filename (ctx_ref NIL c);
        if String.ltb nk yk then set_left (ctx_ref NIL c) (Some nx)
        else set_right (ctx_ref NIL c) (Some nx))) st = Ok (tt, st') /\
    R st' (plug c (T RED E nx E)) /\ next st' = next st.
Proof.
  intros HR Hnx Hfresh Hlt Hdir. pose proof HR as [Hrep Hroot Hnil Hnd Hnext].
  apply rep_plug in Hrep as [Hc _].
  rewrite ids_plug in Hnd, Hfresh.
  destruct st as [h rt n]. fields.
  assert (Hnd' : NoDup (nx :: 0 :: ids E ++ ctx_ids c)) by (by apply NoDup_cons).
  assert (Hnd2 : NoDup (0 :: ids (plug c (T RED E nx E)))).
  { rewrite ids_plug. simpl. rewrite (Permutation_swap nx 0). exact Hnd'. }
  assert (Hnext2 : Forall (fun x => x < n) (0 :: ids (plug c (T RED E nx E)))).
  { rewrite ids_plug in Hnext |- *. simpl in *. inversion Hnext; subst.
    by repeat constructor. }
  clear Hnd Hfresh.
  destruct c as [|f c];
    [|destruct Hc as ((kf & vf & Hf) & Hsf & Hc); destruct f as [cf xf sf|cf sf xf]];
    nodup Hnd'; fields.
  all: unfold head_dir_ok, key_of in Hdir; try rewrite Hf in Hdir; fields.
  all: (eexists; split; [run; try rewrite Hdir; run|]).
  all: split; [|done].
  all: constructor; fields; try done.
  all: try (apply rep_plug; simpl; fields; split_and!; try done; try frame;
            try (do 2 eexists; lk)).
  all: try (eapply nil_ok_eq; [|exact Hnil]; lk).
  all: rewrite Hroot; apply rootref_plug_cons.
Qed.

(** ** _fix_insert on the represented tree *)

Definition blacken (t : tree) : tree :=
  match t with E => E | T _ l x r => T BLACK l x r end.

Inductive fix_step := Continue (t : tree) | Stop (t : tree).

(** one iteration of the loop of _fix_insert: [t] is the subtree at [k], [f]
    the step from k.parent to [k], [g] the step from k.parent.parent to
    k.parent; the result replaces the subtree at k.parent.parent *)
Definition ins_case (g f : frame) (t : tree) : option fix_step :=
  match g with
  | FR gc u gx =>
      match u with
      | T RED ul ux ur =>
          Some (Continue (T RED (T BLACK ul ux ur) gx (blacken (plug1 f t))))
      | _ =>
          match f, t with
          | FL fc fx fs, T kc a k b =>
              Some (Stop (T BLACK (T RED u gx a) k (T fc b fx fs)))
          | FR fc fs fx, _ => Some (Stop (T BLACK (T RED u gx fs) fx t))
          | _, _ => None
          end
      end
  | FL gc gx u =>
      match u with
      | T RED ul ux ur =>
          Some (Continue (T RED (blacken (plug1 f t)) gx (T BLACK ul ux ur)))
      | _ =>
          match f, t with
          | FR fc fs fx, T kc a k b =>
              Some (Stop (T BLACK (T fc fs fx a) k (T RED b gx u)))
          | FL fc fx fs, _ => Some (Stop (T BLACK t fx (T RED fs gx u)))
          | _, _ => None
          end
      end
  end.

Fixpoint fix_ins (c : list frame) (t : tree) : option tree :=
  match c with
  | [] => Some t
  | f :: c1 =>
      match fcolor f with
      | BLACK => Some (plug c t)
      | RED =>
          match c1 with
          | [] => None
          | g :: c2 =>
              match ins_case g f t with
              | Some (Continue t') => fix_ins c2 t'
              | Some (Stop t') => Some (plug c2 t')
              | None => None
              end
          end
      end
  end.

Lemma rootref_plug_last f c t : exists y, rootref (plug (f :: c) t) = Some y /\ y ∈ ctx_ids (f :: c).
Proof.
  revert f t. induction c as [|g c IH]; intros f t.
  - exists (fid f). simpl. rewrite rootref_plug1. split; [done|]. set_solver.
  - destruct (IH g (plug1 f t)) as (y & Hy & Hin). exists y. split; [done|].
    simpl in *. set_solver.
Qed.

Lemma R_root_ne st f c t x : R st (plug (f :: c) t) -> x ∈ ids t -> root st <> Some x.
Proof.
  intros [_ Hroot _ Hnd _] Hx.
  destruct (rootref_plug_last f c t) as (y & Hy & Hin).
  rewrite Hroot, Hy. intros [= ->].
  rewrite ids_plug in Hnd. apply NoDup_cons in Hnd as [_ Hnd].
  apply NoDup_app in Hnd as (_ & Hd & _). by apply (Hd x).
Qed.

Ltac open_R HR :=
  let Hrep := fresh "Hrep" in
  let Hroot := fresh "Hroot" in
  let Hnil := fresh "Hnil" in
  let Hnd := fresh "Hnd" in
  let Hnext := fresh "Hnext" in
  let Hc := fresh "Hc" in
  pose proof HR as [Hrep Hroot Hnil Hnd Hnext];
  apply rep_plug in Hrep as [Hc Hrep];
  rewrite ids_plug in Hnd;
  cbn [rep rep_ctx fid fsib fcolor frame_node ctx_ref rootref] in Hrep, Hc;
  destruct Hnil as (? & ? & ? & Hnil);
  repeat match goal with
         | H : _ /\ _ |- _ => destruct H
         | H : exists _, _ |- _ => destruct H
         end;
  nodup Hnd; fields.

Ltac rep_goal :=
  apply rep_plug; simpl; fields; split_and!; try done; try frame;
  try (do 2 eexists; lk).

Ltac root_goal :=
  first
    [ reflexivity
    | match goal with
      | H : _ = rootref _ |- _ =>
          rewrite H;
          first [ (simpl; apply rootref_plug; reflexivity) | apply rootref_plug_cons ]
      end ].

Ltac R_goal HR :=
  first [ exact HR
        | eapply R_replace; [exact HR|rep_goal|root_goal|cbn [heap]; lk|ids_eq|done] ].

(** run a rotation on the store of the goal, which represents [plug c t] *)
Ltac rotate lemma HR c t :=
  match goal with
  | |- runs_to (@mbind _ _ _ _ _ _ ?st1) _ =>
      let HR1 := fresh "HR1" in
      assert (HR1 : R st1 (plug c t)) by R_goal HR;
      eapply runs_seq; [eapply lemma; exact HR1|]
  end.

Lemma fix_insert_loop_ok fuel c t k (st : rbt) t' :
  rootref t = Some k -> t <> E ->
  R st (plug c t) -> fix_ins c t = Some t' -> length c <= fuel ->
  runs_to (fix_insert_loop fuel (Some k) st)
          (fun _ st' => R st' t' /\ next st' = next st).
Proof.
  revert c t k st t'. induction fuel as [fuel IH] using lt_wf_ind.
  intros c t k st t' Hk Ht HR Hfix Hfuel.
  destruct t as [|kc a k' b]; [done|]. simpl in Hk. injection Hk as ->. clear Ht.
  destruct c as [|f c1].
  { (* k is the root *)
    injection Hfix as <-.
    pose proof HR as [_ Hroot _ _ _]. simpl in Hroot.
    destruct fuel; cbn [fix_insert_loop]; (eapply runs_bind; [reflexivity|]); cbn beta;
      rewrite Hroot; runs; done. }
  assert (Hrt : root st <> Some k).
  { eapply R_root_ne; [exact HR|]. set_solver. }
  simpl in Hfix.
  destruct (fcolor f) eqn:Efc.
  2:{ (* the parent is BLACK *)
    injection Hfix as <-.
    destruct st as [h rt nx]. simpl in Hrt.
    destruct f as [fc fx fs|fc fs fx]; simpl in Efc; subst fc; open_R HR.
    all: destruct fuel; cbn [fix_insert_loop]; (eapply runs_bind; [reflexivity|]); cbn beta;
      runs; done. }
  destruct c1 as [|g c2]; [done|].
  simpl in Hfuel. destruct fuel as [|fuel]; [lia|].
  destruct (ins_case g f (T kc a k b)) as [[t1|t1]|] eqn:Ecase; [| |done].
  - (* recolouring *)
    destruct g as [gc gx u|gc u gx]; destruct u as [|[] ul ux ur];
      destruct f as [fc fx fs|fc fs fx]; simpl in Ecase, Efc; simplify_eq.
    all: destruct st as [h rt nx]; simpl in Hrt;
      rewrite !plug_cons in HR; cbn [plug1] in HR; open_R HR.
    all: cbn [fix_insert_loop]; (eapply runs_bind; [reflexivity|]); cbn beta.
    all: runs.
    all: match type of Hfix with fix_ins _ ?t1 = _ =>
           match goal with |- runs_to (fix_insert_loop _ _ ?st1) _ =>
             assert (HR1 : R st1 (plug c2 t1));
             [|apply (IH fuel ltac:(lia) c2 t1 gx st1 t' eq_refl ltac:(done) HR1 Hfix
                         ltac:(lia))]
           end end.
    all: R_goal HR.
  - (* rotations *)
    assert (exists u, rootcolor u = BLACK /\ (g = FL (fcolor g) (fid g) u \/ g = FR (fcolor g) u (fid g)))
      as (u & Hu & Hg).
    { destruct g as [gc gx u|gc u gx]; destruct u as [|[] ul ux ur]; simpl in Ecase;
        try done; eexists; (split; [|by eauto]); done. }
    generalize dependent (fcolor g). generalize dependent (fid g). intros gx gc Hg.
    assert (Ecase' : ins_case g f (T kc a k b) =
      match g, f with
      | FR _ _ _, FL fc fx fs => Some (Stop (T BLACK (T RED u gx a) k (T fc b fx fs)))
      | FR _ _ _, FR fc fs fx => Some (Stop (T BLACK (T RED u gx fs) fx (T kc a k b)))
      | FL _ _ _, FR fc fs fx => Some (Stop (T BLACK (T fc fs fx a) k (T RED b gx u)))
      | FL _ _ _, FL fc fx fs => Some (Stop (T BLACK (T kc a k b) fx (T RED fs gx u)))
      end).
    { destruct Hg as [-> | ->]; destruct u as [|[] ul ux ur]; destruct f; done. }
    rewrite Ecase' in Ecase. clear Ecase'.
    destruct Hg as [-> | ->]; destruct f as [fc fx fs|fc fs fx];
      simpl in Ecase, Efc; simplify_eq.
    all: destruct st as [h rt nx]; simpl in Hrt;
      rewrite !plug_cons in HR; cbn [plug1] in HR; open_R HR.
    all: cbn [fix_insert_loop]; (eapply runs_bind; [reflexivity|]); cbn beta.
    all: runs.
    + rotate right_rotate_runs HR c2 (T RED (T BLACK (T kc a k b) fx fs) gx u).
      intros [] st2 (HR2 & _ & Hn2). cbn beta.
      eapply runs_weaken;
        [apply (IH fuel ltac:(lia) (FL BLACK fx (T RED fs gx u) :: c2) (T kc a k b) k st2 _
                   eq_refl ltac:(done) HR2 eq_refl ltac:(simpl; lia))|].
      simpl. intros _ st' [? ?]. simpl in *. split; [done|congruence].
    + rotate left_rotate_runs HR (FL gc gx u :: c2) (T RED fs fx (T kc a k b)).
      intros [] st2 (HR2 & _ & Hn2). cbn beta.
      destruct st2 as [h2 rt2 nx2]. rewrite !plug_cons in HR2; cbn [plug1] in HR2.
      simpl in Hn2. subst nx2. clear dependent h. open_R HR2. runs.
      rotate right_rotate_runs HR2 c2 (T RED (T BLACK (T RED fs fx a) k b) gx u).
      intros [] st3 (HR3 & _ & Hn3). cbn beta.
      eapply runs_weaken;
        [apply (IH fuel ltac:(lia) (FL BLACK k (T RED b gx u) :: c2) (T RED fs fx a) fx st3 _
                   eq_refl ltac:(done) HR3 eq_refl ltac:(simpl; lia))|].
      simpl. intros _ st' [? ?]. simpl in *. split; [done|congruence].
    + rotate right_rotate_runs HR (FR gc u gx :: c2) (T RED (T kc a k b) fx fs).
      intros [] st2 (HR2 & _ & Hn2). cbn beta.
      destruct st2 as [h2 rt2 nx2]. rewrite !plug_cons in HR2; cbn [plug1] in HR2.
      simpl in Hn2. subst nx2. clear dependent h. open_R HR2. runs.
      rotate left_rotate_runs HR2 c2 (T RED u gx (T BLACK a k (T RED b fx fs))).
      intros [] st3 (HR3 & _ & Hn3). cbn beta.
      eapply runs_weaken;
        [apply (IH fuel ltac:(lia) (FR BLACK (T RED u gx a) k :: c2) (T RED b fx fs) fx st3 _
                   eq_refl ltac:(done) HR3 eq_refl ltac:(simpl; lia))|].
      simpl. intros _ st' [? ?]. simpl in *. split; [done|congruence].
    + rotate left_rotate_runs HR c2 (T RED u gx (T BLACK fs fx (T kc a k b))).
      intros [] st2 (HR2 & _ & Hn2). cbn beta.
      eapply runs_weaken;
        [apply (IH fuel ltac:(lia) (FR BLACK (T RED u gx fs) fx :: c2) (T kc a k b) k st2 _
                   eq_refl ltac:(done) HR2 eq_refl ltac:(simpl; lia))|].
      simpl. intros _ st' [? ?]. simpl in *. split; [done|congruence].
Qed.

(** ** insert on the represented tree *)

Definition insert_tree (key : nat -> string) (k : string) (new : nat) (t : tree)
  : option tree :=
  blacken <$> fix_ins (ins_path key k t []) (T RED E new E).

Lemma ins_path_ext key key' k t c :
  (forall x, x ∈ ids t -> key x = key' x) ->
  ins_path key k t c = ins_path key' k t c.
Proof.
  revert c. induction t as [|col l IHl x r IHr]; intros c Hk; simpl; [done|].
  rewrite (Hk x) by set_solver.
  destruct (String.ltb k (key' x)); [apply IHl|apply IHr]; intros; apply Hk; set_solver.
Qed.

Lemma R_fresh (st st' : rbt) t :
  R st t ->
  (forall z, z <> next st -> heap st' !! z = heap st !! z) ->
  root st' = root st -> next st' = S (next st) ->
  R st' t.
Proof.
  intros [Hrep Hroot Hnil Hnd Hnext] Hh Hr Hn.
  assert (Hlt : forall z, z ∈ 0 :: ids t -> z <> next st).
  { intros z Hz. rewrite Forall_forall in Hnext. specialize (Hnext z Hz). lia. }
  constructor.
  - eapply rep_frame; [|exact Hrep]. intros z Hz. apply Hh, Hlt. set_solver.
  - congruence.
  - eapply nil_ok_eq; [|exact Hnil]. apply Hh, Hlt. set_solver.
  - done.
  - rewrite Hn. eapply Forall_impl; [exact Hnext|]. simpl. lia.
Qed.

Lemma blacken_root_ok (st : rbt) t :
  R st t ->
  runs_to ((rt ← get_root; set_color rt BLACK) st)
          (fun _ st' => R st' (blacken t) /\ next st' = next st).
Proof.
  intros HR. destruct st as [h rt nx].
  destruct t as [|c l x r].
  - pose proof HR as [_ Hroot (k0 & v0 & p0 & H0) _ _]. simpl in *. subst rt.
    eapply runs_bind; [reflexivity|]. cbn beta.
    eapply runs_ok; [eapply set_color_ok; exact H0|]. split; [|done].
    destruct HR as [Hrep _ _ Hnd Hnext]. constructor; try done.
    do 3 eexists. cbn [heap]. apply lookup_insert_eq.
  - change (T c l x r) with (plug [] (T c l x r)) in HR.
    open_R HR. rewrite Hroot. eapply runs_bind; [reflexivity|]. cbn beta.
    runs. split; [|done].
    change (blacken (T c l x r)) with (plug [] (T BLACK l x r)).
    R_goal HR.
Qed.

Lemma insert_runs (st : rbt) t k v t' :
  R st t ->
  insert_tree (key_of (heap st)) k (next st) t = Some t' ->
  runs_to (insert k v st)
          (fun r st' => r = Some (next st) /\ R st' t' /\ next st' = S (next st)).
Proof.
  intros HR Hins. unfold insert_tree in Hins.
  destruct (fix_ins _ _) as [t1|] eqn:Hfix; [|done]. injection Hins as <-.
  pose proof (R_height _ _ HR) as Hh.
  pose proof HR as [Hrep Hroot Hnil Hnd Hnext].
  destruct st as [h rt nx]. cbn [heap root next] in *. subst rt.
  unfold insert, with_fuel, insert_fuel. cbn [next].
  eapply runs_bind; [reflexivity|]. cbn beta.
  assert (Hfr : nx ∉ 0 :: ids t).
  { intros Hin. rewrite Forall_forall in Hnext. specialize (Hnext _ Hin). lia. }
  assert (H0nx : 0 <> nx) by set_solver.
  runs.
  match goal with |- runs_to (_ ?st2) _ => set (st2' := st2) end.
  assert (HR2 : R st2' t).
  { eapply R_fresh; [exact HR| |done..]. intros z Hz. subst st2'. cbn [heap next] in *.
    by rewrite !lookup_insert_ne. }
  assert (Hkey : forall x, x ∈ ids t -> key_of (heap st2') x = key_of h x).
  { intros x Hx. unfold key_of. subst st2'. cbn [heap].
    rewrite !lookup_insert_ne; [done|set_solver..]. }
  rewrite <- (ins_path_ext _ _ _ _ _ Hkey) in Hfix.
  set (c := ins_path (key_of (heap st2')) k t []) in *.
  assert (Hnx : heap st2' !! nx = Some (Node k v RED NIL NIL None)).
  { subst st2'. cbn [heap]. by rewrite lookup_insert_eq. }
  eapply runs_bind.
  { eapply (insert_loop_ok nx st2' nx _ k t NIL []); [exact Hnx|done| |by apply NoDup_cons in Hnd as [? _]|lia].
    by destruct HR2. }
  cbn beta. fold c.
  assert (Hplug : plug c E = t) by apply (ins_path_plug _ _ _ []).
  assert (Hn2 : next st2' = S nx) by done.
  clearbody st2'. clear dependent h.
  destruct (insert_link_ok st2' c nx k v None) as (st3 & Hrun3 & HR3 & Hn3).
  { by rewrite Hplug. }
  { done. }
  { by rewrite Hplug. }
  { lia. }
  { by apply ins_path_head. }
  apply (runs_assoc_inv _ (fun _ => _) _). eapply runs_bind; [exact Hrun3|]. cbn beta.
  unfold _fix_insert.
  apply runs_assoc. eapply runs_seq.
  { apply (fix_insert_loop_ok nx c (T RED E nx E) nx st3 t1 eq_refl ltac:(done) HR3 Hfix).
    pose proof (length_ctx_height c E). rewrite Hplug in *. simpl in *. lia. }
  intros [] st4 [HR4 Hn4]. cbn beta.
  eapply runs_seq; [apply (blacken_root_ok st4 t1 HR4)|].
  intros [] st5 [HR5 Hn5]. cbn beta.
  apply runs_ret. split_and!; [done..|congruence].
Qed.

(** the data after an insert: one more object, holding the new pair *)
Lemma insert_data (st : rbt) k v r st' :
  insert k v st = Ok (r, st') ->
  next st' = S (next st) /\
  forall x, kv (heap st') x = if decide (x = next st) then Some (k, v) else kv (heap st) x.
Proof.
  unfold insert, with_fuel, insert_fuel. intros Hrun.
  unfold mbind at 1, M_bind at 1 in Hrun. cbn [new_Node] in Hrun.
  match type of Hrun with ?tail ?st1 = _ =>
    assert (Hp : pres tail); [|apply Hp in Hrun as [Hn Hkv]]
  end.
  { pose proof pres_insert_loop. pose proof pres_fix_insert.
    repeat first [ apply pres_insert_loop | apply pres_fix_insert | pres_prim | pres_step ]. }
  cbn [next heap] in *. split; [done|]. intros x. rewrite Hkv. unfold kv.
  destruct (decide (x = next st)) as [->|].
  - by rewrite lookup_insert_eq.
  - by rewrite lookup_insert_ne.
Qed.

(** ** The red-black properties *)

(** [rb t n]: no RED node of [t] has a RED child, and every path from the
    root of [t] to a leaf passes through [n] BLACK nodes *)
Inductive rb : tree -> nat -> Prop :=
| rb_E : rb E 0
| rb_R l x r n :
    rb l n -> rb r n -> rootcolor l = BLACK -> rootcolor r = BLACK ->
    rb (T RED l x r) n
| rb_B l x r n : rb l n -> rb r n -> rb (T BLACK l x r) (S n).

Definition is_rb (t : tree) : Prop := rootcolor t = BLACK /\ exists n, rb t n.

Definition ctx_color (c : list frame) : color :=
  match c with [] => BLACK | f :: _ => fcolor f end.

(** [rbc c n]: the path [c] is part of a red-black tree with a BLACK root,
    up to its hole, where a tree of black height [n] is expected *)
Inductive rbc : list frame -> nat -> Prop :=
| rbc_nil n : rbc [] n
| rbc_B f c n :
    fcolor f = BLACK -> rb (fsib f) n -> rbc c (S n) -> rbc (f :: c) n
| rbc_R f c n :
    fcolor f = RED -> rb (fsib f) n -> rootcolor (fsib f) = BLACK ->
    c <> [] -> ctx_color c = BLACK -> rbc c n -> rbc (f :: c) n.

Lemma rb_blacken t n : rb t n -> exists m, rb (blacken t) m.
Proof. destruct 1; simpl; eauto using rb. Qed.

Lemma is_rb_blacken t n : rb t n -> is_rb (blacken t).
Proof. intros H. split; [by destruct t|by eapply rb_blacken]. Qed.

Lemma rb_plug1 f t n :
  rb t n -> rb (fsib f) n ->
  (fcolor f = RED -> rootcolor t = BLACK /\ rootcolor (fsib f) = BLACK) ->
  rb (plug1 f t) (match fcolor f with RED => n | BLACK => S n end).
Proof.
  intros Ht Hs Hc. destruct f as [[] x s|[] s x]; simpl in *;
    try (destruct Hc as [? ?]; [done|]); by constructor.
Qed.

Lemma rb_plug c t n :
  rbc c n -> rb t n -> (ctx_color c = RED -> rootcolor t = BLACK) ->
  exists m, rb (plug c t) m.
Proof.
  intros Hc. revert t. induction Hc as [n|f c n Hf Hs Hc IH|f c n Hf Hs Hsc Hne Hcc Hc IH];
    intros t Ht Hcol; simpl.
  - eauto.
  - apply IH.
    + pose proof (rb_plug1 f t n Ht Hs) as H. rewrite Hf in H. apply H. done.
    + intros _. by destruct f; simpl in *.
  - apply IH.
    + pose proof (rb_plug1 f t n Ht Hs) as H. rewrite Hf in H. apply H. auto.
    + by rewrite Hcc.
Qed.

Lemma rootcolor_plug c t n :
  rbc c n -> (c = [] -> rootcolor t = BLACK) -> rootcolor (plug c t) = BLACK.
Proof.
  intros Hc. revert t. induction Hc as [n|f c n Hf Hs Hc IH|f c n Hf Hs Hsc Hne Hcc Hc IH];
    intros t Ht; simpl.
  - auto.
  - apply IH. intros _. by destruct f.
  - apply IH. done.
Qed.

Lemma is_rb_plug c t n :
  rbc c n -> rb t n -> (ctx_color c = RED -> rootcolor t = BLACK) ->
  (c = [] -> rootcolor t = BLACK) -> is_rb (plug c t).
Proof. intros. split; [by eapply rootcolor_plug|by eapply rb_plug]. Qed.

Lemma color_cases (c : color) : c <> RED -> c = BLACK.
Proof. by destruct c. Qed.

Lemma rbc_ins_path key k t c n :
  rb t n -> rbc c n ->
  (ctx_color c = RED -> rootcolor t = BLACK) ->
  (c = [] -> rootcolor t = BLACK) ->
  rbc (ins_path key k t c) 0.
Proof.
  intros Ht. revert c. induction Ht as [|l x r n Hl IHl Hr IHr Hlc Hrc|l x r n Hl IHl Hr IHr];
    intros c Hc Hcol Hroot; simpl.
  - done.
  - assert (c <> []) by (intros ->; by specialize (Hroot eq_refl)).
    assert (ctx_color c = BLACK).
    { apply color_cases. intros E'. by specialize (Hcol E'). }
    destruct (String.ltb k (key x)); [apply IHl|apply IHr]; try done;
      by apply rbc_R.
  - destruct (String.ltb k (key x)); [apply IHl|apply IHr]; try done;
      by apply rbc_B.
Qed.

Lemma rb_red_inv l x r n :
  rb (T RED l x r) n -> rb l n /\ rb r n /\ rootcolor l = BLACK /\ rootcolor r = BLACK.
Proof. by inversion 1. Qed.

Lemma rb_black_inv l x r n : rb (T BLACK l x r) n -> exists m, n = S m /\ rb l m /\ rb r m.
Proof. inversion 1; eauto. Qed.

Lemma fix_ins_rb c : forall t n,
  rbc c n -> rb t n -> rootcolor t = RED ->
  exists t' m, fix_ins c t = Some t' /\ rb t' m.
Proof.
  induction c as [c IH] using (induction_ltof1 _ length). unfold ltof in IH.
  intros t n Hc Ht Hred.
  destruct t as [|[] a k b]; try done.
  apply rb_red_inv in Ht as Hinv. destruct Hinv as (Ha & Hb & Hac & Hbc).
  destruct c as [|f c1]; [simpl; eauto|].
  simpl. inversion Hc as [|? ? ? Hf Hs Hc1|? ? ? Hf Hs Hsc Hne Hcc Hc1]; subst; rewrite Hf.
  - destruct (rb_plug (f :: c1) (T RED a k b) n Hc Ht) as (m & Hm).
    { simpl. by rewrite Hf. }
    eauto.
  - destruct c1 as [|g c2]; [done|]. simpl in Hcc.
    inversion Hc1 as [|? ? ? Hg Hgs Hc2|? ? ? Hg]; subst; [|congruence].
    destruct g as [gc gx u|gc u gx]; simpl in Hg, Hgs; subst gc;
      (destruct u as [|[] ul ux ur];
       [ | apply rb_red_inv in Hgs as (? & ? & ? & ?) | ]);
      destruct f as [fc fx fs|fc fs fx]; simpl in Hf, Hs, Hsc; subst fc; simpl.
    all: try (apply (IH c2 ltac:(simpl; lia) _ (S n)); [done| |done];
              repeat first [ done | constructor ]).
    all: try (eapply rb_plug in Hc2 as (m & Hm); [by eauto| |done];
              repeat first [ done | constructor ]).
Qed.

(** ** The in-order sequence of objects *)

Fixpoint ctx_left (c : list frame) : list nat :=
  match c with
  | [] => []
  | FL _ _ _ :: c => ctx_left c
  | FR _ l x :: c => ctx_left c ++ ids l ++ [x]
  end.

Fixpoint ctx_right (c : list frame) : list nat :=
  match c with
  | [] => []
  | FL _ x r :: c => x :: ids r ++ ctx_right c
  | FR _ _ _ :: c => ctx_right c
  end.

Lemma ids_plug_split c t : ids (plug c t) = ctx_left c ++ ids t ++ ctx_right c.
Proof.
  revert t. induction c as [|f c IH]; intros t; simpl.
  - by rewrite app_nil_r.
  - rewrite IH. destruct f; simpl; by rewrite <- ?app_assoc.
Qed.

Lemma ids_blacken t : ids (blacken t) = ids t.
Proof. by destruct t. Qed.

Lemma ins_case_ids g f t s :
  ins_case g f t = Some s ->
  ids (match s with Continue t1 => t1 | Stop t1 => t1 end) = ids (plug1 g (plug1 f t)).
Proof.
  destruct g as [gc gx u|gc u gx]; destruct u as [|[] ul ux ur];
    destruct f as [fc fx fs|fc fs fx]; destruct t as [|kc a k b]; simpl;
    intros; simplify_eq; ids_eq.
Qed.

Lemma fix_ins_ids c : forall t t', fix_ins c t = Some t' -> ids t' = ids (plug c t).
Proof.
  induction c as [c IH] using (induction_ltof1 _ length). unfold ltof in IH.
  intros t t'. destruct c as [|f c1]; simpl; [by intros [= ->]|].
  destruct (fcolor f); [|by intros [= <-]].
  destruct c1 as [|g c2]; [done|].
  destruct (ins_case g f t) as [[t1|t1]|] eqn:Ecase; [| |done];
    apply ins_case_ids in Ecase; simpl in Ecase.
  - intros H. apply IH in H; [|simpl; lia]. rewrite H. simpl. by apply ids_plug_eq.
  - intros [= <-]. simpl. by apply ids_plug_eq.
Qed.

(** insert keeps the red-black properties and adds the new object somewhere
    in the in-order sequence *)
Lemma insert_tree_ok key k new t :
  is_rb t ->
  exists t' l1 l2,
    insert_tree key k new t = Some t' /\ is_rb t' /\
    ids t = l1 ++ l2 /\ ids t' = l1 ++ new :: l2.
Proof.
  intros [Hroot [n Hn]]. unfold insert_tree.
  set (c := ins_path key k t []).
  assert (Hc : rbc c 0).
  { apply (rbc_ins_path key k t [] n); [done|constructor|done..]. }
  destruct (fix_ins_rb c (T RED E new E) 0 Hc) as (t' & m & Hfix & Hm).
  { by repeat constructor. } { done. }
  rewrite Hfix. simpl.
  exists (blacken t'), (ctx_left c), (ctx_right c). split_and!.
  - done.
  - by eapply is_rb_blacken.
  - pose proof (ins_path_plug key k t []) as Hp. fold c in Hp. simpl in Hp.
    rewrite <- Hp at 1. by rewrite ids_plug_split.
  - rewrite ids_blacken, (fix_ins_ids _ _ _ Hfix), ids_plug_split. done.
Qed.
(** ** _fix_delete on the represented tree *)

(** the second half of an iteration, with [x] the left child of the node
    [fx] of colour [pc] and [w] its sibling: the new subtree at [fx]'s place,
    and whether [x] moves to its parent ([true]) or to the root ([false]) *)
Definition del_left_234 (pc : color) (t : tree) (fx : nat) (w : tree)
  : option (tree * bool) :=
  match w with
  | E => None
  | T wc wl wx wr =>
      if bool_decide (rootcolor wl = BLACK /\ rootcolor wr = BLACK) then
        Some (T pc t fx (T RED wl wx wr), true)
      else
        let w' :=
          if bool_decide (rootcolor wr = BLACK) then
            match wl with
            | T _ a1 wlx a2 => Some (T BLACK a1 wlx (T RED a2 wx wr))
            | E => None
            end
          else Some w in
        match w' with
        | Some (T _ wl' wx' (T _ b1 wrx b2)) =>
            Some (T pc (T BLACK t fx wl') wx' (T BLACK b1 wrx b2), false)
        | _ => None
        end
  end.

Definition del_right_234 (pc : color) (w : tree) (fx : nat) (t : tree)
  : option (tree * bool) :=
  match w with
  | E => None
  | T wc wl wx wr =>
      if bool_decide (rootcolor wr = BLACK /\ rootcolor wl = BLACK) then
        Some (T pc (T RED wl wx wr) fx t, true)
      else
        let w' :=
          if bool_decide (rootcolor wl = BLACK) then
            match wr with
            | T _ a1 wrx a2 => Some (T BLACK (T RED wl wx a1) wrx a2)
            | E => None
            end
          else Some w in
        match w' with
        | Some (T _ (T _ b1 wlx b2) wx' wr') =>
            Some (T pc (T BLACK b1 wlx b2) wx' (T BLACK wr' fx t), false)
        | _ => None
        end
  end.

Inductive del_step := DContinue (t : tree) | DRoot (t : tree) | DDone (t : tree).

(** one iteration of the loop: [t] is the subtree at [x] (E when [x] is the
    sentinel) and [f] the step from x.parent to [x]; the result replaces the
    subtree at x.parent *)
Definition del_case (f : frame) (t : tree) : option del_step :=
  match f with
  | FL fc fx w =>
      match w with
      | T RED wl wx wr =>
          match del_left_234 RED t fx wl with
          | Some (s, true) => Some (DDone (T BLACK (blacken s) wx wr))
          | Some (s, false) => Some (DRoot (T BLACK s wx wr))
          | None => None
          end
      | _ =>
          match del_left_234 fc t fx w with
          | Some (s, true) => Some (DContinue s)
          | Some (s, false) => Some (DRoot s)
          | None => None
          end
      end
  | FR fc w fx =>
      match w with
      | T RED wl wx wr =>
          match del_right_234 RED wr fx t with
          | Some (s, true) => Some (DDone (T BLACK wl wx (blacken s)))
          | Some (s, false) => Some (DRoot (T BLACK wl wx s))
          | None => None
          end
      | _ =>
          match del_right_234 fc w fx t with
          | Some (s, true) => Some (DContinue s)
          | Some (s, false) => Some (DRoot s)
          | None => None
          end
      end
  end.

Fixpoint fix_del (c : list frame) (t : tree) : option tree :=
  match c with
  | [] => Some (blacken t)
  | f :: c' =>
      match rootcolor t with
      | RED => Some (plug c (blacken t))
      | BLACK =>
          match del_case f t with
          | Some (DContinue s) => fix_del c' s
          | Some (DRoot s) => Some (blacken (plug c' s))
          | Some (DDone s) => Some (plug c' s)
          | None => None
          end
      end
  end.

(** when [x] is the sentinel, its parent link is the node above the hole *)
Definition xpar (h : gmap nat node) (t : tree) (p : option nat) : Prop :=
  t = E -> exists n, h !! 0 = Some n /\ parent n = p.

Lemma get_parent_rootref (st : rbt) p t :
  rep (heap st) p t -> xpar (heap st) t p ->
  get_parent (rootref t) st = Ok (p, st).
Proof.
  intros Ht Hx. destruct t as [|c l x r]; cbn [rootref].
  - destruct (Hx eq_refl) as (n & Hn & <-). exact (get_parent_ok _ _ _ Hn).
  - destruct Ht as ((k & v & Hl) & _). exact (get_parent_ok _ _ _ Hl).
Qed.

Ltac xpar_goal :=
  match goal with
  | H : xpar ?h ?t ?p |- xpar _ ?t ?p =>
      let HE := fresh "HE" in
      intros HE; cbn [heap]; repeat rewrite lookup_insert_ne by ne; exact (H HE)
  end.

Ltac run_par :=
  lazymatch goal with
  | |- get_parent (rootref _) _ = _ =>
      eapply get_parent_rootref; cbn [heap]; [frame|xpar_goal]
  end.

(** run the straight-line prefix, reading x.parent through [xpar] *)
Ltac runx :=
  runs;
  try (lazymatch goal with
       | |- runs_to (@mbind _ _ _ _ _ (get_parent (rootref _)) _) _ =>
           eapply runs_bind; [ solve [run_par] | cbn beta ]; runx
       end).

Lemma set_color_rootref_ok (st : rbt) c t :
  R st (plug c t) ->
  runs_to (set_color (rootref t) BLACK st)
          (fun _ st' => R st' (plug c (blacken t)) /\ next st' = next st).
Proof.
  intros HR. destruct st as [h rt nx]. destruct t as [|col l x r].
  - pose proof HR as [Hrep Hroot (k0 & v0 & p0 & H0) Hnd Hnext].
    eapply runs_ok; [eapply set_color_ok; exact H0|]. split; [|done].
    cbn [heap root next blacken] in *.
    assert (Hz : forall z, z ∈ ids (plug c E) ->
              <[0:=with_color BLACK (Node k0 v0 BLACK None None p0)]> h !! z = h !! z).
    { intros z Hz. apply lookup_insert_ne. apply NoDup_cons in Hnd as [Hnd _].
      intros <-. done. }
    constructor; cbn [heap root next]; try done.
    + by eapply rep_frame.
    + do 3 eexists. apply lookup_insert_eq.
  - open_R HR. runs. split; [|done]. cbn [blacken]. R_goal HR.
Qed.

(** the loop ends at once at the root and at a RED node *)
Lemma fix_delete_exit_root fuel (st : rbt) t :
  R st t ->
  runs_to (_fix_delete fuel (root st) st)
          (fun _ st' => R st' (blacken t) /\ next st' = next st).
Proof.
  intros HR. unfold _fix_delete.
  assert (Hloop : fix_delete_loop fuel (root st) st = Ok (root st, st)).
  { destruct fuel; cbn [fix_delete_loop]; (eapply run_bind; [reflexivity|]); cbn beta;
      by rewrite bool_decide_eq_false_2 by (intros H; by apply H). }
  eapply runs_bind; [exact Hloop|]. cbn beta.
  pose proof HR as [_ Hroot _ _ _]. rewrite Hroot.
  apply (set_color_rootref_ok st [] t HR).
Qed.

Lemma fix_delete_exit_red fuel (st : rbt) c l x r :
  R st (plug c (T RED l x r)) ->
  runs_to (_fix_delete fuel (Some x) st)
          (fun _ st' => R st' (plug c (T BLACK l x r)) /\ next st' = next st).
Proof.
  intros HR. unfold _fix_delete.
  assert (Hloop : fix_delete_loop fuel (Some x) st = Ok (Some x, st)).
  { destruct st as [h rt nx]. open_R HR.
    destruct fuel; cbn [fix_delete_loop]; (eapply run_bind; [reflexivity|]); cbn beta;
      cbn [root];
      (destruct (bool_decide (Some x <> rt)); [eapply run_bind; [run_prim|]; cbn beta|];
       by cbn). }
  eapply runs_bind; [exact Hloop|]. cbn beta.
  apply (set_color_rootref_ok st c (T RED l x r) HR).
Qed.
(** the two halves of the loop body of _fix_delete, after the sibling [w] has
    been made BLACK; [rec] is the rest of the loop *)
Definition seg_left (rec : option nat -> M V (option nat)) (x w : option nat)
  : M V (option nat) :=
  wl ← get_left w; wlc ← get_color wl;
  both ← (if bool_decide (wlc = BLACK) then
            wr ← get_right w; wrc ← get_color wr;
            mret (bool_decide (wrc = BLACK))
          else mret false);
  if both : bool then
    set_color w RED;;
    xp ← get_parent x;
    rec xp
  else
    wr ← get_right w; wrc ← get_color wr;
    w ← (if bool_decide (wrc = BLACK) then
           (wl ← get_left w; set_color wl BLACK);;
           set_color w RED;;
           _right_rotate w;;
           xp ← get_parent x; get_right xp
         else mret w);
    (xp ← get_parent x; c ← get_color xp; set_color w c);;
    (xp ← get_parent x; set_color xp BLACK);;
    (wr ← get_right w; set_color wr BLACK);;
    (xp ← get_parent x; _left_rotate xp);;
    rt ← get_root;
    rec rt.

Definition seg_right (rec : option nat -> M V (option nat)) (x w : option nat)
  : M V (option nat) :=
  wr ← get_right w; wrc ← get_color wr;
  both ← (if bool_decide (wrc = BLACK) then
            wl ← get_left w; wlc ← get_color wl;
            mret (bool_decide (wlc = BLACK))
          else mret false);
  if both : bool then
    set_color w RED;;
    xp ← get_parent x;
    rec xp
  else
    wl ← get_left w; wlc ← get_color wl;
    w ← (if bool_decide (wlc = BLACK) then
           (wr ← get_right w; set_color wr BLACK);;
           set_color w RED;;
           _left_rotate w;;
           xp ← get_parent x; get_left xp
         else mret w);
    (xp ← get_parent x; c ← get_color xp; set_color w c);;
    (xp ← get_parent x; set_color xp BLACK);;
    (wl ← get_left w; set_color wl BLACK);;
    (xp ← get_parent x; _right_rotate xp);;
    rt ← get_root;
    rec rt.

Lemma fix_delete_loop_S fuel x :
  fix_delete_loop (S fuel) x =
  (rt ← get_root;
   cond ← (if bool_decide (x <> rt) then
             c ← get_color x; mret (bool_decide (c = BLACK))
           else mret false);
   if cond : bool then
     xp ← get_parent x; xpl ← get_left xp;
     if bool_decide (x = xpl) then
       xp ← get_parent x; w ← get_right xp;
       wc ← get_color w;
       w ← (if bool_decide (wc = RED) then
              set_color w BLACK;;
              (xp ← get_parent x; set_color xp RED);;
              (xp ← get_parent x; _left_rotate xp);;
              xp ← get_parent x; get_right xp
            else mret w);
       seg_left (fix_delete_loop fuel) x w
     else
       xp ← get_parent x; w ← get_left xp;
       wc ← get_color w;
       w ← (if bool_decide (wc = RED) then
              set_color w BLACK;;
              (xp ← get_parent x; set_color xp RED);;
              (xp ← get_parent x; _right_rotate xp);;
              xp ← get_parent x; get_left xp
            else mret w);
       seg_right (fix_delete_loop fuel) x w
   else mret x).
Proof. reflexivity. Qed.

Lemma xpar_T h c l x r p : xpar h (T c l x r) p.
Proof. by intros ?. Qed.

Lemma seg_left_ok (rec : option nat -> M V (option nat)) (st : rbt) c pc t fx w s flag
    (K : option nat -> M V unit) Q :
  R st (plug c (T pc t fx w)) ->
  xpar (heap st) t (Some fx) ->
  del_left_234 pc t fx w = Some (s, flag) ->
  (forall st', R st' (plug c s) -> next st' = next st ->
     runs_to ((rec (if flag then Some fx else root st') ≫= K) st') Q) ->
  runs_to ((seg_left rec (rootref t) (rootref w) ≫= K) st) Q.
Proof.
  intros HR Hxp Hdel Hk.
  destruct w as [|wc wl wx wr]; [done|]. simpl in Hdel.
  destruct st as [h rt nx]. cbn [heap] in Hxp.
  unfold seg_left.
  case_bool_decide as Hboth.
  - (* both children of w are BLACK *)
    destruct Hboth as [Hwl Hwr]. injection Hdel as <- <-.
    open_R HR. runx. apply Hk; [|done]. R_goal HR.
  - destruct (rootcolor wr) eqn:Hwr.
    + (* w.right is RED *)
      rewrite bool_decide_eq_false_2 in Hdel by done.
      destruct wr as [|wrc b1 wrx b2]; [done|]. simpl in Hwr. subst wrc.
      injection Hdel as <- <-.
      open_R HR.
      destruct (rootcolor wl) eqn:Hwl; runx.
      all: rotate left_rotate_runs HR c (T BLACK t fx (T pc wl wx (T BLACK b1 wrx b2))).
      all: intros [] st2 (HR2 & H02 & Hn2); cbn beta.
      all: apply runs_assoc; (eapply runs_bind; [reflexivity|]); cbn beta.
      all: by apply Hk.
    + (* w.right is BLACK and w.left is RED *)
      rewrite bool_decide_eq_true_2 in Hdel by done.
      destruct wl as [|wlc a1 wlx a2]; [done|].
      assert (wlc = RED) as ->.
      { destruct wlc; [done|]. destruct Hboth. done. }
      injection Hdel as <- <-.
      open_R HR. runx.
      rotate right_rotate_runs HR (FR pc t fx :: c) (T RED (T BLACK a1 wlx a2) wx wr).
      intros [] st2 (HR2 & H02 & Hn2); cbn beta.
      destruct st2 as [h2 rt2 nx2]. cbn [heap next] in *. subst nx2.
      assert (Hxp2 : xpar h2 t (Some fx)).
      { intros HE. rewrite H02. repeat rewrite lookup_insert_ne by ne. by apply Hxp. }
      rewrite plug_cons in HR2. cbn [plug1] in HR2.
      clear dependent h. open_R HR2. runx.
      rotate left_rotate_runs HR2 c (T BLACK t fx (T pc a1 wlx (T BLACK a2 wx wr))).
      intros [] st3 (HR3 & H03 & Hn3); cbn beta.
      apply runs_assoc; (eapply runs_bind; [reflexivity|]); cbn beta.
      by apply Hk.
Qed.


Lemma seg_right_ok (rec : option nat -> M V (option nat)) (st : rbt) c pc t fx w s flag
    (K : option nat -> M V unit) Q :
  R st (plug c (T pc w fx t)) ->
  xpar (heap st) t (Some fx) ->
  del_right_234 pc w fx t = Some (s, flag) ->
  (forall st', R st' (plug c s) -> next st' = next st ->
     runs_to ((rec (if flag then Some fx else root st') ≫= K) st') Q) ->
  runs_to ((seg_right rec (rootref t) (rootref w) ≫= K) st) Q.
Proof.
  intros HR Hxp Hdel Hk.
  destruct w as [|wc wl wx wr]; [done|]. simpl in Hdel.
  destruct st as [h rt nx]. cbn [heap] in Hxp.
  unfold seg_right.
  case_bool_decide as Hboth.
  - (* both children of w are BLACK *)
    destruct Hboth as [Hwl Hwr]. injection Hdel as <- <-.
    open_R HR. runx. apply Hk; [|done]. R_goal HR.
  - destruct (rootcolor wl) eqn:Hwl.
    + (* w.left is RED *)
      rewrite bool_decide_eq_false_2 in Hdel by done.
      destruct wl as [|wlc b1 wlx b2]; [done|]. simpl in Hwl. subst wlc.
      injection Hdel as <- <-.
      open_R HR.
      destruct (rootcolor wr) eqn:Hwr; runx.
      all: rotate right_rotate_runs HR c (T BLACK (T pc (T BLACK b1 wlx b2) wx wr) fx t).
      all: intros [] st2 (HR2 & H02 & Hn2); cbn beta.
      all: apply runs_assoc; (eapply runs_bind; [reflexivity|]); cbn beta.
      all: by apply Hk.
    + (* w.left is BLACK and w.right is RED *)
      rewrite bool_decide_eq_true_2 in Hdel by done.
      destruct wr as [|wrc a1 wrx a2]; [done|].
      assert (wrc = RED) as ->.
      { destruct wrc; [done|]. destruct Hboth. done. }
      injection Hdel as <- <-.
      open_R HR. runx.
      rotate left_rotate_runs HR (FL pc fx t :: c) (T RED wl wx (T BLACK a1 wrx a2)).
      intros [] st2 (HR2 & H02 & Hn2); cbn beta.
      destruct st2 as [h2 rt2 nx2]. cbn [heap next] in *. subst nx2.
      assert (Hxp2 : xpar h2 t (Some fx)).
      { intros HE. rewrite H02. repeat rewrite lookup_insert_ne by ne. by apply Hxp. }
      rewrite plug_cons in HR2. cbn [plug1] in HR2.
      clear dependent h. open_R HR2. runx.
      rotate right_rotate_runs HR2 c (T BLACK (T pc (T BLACK wl wx a1) wrx a2) fx t).
      intros [] st3 (HR3 & H03 & Hn3); cbn beta.
      apply runs_assoc; (eapply runs_bind; [reflexivity|]); cbn beta.
      by apply Hk.
Qed.

Lemma R_root_ne_rootref st f c t : R st (plug (f :: c) t) -> root st <> rootref t.
Proof.
  intros HR. destruct t as [|col l x r]; cbn [rootref].
  - destruct HR as [_ Hroot _ Hnd _].
    destruct (rootref_plug_last f c E) as (y & Hy & Hin).
    rewrite Hroot, Hy. intros [= ->].
    rewrite ids_plug in Hnd. apply NoDup_cons in Hnd as [Hnd _]. set_solver.
  - eapply R_root_ne; [exact HR|]. set_solver.
Qed.

Lemma del_left_234_true pc t fx w s :
  del_left_234 pc t fx w = Some (s, true) -> exists w', s = T pc t fx w'.
Proof. destruct w; simpl; [done|]. repeat case_match; intros; simplify_eq; eauto. Qed.

Lemma del_right_234_true pc t fx w s :
  del_right_234 pc w fx t = Some (s, true) -> exists w', s = T pc w' fx t.
Proof. destruct w; simpl; [done|]. repeat case_match; intros; simplify_eq; eauto. Qed.

Lemma fix_delete_ok fuel : forall c t (st : rbt) t',
  R st (plug c t) -> xpar (heap st) t (ctx_ref NIL c) ->
  fix_del c t = Some t' -> length c <= fuel ->
  runs_to (_fix_delete fuel (rootref t) st)
          (fun _ st' => R st' t' /\ next st' = next st).
Proof.
  induction fuel as [|fuel IH]; intros c t st t' HR Hxp Hfix Hfuel.
  { destruct c; [|simpl in Hfuel; lia]. injection Hfix as <-.
    pose proof HR as [_ Hroot _ _ _]. simpl in Hroot. rewrite <- Hroot.
    by apply fix_delete_exit_root. }
  destruct c as [|f c'].
  { injection Hfix as <-.
    pose proof HR as [_ Hroot _ _ _]. simpl in Hroot. rewrite <- Hroot.
    by apply fix_delete_exit_root. }
  simpl in Hfix, Hfuel.
  destruct (rootcolor t) eqn:Hcol.
  { destruct t as [|[] l x r]; try done. injection Hfix as <-.
    by apply (fix_delete_exit_red _ _ (f :: c')). }
  pose proof (R_root_ne_rootref _ _ _ _ HR) as Hrt.
  unfold _fix_delete. rewrite fix_delete_loop_S.
  destruct st as [h rt nx]. cbn [root heap] in *.
  destruct f as [fc fx w|fc w fx]; cbn [ctx_ref fid] in Hxp.
  - (* x is the left child *)
    simpl in Hfix.
    destruct (decide (rootcolor w = RED)) as [Hw|Hw].
    + (* the sibling is RED *)
      destruct w as [|[] wl wx wr]; try done.
      rewrite plug_cons in HR. cbn [plug1] in HR. open_R HR.
      apply runs_assoc. (eapply runs_bind; [reflexivity|]); cbn beta.
      runx.
      rotate left_rotate_runs HR c' (T RED t fx (T BLACK wl wx wr)).
      intros [] st2 (HR2 & H02 & Hn2); cbn beta.
      destruct st2 as [h2 rt2 nx2]. cbn [heap next] in *. subst nx2.
      assert (Hxp2 : xpar h2 t (Some fx)).
      { intros HE. rewrite H02. repeat rewrite lookup_insert_ne by ne. by apply Hxp. }
      clear dependent h. open_R HR2. runx.
      destruct (del_left_234 RED t fx wl) as [[s flag]|] eqn:Hd; [|done].
      eapply (seg_left_ok _ _ (FL BLACK wx wr :: c') RED t fx wl s flag); [exact HR2|done..|].
      intros st3 HR3 Hn3. cbn [next] in Hn3. rewrite <- Hn3.
      destruct flag; injection Hfix as <-.
      * apply del_left_234_true in Hd as (w' & ->).
        by apply (fix_delete_exit_red _ _ (FL BLACK wx wr :: c')).
      * by apply (fix_delete_exit_root _ _ (plug (FL BLACK wx wr :: c') s)).
    + (* the sibling is BLACK *)
      assert (Hfix' : match del_left_234 fc t fx w with
                      | Some (s, true) => fix_del c' s
                      | Some (s, false) => Some (blacken (plug c' s))
                      | None => None
                      end = Some t').
      { destruct w as [|[] wl wx wr]; try done; by destruct (del_left_234 _ _ _ _) as [[? []]|]. }
      clear Hfix.
      destruct (del_left_234 fc t fx w) as [[s flag]|] eqn:Hd; [|done].
      rewrite plug_cons in HR. cbn [plug1] in HR.
      assert (Hwb : rootcolor w = BLACK) by (by destruct (rootcolor w)).
      destruct w as [|wc wl wx wr]; [done|]. simpl in Hwb. subst wc.
      open_R HR.
      apply runs_assoc. (eapply runs_bind; [reflexivity|]); cbn beta.
      runx.
      eapply (seg_left_ok _ _ c' fc t fx (T BLACK wl wx wr) s flag); [exact HR|done..|].
      intros st3 HR3 Hn3. cbn [next] in Hn3. rewrite <- Hn3.
      destruct flag.
      * apply del_left_234_true in Hd as (w' & ->).
        apply (IH c' (T fc t fx w') st3 t'); [done|apply xpar_T|done|lia].
      * injection Hfix' as <-. by apply fix_delete_exit_root.
  - (* x is the right child *)
    simpl in Hfix.
    destruct (decide (rootcolor w = RED)) as [Hw|Hw].
    + (* the sibling is RED *)
      destruct w as [|[] wl wx wr]; try done.
      rewrite plug_cons in HR. cbn [plug1] in HR. open_R HR.
      apply runs_assoc. (eapply runs_bind; [reflexivity|]); cbn beta.
      runx.
      rotate right_rotate_runs HR c' (T RED (T BLACK wl wx wr) fx t).
      intros [] st2 (HR2 & H02 & Hn2); cbn beta.
      destruct st2 as [h2 rt2 nx2]. cbn [heap next] in *. subst nx2.
      assert (Hxp2 : xpar h2 t (Some fx)).
      { intros HE. rewrite H02. repeat rewrite lookup_insert_ne by ne. by apply Hxp. }
      clear dependent h. open_R HR2. runx.
      destruct (del_right_234 RED wr fx t) as [[s flag]|] eqn:Hd; [|done].
      eapply (seg_right_ok _ _ (FR BLACK wl wx :: c') RED t fx wr s flag); [exact HR2|done..|].
      intros st3 HR3 Hn3. cbn [next] in Hn3. rewrite <- Hn3.
      destruct flag; injection Hfix as <-.
      * apply del_right_234_true in Hd as (w' & ->).
        by apply (fix_delete_exit_red _ _ (FR BLACK wl wx :: c')).
      * by apply (fix_delete_exit_root _ _ (plug (FR BLACK wl wx :: c') s)).
    + (* the sibling is BLACK *)
      assert (Hfix' : match del_right_234 fc w fx t with
                      | Some (s, true) => fix_del c' s
                      | Some (s, false) => Some (blacken (plug c' s))
                      | None => None
                      end = Some t').
      { destruct w as [|[] wl wx wr]; try done; by destruct (del_right_234 _ _ _ _) as [[? []]|]. }
      clear Hfix.
      destruct (del_right_234 fc w fx t) as [[s flag]|] eqn:Hd; [|done].
      rewrite plug_cons in HR. cbn [plug1] in HR.
      assert (Hwb : rootcolor w = BLACK) by (by destruct (rootcolor w)).
      destruct w as [|wc wl wx wr]; [done|]. simpl in Hwb. subst wc.
      open_R HR.
      apply runs_assoc. (eapply runs_bind; [reflexivity|]); cbn beta.
      runx.
      eapply (seg_right_ok _ _ c' fc t fx (T BLACK wl wx wr) s flag); [exact HR|done..|].
      intros st3 HR3 Hn3. cbn [next] in Hn3. rewrite <- Hn3.
      destruct flag.
      * apply del_right_234_true in Hd as (w' & ->).
        apply (IH c' (T fc w' fx t) st3 t'); [done|apply xpar_T|done|lia].
      * injection Hfix' as <-. by apply fix_delete_exit_root.
Qed.
(** ** search, _minimum and _delete_node on the represented tree *)

Fixpoint find (key : nat -> string) (k : string) (t : tree) (c : list frame)
  : option (list frame * tree) :=
  match t with
  | E => None
  | T col l x r =>
      if String.eqb k (key x) then Some (c, t)
      else if String.ltb k (key x) then find key k l (FL col x r :: c)
      else find key k r (FR col l x :: c)
  end.

Lemma find_plug key k t c c' t' :
  find key k t c = Some (c', t') -> plug c' t' = plug c t /\ t' <> E.
Proof.
  revert c. induction t as [|col l IHl x r IHr]; intros c; simpl; [done|].
  destruct (String.eqb k (key x)); [by intros [= <- <-]|].
  destruct (String.ltb k (key x)); intros H; [apply IHl in H|apply IHr in H]; done.
Qed.

Lemma find_ext key key' k t c :
  (forall x, x ∈ ids t -> key x = key' x) ->
  find key k t c = find key' k t c.
Proof.
  revert c. induction t as [|col l IHl x r IHr]; intros c Hk; simpl; [done|].
  rewrite (Hk x) by set_solver.
  destruct (String.eqb k (key' x)); [done|].
  destruct (String.ltb k (key' x)); [apply IHl|apply IHr]; intros; apply Hk; set_solver.
Qed.

Lemma search_helper_ok fuel (st : rbt) k t p c :
  rep (heap st) p t -> 0 ∉ ids t -> height t <= fuel ->
  _search_helper fuel (rootref t) k st
  = Ok (match find (key_of (heap st)) k t c with
        | Some (_, t') => rootref t'
        | None => None
        end, st).
Proof.
  revert fuel p c.
  induction t as [|col l IHl x r IHr]; intros fuel p c Hrep H0 Hfuel.
  - destruct fuel; simpl; try rewrite bool_decide_eq_true_2 by done; done.
  - destruct Hrep as ((kx & vx & Hx) & Hl & Hr).
    simpl in H0, Hfuel. rewrite not_elem_of_app, not_elem_of_cons in H0.
    destruct H0 as (H0l & H0x & H0r).
    destruct fuel as [|fuel]; [lia|].
    cbn [_search_helper rootref find]. rewrite bool_decide_eq_false_2 by ne.
    unfold key_of at 1 2. rewrite Hx. fields.
    eapply run_bind; [run_prim|]. cbn beta. fields.
    destruct (String.eqb k kx); [done|].
    eapply run_bind; [run_prim|]. cbn beta. fields.
    destruct (String.ltb k kx).
    + eapply run_bind; [run_prim|]. cbn beta. fields.
      apply (IHl fuel (Some x) (FL col x r :: c)); [done..|lia].
    + eapply run_bind; [run_prim|]. cbn beta. fields.
      apply (IHr fuel (Some x) (FR col l x :: c)); [done..|lia].
Qed.

(** the leftmost node of [t]: the path to it, its colour, its location and
    its right subtree *)
Fixpoint split_min (t : tree) (c : list frame)
  : option (list frame * color * nat * tree) :=
  match t with
  | E => None
  | T col l x r =>
      match l with
      | E => Some (c, col, x, r)
      | T _ _ _ _ => split_min l (FL col x r :: c)
      end
  end.

Lemma ctx_left_app c1 c2 : ctx_left (c1 ++ c2) = ctx_left c2 ++ ctx_left c1.
Proof.
  induction c1 as [|[] c1 IH]; simpl; rewrite ?app_nil_r; try done.
  by rewrite IH, <- !app_assoc.
Qed.

Lemma split_min_plug t c cy yc y yr :
  split_min t c = Some (cy, yc, y, yr) ->
  exists cy0, cy = cy0 ++ c /\ t = plug cy0 (T yc E y yr) /\ ctx_left cy0 = [].
Proof.
  revert c. induction t as [|col l IHl x r IHr]; intros c; simpl; [done|].
  destruct l as [|lc ll lx lr].
  - intros [= <- <- <- <-]. by exists [].
  - intros H. apply IHl in H as (cy0 & -> & Hl & Hleft).
    exists (cy0 ++ [FL col x r]). split_and!.
    + by rewrite <- app_assoc.
    + by rewrite plug_app, <- Hl.
    + by rewrite ctx_left_app, Hleft.
Qed.

Lemma split_min_some t c : t <> E -> exists r, split_min t c = Some r.
Proof.
  revert c. induction t as [|col l IHl x r IHr]; intros c Ht; [done|]. simpl.
  destruct l as [|lc ll lx lr]; [eauto|]. by apply IHl.
Qed.

Lemma minimum_ok fuel (st : rbt) t p c cy yc y yr :
  rep (heap st) p t -> 0 ∉ ids t -> height t <= S fuel ->
  split_min t c = Some (cy, yc, y, yr) ->
  _minimum fuel (rootref t) st = Ok (Some y, st).
Proof.
  revert fuel p c.
  induction t as [|col l IHl x r IHr]; intros fuel p c Hrep H0 Hfuel Hmin; [done|].
  destruct Hrep as ((kx & vx & Hx) & Hl & Hr).
  simpl in H0, Hfuel, Hmin. rewrite not_elem_of_app, not_elem_of_cons in H0.
  destruct H0 as (H0l & H0x & H0r).
  destruct l as [|lc ll lx lr].
  - injection Hmin as <- <- <- <-.
    destruct fuel; cbn [_minimum rootref]; (eapply run_bind; [run_prim|]); cbn beta; fields;
      by rewrite bool_decide_eq_false_2 by ne.
  - destruct fuel as [|fuel]; [simpl in Hfuel; lia|].
    cbn [_minimum rootref]. eapply run_bind; [run_prim|]. cbn beta. fields.
    assert (0 <> lx) by set_solver.
    rewrite bool_decide_eq_true_2 by ne.
    eapply run_bind; [run_prim|]. cbn beta. fields.
    apply (IHl fuel (Some x) (FL col x r :: c)); try done. simpl in *. lia.
Qed.

(** _delete_node up to its last statement: the path to [x], the subtree at
    [x], and y_original_color *)
Definition del_node (c : list frame) (zc : color) (zl : tree) (z : nat) (zr : tree)
  : option (list frame * tree * color) :=
  match zl, zr with
  | E, _ => Some (c, zr, zc)
  | _, E => Some (c, zl, zc)
  | _, _ =>
      match split_min zr [] with
      | Some (cy, yc, y, yr) => Some (cy ++ FR zc zl y :: c, yr, yc)
      | None => None
      end
  end.

Definition delete_at (c : list frame) (t : tree) : option tree :=
  match t with
  | E => None
  | T zc zl z zr =>
      match del_node c zc zl z zr with
      | Some (c', xs, BLACK) => fix_del c' xs
      | Some (c', xs, RED) => Some (plug c' xs)
      | None => None
      end
  end.

Definition delete_tree (key : nat -> string) (k : string) (t : tree)
  : option (tree * bool) :=
  match find key k t [] with
  | None => Some (t, false)
  | Some (c, t1) =>
      match delete_at c t1 with
      | Some t' => Some (t', true)
      | None => None
      end
  end.

Lemma submseteq_NoDup' (l k : list nat) : l ⊆+ k -> NoDup k -> NoDup l.
Proof.
  intros (k' & Hk)%submseteq_Permutation. rewrite Hk.
  by intros (? & _)%NoDup_app.
Qed.

Lemma submseteq_Forall' (P : nat -> Prop) (l k : list nat) :
  l ⊆+ k -> Forall P k -> Forall P l.
Proof.
  intros Hs. rewrite !Forall_forall. intros H x Hx. apply H.
  by eapply elem_of_submseteq.
Qed.

(** the store changed and now represents a tree with some of the objects *)
Lemma R_update (st st' : rbt) t t' :
  R st t ->
  rep (heap st') NIL t' ->
  root st' = rootref t' ->
  nil_ok (heap st') ->
  ids t' ⊆+ ids t ->
  next st' = next st ->
  R st' t'.
Proof.
  intros [Hrep Hroot Hnil Hnd Hnext] Hrep' Hroot' H0 Hids Hn.
  constructor; try done.
  - eapply submseteq_NoDup'; [|exact Hnd]. by apply submseteq_skip.
  - rewrite Hn. eapply submseteq_Forall'; [|exact Hnext]. by apply submseteq_skip.
Qed.
Ltac nil_goal' :=
  first [ nil_goal | (do 3 eexists; cbn [heap]; lk) ].

Ltac ids_sub :=
  rewrite ?ids_plug; simpl; rewrite ?ids_plug; simpl; solve_submseteq.

Ltac R_upd HR :=
  eapply R_update; [exact HR|rep_goal|root_goal|nil_goal'|ids_sub|done].

Ltac xpar_new :=
  let HE := fresh "HE" in
  intros HE;
  first [ discriminate HE | (eexists; split; [cbn [heap]; lk|reflexivity]) ].

(** the reference at the top of a path with [r] in its hole *)
Definition ctx_top (c : list frame) (r : option nat) : option nat :=
  match last c with None => r | Some f => Some (fid f) end.

Lemma ctx_top_cons f c r r' : ctx_top (f :: c) r = ctx_top (f :: c) r'.
Proof. unfold ctx_top. by destruct (last (f :: c)) eqn:E'; [|by apply last_None in E']. Qed.

Lemma rep_ctx_app h p c1 c2 r :
  rep_ctx h p (c1 ++ c2) r <->
  rep_ctx h (ctx_ref p c2) c1 r /\ rep_ctx h p c2 (ctx_top c1 r).
Proof.
  revert r. induction c1 as [|f c1 IH]; intros r.
  - simpl. unfold ctx_top. simpl. tauto.
  - cbn [app rep_ctx]. rewrite IH.
    assert (ctx_ref p (c1 ++ c2) = ctx_ref (ctx_ref p c2) c1) as -> by (by destruct c1).
    assert (ctx_top c1 (Some (fid f)) = ctx_top (f :: c1) r) as ->.
    { unfold ctx_top. destruct c1 as [|f0 c1]; [done|].
      change (last (f :: f0 :: c1)) with (last (f0 :: c1)).
      destruct (last (f0 :: c1)) eqn:E'; [done|]. by apply last_None in E'. }
    tauto.
Qed.

Lemma ctx_ids_app c1 c2 : ctx_ids (c1 ++ c2) = ctx_ids c1 ++ ctx_ids c2.
Proof. induction c1 as [|f c1 IH]; simpl; [done|]. by rewrite IH, <- app_assoc. Qed.

Lemma rootref_plug_app_cons c1 f c2 t :
  rootref (plug (c1 ++ f :: c2) t) = rootref (plug (f :: c2) E).
Proof. rewrite plug_app. apply rootref_plug_cons. Qed.

Lemma ctx_ref_app_cons p c1 f c2 :
  ctx_ref p (c1 ++ f :: c2) = ctx_ref (Some (fid f)) c1.
Proof. by destruct c1. Qed.

Ltac open_R2 HR :=
  let Hrep := fresh "Hrep" in
  let Hroot := fresh "Hroot" in
  let Hnil := fresh "Hnil" in
  let Hnd := fresh "Hnd" in
  let Hnext := fresh "Hnext" in
  let Hc := fresh "Hc" in
  pose proof HR as [Hrep Hroot Hnil Hnd Hnext];
  apply rep_plug in Hrep as [Hc Hrep];
  rewrite ids_plug in Hnd;
  cbn [app ctx_ids] in Hc, Hnd;
  rewrite ?ctx_ids_app in Hnd;
  cbn [rep rep_ctx fid fsib fcolor frame_node ctx_ref rootref] in Hrep, Hc;
  rewrite ?rep_ctx_app in Hc;
  cbn [rep rep_ctx fid fsib fcolor frame_node ctx_ref rootref] in Hrep, Hc;
  rewrite ?ctx_ref_app_cons in Hc;
  cbn [fid] in Hc;
  destruct Hnil as (? & ? & ? & Hnil);
  repeat match goal with
         | H : _ /\ _ |- _ => destruct H
         | H : exists _, _ |- _ => destruct H
         end;
  nodup Hnd; fields.

Lemma rb_delete_node_ok fuel (st : rbt) c zc zl z zr t' :
  R st (plug c (T zc zl z zr)) ->
  delete_at c (T zc zl z zr) = Some t' ->
  height (plug c (T zc zl z zr)) <= fuel ->
  runs_to (_delete_node fuel (Some z) st)
          (fun _ st' => R st' t' /\ next st' = next st).
Proof.
  intros HR Hdel Hfuel. unfold delete_at in Hdel.
  destruct (del_node c zc zl z zr) as [[[c' xs] yc]|] eqn:Hnode; [|done].
  assert (Hlen : length c' <= fuel).
  { pose proof (length_ctx_height c (T zc zl z zr)) as Hh.
    unfold del_node in Hnode.
    destruct zl as [|lc ll lx lr]; [simplify_eq; lia|].
    destruct zr as [|rc rl rx rr]; [simplify_eq; lia|].
    destruct (split_min (T rc rl rx rr) []) as [[[[cy yc'] y] yr]|] eqn:Hmin; [|done].
    injection Hnode as <- <- <-.
    apply split_min_plug in Hmin as (cy0 & -> & Hzr & _). rewrite Hzr in Hh, Hfuel.
    pose proof (length_ctx_height cy0 (T yc' E y yr)) as Hh2.
    rewrite app_nil_r, length_app. cbn [length height] in *. lia. }
  assert (Hfin : forall st1 r, r = rootref xs ->
            R st1 (plug c' xs) -> xpar (heap st1) xs (ctx_ref NIL c') ->
            next st1 = next st ->
            runs_to ((if bool_decide (yc = BLACK) then _fix_delete fuel r
                      else mret ()) st1)
                    (fun _ st' => R st' t' /\ next st' = next st)).
  { intros st1 r -> HR1 Hxp1 Hn1. rewrite <- Hn1. destruct yc.
    - injection Hdel as <-. by apply runs_ret.
    - by apply (fix_delete_ok fuel c' xs st1 t'). }
  clear Hdel Hlen.
  unfold _delete_node. unfold del_node in Hnode.
  destruct st as [h rt nx].
  destruct zl as [|lc ll lx lr].
  - (* z.left is the sentinel *)
    injection Hnode as <- <- <-.
    destruct zr as [|rc rl rx rr];
      (destruct c as [|[cf xf sf|cf sf xf] c0]; rewrite ?plug_cons in HR; cbn [plug1] in HR;
       open_R HR; runs; unfold _transplant; runs; cbn iota; cbn beta).
    all: apply Hfin; [reflexivity| |xpar_new|done].
    all: R_upd HR.
  - destruct zr as [|rc rl rx rr].
    + (* z.right is the sentinel *)
      injection Hnode as <- <- <-.
      destruct c as [|[cf xf sf|cf sf xf] c0]; rewrite ?plug_cons in HR; cbn [plug1] in HR;
        open_R HR; runs; unfold _transplant; runs; cbn iota; cbn beta.
      all: apply Hfin; [reflexivity| |xpar_new|done].
      all: R_upd HR.
    + (* two children: y is the minimum of the right subtree *)
      destruct (split_min (T rc rl rx rr) []) as [[[[cy yc'] y] yr]|] eqn:Hmin; [|done].
      injection Hnode as <- <- <-.
      assert (Hminrun : forall st1 p, rep (heap st1) p (T rc rl rx rr) ->
                _minimum fuel (Some rx) st1 = Ok (Some y, st1)).
      { intros st1 p Hp. eapply (minimum_ok fuel st1 (T rc rl rx rr) p []); [done| | |exact Hmin].
        - destruct HR as [_ _ _ Hnd _]. rewrite ids_plug in Hnd.
          apply NoDup_cons in Hnd as [Hnd _]. set_solver.
        - pose proof (height_plug_ge c (T zc (T lc ll lx lr) z (T rc rl rx rr))).
          simpl in *. lia. }
      simpl in Hmin. destruct rl as [|rlc rll rlx rlr].
      * (* y is z.right *)
        injection Hmin as <- <- <- <-.
        destruct rr as [|rrc rrl rrx rrr];
          (destruct c as [|[cf xf sf|cf sf xf] c0]; rewrite ?plug_cons in HR; cbn [plug1] in HR;
           open_R HR; runs;
           (eapply runs_bind; [eapply Hminrun; cbn [heap rep]; eauto 10|]); cbn beta;
           runs; unfold _transplant; runs; cbn iota; cbn beta).
        all: apply Hfin; [reflexivity| |xpar_new|done].
        all: rewrite ?plug_cons; cbn [plug1 app].
        all: R_upd HR.
      * apply split_min_plug in Hmin as (cy0 & -> & Hrl & _).
        assert (Hm0 : _minimum fuel (Some rx) {| heap := h; root := rt; next := nx |}
                      = Ok (Some y, {| heap := h; root := rt; next := nx |})).
        { pose proof HR as [Hrep0 _ _ _ _]. apply rep_plug in Hrep0 as [_ Hrep0].
          destruct Hrep0 as (_ & _ & Hrep0). by eapply Hminrun. }
        clear Hminrun. rewrite Hrl in HR. clear Hrl.
        destruct cy0 as [|f' cy1].
        -- (* y is the left child of z.right *)
           change (plug [] (T yc' E y yr)) with (T yc' E y yr) in HR.
           destruct yr as [|yrc yrl yrx yrr];
             (destruct c as [|[cf xf sf|cf sf xf] c0]; rewrite ?plug_cons in HR;
              cbn [plug1] in HR;
              open_R HR; runs;
              (eapply runs_bind; [exact Hm0|]); cbn beta;
              runs; unfold _transplant; runs; cbn iota; cbn beta).
           all: apply Hfin; [reflexivity| |xpar_new|done].
           all: rewrite ?plug_cons; cbn [plug1 app]; rewrite ?plug_cons; cbn [plug1 app].
           all: R_upd HR.
        -- (* y is deeper in the right subtree *)
           assert (HRz : R {| heap := h; root := rt; next := nx |}
                     (plug (f' :: cy1 ++ FL rc rx rr :: FR zc (T lc ll lx lr) z :: c)
                           (T yc' E y yr))).
           { rewrite app_comm_cons, plug_app. exact HR. }
           clear HR.
           destruct yr as [|yrc yrl yrx yrr];
             (destruct c as [|[cf xf sf|cf sf xf] c0]);
             (destruct f' as [fc' px sf'|fc' sf' px]);
             open_R2 HRz; runs;
             (eapply runs_bind; [exact Hm0|]); cbn beta;
             runs; unfold _transplant; runs; cbn iota; cbn beta.
           all: apply Hfin; [reflexivity| |xpar_new|done].
           all: rewrite <- ?app_assoc; cbn [app].
           all: eapply R_update; [exact HRz| | | | |done].
           all: try (apply rep_plug; cbn [app rep_ctx]; rewrite rep_ctx_app;
                     cbn [rep rep_ctx fid fsib fcolor frame_node ctx_ref rootref];
                     rewrite ?ctx_ref_app_cons; cbn [fid];
                     split_and!; try done; try frame; try (do 2 eexists; lk)).
           all: try nil_goal'.
           all: try (rewrite ?ids_plug; cbn [app ctx_ids]; rewrite ?ctx_ids_app; simpl;
                     solve_submseteq).
           all: cbn [root];
             try match goal with H : ?r = rootref _ |- ?r = _ => rewrite H end;
             rewrite !app_comm_cons, !rootref_plug_app_cons;
             first [ reflexivity | (rewrite !plug_cons; apply rootref_plug; reflexivity) ].
Qed.
(** ** delete keeps the red-black properties *)

(** a tree that is red-black except that its RED root may have RED children *)
Definition arb (t : tree) (n : nat) : Prop :=
  match t with
  | T RED l x r => rb l n /\ rb r n
  | _ => rb t n
  end.

Lemma rb_arb t n : rb t n -> arb t n.
Proof. destruct 1; simpl; eauto using rb. Qed.

Lemma arb_blacken t n : arb t n -> rb (blacken t) (match rootcolor t with RED => S n | BLACK => n end).
Proof.
  destruct t as [|[] l x r]; simpl; [done| |done].
  intros [? ?]. by constructor.
Qed.

Lemma rb_0_black t : rb t 0 -> rootcolor t = BLACK -> t = E.
Proof. by inversion 1. Qed.

Lemma rb_S_black_inv t n :
  rb t (S n) -> rootcolor t = BLACK ->
  exists l x r, t = T BLACK l x r /\ rb l n /\ rb r n.
Proof. inversion 1; subst; try done; eauto 10. Qed.

Lemma rb_red_shape t n :
  rb t n -> rootcolor t = RED ->
  exists l x r, t = T RED l x r /\ rb l n /\ rb r n /\
                rootcolor l = BLACK /\ rootcolor r = BLACK.
Proof. destruct 1; try done; eauto 10. Qed.

Lemma del_left_234_rb pc t fx w n :
  rb t n -> rb w (S n) -> rootcolor w = BLACK ->
  exists s flag, del_left_234 pc t fx w = Some (s, flag) /\
    if flag then exists w', s = T pc t fx w' /\ rb w' n
    else rootcolor s = pc /\ rb s (match pc with RED => S n | BLACK => S (S n) end).
Proof.
  intros Ht Hw Hwc.
  apply rb_S_black_inv in Hw as (wl & wx & wr & -> & Hwl & Hwr); [|done].
  simpl. case_bool_decide as Hboth.
  - destruct Hboth. eexists _, true. split; [done|]. eexists. split; [done|].
    by constructor.
  - destruct (rootcolor wr) eqn:Ewr.
    + rewrite bool_decide_eq_false_2 by done.
      apply rb_red_shape in Hwr as (b1 & wrx & b2 & -> & ? & ? & ? & ?); [|done].
      eexists _, false. split; [done|]. split; [done|].
      destruct pc; repeat first [ done | constructor ].
    + rewrite bool_decide_eq_true_2 by done.
      assert (rootcolor wl = RED) as Ewl.
      { destruct (rootcolor wl); [done|]. by destruct Hboth. }
      apply rb_red_shape in Hwl as (a1 & wlx & a2 & -> & ? & ? & ? & ?); [|done].
      eexists _, false. split; [done|]. split; [done|].
      destruct pc; repeat first [ done | constructor ].
Qed.

Lemma del_right_234_rb pc t fx w n :
  rb t n -> rb w (S n) -> rootcolor w = BLACK ->
  exists s flag, del_right_234 pc w fx t = Some (s, flag) /\
    if flag then exists w', s = T pc w' fx t /\ rb w' n
    else rootcolor s = pc /\ rb s (match pc with RED => S n | BLACK => S (S n) end).
Proof.
  intros Ht Hw Hwc.
  apply rb_S_black_inv in Hw as (wl & wx & wr & -> & Hwl & Hwr); [|done].
  simpl. case_bool_decide as Hboth.
  - destruct Hboth. eexists _, true. split; [done|]. eexists. split; [done|].
    by constructor.
  - destruct (rootcolor wl) eqn:Ewl.
    + rewrite bool_decide_eq_false_2 by done.
      apply rb_red_shape in Hwl as (b1 & wlx & b2 & -> & ? & ? & ? & ?); [|done].
      eexists _, false. split; [done|]. split; [done|].
      destruct pc; repeat first [ done | constructor ].
    + rewrite bool_decide_eq_true_2 by done.
      assert (rootcolor wr = RED) as Ewr.
      { destruct (rootcolor wr); [done|]. by destruct Hboth. }
      apply rb_red_shape in Hwr as (a1 & wrx & a2 & -> & ? & ? & ? & ?); [|done].
      eexists _, false. split; [done|]. split; [done|].
      destruct pc; repeat first [ done | constructor ].
Qed.

Lemma del_case_rb f c' t n :
  rbc (f :: c') (S n) -> rb t n ->
  exists step, del_case f t = Some step /\
    match step with
    | DContinue s => exists m, rbc c' (S m) /\ arb s m
    | DRoot s | DDone s => is_rb (plug c' s)
    end.
Proof.
  intros Hc Ht.
  inversion Hc as [|? ? ? Hf Hs Hc'|? ? ? Hf Hs Hsc Hne Hcc Hc']; subst.
  - (* the parent is BLACK *)
    destruct f as [fc fx w|fc w fx]; simpl in Hf, Hs; subst fc; simpl.
    + destruct (rootcolor w) eqn:Ew.
      * apply rb_red_shape in Hs as (wl & wx & wr & -> & Hwl & Hwr & Hwlc & Hwrc); [|done].
        destruct (del_left_234_rb RED t fx wl n Ht Hwl Hwlc) as (s & [] & -> & Hs).
        -- destruct Hs as (w' & -> & Hw'). eexists. split; [done|]. simpl.
           eapply is_rb_plug; [exact Hc'| |done..]. by repeat constructor.
        -- destruct Hs as [Hsc Hs]. eexists. split; [done|]. simpl.
           eapply is_rb_plug; [exact Hc'| |done..]. by repeat constructor.
      * destruct (del_left_234_rb BLACK t fx w n Ht Hs Ew) as (s & [] & Hd & Hs').
        -- destruct Hs' as (w' & -> & Hw').
           exists (DContinue (T BLACK t fx w')). split.
           { destruct w as [|[] ? ? ?]; try done; by rewrite Hd. }
           exists (S n). split; [done|]. simpl. by constructor.
        -- destruct Hs' as [Hsc Hs']. exists (DRoot s). split.
           { destruct w as [|[] ? ? ?]; try done; by rewrite Hd. }
           eapply is_rb_plug; [exact Hc'|done|by rewrite Hsc..].
    + destruct (rootcolor w) eqn:Ew.
      * apply rb_red_shape in Hs as (wl & wx & wr & -> & Hwl & Hwr & Hwlc & Hwrc); [|done].
        destruct (del_right_234_rb RED t fx wr n Ht Hwr Hwrc) as (s & [] & -> & Hs).
        -- destruct Hs as (w' & -> & Hw'). eexists. split; [done|]. simpl.
           eapply is_rb_plug; [exact Hc'| |done..]. by repeat constructor.
        -- destruct Hs as [Hsc Hs]. eexists. split; [done|]. simpl.
           eapply is_rb_plug; [exact Hc'| |done..]. by repeat constructor.
      * destruct (del_right_234_rb BLACK t fx w n Ht Hs Ew) as (s & [] & Hd & Hs').
        -- destruct Hs' as (w' & -> & Hw').
           exists (DContinue (T BLACK w' fx t)). split.
           { destruct w as [|[] ? ? ?]; try done; by rewrite Hd. }
           exists (S n). split; [done|]. simpl. by constructor.
        -- destruct Hs' as [Hsc Hs']. exists (DRoot s). split.
           { destruct w as [|[] ? ? ?]; try done; by rewrite Hd. }
           eapply is_rb_plug; [exact Hc'|done|by rewrite Hsc..].
  - (* the parent is RED *)
    destruct f as [fc fx w|fc w fx]; simpl in Hf, Hs, Hsc; subst fc; simpl.
    + destruct (del_left_234_rb RED t fx w n Ht Hs Hsc) as (s & [] & Hd & Hs').
      * destruct Hs' as (w' & -> & Hw').
        exists (DContinue (T RED t fx w')). split.
        { destruct w as [|[] ? ? ?]; try done; by rewrite Hd. }
        exists n. by split.
      * destruct Hs' as [Hsc' Hs']. exists (DRoot s). split.
        { destruct w as [|[] ? ? ?]; try done; by rewrite Hd. }
        eapply is_rb_plug; [exact Hc'|done|by rewrite Hcc|done].
    + destruct (del_right_234_rb RED t fx w n Ht Hs Hsc) as (s & [] & Hd & Hs').
      * destruct Hs' as (w' & -> & Hw').
        exists (DContinue (T RED w' fx t)). split.
        { destruct w as [|[] ? ? ?]; try done; by rewrite Hd. }
        exists n. by split.
      * destruct Hs' as [Hsc' Hs']. exists (DRoot s). split.
        { destruct w as [|[] ? ? ?]; try done; by rewrite Hd. }
        eapply is_rb_plug; [exact Hc'|done|by rewrite Hcc|done].
Qed.

Lemma is_rb_blacken_id t : is_rb t -> is_rb (blacken t).
Proof. intros [? [n ?]]. by eapply is_rb_blacken. Qed.

Lemma is_rb_blackened t m : rb (blacken t) m -> is_rb (blacken t).
Proof. intros H. split; [by destruct t|eauto]. Qed.

Lemma fix_del_rb c : forall t n,
  rbc c (S n) -> arb t n -> exists t', fix_del c t = Some t' /\ is_rb t'.
Proof.
  induction c as [|f c' IH]; intros t n Hc Ht; simpl.
  - eexists. split; [done|]. apply arb_blacken in Ht. by eapply is_rb_blackened.
  - destruct (rootcolor t) eqn:Et.
    + eexists. split; [done|]. apply arb_blacken in Ht. rewrite Et in Ht.
      change (plug c' (plug1 f (blacken t))) with (plug (f :: c') (blacken t)).
      eapply is_rb_plug; [exact Hc|done|by destruct t..].
    + assert (rb t n) as Ht' by (by destruct t as [|[] ? ? ?]).
      destruct (del_case_rb f c' t n Hc Ht') as ([s|s|s] & -> & Hs).
      * destruct Hs as (m & Hc' & Hs). by eapply IH.
      * eexists. split; [done|]. by apply is_rb_blacken_id.
      * eauto.
Qed.
(** a position in a red-black tree *)
Definition focus_ok (c : list frame) (t : tree) : Prop :=
  exists n, rb t n /\ rbc c n /\
            (ctx_color c = RED -> rootcolor t = BLACK) /\
            (c = [] -> rootcolor t = BLACK).

Lemma focus_root t : is_rb t -> focus_ok [] t.
Proof. intros [? [n ?]]. exists n. split_and!; try done. constructor. Qed.

Lemma focus_is_rb c t : focus_ok c t -> is_rb (plug c t).
Proof. intros (n & ? & ? & ? & ?). by eapply is_rb_plug. Qed.

Lemma focus_left c col l x r :
  focus_ok c (T col l x r) -> focus_ok (FL col x r :: c) l.
Proof.
  intros (n & Ht & Hc & Hcol & Hroot).
  inversion Ht; subst.
  - exists n. split_and!; try done.
    apply rbc_R; try done.
    + intros ->. by specialize (Hroot eq_refl).
    + apply color_cases. intros E'. by specialize (Hcol E').
  - eexists. split_and!; try done. by apply rbc_B.
Qed.

Lemma focus_right c col l x r :
  focus_ok c (T col l x r) -> focus_ok (FR col l x :: c) r.
Proof.
  intros (n & Ht & Hc & Hcol & Hroot).
  inversion Ht; subst.
  - exists n. split_and!; try done.
    apply rbc_R; try done.
    + intros ->. by specialize (Hroot eq_refl).
    + apply color_cases. intros E'. by specialize (Hcol E').
  - eexists. split_and!; try done. by apply rbc_B.
Qed.

Lemma focus_find key k t c c' t' :
  focus_ok c t -> find key k t c = Some (c', t') -> focus_ok c' t'.
Proof.
  revert c. induction t as [|col l IHl x r IHr]; intros c Hf; simpl; [done|].
  destruct (String.eqb k (key x)); [by intros [= <- <-]|].
  destruct (String.ltb k (key x)); intros H.
  - eapply IHl; [|exact H]. by apply focus_left.
  - eapply IHr; [|exact H]. by apply focus_right.
Qed.

Lemma focus_split_min t c cy yc y yr :
  focus_ok c t -> split_min t c = Some (cy, yc, y, yr) -> focus_ok cy (T yc E y yr).
Proof.
  revert c. induction t as [|col l IHl x r IHr]; intros c Hf; simpl; [done|].
  destruct l as [|lc ll lx lr].
  - by intros [= <- <- <- <-].
  - intros H. eapply IHl; [|exact H]. by apply focus_left.
Qed.

Lemma split_min_acc t c :
  split_min t c =
  match split_min t [] with
  | Some (cy, yc, y, yr) => Some (cy ++ c, yc, y, yr)
  | None => None
  end.
Proof.
  revert c. induction t as [|col l IHl x r IHr]; intros c; simpl; [done|].
  destruct l as [|lc ll lx lr]; [done|].
  rewrite (IHl (FL col x r :: c)), (IHl [FL col x r]).
  destruct (split_min (T lc ll lx lr) []) as [[[[cy yc] y] yr]|]; [|done].
  by rewrite <- app_assoc.
Qed.

(** the red-black conditions on a path do not depend on the locations *)
Definition same_shape (f g : frame) : Prop :=
  fcolor f = fcolor g /\ fsib f = fsib g.

Lemma rbc_same_shape c c' n : Forall2 same_shape c c' -> rbc c n -> rbc c' n.
Proof.
  intros HF Hc. revert c' HF.
  induction Hc as [n|f c n Hf Hs Hc IH|f c n Hf Hs Hsc Hne Hcc Hc IH]; intros c' HF.
  - apply Forall2_nil_inv_l in HF as ->. constructor.
  - apply Forall2_cons_inv_l in HF as (g & c2 & [Hg1 Hg2] & HF & ->).
    apply rbc_B; [congruence|congruence|by apply IH].
  - apply Forall2_cons_inv_l in HF as (g & c2 & [Hg1 Hg2] & HF & ->).
    apply rbc_R; try congruence.
    + intros ->. apply Forall2_nil_inv_r in HF. done.
    + destruct HF as [|? ? ? ? [? ?]]; simpl in *; congruence.
    + by apply IH.
Qed.

Lemma ctx_color_same_shape c c' :
  Forall2 same_shape c c' -> ctx_color c' = ctx_color c.
Proof. by destruct 1 as [|? ? ? ? [? ?]]. Qed.

Lemma same_shape_replace c1 zc zl z y c :
  Forall2 same_shape (c1 ++ FR zc zl z :: c) (c1 ++ FR zc zl y :: c).
Proof.
  apply Forall2_app; [|constructor; [done|]]; apply Forall_Forall2_diag, Forall_forall;
    by intros.
Qed.

Lemma delete_at_rb c zc zl z zr :
  focus_ok c (T zc zl z zr) ->
  exists t', delete_at c (T zc zl z zr) = Some t' /\ is_rb t'.
Proof.
  intros Hf. pose proof Hf as (n & Ht & Hc & Hcol & Hroot). unfold delete_at, del_node.
  destruct zl as [|lc ll lx lr].
  - (* no left child *)
    inversion Ht; subst.
    + match goal with H : rb E _ |- _ => inversion H; subst end.
      assert (zr = E) as -> by (by apply rb_0_black).
      eexists. split; [done|]. eapply is_rb_plug; [exact Hc|constructor|done..].
    + match goal with H : rb E _ |- _ => inversion H; subst end.
      eapply fix_del_rb; [exact Hc|by apply rb_arb].
  - destruct zr as [|rc rl rx rr].
    + (* no right child *)
      inversion Ht; subst.
      * match goal with H : rb E _ |- _ => inversion H; subst end.
        match goal with H : rb (T lc _ _ _) 0 |- _ => apply rb_0_black in H; done end.
      * match goal with H : rb E _ |- _ => inversion H; subst end.
        eapply fix_del_rb; [exact Hc|by apply rb_arb].
    + (* two children *)
      destruct (split_min_some (T rc rl rx rr) [] ltac:(done)) as ([[[cy yc] y] yr] & Hmin).
      rewrite Hmin.
      assert (focus_ok (cy ++ FR zc (T lc ll lx lr) z :: c) (T yc E y yr)) as Hfy.
      { eapply focus_split_min; [apply focus_right, Hf|].
        by rewrite split_min_acc, Hmin. }
      destruct Hfy as (n' & Hy & Hcy & Hcoly & Hrooty).
      pose proof (same_shape_replace cy zc (T lc ll lx lr) z y c) as Hsh.
      apply (rbc_same_shape _ _ _ Hsh) in Hcy.
      inversion Hy; subst.
      * match goal with H : rb E _ |- _ => inversion H; subst end.
        assert (yr = E) as -> by (by apply rb_0_black).
        eexists. split; [done|]. eapply is_rb_plug; [exact Hcy|constructor|done|].
        by destruct cy.
      * match goal with H : rb E _ |- _ => inversion H; subst end.
        eapply fix_del_rb; [exact Hcy|by apply rb_arb].
Qed.

Lemma delete_tree_rb key k t :
  is_rb t -> exists t' b, delete_tree key k t = Some (t', b) /\ is_rb t'.
Proof.
  intros Ht. unfold delete_tree.
  destruct (find key k t []) as [[c t1]|] eqn:Hfind; [|by eauto].
  pose proof (focus_find key k t [] c t1 (focus_root t Ht) Hfind) as Hf.
  destruct (find_plug _ _ _ _ _ _ Hfind) as [_ Hne].
  destruct t1 as [|zc zl z zr]; [done|].
  destruct (delete_at_rb c zc zl z zr Hf) as (t' & -> & Ht'). eauto.
Qed.

Lemma find_absent key k t c :
  (forall x, x ∈ ids t -> key x <> k) -> find key k t c = None.
Proof.
  revert c. induction t as [|col l IHl x r IHr]; intros c Hk; simpl; [done|].
  destruct (String.eqb_spec k (key x)) as [->|_].
  { exfalso. apply (Hk x); [set_solver|done]. }
  destruct (String.ltb k (key x)); [apply IHl|apply IHr]; intros; apply Hk; set_solver.
Qed.
(** ** delete, get_all_files and sequences of operations *)

Lemma R_zero_notin st t : R st t -> 0 ∉ ids t.
Proof. intros [_ _ _ Hnd _]. by apply NoDup_cons in Hnd as [? _]. Qed.

Lemma search_runs (st : rbt) t k :
  R st t ->
  search k st = Ok (match find (key_of (heap st)) k t [] with
                    | Some (_, t1) => rootref t1
                    | None => None
                    end, st).
Proof.
  intros HR. unfold search, with_fuel.
  eapply run_bind; [reflexivity|]. cbn beta.
  pose proof HR as [Hrep Hroot _ _ _]. rewrite Hroot.
  eapply search_helper_ok; [exact Hrep|by eapply R_zero_notin|].
  pose proof (R_height _ _ HR). lia.
Qed.

Lemma delete_runs (st : rbt) t k t' b :
  R st t ->
  delete_tree (key_of (heap st)) k t = Some (t', b) ->
  runs_to (delete k st)
          (fun r st' => r = b /\ R st' t' /\ next st' = next st /\
                        (b = false -> st' = st)).
Proof.
  intros HR Hdel. unfold delete_tree in Hdel. unfold delete.
  eapply runs_bind; [by apply (search_runs st t k)|]. cbn beta.
  destruct (find (key_of (heap st)) k t []) as [[c t1]|] eqn:Hfind.
  - destruct (find_plug _ _ _ _ _ _ Hfind) as [Hplug Hne]. simpl in Hplug.
    destruct t1 as [|zc zl z zr]; [done|]. cbn [rootref].
    destruct (delete_at c (T zc zl z zr)) as [t2|] eqn:Hat; [|done].
    injection Hdel as <- <-.
    rewrite bool_decide_eq_true_2 by done.
    eapply runs_seq.
    + unfold with_fuel. apply (rb_delete_node_ok (next st) st c zc zl z zr t2).
      * by rewrite Hplug.
      * done.
      * rewrite Hplug. pose proof (R_height _ _ HR). lia.
    + intros [] st' [HR' Hn]. cbn beta. apply runs_ret. done.
  - injection Hdel as <- <-.
    rewrite bool_decide_eq_false_2 by (intros H; by apply H).
    apply runs_ret. done.
Qed.

(** the (filename, metadata) pairs of a list of objects *)
Definition entries (h : gmap nat node) (l : list nat) : list (string * V) :=
  omap (kv h) l.

Lemma entries_app h l1 l2 : entries h (l1 ++ l2) = entries h l1 ++ entries h l2.
Proof. apply omap_app. Qed.

Lemma entries_cons h x n l :
  h !! x = Some n -> entries h (x :: l) = (filename n, metadata n) :: entries h l.
Proof. intros H. unfold entries, kv. simpl. by rewrite H. Qed.

Lemma rb_inorder_traversal_ok fuel (st : rbt) t p files :
  rep (heap st) p t -> 0 ∉ ids t -> height t <= fuel ->
  _inorder_traversal fuel (rootref t) files st
  = Ok (files ++ entries (heap st) (ids t), st).
Proof.
  revert fuel p files.
  induction t as [|col l IHl x r IHr]; intros fuel p files Hrep H0 Hfuel.
  - destruct fuel; simpl; try rewrite bool_decide_eq_false_2 by ne; by rewrite app_nil_r.
  - destruct Hrep as ((kx & vx & Hx) & Hl & Hr).
    simpl in H0, Hfuel. rewrite not_elem_of_app, not_elem_of_cons in H0.
    destruct H0 as (H0l & H0x & H0r).
    destruct fuel as [|fuel]; [lia|].
    cbn [_inorder_traversal rootref ids]. rewrite bool_decide_eq_true_2 by ne.
    eapply run_bind; [run_prim|]. cbn beta. fields.
    eapply run_bind; [apply (IHl fuel (Some x)); [done..|lia]|]. cbn beta.
    eapply run_bind; [run_prim|]. cbn beta.
    eapply run_bind; [run_prim|]. cbn beta.
    eapply run_bind; [run_prim|]. cbn beta. fields.
    rewrite (IHr fuel (Some x)); [|done..|lia].
    rewrite entries_app, (entries_cons _ _ _ _ Hx). fields. by rewrite <- !app_assoc.
Qed.

Lemma get_all_files_ok (st : rbt) t :
  R st t -> get_all_files st = Ok (entries (heap st) (ids t), st).
Proof.
  intros HR. unfold get_all_files, with_fuel.
  eapply run_bind; [reflexivity|]. cbn beta.
  pose proof HR as [Hrep Hroot _ _ _]. rewrite Hroot.
  rewrite (rb_inorder_traversal_ok (next st) st t NIL []); [done|done|by eapply R_zero_notin|].
  pose proof (R_height _ _ HR). lia.
Qed.

(** every object of the tree holds a pair *)
Lemma rep_kv h p t x : rep h p t -> x ∈ ids t -> exists kvx, kv h x = Some kvx.
Proof.
  revert p. induction t as [|col l IHl y r IHr]; intros p Hrep Hx; simpl in *.
  - by apply elem_of_nil in Hx.
  - destruct Hrep as ((k & v & Hy) & Hl & Hr).
    apply elem_of_app in Hx as [Hx|[->|Hx]%elem_of_cons]; eauto.
    unfold kv. rewrite Hy. eauto.
Qed.

(** the tree read off the links of the store *)
Fixpoint tree_of (fuel : nat) (h : gmap nat node) (r : option nat) : option tree :=
  match r with
  | None => None
  | Some 0 => Some E
  | Some x =>
      match fuel with
      | 0 => None
      | S fuel =>
          n ← h !! x;
          l ← tree_of fuel h (left n);
          r ← tree_of fuel h (right n);
          Some (T (color_of n) l x r)
      end
  end.

Lemma tree_of_rep fuel h p t :
  rep h p t -> 0 ∉ ids t -> height t <= fuel -> tree_of fuel h (rootref t) = Some t.
Proof.
  revert fuel p. induction t as [|col l IHl x r IHr]; intros fuel p Hrep H0 Hfuel.
  - by destruct fuel.
  - destruct Hrep as ((kx & vx & Hx) & Hl & Hr).
    simpl in H0, Hfuel. rewrite not_elem_of_app, not_elem_of_cons in H0.
    destruct H0 as (H0l & H0x & H0r).
    destruct fuel as [|fuel]; [lia|].
    cbn [rootref tree_of]. destruct x as [|x]; [done|].
    rewrite Hx. cbn [mbind option_bind left right color_of].
    rewrite (IHl fuel (Some (S x))); [|done..|lia].
    cbn [mbind option_bind]. rewrite (IHr fuel (Some (S x))); [|done..|lia].
    done.
Qed.

Lemma tree_of_R st t : R st t -> tree_of (next st) (heap st) (root st) = Some t.
Proof.
  intros HR. pose proof HR as [Hrep Hroot _ _ _]. rewrite Hroot.
  eapply tree_of_rep; [exact Hrep|by eapply R_zero_notin|].
  pose proof (R_height _ _ HR). lia.
Qed.

Section Ops.
Context (no_metadata : V).

Lemma new_R : R (new no_metadata) E.
Proof.
  constructor; simpl; try done.
  - do 3 eexists. apply lookup_singleton_eq.
  - apply NoDup_singleton.
  - repeat constructor.
Qed.

Inductive op := Insert (filename : string) (metadata : V) | Delete (filename : string).

Definition apply_op (o : op) (st : rbt) : result rbt :=
  match o with
  | Insert k v => match insert k v st with
                  | Ok (_, st') => Ok st'
                  | Raise e => Raise e
                  | OutOfFuel => OutOfFuel
                  end
  | Delete k => match delete k st with
                | Ok (_, st') => Ok st'
                | Raise e => Raise e
                | OutOfFuel => OutOfFuel
                end
  end.

(** the operations of [ops] applied one after the other *)
Fixpoint run (ops : list op) (st : rbt) : result rbt :=
  match ops with
  | [] => Ok st
  | o :: ops =>
      match apply_op o st with
      | Ok st' => run ops st'
      | Raise e => Raise e
      | OutOfFuel => OutOfFuel
      end
  end.

(** the store represents a red-black tree *)
Definition Inv (st : rbt) : Prop := exists t, R st t /\ is_rb t.

Lemma new_Inv : Inv (new no_metadata).
Proof. exists E. split; [apply new_R|]. split; [done|]. exists 0. constructor. Qed.

Lemma insert_Inv st k v :
  Inv st -> exists r st', insert k v st = Ok (r, st') /\ Inv st'.
Proof.
  intros (t & HR & Hrb).
  destruct (insert_tree_ok (key_of (heap st)) k (next st) t Hrb)
    as (t' & l1 & l2 & Hins & Hrb' & _).
  destruct (insert_runs st t k v t' HR Hins) as (r & st' & Hrun & _ & HR' & _).
  exists r, st'. split; [done|]. by exists t'.
Qed.

Lemma delete_Inv st k :
  Inv st -> exists r st', delete k st = Ok (r, st') /\ Inv st'.
Proof.
  intros (t & HR & Hrb).
  destruct (delete_tree_rb (key_of (heap st)) k t Hrb) as (t' & b & Hdel & Hrb').
  destruct (delete_runs st t k t' b HR Hdel) as (r & st' & Hrun & _ & HR' & _).
  exists r, st'. split; [done|]. by exists t'.
Qed.

Lemma apply_op_Inv o st : Inv st -> exists st', apply_op o st = Ok st' /\ Inv st'.
Proof.
  intros HI. destruct o as [k v|k]; simpl.
  - destruct (insert_Inv st k v HI) as (r & st' & -> & ?). eauto.
  - destruct (delete_Inv st k HI) as (r & st' & -> & ?). eauto.
Qed.

Lemma run_Inv ops st : Inv st -> exists st', run ops st = Ok st' /\ Inv st'.
Proof.
  revert st. induction ops as [|o ops IH]; intros st HI; simpl; [eauto|].
  destruct (apply_op_Inv o st HI) as (st1 & -> & HI1). by apply IH.
Qed.

(** ** the red-black properties, read off a tree *)

(** no RED node has a RED child *)
Fixpoint no_red_red (t : tree) : Prop :=
  match t with
  | E => True
  | T c l _ r =>
      (c = RED -> rootcolor l = BLACK /\ rootcolor r = BLACK)
      /\ no_red_red l /\ no_red_red r
  end.

(** the number of BLACK nodes on each path from the root to a NIL, from
    left to right *)
Fixpoint black_counts (t : tree) : list nat :=
  match t with
  | E => [0]
  | T c l _ r =>
      map (fun n => match c with BLACK => S n | RED => n end)
          (black_counts l ++ black_counts r)
  end.

Lemma rb_no_red_red t n : rb t n -> no_red_red t.
Proof. induction 1; simpl; auto. split; [done|auto]. Qed.

Lemma rb_black_counts t n : rb t n -> Forall (eq n) (black_counts t).
Proof.
  induction 1; simpl.
  - by repeat constructor.
  - rewrite Forall_map. apply Forall_app. split; by eapply Forall_impl; eauto.
  - rewrite Forall_map. apply Forall_app.
    split; (eapply Forall_impl; [eassumption|]); by intros ? <-.
Qed.

Lemma black_counts_nonempty t : black_counts t <> [].
Proof.
  induction t as [|c l IHl x r IHr]; simpl; [done|].
  intros [H _]%fmap_nil_inv%app_eq_nil. done.
Qed.

Lemma black_counts_rb t n :
  no_red_red t -> Forall (eq n) (black_counts t) -> rb t n.
Proof.
  revert n. induction t as [|c l IHl x r IHr]; intros n Hrr Hbc; simpl in *.
  - apply Forall_cons in Hbc as [-> _]. constructor.
  - destruct Hrr as (Hc & Hl & Hr). rewrite Forall_map in Hbc.
    apply Forall_app in Hbc as [Hbl Hbr]. destruct c.
    + destruct (Hc eq_refl) as [? ?]. constructor; auto.
    + destruct n as [|n].
      * exfalso. pose proof (black_counts_nonempty l) as Hne.
        destruct (black_counts l); [done|]. by apply Forall_cons in Hbl as [? _].
      * constructor; [apply IHl|apply IHr]; try done;
          (eapply Forall_impl; [eassumption|]); simpl; intros; lia.
Qed.

Lemma entries_cons_kv (h : gmap nat node) x p l :
  kv h x = Some p -> entries h (x :: l) = p :: entries h l.
Proof. intros H. unfold entries. simpl. by rewrite H. Qed.

(** the listing after an insert *)
Lemma rb_insert_listing (st : rbt) (k : string) (v : V) :
  Inv st ->
  exists r st' l1 l2,
    insert k v st = Ok (r, st') /\ Inv st'
    /\ get_all_files st = Ok (l1 ++ l2, st)
    /\ get_all_files st' = Ok (l1 ++ (k, v) :: l2, st').
Proof.
  intros (t & HR & Hrb).
  destruct (insert_tree_ok (key_of (heap st)) k (next st) t Hrb)
    as (t' & i1 & i2 & Hins & Hrb' & Hids & Hids').
  destruct (insert_runs st t k v t' HR Hins) as (r & st' & Hrun & _ & HR' & Hn).
  destruct (insert_data st k v r st' Hrun) as [_ Hkv].
  exists r, st', (entries (heap st) i1), (entries (heap st) i2).
  split; [done|]. split; [by exists t'|].
  rewrite (get_all_files_ok st t HR), (get_all_files_ok st' t' HR'), Hids, Hids'.
  rewrite !entries_app. split; [done|]. do 2 f_equal.
  pose proof HR as [_ _ _ _ Hlt]. apply Forall_cons in Hlt as [_ Hlt].
  rewrite Hids in Hlt. apply Forall_app in Hlt as [Hlt1 Hlt2].
  assert (forall l, Forall (fun x => x < next st) l ->
                    entries (heap st') l = entries (heap st) l) as Hsame.
  { intros l Hl. unfold entries. apply list_omap_ext.
    induction Hl as [|x l Hx Hl IH]; constructor; [|done].
    rewrite Hkv, decide_False by lia. done. }
  rewrite (Hsame i1 Hlt1). f_equal.
  rewrite (entries_cons_kv _ _ (k, v)); [by rewrite (Hsame i2 Hlt2)|].
  by rewrite Hkv, decide_True.
Qed.

(** delete of a filename that no object of the listing holds *)
Lemma rb_delete_absent (st : rbt) (k : string) (l : list (string * V)) :
  Inv st -> get_all_files st = Ok (l, st) -> k ∉ l.*1 ->
  delete k st = Ok (false, st).
Proof.
  intros (t & HR & Hrb) Hall Hk.
  rewrite (get_all_files_ok st t HR) in Hall. injection Hall as <-.
  assert (delete_tree (key_of (heap st)) k t = Some (t, false)) as Hdel.
  { unfold delete_tree. rewrite find_absent; [done|].
    intros x Hx Hkey. apply Hk. pose proof HR as [Hrep _ _ _ _].
    destruct (rep_kv _ _ _ _ Hrep Hx) as [[k' v'] Hkv].
    apply list_elem_of_fmap. exists (k', v'). split.
    - unfold key_of in Hkey. unfold kv in Hkv.
      destruct (heap st !! x); simplify_eq/=. done.
    - unfold entries. apply list_elem_of_omap. eauto. }
  destruct (delete_runs st t k t false HR Hdel) as (r & st' & Hrun & -> & _ & _ & Hst).
  by rewrite Hrun, Hst.
Qed.

(** the state after a run of operations from the empty tree *)
Lemma rb_run_new ops : exists st, run ops (new no_metadata) = Ok st /\ Inv st.
Proof. apply run_Inv, new_Inv. Qed.

Lemma Inv_reads (st : rbt) :
  Inv st ->
  exists t, tree_of (next st) (heap st) (root st) = Some t
    /\ rootcolor t = BLACK /\ no_red_red t
    /\ exists n, Forall (eq n) (black_counts t).
Proof.
  intros (t & HR & Hb & n & Hrb). exists t.
  split; [by apply tree_of_R|]. split; [done|].
  split; [by eapply rb_no_red_red|]. exists n. by apply rb_black_counts.
Qed.

(** C2: after any sequence of insert and delete operations from the empty
    tree, the operations all return, and in the tree read off the links of
    the store (a) the root is BLACK, (b) no RED node has a RED child and
    (c) every path from the root to the NIL sentinel passes through the same
    number of BLACK nodes; the sentinel itself is BLACK. *)
Theorem red_black_invariants (ops : list op) :
  exists st t n,
    run ops (new no_metadata) = Ok st
    /\ tree_of (next st) (heap st) (root st) = Some t
    /\ get_color (root st) st = Ok (BLACK, st)
    /\ no_red_red t
    /\ Forall (eq n) (black_counts t)
    /\ get_color NIL st = Ok (BLACK, st).
Proof.
  destruct (rb_run_new ops) as (st & Hrun & HI).
  destruct (Inv_reads st HI) as (t & Ht & Hc & Hrr & n & Hn).
  destruct HI as (t0 & HR & _).
  rewrite (tree_of_R st t0 HR) in Ht. injection Ht as ->.
  exists st, t, n. split; [done|]. split; [by apply tree_of_R|].
  pose proof HR as [Hrep Hroot Hnil _ _].
  split; [|split; [done|split; [done|]]].
  - rewrite Hroot, <- Hc. by eapply get_color_rootref.
  - destruct Hnil as (k0 & v0 & p0 & Hnil). exact (get_color_ok _ _ _ Hnil).
Qed.

(** ** the in-order sequence after a delete *)

Lemma del_left_234_ids pc t fx w s b :
  del_left_234 pc t fx w = Some (s, b) -> ids s = ids t ++ fx :: ids w.
Proof.
  unfold del_left_234. intros H.
  repeat first [ case_bool_decide | case_match ]; simplify_eq; ids_eq.
Qed.

Lemma del_right_234_ids pc w fx t s b :
  del_right_234 pc w fx t = Some (s, b) -> ids s = ids w ++ fx :: ids t.
Proof.
  unfold del_right_234. intros H.
  repeat first [ case_bool_decide | case_match ]; simplify_eq; ids_eq.
Qed.

Definition del_step_tree (s : del_step) : tree :=
  match s with DContinue t | DRoot t | DDone t => t end.

Lemma del_case_ids f t s :
  del_case f t = Some s -> ids (del_step_tree s) = ids (plug1 f t).
Proof.
  unfold del_case.
  destruct f as [fc fx w|fc w fx].
  - destruct w as [|[] wl wx wr].
    + done.
    + destruct (del_left_234 RED t fx wl) as [[s' []]|] eqn:E; intros H; simplify_eq;
        apply del_left_234_ids in E; simpl; rewrite ?ids_blacken, E; ids_eq.
    + destruct (del_left_234 fc t fx (T BLACK wl wx wr)) as [[s' []]|] eqn:E;
        intros H; simplify_eq; apply del_left_234_ids in E; simpl; rewrite E; ids_eq.
  - destruct w as [|[] wl wx wr].
    + done.
    + destruct (del_right_234 RED wr fx t) as [[s' []]|] eqn:E; intros H; simplify_eq;
        apply del_right_234_ids in E; simpl; rewrite ?ids_blacken, E; ids_eq.
    + destruct (del_right_234 fc (T BLACK wl wx wr) fx t) as [[s' []]|] eqn:E;
        intros H; simplify_eq; apply del_right_234_ids in E; simpl; rewrite E; ids_eq.
Qed.

Lemma fix_del_ids c : forall t t', fix_del c t = Some t' -> ids t' = ids (plug c t).
Proof.
  induction c as [|f c IH]; intros t t'; cbn [fix_del].
  - intros [= <-]. by rewrite ids_blacken.
  - destruct (rootcolor t).
    + intros [= <-]. apply (ids_plug_eq (f :: c)), ids_blacken.
    + destruct (del_case f t) as [[s|s|s]|] eqn:E; [| | |done];
        apply del_case_ids in E; cbn [del_step_tree] in E.
      * intros H%IH. rewrite H, (plug_cons f c t). by apply ids_plug_eq.
      * intros [= <-]. rewrite ids_blacken, (plug_cons f c t). by apply ids_plug_eq.
      * intros [= <-]. rewrite (plug_cons f c t). by apply ids_plug_eq.
Qed.

(** delete removes the object found from the in-order sequence and leaves
    the others in their order *)
Lemma delete_at_ids c zc zl z zr t' :
  delete_at c (T zc zl z zr) = Some t' ->
  ids t' = ctx_left c ++ ids zl ++ ids zr ++ ctx_right c.
Proof.
  unfold delete_at.
  destruct (del_node c zc zl z zr) as [[[c' xs] yc]|] eqn:Hnode; [|done].
  assert (ids (plug c' xs) = ctx_left c ++ ids zl ++ ids zr ++ ctx_right c) as Hids.
  { unfold del_node in Hnode. destruct zl as [|lc ll lx lr].
    { injection Hnode as <- <- <-. by rewrite ids_plug_split. }
    destruct zr as [|rc rl rx rr].
    { injection Hnode as <- <- <-. rewrite ids_plug_split. ids_eq. }
    destruct (split_min (T rc rl rx rr) []) as [[[[cy yc'] y] yr]|] eqn:Hmin; [|done].
    injection Hnode as <- <- <-.
    apply split_min_plug in Hmin as (cy0 & -> & Hzr & Hleft).
    rewrite app_nil_r, plug_app, plug_cons. cbn [plug1].
    rewrite Hzr, !ids_plug_split. cbn [ids]. rewrite !ids_plug_split, Hleft. ids_eq. }
  destruct yc.
  - intros [= <-]. done.
  - intros H%fix_del_ids. by rewrite H.
Qed.

Lemma find_key key k t c c' col l x r :
  find key k t c = Some (c', T col l x r) -> key x = k.
Proof.
  revert c. induction t as [|tc tl IHl tx tr IHr]; intros c; simpl; [done|].
  destruct (String.eqb_spec k (key tx)) as [->|_]; [by intros [= _ _ _ <- _]|].
  destruct (String.ltb k (key tx)); [apply IHl|apply IHr].
Qed.

Lemma find_ctx key k t c c' t' :
  find key k t c = Some (c', t') ->
  ctx_left c' ++ ids t' ++ ctx_right c' = ctx_left c ++ ids t ++ ctx_right c.
Proof.
  intros [H _]%find_plug. by rewrite <- !ids_plug_split, H.
Qed.

(** ** the order of the filenames *)

(** the filenames along a sequence of objects never decrease *)
Definition ordered (key : nat -> string) (l : list nat) : Prop :=
  StronglySorted KeyOrder.le (key <$> l).

Lemma ordered_app key l1 l2 :
  ordered key (l1 ++ l2) ->
  ordered key l1 /\ ordered key l2
  /\ forall x y, x ∈ l1 -> y ∈ l2 -> KeyOrder.le (key x) (key y).
Proof.
  unfold ordered. rewrite fmap_app. intros H. split_and!.
  - by apply StronglySorted_app_1_l in H.
  - by apply StronglySorted_app_1_r in H.
  - intros x y Hx Hy.
    eapply (StronglySorted_app_1_elem_of _ _ _ _ _ H); by apply list_elem_of_fmap_2.
Qed.

Lemma ordered_cons key x l :
  ordered key (x :: l) ->
  ordered key l /\ forall y, y ∈ l -> KeyOrder.le (key x) (key y).
Proof.
  unfold ordered. rewrite fmap_cons. intros [H1 H2]%StronglySorted_cons.
  split; [done|]. intros y Hy. rewrite Forall_forall in H1. apply H1.
  by apply list_elem_of_fmap_2.
Qed.

Lemma ordered_insert key l1 x l2 :
  ordered key (l1 ++ l2) ->
  (forall y, y ∈ l1 -> KeyOrder.le (key y) (key x)) ->
  (forall y, y ∈ l2 -> KeyOrder.le (key x) (key y)) ->
  ordered key (l1 ++ x :: l2).
Proof.
  intros (H1 & H2 & H12)%ordered_app Hl Hr. unfold ordered in *.
  rewrite fmap_app, fmap_cons. apply StronglySorted_app_2; [|done|].
  - intros ? ? (a & -> & Ha)%list_elem_of_fmap [->|(b & -> & Hb)%list_elem_of_fmap]%elem_of_cons.
    + by apply Hl.
    + by apply H12.
  - constructor; [done|]. apply Forall_forall.
    intros ? (y & -> & Hy)%list_elem_of_fmap. by apply Hr.
Qed.

Lemma ordered_remove key l1 x l2 : ordered key (l1 ++ x :: l2) -> ordered key (l1 ++ l2).
Proof.
  intros (H1 & [H2 _]%ordered_cons & H12)%ordered_app. unfold ordered in *.
  rewrite fmap_app. apply StronglySorted_app_2; [|done..].
  intros ? ? (a & -> & Ha)%list_elem_of_fmap (b & -> & Hb)%list_elem_of_fmap.
  apply H12; [done|by right].
Qed.

Lemma ordered_ext key key' l :
  (forall x, x ∈ l -> key' x = key x) -> ordered key l -> ordered key' l.
Proof.
  intros H. unfold ordered.
  replace (key' <$> l) with (key <$> l); [done|].
  apply list_fmap_ext. intros i x Hx. symmetry. apply H. by eapply list_elem_of_lookup_2.
Qed.

(** the place where insert hangs the new object: the filenames before it
    are at most [k], those after it are above [k] *)
Lemma ins_path_order key k t : forall c,
  ordered key (ids t) ->
  (forall y, y ∈ ctx_left c -> KeyOrder.le (key y) k) ->
  (forall y, y ∈ ctx_right c -> KeyOrder.lt k (key y)) ->
  (forall y, y ∈ ctx_left (ins_path key k t c) -> KeyOrder.le (key y) k)
  /\ (forall y, y ∈ ctx_right (ins_path key k t c) -> KeyOrder.lt k (key y)).
Proof.
  induction t as [|col l IHl x r IHr]; intros c Ho Hl Hr; cbn [ins_path]; [done|].
  cbn [ids] in Ho. apply ordered_app in Ho as (Hol & [Hor Hxr]%ordered_cons & Hlx).
  destruct (String.ltb k (key x)) eqn:E.
  - apply IHl; [done|done|]. cbn [ctx_right]. intros y.
    rewrite elem_of_cons, elem_of_app. intros [->|[Hy|Hy]]; [done| |by apply Hr].
    eapply KeyOrder.lt_le_trans; [exact E|by apply Hxr].
  - assert (KeyOrder.le (key x) k) as Hxk.
    { apply KeyOrder.not_lt_le. unfold KeyOrder.lt. by rewrite E. }
    apply IHr; [done| |done]. cbn [ctx_left]. intros y.
    rewrite !elem_of_app, list_elem_of_singleton. intros [Hy|[Hy| ->]]; [by apply Hl| |done].
    eapply KeyOrder.le_trans; [|exact Hxk]. apply Hlx; [done|left].
Qed.

(** search finds a filename that an object of an ordered tree holds *)
Lemma find_present key k t : forall c x,
  ordered key (ids t) -> x ∈ ids t -> key x = k -> is_Some (find key k t c).
Proof.
  induction t as [|col l IHl y r IHr]; intros c x Ho Hx Hk; cbn [find].
  { by apply not_elem_of_nil in Hx. }
  cbn [ids] in Ho, Hx. pose proof Ho as (Hol & [Hor Hyr]%ordered_cons & Hly)%ordered_app.
  destruct (String.eqb_spec k (key y)) as [_|Hne]; [done|].
  apply elem_of_app in Hx as [Hx|[->|Hx]%elem_of_cons]; [| |].
  - assert (KeyOrder.le k (key y)) as Hle by (rewrite <- Hk; apply Hly; [done|left]).
    apply KeyOrder.le_lt_or_eq in Hle as [Hlt|?]; [|done].
    unfold KeyOrder.lt in Hlt. rewrite Hlt. by eapply IHl.
  - done.
  - assert (KeyOrder.le (key y) k) as Hle by (rewrite <- Hk; by apply Hyr).
    destruct (String.ltb k (key y)) eqn:E.
    { exfalso. by apply (KeyOrder.lt_not_le _ _ E). }
    by eapply IHr.
Qed.
(** ** reachable states are ordered by filename *)

(** the store represents a red-black tree whose filenames, read from left to
    right, never decrease *)
Definition OInv (st : rbt) : Prop :=
  exists t, R st t /\ is_rb t /\ ordered (key_of (heap st)) (ids t).

Lemma key_of_kv (h h' : gmap nat node) x : kv h' x = kv h x -> key_of h' x = key_of h x.
Proof.
  unfold kv, key_of. destruct (h' !! x), (h !! x); simpl; intros; by simplify_eq.
Qed.

Lemma rep_lookup (h : gmap nat node) p t x :
  rep h p t -> x ∈ ids t -> exists n, h !! x = Some n.
Proof.
  intros Hrep Hx. destruct (rep_kv _ _ _ _ Hrep Hx) as [kvx Hkv].
  unfold kv in Hkv. destruct (h !! x); [eauto|done].
Qed.

Lemma entries_keys (h : gmap nat node) p t :
  rep h p t -> (entries h (ids t)).*1 = key_of h <$> ids t.
Proof.
  intros Hrep.
  assert (forall l, (forall x, x ∈ l -> exists n, h !! x = Some n) ->
                    (entries h l).*1 = key_of h <$> l) as H.
  { induction l as [|x l IH]; intros Hl; [done|].
    destruct (Hl x) as [n Hn]; [left|].
    rewrite (entries_cons _ _ _ _ Hn), !fmap_cons. cbn [fst].
    unfold key_of at 1. rewrite Hn. f_equal. apply IH.
    intros y Hy. apply Hl. by right. }
  apply H. intros x Hx. by eapply rep_lookup.
Qed.

Lemma entries_ext (h h' : gmap nat node) l :
  (forall x, kv h' x = kv h x) -> entries h' l = entries h l.
Proof.
  intros H. unfold entries. apply list_omap_ext.
  induction l; constructor; auto.
Qed.

Lemma new_OInv : OInv (new no_metadata).
Proof.
  exists E. split; [apply new_R|]. split; [|constructor].
  split; [done|]. exists 0. constructor.
Qed.

Lemma insert_tree_ids key k new t t' :
  insert_tree key k new t = Some t' ->
  ids t = ctx_left (ins_path key k t []) ++ ctx_right (ins_path key k t [])
  /\ ids t' = ctx_left (ins_path key k t []) ++ new :: ctx_right (ins_path key k t []).
Proof.
  unfold insert_tree. intros H.
  destruct (fix_ins (ins_path key k t []) (T RED E new E)) as [t1|] eqn:Hfix; [|done].
  injection H as <-. split.
  - pose proof (ins_path_plug key k t []) as Hp. simpl in Hp.
    rewrite <- Hp at 1. by rewrite ids_plug_split.
  - rewrite ids_blacken, (fix_ins_ids _ _ _ Hfix), ids_plug_split. done.
Qed.

(** insert, on a state that is ordered: the new object holds [k] and is in
    the tree, which is ordered again *)
Lemma insert_ordered (st : rbt) (k : string) (v : V) :
  OInv st ->
  exists r st' t',
    insert k v st = Ok (r, st') /\ R st' t' /\ is_rb t'
    /\ ordered (key_of (heap st')) (ids t')
    /\ next st ∈ ids t' /\ key_of (heap st') (next st) = k.
Proof.
  intros (t & HR & Hrb & Ho).
  destruct (insert_tree_ok (key_of (heap st)) k (next st) t Hrb)
    as (t' & _ & _ & Hins & Hrb' & _).
  destruct (insert_runs st t k v t' HR Hins) as (r & st' & Hrun & _ & HR' & Hn).
  destruct (insert_data st k v r st' Hrun) as [_ Hkv].
  exists r, st', t'. split; [done|]. split; [done|]. split; [done|].
  destruct (insert_tree_ids _ _ _ _ _ Hins) as [Hids Hids'].
  set (c := ins_path (key_of (heap st)) k t []) in *.
  pose proof HR as [_ _ _ _ Hlt]. apply Forall_cons in Hlt as [_ Hlt].
  rewrite Forall_forall in Hlt.
  assert (forall x, x ∈ ids t -> key_of (heap st') x = key_of (heap st) x) as Hold.
  { intros x Hx. apply key_of_kv. rewrite Hkv, decide_False; [done|].
    specialize (Hlt x Hx). lia. }
  assert (key_of (heap st') (next st) = k) as Hnew.
  { specialize (Hkv (next st)). rewrite decide_True in Hkv by done.
    unfold kv in Hkv. unfold key_of. destruct (heap st' !! next st); by simplify_eq/=. }
  destruct (ins_path_order (key_of (heap st)) k t [] Ho) as [Hl Hr].
  { intros y Hy. by apply not_elem_of_nil in Hy. }
  { intros y Hy. by apply not_elem_of_nil in Hy. }
  fold c in Hl, Hr. split; [|split; [rewrite Hids'; set_solver|done]].
  rewrite Hids'. apply ordered_insert.
  - rewrite <- Hids. by apply (ordered_ext (key_of (heap st))).
  - intros y Hy. rewrite Hnew, Hold; [by apply Hl|]. rewrite Hids. set_solver.
  - intros y Hy. rewrite Hnew, Hold; [by apply KeyOrder.lt_le, Hr|].
    rewrite Hids. set_solver.
Qed.

Lemma insert_OInv (st : rbt) (k : string) (v : V) :
  OInv st -> exists r st', insert k v st = Ok (r, st') /\ OInv st'.
Proof.
  intros HI.
  destruct (insert_ordered st k v HI) as (r & st' & t' & Hrun & HR' & Hrb' & Ho' & _).
  exists r, st'. split; [done|]. by exists t'.
Qed.

(** search in an ordered tree that holds the filename *)
Lemma search_found (st : rbt) t (k : string) x :
  R st t -> ordered (key_of (heap st)) (ids t) -> x ∈ ids t ->
  key_of (heap st) x = k ->
  exists y n, search k st = Ok (Some y, st) /\ heap st !! y = Some n /\ filename n = k
              /\ y ∈ ids t.
Proof.
  intros HR Ho Hx Hk. pose proof HR as [Hrep _ _ _ _].
  rewrite (search_runs st t k HR).
  destruct (find_present (key_of (heap st)) k t [] x Ho Hx Hk) as [[c t1] Hfind].
  rewrite Hfind. destruct (find_plug _ _ _ _ _ _ Hfind) as [_ Hne].
  destruct t1 as [|zc zl z zr]; [done|]. cbn [rootref].
  assert (z ∈ ids t) as Hz.
  { pose proof (find_ctx _ _ _ _ _ _ Hfind) as Hc. simpl in Hc.
    rewrite app_nil_r in Hc. rewrite <- Hc. set_solver. }
  destruct (rep_lookup _ _ _ _ Hrep Hz) as [n Hn].
  pose proof (find_key _ _ _ _ _ _ _ _ _ Hfind) as Hkz.
  unfold key_of in Hkz. rewrite Hn in Hkz. by exists z, n.
Qed.

(** delete, on a state that is ordered: what it returns and what it leaves *)
Lemma delete_ordered (st : rbt) (k : string) :
  OInv st ->
  exists b st' t t',
    delete k st = Ok (b, st') /\ R st t /\ R st' t' /\ is_rb t'
    /\ (forall x, kv (heap st') x = kv (heap st) x)
    /\ (b = false -> st' = st /\ forall x, x ∈ ids t -> key_of (heap st) x <> k)
    /\ (b = true -> exists l1 z l2,
          ids t = l1 ++ z :: l2 /\ key_of (heap st) z = k /\ ids t' = l1 ++ l2).
Proof.
  intros (t & HR & Hrb & Ho).
  destruct (delete_tree_rb (key_of (heap st)) k t Hrb) as (t' & b & Hdel & Hrb').
  destruct (delete_runs st t k t' b HR Hdel) as (r & st' & Hrun & -> & HR' & _ & Hst).
  destruct (pres_delete k st _ _ Hrun) as [_ Hkv].
  exists b, st', t, t'. do 5 (split; [done|]).
  unfold delete_tree in Hdel.
  destruct (find (key_of (heap st)) k t []) as [[c t1]|] eqn:Hfind.
  - destruct (find_plug _ _ _ _ _ _ Hfind) as [_ Hne].
    destruct t1 as [|zc zl z zr]; [done|].
    destruct (delete_at c (T zc zl z zr)) as [t2|] eqn:Hat; [|done].
    injection Hdel as <- <-. split; [done|]. intros _.
    exists (ctx_left c ++ ids zl), z, (ids zr ++ ctx_right c). split_and!.
    + pose proof (find_ctx _ _ _ _ _ _ Hfind) as Hc. simpl in Hc.
      rewrite app_nil_r in Hc. rewrite <- Hc. cbn [ids]. by rewrite <- !app_assoc.
    + by eapply find_key.
    + rewrite (delete_at_ids _ _ _ _ _ _ Hat). by rewrite <- !app_assoc.
  - injection Hdel as <- <-. split; [|done]. intros _. split; [by apply Hst|].
    intros x Hx Hk.
    destruct (find_present (key_of (heap st)) k t [] x Ho Hx Hk) as [? Hsome].
    by rewrite Hfind in Hsome.
Qed.

Lemma delete_OInv (st : rbt) (k : string) :
  OInv st -> exists b st', delete k st = Ok (b, st') /\ OInv st'.
Proof.
  intros HI. pose proof HI as (t0 & HR0 & _ & Ho).
  destruct (delete_ordered st k HI) as (b & st' & t & t' & Hrun & HR & HR' & Hrb' & Hkv & Hf & Ht).
  assert (t0 = t) as ->.
  { pose proof (tree_of_R _ _ HR0) as H1. pose proof (tree_of_R _ _ HR) as H2. congruence. }
  exists b, st'. split; [done|]. exists t'. split; [done|]. split; [done|].
  apply (ordered_ext (key_of (heap st))); [intros x _; by apply key_of_kv|].
  destruct b.
  - destruct (Ht eq_refl) as (l1 & z & l2 & Hids & _ & ->). rewrite Hids in Ho.
    by eapply ordered_remove.
  - destruct (Hf eq_refl) as [-> _].
    pose proof (tree_of_R _ _ HR') as H1. pose proof (tree_of_R _ _ HR) as H2.
    by simplify_eq.
Qed.

Lemma apply_op_OInv o (st : rbt) : OInv st -> exists st', apply_op o st = Ok st' /\ OInv st'.
Proof.
  intros HI. destruct o as [k v|k]; simpl.
  - destruct (insert_OInv st k v HI) as (r & st' & -> & ?). eauto.
  - destruct (delete_OInv st k HI) as (r & st' & -> & ?). eauto.
Qed.

Lemma run_OInv ops (st : rbt) : OInv st -> exists st', run ops st = Ok st' /\ OInv st'.
Proof.
  revert st. induction ops as [|o ops IH]; intros st HI; simpl; [eauto|].
  destruct (apply_op_OInv o st HI) as (st1 & -> & HI1). by apply IH.
Qed.

Lemma rb_run_ordered (ops : list op) :
  exists st, run ops (new no_metadata) = Ok st /\ OInv st.
Proof. apply run_OInv, new_OInv. Qed.

(** X9: after any sequence of inserts and deletes from the empty tree,
    get_all_files lists the files in ascending order of filename (equal
    filenames next to each other). *)
Theorem get_all_files_sorted (ops : list op) :
  exists (st : rbt) (l : list (string * V)),
    run ops (new no_metadata) = Ok st
    /\ get_all_files st = Ok (l, st)
    /\ StronglySorted KeyOrder.le l.*1.
Proof.
  destruct (rb_run_ordered ops) as (st & Hrun & t & HR & _ & Ho).
  exists st, (entries (heap st) (ids t)). split; [done|].
  split; [by apply get_all_files_ok|].
  pose proof HR as [Hrep _ _ _ _]. by rewrite (entries_keys _ _ _ Hrep).
Qed.

(** X10: after any sequence of inserts and deletes, search returns None exactly
    when no listed file has the filename; otherwise it returns a node that
    holds the filename, with metadata that the listing pairs with it. search
    leaves the tree as it is. *)
Theorem rb_search_correct (ops : list op) (k : string) :
  exists (st : rbt) (l : list (string * V)),
    run ops (new no_metadata) = Ok st
    /\ get_all_files st = Ok (l, st)
    /\ ((k ∉ l.*1 /\ search k st = Ok (None, st))
        \/ (exists x n, search k st = Ok (Some x, st)
              /\ heap st !! x = Some n /\ filename n = k
              /\ (k, metadata n) ∈ l)).
Proof.
  destruct (rb_run_ordered ops) as (st & Hrun & t & HR & _ & Ho).
  exists st, (entries (heap st) (ids t)). split; [done|].
  split; [by apply get_all_files_ok|].
  pose proof HR as [Hrep _ _ _ _].
  rewrite (search_runs st t k HR).
  destruct (find (key_of (heap st)) k t []) as [[c t1]|] eqn:Hfind.
  - right. destruct (find_plug _ _ _ _ _ _ Hfind) as [_ Hne].
    destruct t1 as [|zc zl z zr]; [done|]. cbn [rootref].
    assert (z ∈ ids t) as Hz.
    { pose proof (find_ctx _ _ _ _ _ _ Hfind) as Hc. simpl in Hc.
      rewrite app_nil_r in Hc. rewrite <- Hc. set_solver. }
    destruct (rep_lookup _ _ _ _ Hrep Hz) as [n Hn].
    pose proof (find_key _ _ _ _ _ _ _ _ _ Hfind) as Hk.
    unfold key_of in Hk. rewrite Hn in Hk.
    exists z, n. split; [done|]. split; [done|]. split; [done|].
    unfold entries. apply list_elem_of_omap. exists z. split; [done|].
    unfold kv. rewrite Hn. simpl. by rewrite Hk.
  - left. split; [|done]. rewrite (entries_keys _ _ _ Hrep).
    intros (x & Hk & Hx)%list_elem_of_fmap.
    destruct (find_present (key_of (heap st)) k t [] x Ho Hx) as [? Hsome]; [done|].
    by rewrite Hfind in Hsome.
Qed.

(** X11: in a tree reached by inserts and deletes, delete of a filename that the
    listing holds returns True and removes one entry with that filename from
    the listing; every other entry stays, in its place. *)
Theorem rb_delete_present (ops : list op) (st : rbt) (l : list (string * V))
    (k : string) :
  run ops (new no_metadata) = Ok st -> get_all_files st = Ok (l, st) -> k ∈ l.*1 ->
  exists st' l1 v l2,
    delete k st = Ok (true, st')
    /\ l = l1 ++ (k, v) :: l2
    /\ get_all_files st' = Ok (l1 ++ l2, st').
Proof.
  intros Hrun Hall Hk.
  destruct (rb_run_ordered ops) as (st0 & Hrun0 & HI).
  rewrite Hrun in Hrun0. injection Hrun0 as <-.
  destruct (delete_ordered st k HI) as (b & st' & t & t' & Hdel & HR & HR' & _ & Hkv & Hf & Ht).
  pose proof HR as [Hrep _ _ _ _].
  rewrite (get_all_files_ok st t HR) in Hall. injection Hall as <-.
  destruct b.
  - destruct (Ht eq_refl) as (l1 & z & l2 & Hids & Hz & Hids').
    assert (z ∈ ids t) as Hzin by (rewrite Hids; set_solver).
    destruct (rep_lookup _ _ _ _ Hrep Hzin) as [n Hn].
    unfold key_of in Hz. rewrite Hn in Hz.
    exists st', (entries (heap st) l1), (metadata n), (entries (heap st) l2).
    split; [done|]. split.
    + rewrite Hids, entries_app, (entries_cons _ _ _ _ Hn), Hz. done.
    + rewrite (get_all_files_ok st' t' HR'), Hids', (entries_ext _ _ _ Hkv).
      by rewrite entries_app.
  - exfalso. destruct (Hf eq_refl) as [_ Hno].
    rewrite (entries_keys _ _ _ Hrep) in Hk.
    apply list_elem_of_fmap in Hk as (x & Hx1 & Hx). by apply (Hno x).
Qed.

(** X12: after any sequence of inserts and deletes, a filename that has just been
    inserted is found: search returns a node that holds it. *)
Theorem rb_insert_then_search (ops : list op) (k : string) (v : V) :
  exists (st : rbt) r (st' : rbt) x n,
    run ops (new no_metadata) = Ok st
    /\ insert k v st = Ok (r, st')
    /\ search k st' = Ok (Some x, st')
    /\ heap st' !! x = Some n /\ filename n = k.
Proof.
  destruct (rb_run_ordered ops) as (st & Hrun & HI).
  destruct (insert_ordered st k v HI) as (r & st' & t' & Hins & HR' & _ & Ho' & Hin & Hk).
  destruct (search_found st' t' k (next st) HR' Ho' Hin Hk) as (y & n & Hs & Hn & Hf & _).
  by exists st, r, st', y, n.
Qed.
End Ops.
End Spec.

Definition two_file_ops : list (@op nat) := [Insert "a" 1; Insert "b" 2].
Definition two_file_tree : rbt nat :=
  match run two_file_ops (new 0) with
  | Ok st => st
  | _ => new 0
  end.

Lemma rb_delete_present_witness :
  run two_file_ops (new 0) = Ok two_file_tree
  /\ get_all_files two_file_tree = Ok ([("a", 1); ("b", 2)], two_file_tree)
  /\ "a" ∈ [("a", 1); ("b", 2)].*1
  /\ exists st' l1 v l2,
       delete "a" two_file_tree = Ok (true, st')
       /\ [("a", 1); ("b", 2)] = l1 ++ ("a", v) :: l2
       /\ get_all_files st' = Ok (l1 ++ l2, st').
Proof.
  assert (run two_file_ops (new 0) = Ok two_file_tree) as Hrun
    by (vm_compute; reflexivity).
  assert (get_all_files two_file_tree = Ok ([("a", 1); ("b", 2)], two_file_tree)) as Hall
    by (vm_compute; reflexivity).
  split; [exact Hrun|]. split; [exact Hall|]. split; [by left|].
  apply (rb_delete_present 0 two_file_ops two_file_tree [("a", 1); ("b", 2)] "a");
    [exact Hrun|exact Hall|by left].
Defined.

End RBTSpec.

(** * Both indexes: duplicate keys and absent keys *)
Module IndexSpec.

Definition sample_ops_btree : list (@BTreeSpec.op nat) := [BTreeSpec.Insert "a" 1].
Definition sample_ops_rbt : list (@RBTSpec.op nat) := [RBTSpec.Insert "a" 1].

Definition sample_btree : BTree.btree nat :=
  BTree.BTree (BTree.BTreeNode true 2 ["a"] [1] []) 2.

Definition sample_rbt : RBT.rbt nat :=
  match RBTSpec.run sample_ops_rbt (RBT.new 0) with
  | Ok st => st
  | _ => RBT.new 0
  end.

(** C9: in a B-Tree and a Red-Black Tree reached by inserts and deletes,
    insert of a key adds one entry with that key and the given value to the
    full listing and leaves every entry that was there in place; when the key
    is already present its old entry stays, with its value, beside the new
    one. *)
Theorem duplicate_key_insert {V : Type} (no_metadata : V) (t0 : nat)
    (bops : list (@BTreeSpec.op V)) (rops : list (@RBTSpec.op V))
    (bt : BTree.btree V) (st : RBT.rbt V) (key : string) (value : V) :
  BTreeSpec.run (BTree.new t0) bops = Ok bt ->
  RBTSpec.run rops (RBT.new no_metadata) = Ok st ->
  (exists bt' l1 l2,
     BTree.insert bt key value = Ok bt'
     /\ BTree.get_all (BTree.root bt) = Ok (l1 ++ l2)
     /\ BTree.get_all (BTree.root bt') = Ok (l1 ++ (key, value) :: l2))
  /\ (exists r st' l1 l2,
        RBT.insert key value st = Ok (r, st')
        /\ RBT.get_all_files st = Ok (l1 ++ l2, st)
        /\ RBT.get_all_files st' = Ok (l1 ++ (key, value) :: l2, st')).
Proof.
  intros Hb Hr. split.
  - destruct (BTreeSpec.btree_run_new t0 bops) as (bt0 & Hb0 & Hinv & _).
    rewrite Hb in Hb0. injection Hb0 as <-.
    destruct (BTreeSpec.btree_insert_listing bt key value Hinv)
      as (bt' & l1 & l2 & ? & _ & ? & ?).
    by exists bt', l1, l2.
  - destruct (RBTSpec.rb_run_new no_metadata rops) as (st0 & Hr0 & Hinv).
    rewrite Hr in Hr0. injection Hr0 as <-.
    destruct (RBTSpec.rb_insert_listing st key value Hinv)
      as (r & st' & l1 & l2 & ? & _ & ? & ?).
    by exists r, st', l1, l2.
Qed.

Lemma duplicate_key_insert_witness :
  BTreeSpec.run (BTree.new 2) sample_ops_btree = Ok sample_btree
  /\ RBTSpec.run sample_ops_rbt (RBT.new 0) = Ok sample_rbt
  /\ (exists bt' l1 l2,
        BTree.insert sample_btree "a" 2 = Ok bt'
        /\ BTree.get_all (BTree.root sample_btree) = Ok (l1 ++ l2)
        /\ BTree.get_all (BTree.root bt') = Ok (l1 ++ ("a", 2) :: l2))
  /\ (exists r st' l1 l2,
        RBT.insert "a" 2 sample_rbt = Ok (r, st')
        /\ RBT.get_all_files sample_rbt = Ok (l1 ++ l2, sample_rbt)
        /\ RBT.get_all_files st' = Ok (l1 ++ ("a", 2) :: l2, st')).
Proof.
  split; [reflexivity|]. split; [vm_compute; reflexivity|].
  apply (duplicate_key_insert 0 2 sample_ops_btree sample_ops_rbt).
  - reflexivity.
  - vm_compute. reflexivity.
Defined.

(** C10: in a B-Tree and a Red-Black Tree reached by inserts and deletes,
    delete of a key that the full listing does not hold returns False; the
    Red-Black Tree is left exactly as it was, and the B-Tree, whose nodes
    may have been rearranged, lists the same pairs in the same order. *)
Theorem delete_absent_key {V : Type} (no_metadata : V) (t0 : nat)
    (bops : list (@BTreeSpec.op V)) (rops : list (@RBTSpec.op V))
    (bt : BTree.btree V) (st : RBT.rbt V)
    (lb lr : list (string * V)) (key : string) :
  BTreeSpec.run (BTree.new t0) bops = Ok bt ->
  BTree.get_all (BTree.root bt) = Ok lb -> key ∉ lb.*1 ->
  RBTSpec.run rops (RBT.new no_metadata) = Ok st ->
  RBT.get_all_files st = Ok (lr, st) -> key ∉ lr.*1 ->
  (exists bt', BTree.delete bt key = Ok (bt', false)
               /\ BTree.get_all (BTree.root bt') = Ok lb)
  /\ RBT.delete key st = Ok (false, st).
Proof.
  intros Hb Hlb Hkb Hr Hlr Hkr. split.
  - destruct (BTreeSpec.btree_run_new t0 bops) as (bt0 & Hb0 & Hinv & _).
    rewrite Hb in Hb0. injection Hb0 as <-.
    destruct (BTreeSpec.btree_delete_absent bt key lb Hinv Hlb Hkb) as (bt' & ? & _ & ?).
    by exists bt'.
  - destruct (RBTSpec.rb_run_new no_metadata rops) as (st0 & Hr0 & Hinv).
    rewrite Hr in Hr0. injection Hr0 as <-.
    by apply (RBTSpec.rb_delete_absent st key lr).
Qed.

Lemma delete_absent_key_witness :
  BTreeSpec.run (BTree.new 2) sample_ops_btree = Ok sample_btree
  /\ BTree.get_all (BTree.root sample_btree) = Ok [("a", 1)]
  /\ "b" ∉ [("a", 1)].*1
  /\ RBTSpec.run sample_ops_rbt (RBT.new 0) = Ok sample_rbt
  /\ RBT.get_all_files sample_rbt = Ok ([("a", 1)], sample_rbt)
  /\ "b" ∉ [("a", 1)].*1
  /\ (exists bt', BTree.delete sample_btree "b" = Ok (bt', false)
                  /\ BTree.get_all (BTree.root bt') = Ok [("a", 1)])
  /\ RBT.delete "b" sample_rbt = Ok (false, sample_rbt).
Proof.
  assert ("b" ∉ [("a", 1)].*1) as Hk.
  { intros [H|H]%elem_of_cons; [discriminate H|by apply elem_of_nil in H]. }
  split; [reflexivity|]. split; [reflexivity|]. split; [exact Hk|].
  split; [vm_compute; reflexivity|]. split; [vm_compute; reflexivity|].
  split; [exact Hk|].
  apply (delete_absent_key 0 2 sample_ops_btree sample_ops_rbt sample_btree sample_rbt
           [("a", 1)] [("a", 1)] "b").
  - reflexivity.
  - reflexivity.
  - exact Hk.
  - vm_compute. reflexivity.
  - vm_compute. reflexivity.
  - exact Hk.
Defined.

End IndexSpec.
